(* ===== verification/_CoqProject ===== *)
-Q . S2P
Prelude.v
GoLib.v
Wire.v
Registry.v
Reply.v
Client.v
Session.v
Server.v
Conns.v
AcceptLoop.v
AtMostOnce.v
Hazards.v
Swift.v
Lifecycle.v
Imgr.v
ImgrListener.v
Ramswift.v
