(* ===== verification/Prelude.v ===== *)
(** * RetryRPC, the Swift emulator and the imgr HTTP surface of ProxyFS:
      a verification development

    This library models, as executable Rocq definitions, parts of
    ProxyFS and proves the properties that make them correct or show
    where they are not: the reconnecting at-most-once RPC transport
    ([src/retryrpc/server.go], [src/retryrpc/client.go]), the
    in-memory Swift emulator ([src/iswift/iswiftpkg/impl.go]) and the
    administrative HTTP surface of imgr
    ([src/imgr/imgrpkg/http-server.go]).

    ** The programs and how their parts interact

    A RetryRPC client opens a stream, sends its unique identifier in a
    [PassID] frame, then sends [RPC] frames carrying a request ID, the
    method name, the parameters and the highest consecutive reply ID it
    has seen.  The server's accept loop ([Server.run]) reads the
    identifier ([getClientIDAndWait]), creates or re-binds the per-client
    session ([clientInfo]) and starts a service loop ([serviceClient])
    which spawns one goroutine ([processRequest]) per frame.  A worker
    looks the request ID up in the session's completed-reply cache; on a
    hit it replays the cached reply, on a miss it releases the session
    lock, calls the registered method ([callRPCAndFormatReply]), and
    records the reply in the cache and in the completion-ordered LRU.
    A trim daemon ([trimCompleted]) forgets completions acknowledged by
    the client ([trimAClientBasedACK]) and completions older than a TTL
    ([trimTLLBased]), and drops idle sessions.

    The Swift emulator keeps accounts, containers and objects in memory
    and serves the Swift HTTP API: [ServeHTTP] checks the token and
    dispatches to [doDELETE], [doGET], [doHEAD], [doPOST] and [doPUT],
    each of which runs under one global lock.

    The imgr daemon starts its administrative server in a goroutine and
    stops it with [Shutdown] and a wait; the server trims the path, reads the
    body and routes [GET /config], [GET /stats] and
    [PUT/GET/DELETE /volume/<name>] to the daemon's volume table, whose
    code is not under [src/].

    ** Files, in dependency order

    - [Prelude]: this header; the [rpc_scope] notations; unsigned 64-bit
      arithmetic with its wrap-around ([u64_succ]); occurrence counting
      on lists and lemmas on sorted lists; the [rpc] hint databases and
      the shared tactics.
    - [GoLib]: executable models of the Go library functions the
      handlers call ([strings.SplitN], [Split], [TrimRight], [HasPrefix],
      [strconv.Atoi], [Itoa]) and their lemmas.
    - [Wire]: the frame header of [returnResults] (a big-endian [uint64]
      length and the message type), its codec and round trip, the reader
      [getIO], and the client's untagged frame of [send].
    - [Registry]: the request/reply records ([jsonRequest], [jsonReply],
      [ioReply]), the method table and [callRPCAndFormatReply], with the
      [errno: 2] reply for an unknown method and its three panics:
      parameters that do not unmarshal, a panic of the method, and a
      reply value [json.Marshal] rejects.
    - [Reply]: [returnResults] as three steps of each writer goroutine
      under the connection mutex, with the outcome of each write as an
      input; the invariant of runs whose writes succeed, and the
      composition with [getIO]: the client reads every finished reply
      whole and in order.  A partial write desynchronizes the stream.
    - [Client]: [send]'s request-ID allocation, outstanding table and
      frame, and its wait for the reply, whose result is never returned;
      the client's highest-consecutive watermark (modelled from the spec
      and [testBtree]) with its refinement proof.
    - [Session]: one client's state [clientInfo] (completed map, LRU of
      completions with element handles, watermarks, counters); the two
      halves of [processRequest]; the ACK-based and TTL-based trims; the
      session invariant [session_wf] and its preservation; two workers
      for one request ID both execute and break the invariant.
    - [Server]: the whole server as an executable step function
      [server_step] over events (accept and handshake, frame dispatch,
      worker begin and finish, connection exit, both trims, close) on a
      heap of sessions and connections, with ghost logs of executions,
      sent replies, framed IDs and trimmed replies; reachability
      [reachable]; the serialization of reconnects and the single service
      loop per session.
    - [Conns]: the server's list of live connections and its [connWG]
      counter: [run]'s [Add] and [PushBack], [closeClient]'s removal,
      close and [Done] (a [Done] on a zero counter panics), and
      [closeClientConn]; the invariant (each connection listed once, the
      counter is the list's length, every accepted connection is listed
      or closed) and the drain at shutdown.
    - [AcceptLoop]: the whole loop of [run] over the results of
      successive [Accept] calls, with [goroutineWG], [listenersWG] and the
      connection goroutines' exits, composed with [Conns]; the invariant
      that the list holds exactly the serviced connections and that the
      wait groups count the goroutines, the loop's return at the first
      [Accept] error, and the return of [Close]'s waits.
    - [AtMostOnce]: the invariant [amo_inv] of the states reached with
      well-behaved clients and its consequences: at most one execution
      per session and request ID until trimmed, every sent reply is the
      cached one, a completed request is replayed, [session_wf] holds.
    - [Hazards]: runs of [server_step] that break the guarantees (a
      session retired with a queued request and a request ID framed
      twice, shown by evaluating one run each; a malformed frame, a frame
      of another type and an ACK of [MaxUint64], whose effect is proved
      permanent over every continuation).
    - [Swift]: the emulator's store (accounts in a map, containers and
      objects in sorted trees modelling [sortedmap.LLRBTree]),
      [parsePath], [parseRangeHeader], the locate/create/delete
      functions, the five handlers and [ServeHTTP] as functions from a
      store and a request to a store and a response; the store invariant
      over reachable states, PUT and DELETE as updates of a map from
      names to objects, round trips, listings and the range bugs.
    - [Lifecycle]: the emulator's [start] and [stop]: [initializeGlobals]
      with its seven configuration fetches against the class [ConfMap],
      [startEmulator] with its bounded [GET /info] readiness loop (a
      [Function] on the retry count, probes answered by [ServeHTTP]) and
      [stopEmulator]; the loop's bound, the refinement of the store's
      initialization and the outcome of [start].
    - [Imgr]: the imgr handlers against an interface, the class
      [VolumeTable] with the laws [VolumeTableLaws] stating the
      endpoints' contract; the refinement of that contract by
      [ServeHTTP] for every lawful table, the path normalisation, and a
      map of volumes as a lawful instance; every response is well formed.
    - [ImgrListener]: imgr's [startHTTPServer] and [stopHTTPServer] with
      the listener goroutine, [httpServerWG] and the stopper's wait as a
      relation; after one start and a successful [Shutdown] the wait
      returns and no interleaving exits the process, while a listen
      failure is not returned and exits it.
    - [Ramswift]: the [ramswift] process entry point ([main]): the
      argument check and the call of the daemon, which is not under
      [src/].

    ** Integer widths, fuel and bounds

    Request IDs are Go [uint64] values and are modelled as [N] below
    [2^64]; the trim loop's [h++] is modelled with its wrap-around
    ([u64_succ]) because it matters: with [highestReplySeen] equal to the
    maximal [uint64] the loop never exits.  Loops over a finite structure
    (the LRU list, the session map, a tree) are structural recursions;
    the ACK trim loop runs on fuel, and a lemma shows that
    [highestReplySeen - previousHighestReplySeen + 1] units are always
    enough when no wrap-around occurs (at [MaxUint64] the fuel is zero and
    the loop is shown to diverge for every fuel).  Times and durations are
    Go [time.Time]/[time.Duration] nanosecond counts, modelled as [Z].  In
    the emulator the range offsets are [int64] values computed in [Z]
    (the one subtraction cannot overflow) and converted to [uint64] with
    their wrap-around; the token nonce is a [uint32] that wraps; a
    listing limit is converted to [int] as Go does.  The readiness loop
    of [startEmulator] needs no fuel: it is a [Function] whose measure is
    [startGETInfoMaxRetries + 1] minus the retry count.

    ** What is not modelled

    TLS and sockets (the model sees frames, not bytes on a socket, except
    for the header codec), the logger, [encoding/json] (a reply's bytes
    are modelled by the structured [jsonReply] value and its marshalled
    length), reflection in method registration, the [bucketstats]
    package, the imgr volume table itself (only its contract), the
    configuration parser (only the three fetches, as the class
    [ConfMap]), the [net/http] library itself
    (its behaviour enters [ImgrListener] as the guards of the steps;
    whether the emulator's listener accepts a probe and whether [Close]
    fails are inputs of [Lifecycle]), the sleeps, the share of
    [goroutineWG] that belongs to the dispatch workers ([serviceClient]
    adds one per worker and [processRequest] defers its [Done]; [Server]
    counts the workers in [activeRPCs] instead), the [ramswift] daemon behind
    [main] (not under [src/]), the tree dump callbacks [DumpKey] and
    [DumpValue] (debugging aids formatting with [%v]), and the test files
    other than as witnesses.

    ** State of the development

    All seventeen files are complete for this plan and every theorem's proof
    ends in [Qed].  The claims (38) are listed with their ids in
    PROJECT.json, in order of importance: the at-most-once guarantee and
    its invariant, the reconnect serialization, the hazards, the trims,
    the accept loop and the return of [Close], the registry, the codec, the
    client, the reply writers, the emulator and its lifecycle, then imgr
    and its listener.
    Witnesses evaluate the definitions on the configuration of
    [src/retryrpc/retryrpc_test.go], for the emulator on a small session
    of PUT requests ([Swift.Demo]), for the accept loop on three
    connections one of which fails its handshake ([AcceptLoop.demo_accepts]),
    for the lifecycle on a list of
    configuration options ([Lifecycle.Demo]), and for imgr on a map of
    volumes ([Imgr.Demo]). *)

From stdpp Require Export base gmap list strings.
From Stdlib Require Export ZArith NArith Lia.
From Stdlib Require Export Sorting.Sorted.

Declare Scope rpc_scope.
Delimit Scope rpc_scope with rpc.
Open Scope N_scope.

(** ** Unsigned 64-bit integers *)

Definition u64_modulus : N := 2 ^ 64.
Definition u64_max : N := u64_modulus - 1.

(** [x + 1] on a Go [uint64]: wraps to 0 above [u64_max]. *)
Definition u64_succ (x : N) : N := (x + 1) mod u64_modulus.

(** [x + y] on a Go [uint64]. *)
Definition u64_add (x y : N) : N := (x + y) mod u64_modulus.

Notation "x '+u' y" := (u64_add x y) (at level 50, left associativity) : rpc_scope.
Notation "'is_u64' x" := (x < u64_modulus) (at level 10) : rpc_scope.
Open Scope rpc_scope.

Lemma u64_succ_small x : x < u64_max -> u64_succ x = x + 1.
Proof.
  unfold u64_succ, u64_max, u64_modulus. intros H.
  apply N.mod_small. lia.
Qed.

Lemma u64_succ_max : u64_succ u64_max = 0.
Proof. reflexivity. Qed.

Lemma u64_succ_bound x : is_u64 (u64_succ x).
Proof. unfold u64_succ, u64_modulus. apply N.mod_lt. lia. Qed.

Lemma u64_add_small x y : x + y < u64_modulus -> x +u y = x + y.
Proof. unfold u64_add. intros H. apply N.mod_small. exact H. Qed.

(** ** Counting occurrences in a list (used for execution logs) *)

Definition occurrences {A} `{EqDecision A} (x : A) (l : list A) : nat :=
  length (filter (fun y => y = x) l).
Arguments occurrences : simpl never.

Section Occurrences.
Context {A : Type} `{EqDecision A}.

Lemma occurrences_nil (x : A) : occurrences x [] = 0%nat.
Proof. reflexivity. Qed.

Lemma occurrences_app (x : A) l1 l2 :
  occurrences x (l1 ++ l2) = (occurrences x l1 + occurrences x l2)%nat.
Proof. unfold occurrences. by rewrite filter_app, length_app. Qed.

Lemma occurrences_cons_eq (x : A) l : occurrences x (x :: l) = S (occurrences x l).
Proof. unfold occurrences. rewrite filter_cons_True; done. Qed.

Lemma occurrences_cons_ne (x y : A) l : y <> x -> occurrences x (y :: l) = occurrences x l.
Proof. intros Hne. unfold occurrences. rewrite filter_cons_False; done. Qed.

Lemma occurrences_zero (x : A) l : x ∉ l <-> occurrences x l = 0%nat.
Proof.
  induction l as [|y l IH]; [set_solver|].
  destruct (decide (y = x)) as [->|Hne].
  - rewrite occurrences_cons_eq. set_solver.
  - rewrite occurrences_cons_ne by done. set_solver.
Qed.

Lemma occurrences_snoc (x y : A) l :
  occurrences x (l ++ [y]) = (occurrences x l + if decide (y = x) then 1 else 0)%nat.
Proof.
  rewrite occurrences_app. case_decide as E.
  - subst. by rewrite occurrences_cons_eq, occurrences_nil.
  - by rewrite occurrences_cons_ne, occurrences_nil.
Qed.
End Occurrences.

(** ** Lists of keyed elements *)

Section KeyedLists.
Context {K V : Type}.

(** Distinct keys determine the element. *)
Lemma NoDup_fst_unique (l : list (K * V)) k a b :
  NoDup ((fun x : K * V => x.1) <$> l) -> (k, a) ∈ l -> (k, b) ∈ l -> a = b.
Proof.
  induction l as [|[k' v'] l IH]; intros Hnd Ha Hb; [set_solver|].
  cbn in Hnd. apply NoDup_cons in Hnd as [Hnin Hnd].
  apply elem_of_cons in Ha, Hb.
  destruct Ha as [Ha|Ha], Hb as [Hb|Hb]; simplify_eq; auto.
  - destruct Hnin. apply list_elem_of_fmap. by exists (k', b).
  - destruct Hnin. apply list_elem_of_fmap. by exists (k', a).
Qed.

Lemma NoDup_fst_sublist (l1 l2 : list (K * V)) :
  l1 `sublist_of` l2 ->
  NoDup ((fun x : K * V => x.1) <$> l2) -> NoDup ((fun x : K * V => x.1) <$> l1).
Proof. intros Hsub Hnd. eapply sublist_NoDup; [exact Hnd|]. by apply fmap_sublist. Qed.
End KeyedLists.

Lemma list_elem_of_insert_inv {A} (l : list A) i x y : x ∈ <[i:=y]> l -> x = y \/ x ∈ l.
Proof.
  revert i. induction l as [|z l IH]; intros [|i] Hx; cbn in Hx; [set_solver..| |].
  - apply elem_of_cons in Hx as [->|Hx]; [by left|right; set_solver].
  - apply elem_of_cons in Hx as [->|Hx]; [right; set_solver|].
    destruct (IH i Hx); [by left|right; set_solver].
Qed.

Lemma list_elem_of_rev {A} (x : A) l : x ∈ rev l <-> x ∈ l.
Proof.
  rewrite !list_elem_of_In. symmetry. apply in_rev.
Qed.

Lemma StronglySorted_sublist {A} (R : A -> A -> Prop) (l1 l2 : list A) :
  l1 `sublist_of` l2 -> StronglySorted R l2 -> StronglySorted R l1.
Proof.
  induction 1 as [|x l1 l2 Hsub IH|x l1 l2 Hsub IH]; intros Hs; [done| |].
  - apply StronglySorted_inv in Hs as [Hs Hall]. constructor; [by apply IH|].
    rewrite Forall_forall in *. intros y Hy. apply Hall. by apply (sublist_subseteq _ _ Hsub).
  - apply StronglySorted_inv in Hs as [Hs _]. by apply IH.
Qed.

Lemma StronglySorted_snoc {A} (R : A -> A -> Prop) l x :
  StronglySorted R l -> (forall y, y ∈ l -> R y x) -> StronglySorted R (l ++ [x]).
Proof.
  induction l as [|y l IH]; intros Hs Hx; simpl.
  - by repeat constructor.
  - inversion Hs as [|? ? Hs' Hall]; subst. constructor.
    + apply IH; [done|]. intros z Hz. apply Hx. set_solver.
    + apply Forall_app. split; [done|]. constructor; [apply Hx; set_solver|done].
Qed.

(** ** Shared tactics and hints *)

Create HintDb rpc.
Create Rewrite HintDb rpc_rw.

(** Invert a hypothesis and clean up. *)
Ltac invc H := inversion H; subst; clear H.

(** Normalise occurrence counts of a log extended at its end. *)
Ltac simpl_occ :=
  repeat first [rewrite occurrences_snoc | rewrite occurrences_app
               | rewrite occurrences_cons_eq | rewrite occurrences_nil].

(** Prove a decidable proposition about closed terms by evaluation. *)
Ltac decide_by_eval :=
  match goal with |- ?P => apply (bool_decide_unpack P); vm_compute; exact I end.

(** Unfold a record update of the model and simplify map lookups. *)
Ltac simpl_state := cbn [occurrences] in *; simplify_map_eq/=.

#[export] Hint Resolve u64_succ_bound : rpc.
