(* ===== verification/GoLib.v ===== *)
(** * GoLib: the Go library functions the modelled code calls

    [strings.SplitN], [strings.Split], [strings.HasPrefix],
    [strings.TrimRight] with a one-byte cut set, slicing [s[n:]],
    [strconv.Atoi] and [strconv.Itoa], the [%0<w>x] formatting and the
    [int]/[uint64] conversions of a 64-bit platform, as executable
    definitions on [string] (a Go string is a sequence of bytes, a Rocq
    [string] a sequence of 8-bit characters), with the lemmas the
    components share: decimal printing read back by [Atoi], the first
    separator cut, and the pieces [SplitN] returns. *)

From S2P Require Import Prelude.
From stdpp Require Import pretty.
From Stdlib Require Import Strings.Byte.
From Stdlib Require Strings.String.
From Stdlib Require Import Strings.Ascii.
Local Open Scope N_scope.
Local Set Warnings "-clear-no-such-hyp".

Module GoStr.

(** The first occurrence of the one-byte separator [c] splits [s]. *)
Fixpoint cut_at (c : Ascii.ascii) (s : string) : option (string * string) :=
  match s with
  | EmptyString => None
  | String d s' =>
      if Ascii.eqb c d then Some (EmptyString, s')
      else match cut_at c s' with
           | Some (a, b) => Some (String d a, b)
           | None => None
           end
  end.

(** [strings.SplitN(s, sep, n)] for a one-byte [sep] and [n >= 0]
    (Go's [genSplit]: at most [n] pieces, the last one unsplit). *)
Fixpoint SplitN (s : string) (c : Ascii.ascii) (n : nat) : list string :=
  match n with
  | O => []
  | 1%nat => [s]
  | S n' =>
      match cut_at c s with
      | Some (a, b) => a :: SplitN b c n'
      | None => [s]
      end
  end.

(** [strings.HasPrefix] and the slice [s[n:]]. *)
Definition HasPrefix (s p : string) : bool := String.prefix p s.
Fixpoint drop_str (n : nat) (s : string) : string :=
  match n, s with
  | O, _ => s
  | S n', String _ s' => drop_str n' s'
  | S _, EmptyString => EmptyString
  end.

(** [strconv.Atoi] on a 64-bit platform: an optional sign, at least
    one decimal digit, nothing else, and a value in the [int64] range
    (the fast path for fewer than 19 bytes and [ParseInt(s, 10, 0)]
    agree on this; base 10 admits no underscores). *)
Definition digit_val (c : Ascii.ascii) : option N :=
  let n := Ascii.N_of_ascii c in
  if (48 <=? n) && (n <=? 57) then Some (n - 48) else None.
Fixpoint digits_val (acc : N) (s : string) : option N :=
  match s with
  | EmptyString => Some acc
  | String c s' => match digit_val c with
                   | Some d => digits_val (acc * 10 + d) s'
                   | None => None
                   end
  end.
Definition int64_min : Z := - 2 ^ 63.
Definition int64_max : Z := 2 ^ 63 - 1.
(** The sign test on [s[0]], then the digits. *)
Definition sign_split (s : string) : bool * string :=
  match s with
  | String c b =>
      if Ascii.eqb c "-" then (true, b) else if Ascii.eqb c "+" then (false, b) else (false, s)
  | EmptyString => (false, s)
  end.
Definition atoi_body (neg : bool) (body : string) : option Z :=
  match body with
  | EmptyString => None
  | _ => match digits_val 0 body with
         | Some v =>
             let z := if neg then (- Z.of_N v)%Z else Z.of_N v in
             if (int64_min <=? z)%Z && (z <=? int64_max)%Z then Some z else None
         | None => None
         end
  end.
Definition Atoi (s : string) : option Z := let '(neg, body) := sign_split s in atoi_body neg body.

(** [fmt.Sprintf("%0<w>x", n)] for an [n] below [16^w]: exactly [w]
    lower-case hexadecimal digits. *)
Definition hex_digit (d : N) : Ascii.ascii :=
  if d <? 10 then Ascii.ascii_of_N (48 + d) else Ascii.ascii_of_N (87 + d).
Fixpoint hex_fixed (w : nat) (n : N) (acc : string) : string :=
  match w with
  | O => acc
  | S w' => hex_fixed w' (n / 16) (String (hex_digit (n mod 16)) acc)
  end.

(** [int(x)] of a [uint64] on a 64-bit platform, and [uint64(x)] of an
    [int64]: two's complement reinterpretation. *)
Definition int_of_u64 (x : N) : Z :=
  if x <? 2 ^ 63 then Z.of_N x else (Z.of_N x - 2 ^ 64)%Z.
Definition u64_of_int (z : Z) : N := Z.to_N (z mod 2 ^ 64).

(** [strconv.Itoa] / [%d]. *)
Definition Itoa (z : Z) : string := pretty z.

(** [[]byte(s)]. *)
Definition bytes (s : string) : list byte := String.list_byte_of_string s.

(** [strings.Split(s, sep)] for a one-byte [sep]: every piece. *)
Fixpoint Split (s : string) (c : Ascii.ascii) : list string :=
  match s with
  | EmptyString => [EmptyString]
  | String d s' =>
      if Ascii.eqb c d then EmptyString :: Split s' c
      else match Split s' c with
           | x :: rest => String d x :: rest
           | [] => [String d EmptyString]
           end
  end.

(** [strings.TrimRight(s, cutset)] for a one-byte [cutset]: the trailing
    run of [c] removed. *)
Fixpoint TrimRight (s : string) (c : Ascii.ascii) : string :=
  match s with
  | EmptyString => EmptyString
  | String d s' =>
      match TrimRight s' c with
      | EmptyString => if Ascii.eqb d c then EmptyString else String d EmptyString
      | t => String d t
      end
  end.

End GoStr.

(** ** Lemmas: Go strings *)
Module StrFacts.
Import GoStr.

(** [String.append] does not unfold by [simpl]; its two equations. *)
Lemma str_app_cons c s t : String c s +:+ t = String c (s +:+ t).
Proof. done. Qed.
Lemma str_app_nil_l t : EmptyString +:+ t = t.
Proof. done. Qed.
Lemma str_app_char c t : String c EmptyString +:+ t = String c t.
Proof. done. Qed.

Lemma digit_val_pretty_char d : d < 10 -> digit_val (pretty_N_char d) = Some d.
Proof.
  intros Hd.
  assert (d = 0 \/ d = 1 \/ d = 2 \/ d = 3 \/ d = 4 \/ d = 5 \/ d = 6 \/ d = 7 \/ d = 8 \/ d = 9)
    as Hc by lia.
  decompose [or] Hc; subst; reflexivity.
Qed.

Lemma digits_val_pretty_go x s acc :
  exists k, digits_val acc (pretty_N_go x s) = digits_val (acc * 10 ^ k + x) s.
Proof.
  revert s acc. induction x as [x IH] using (well_founded_induction N.lt_wf_0). intros s acc.
  destruct (decide (x = 0)) as [->|Hx].
  - rewrite pretty_N_go_0. exists 0. f_equal. rewrite N.pow_0_r. lia.
  - rewrite pretty_N_go_step by lia.
    destruct (IH (x / 10) ltac:(apply N.div_lt; lia) (String (pretty_N_char (x mod 10)) s) acc)
      as [k Hk].
    rewrite Hk. cbn [digits_val]. rewrite digit_val_pretty_char by (apply N.mod_lt; lia).
    exists (k + 1). f_equal. rewrite N.pow_add_r, N.pow_1_r.
    pose proof (N.div_mod x 10 ltac:(lia)). nia.
Qed.

Lemma digits_val_pretty (n : N) : digits_val 0 (pretty n) = Some n.
Proof.
  unfold pretty, pretty_N. case_decide as Hn; [by subst|].
  destruct (digits_val_pretty_go n EmptyString 0) as [k ->]. cbn. by rewrite ?N.mul_0_l, ?N.add_0_l.
Qed.

Lemma pretty_N_nonempty (n : N) : pretty n <> EmptyString.
Proof.
  intros Hn. pose proof (digits_val_pretty n) as Hd. rewrite Hn in Hd. cbn in Hd.
  injection Hd as <-. discriminate Hn.
Qed.

Lemma digits_val_cut acc s v c : digits_val acc s = Some v -> digit_val c = None -> cut_at c s = None.
Proof.
  revert acc. induction s as [|d s IH]; intros acc; cbn; [done|].
  destruct (digit_val d) eqn:Hd; [|done]. intros Hs Hc.
  destruct (Ascii.eqb_spec c d) as [->|Hne]; [congruence|]. by rewrite (IH _ Hs Hc).
Qed.

Lemma digits_val_dash acc q : digits_val acc (q +:+ "-") = None.
Proof.
  revert acc. induction q as [|d q IH]; intros acc; [done|]. simpl. destruct (digit_val d); [apply IH|done].
Qed.

Lemma atoi_body_none neg body : digits_val 0 body = None -> atoi_body neg body = None.
Proof. intros H. unfold atoi_body. destruct body; [done|]. by rewrite H. Qed.

Lemma Atoi_digits s v :
  digits_val 0 s = Some v -> s <> EmptyString -> (Z.of_N v <= int64_max)%Z -> Atoi s = Some (Z.of_N v).
Proof.
  destruct s as [|c s']; [done|]. intros H _ Hmax. unfold Atoi, sign_split.
  destruct (Ascii.eqb_spec c "-") as [->|_]; [discriminate H|].
  destruct (Ascii.eqb_spec c "+") as [->|_]; [discriminate H|].
  unfold atoi_body. rewrite H. unfold int64_min, int64_max in *.
  assert ((- 2 ^ 63 <=? Z.of_N v)%Z && (Z.of_N v <=? 2 ^ 63 - 1)%Z = true) as ->; [|done].
  apply andb_true_intro. split; apply Z.leb_le; lia.
Qed.

Lemma Atoi_pretty (n : N) : (Z.of_N n <= int64_max)%Z -> Atoi (pretty n) = Some (Z.of_N n).
Proof. intros Hn. apply Atoi_digits; [apply digits_val_pretty|apply pretty_N_nonempty|done]. Qed.

Lemma Atoi_dash p : Atoi (p +:+ "-") = None.
Proof.
  destruct p as [|c p']; [done|]. unfold Atoi, sign_split. simpl.
  destruct (Ascii.eqb c "-"); [|destruct (Ascii.eqb c "+")];
    apply atoi_body_none; [apply digits_val_dash..|].
  apply (digits_val_dash 0 (String c p')).
Qed.

Lemma cut_at_spec c x a b : cut_at c x = Some (a, b) -> x = a +:+ String c b /\ cut_at c a = None.
Proof.
  revert a. induction x as [|d x IH]; intros a; simpl; [done|].
  destruct (Ascii.eqb_spec c d) as [->|Hne].
  - intros [= <- <-]. done.
  - destruct (cut_at c x) as [[a' b']|] eqn:Hx; [|done]. intros [= <- ->].
    destruct (IH a' eq_refl) as [-> Ha']. simpl. destruct (Ascii.eqb_spec c d); [done|].
    by rewrite Ha'.
Qed.

Lemma cut_at_app c x y :
  cut_at c x = None ->
  cut_at c (x +:+ y) = match cut_at c y with Some (a, b) => Some (x +:+ a, b) | None => None end.
Proof.
  induction x as [|d x IH]; simpl; intros Hx.
  { change (EmptyString +:+ y) with y. by destruct (cut_at c y) as [[]|]. }
  destruct (Ascii.eqb c d); [done|]. destruct (cut_at c x) as [[]|]; [done|].
  rewrite IH by done. by destruct (cut_at c y) as [[]|].
Qed.

Lemma str_app_nil_r s : s +:+ EmptyString = s.
Proof. induction s as [|c s IH]; [done|]. by rewrite str_app_cons, IH. Qed.

Lemma cut_at_first c x b : cut_at c x = None -> cut_at c (x +:+ String c b) = Some (x, b).
Proof.
  intros Hx. rewrite cut_at_app by done. simpl. rewrite Ascii.eqb_refl. by rewrite str_app_nil_r.
Qed.

Lemma app_dash_cut c a b p :
  a +:+ String c b = p +:+ "-" -> (b = EmptyString /\ c = "-"%char) \/ exists p', b = p' +:+ "-".
Proof.
  revert p. induction a as [|d a IH]; intros [|d' p] H; simpl in H.
  - injection H as -> ->. by left.
  - injection H as -> ->. right. by exists p.
  - injection H as -> H. destruct a; discriminate H.
  - injection H as -> H. by apply (IH p).
Qed.

Lemma SplitN_one x c : SplitN x c 1 = [x].
Proof. done. Qed.

Lemma SplitN_no_sep x c n : cut_at c x = None -> (1 <= n)%nat -> SplitN x c n = [x].
Proof. intros Hx Hn. destruct n as [|[|n]]; [lia|done|]. simpl. by rewrite Hx. Qed.

Lemma SplitN_cons x c b n :
  cut_at c x = None -> SplitN (x +:+ String c b) c (S (S n)) = x :: SplitN b c (S n).
Proof. intros Hx. simpl. by rewrite cut_at_first. Qed.

(** The last piece of [SplitN] on [","] ends like the input. *)
Lemma SplitN_dash_Exists (P : string -> Prop) n x :
  (forall p, P (p +:+ "-")) -> (exists p, x = p +:+ "-") -> (1 <= n)%nat ->
  Exists P (SplitN x "," n).
Proof.
  intros HP. revert x. induction n as [|n IH]; intros x [p ->] Hn; [lia|].
  destruct n as [|n]; [by constructor|].
  simpl. destruct (cut_at "," (p +:+ "-")) as [[a b]|] eqn:Hc; [|by constructor].
  apply cut_at_spec in Hc as [Hab _]. symmetry in Hab.
  destruct (app_dash_cut _ _ _ _ Hab) as [[_ ?]|[p' ->]]; [done|].
  apply Exists_cons. right. apply IH; [by exists p'|lia].
Qed.

Lemma mapM_SplitN_dash {A} (f : string -> option A) n x :
  (forall p, f (p +:+ "-") = None) -> (exists p, x = p +:+ "-") -> (1 <= n)%nat ->
  mapM f (SplitN x "," n) = None.
Proof. intros. by apply mapM_None_2, SplitN_dash_Exists. Qed.

Lemma str_app_assoc x y z : x +:+ (y +:+ z) = (x +:+ y) +:+ z.
Proof. induction x as [|d x IH]; [done|]. by rewrite !str_app_cons, IH. Qed.

Lemma str_app_nonempty x y : y <> EmptyString -> x +:+ y <> EmptyString.
Proof. destruct x; [done|]. by rewrite str_app_cons. Qed.

(** [strings.Split] on a string without the separator, and across the
    first separator. *)
Lemma Split_no_sep c x : cut_at c x = None -> Split x c = [x].
Proof.
  induction x as [|d x IH]; simpl; [done|].
  destruct (Ascii.eqb c d); [done|]. destruct (cut_at c x) as [[]|]; [done|].
  intros _. by rewrite IH.
Qed.

Lemma Split_app_sep c x y : cut_at c x = None -> Split (x +:+ String c y) c = x :: Split y c.
Proof.
  induction x as [|d x IH]; intros Hx.
  - rewrite str_app_nil_l. simpl. by rewrite Ascii.eqb_refl.
  - rewrite str_app_cons. simpl in *. destruct (Ascii.eqb c d); [done|].
    destruct (cut_at c x) as [[]|]; [done|]. by rewrite IH.
Qed.

(** [strings.TrimRight] leaves a string that does not end in [c], and
    removes one trailing [c]. *)
Lemma TrimRight_no_sep c x : cut_at c x = None -> x <> EmptyString -> TrimRight x c = x.
Proof.
  induction x as [|d x IH]; [done|]. simpl.
  destruct (Ascii.eqb c d) eqn:Hcd; [done|]. destruct (cut_at c x) as [[]|]; [done|].
  intros _ _. destruct x as [|d' x].
  - simpl. by rewrite Ascii.eqb_sym, Hcd.
  - by rewrite IH.
Qed.

Lemma TrimRight_app c x y : y <> EmptyString -> TrimRight y c = y -> TrimRight (x +:+ y) c = x +:+ y.
Proof.
  intros Hy Ht. induction x as [|d x IH]; [done|].
  rewrite str_app_cons. simpl. rewrite IH.
  destruct (x +:+ y) eqn:E; [|done]. by apply (str_app_nonempty x) in Hy.
Qed.

Lemma TrimRight_snoc c x : TrimRight (x +:+ String c EmptyString) c = TrimRight x c.
Proof.
  induction x as [|d x IH].
  - simpl. by rewrite Ascii.eqb_refl.
  - rewrite str_app_cons. simpl. by rewrite IH.
Qed.

End StrFacts.
