(* ===== verification/Wire.v ===== *)
(** * Wire: the RetryRPC frame header and its codec

    A frame on the stream is a header followed by a JSON payload.  The
    server writes the header with [binary.Write(conn, binary.BigEndian,
    ior.Hdr)] ([returnResults], [src/retryrpc/server.go]); the header is
    the payload length as a big-endian 64-bit integer and a one-byte
    message type, [PassID] (1) or [RPC] (2).  The client's [send]
    ([src/retryrpc/client.go]) writes only the big-endian [int64] length
    before its payload.  This file holds the big-endian codec, the header
    codec with its round trip, the reader [getIO] that splits a stream
    into frames, and the client's untagged framing. *)

From S2P Require Import Prelude.
From Stdlib Require Import Strings.Byte.
From Stdlib Require Strings.String Strings.Ascii.
Local Open Scope N_scope.

(** ** Big-endian fixed-width integers *)

Definition byte_of_N (x : N) : byte :=
  match Byte.of_N (x mod 256) with Some b => b | None => x00 end.

(** The [w] low-order bytes of [x], most significant first, as
    [binary.BigEndian] writes them. *)
Fixpoint be_encode (w : nat) (x : N) : list byte :=
  match w with
  | O => []
  | S w' => be_encode w' (x / 256) ++ [byte_of_N x]
  end.

Definition be_step (acc : N) (b : byte) : N := acc * 256 + Byte.to_N b.

(** Read a [w]-byte big-endian integer from the front of a stream. *)
Definition be_decode (w : nat) (bs : list byte) : option (N * list byte) :=
  if decide (w <= length bs)%nat
  then Some (fold_left be_step (take w bs) 0, drop w bs)
  else None.

(** ** Message types and the frame header *)

Inductive MsgType := PassID | RPC.

#[export] Instance MsgType_eq_dec : EqDecision MsgType.
Proof. solve_decision. Defined.

Definition msgType_code (t : MsgType) : N :=
  match t with PassID => 1 | RPC => 2 end.

Definition msgType_of_code (c : N) : option MsgType :=
  match c with 1 => Some PassID | 2 => Some RPC | _ => None end.

Record ioHeader := mkIoHeader { Len : N; Kind : MsgType }.

Definition encode_header (h : ioHeader) : list byte :=
  be_encode 8 (Len h) ++ [byte_of_N (msgType_code (Kind h))].

(** Errors of the frame reader: the stream ended early, or the type tag
    is not a known message type. *)
Inductive frameError := ShortRead | MalformedType (code : N).

Definition decode_header (bs : list byte) : (frameError + (ioHeader * list byte)) :=
  match be_decode 8 bs with
  | None => inl ShortRead
  | Some (len, rest) =>
      match rest with
      | [] => inl ShortRead
      | t :: rest' =>
          match msgType_of_code (Byte.to_N t) with
          | Some k => inr (mkIoHeader len k, rest')
          | None => inl (MalformedType (Byte.to_N t))
          end
      end
  end.

(** [getIO]: read a header, then exactly [Len] payload bytes. *)
Definition getIO (bs : list byte) : (frameError + (list byte * MsgType * list byte)) :=
  match decode_header bs with
  | inl e => inl e
  | inr (h, rest) =>
      if decide (N.to_nat (Len h) <= length rest)%nat
      then inr (take (N.to_nat (Len h)) rest, Kind h, drop (N.to_nat (Len h)) rest)
      else inl ShortRead
  end.

(** A whole frame as [returnResults] writes it (lines 377 and 388):
    [binary.Write] of [ior.Hdr], then [ior.JResult].  Every reply reaches
    [returnResults] through [setupHdrReply], which sets [Hdr.Len] to the
    payload's length, so the header is written here from that length. *)
Definition encode_frame (k : MsgType) (payload : list byte) : list byte :=
  encode_header (mkIoHeader (N.of_nat (length payload)) k) ++ payload.

(** [send] (client.go lines 49-75): [req.Len = int64(len(req.JReq))], then
    [binary.Write] of the 8-byte length, then the JSON bytes; no type tag. *)
Definition client_send_frame (jreq : string) : list byte :=
  let payload := String.list_byte_of_string jreq in
  be_encode 8 (N.of_nat (length payload)) ++ payload.

(** ** Codec lemmas *)

Lemma byte_of_N_to_N x : Byte.to_N (byte_of_N x) = x mod 256.
Proof.
  unfold byte_of_N. destruct (Byte.of_N (x mod 256)) eqn:E.
  - by apply Byte.to_of_N.
  - apply Byte.of_N_None_iff in E. pose proof (N.mod_lt x 256). lia.
Qed.

Lemma length_be_encode w x : length (be_encode w x) = w.
Proof.
  revert x. induction w as [|w IH]; intros x; [done|].
  simpl. rewrite length_app, IH. simpl. lia.
Qed.

Lemma be_encode_value w x : fold_left be_step (be_encode w x) 0 = x mod 256 ^ N.of_nat w.
Proof.
  revert x. induction w as [|w IH]; intros x.
  - simpl. by rewrite N.mod_1_r.
  - cbn [be_encode]. rewrite fold_left_app, IH. cbn [fold_left].
    unfold be_step. rewrite byte_of_N_to_N.
    rewrite Nat2N.inj_succ, N.pow_succ_r', N.Div0.mod_mul_r.
    lia.
Qed.

#[export] Hint Rewrite length_be_encode be_encode_value byte_of_N_to_N : rpc_rw.

(** Decoding reads back the encoded value modulo the width. *)
Lemma be_decode_encode w x rest :
  be_decode w (be_encode w x ++ rest) = Some (x mod 256 ^ N.of_nat w, rest).
Proof.
  unfold be_decode. rewrite length_app, length_be_encode.
  rewrite decide_True by lia.
  rewrite take_app_length' by (symmetry; apply length_be_encode).
  rewrite drop_app_length' by (symmetry; apply length_be_encode).
  by rewrite be_encode_value.
Qed.

(** A [w]-byte big-endian integer decodes to itself and leaves the rest
    of the stream untouched. *)
Lemma be_roundtrip w x rest :
  x < 256 ^ N.of_nat w -> be_decode w (be_encode w x ++ rest) = Some (x, rest).
Proof. intros Hx. by rewrite be_decode_encode, N.mod_small. Qed.

Lemma msgType_code_roundtrip k : msgType_of_code (Byte.to_N (byte_of_N (msgType_code k))) = Some k.
Proof. by destruct k. Qed.

(** ** Round trips of the header and of the frame *)

(** a header whose length fits in a [uint64] decodes to itself. *)
Theorem header_roundtrip h rest :
  is_u64 (Len h) -> decode_header (encode_header h ++ rest) = inr (h, rest).
Proof.
  intros Hlen. unfold decode_header, encode_header.
  rewrite <- app_assoc, be_roundtrip by exact Hlen.
  cbn [app]. rewrite msgType_code_roundtrip. by destruct h.
Qed.

(** [getIO] reads a header and exactly the payload it announces. *)
Lemma getIO_header_payload h payload rest :
  is_u64 (Len h) -> Len h = N.of_nat (length payload) ->
  getIO (encode_header h ++ payload ++ rest) = inr (payload, Kind h, rest).
Proof.
  intros Hlen Hl. unfold getIO. rewrite header_roundtrip by exact Hlen.
  rewrite Hl, Nat2N.id, decide_True by (rewrite length_app; lia).
  by rewrite take_app_length, drop_app_length.
Qed.

(** C18: [getIO] returns exactly the payload and the type of a frame written
    by the server, whatever follows it on the stream. *)
Theorem getIO_frame_roundtrip k payload rest :
  is_u64 (N.of_nat (length payload)) ->
  getIO (encode_frame k payload ++ rest) = inr (payload, k, rest).
Proof.
  intros Hlen. unfold encode_frame. rewrite <- app_assoc.
  by apply getIO_header_payload.
Qed.

(** ** The client's frames lack the type tag *)

(** The byte of the opening brace of a JSON object. *)
Definition json_open_brace : Ascii.ascii := Ascii.ascii_of_N 123.

(** C19: [send] writes the length and then the JSON object; the server's
    reader takes the first byte of the object, [{] (123), as the message
    type and rejects the frame. *)
Theorem client_frame_rejected_by_getIO (body : string) :
  getIO (client_send_frame (String.String json_open_brace body)) = inl (MalformedType 123).
Proof.
  unfold getIO, decode_header, client_send_frame.
  cbn [String.list_byte_of_string]. rewrite be_decode_encode. reflexivity.
Qed.

(** ** Witnesses *)

(** The header of the 73-byte reply of [testServer]'s ping. *)
Lemma header_roundtrip_witness :
  decode_header (encode_header (mkIoHeader 73 RPC) ++ []) = inr (mkIoHeader 73 RPC, []).
Proof. apply header_roundtrip. decide_by_eval. Defined.

Lemma getIO_frame_roundtrip_witness :
  getIO (encode_frame RPC [x7b; x7d] ++ [x01]) = inr ([x7b; x7d], RPC, [x01]).
Proof. apply getIO_frame_roundtrip. decide_by_eval. Defined.
