(* ===== verification/Registry.v ===== *)
(** * Registry: RPC records, the method table and [callRPCAndFormatReply]

    The request and reply records exchanged on the wire ([jsonRequest],
    [jsonReply]), the server's cached reply ([ioReply]: header and
    marshalled JSON), the method table [svrMap] filled by [Register], and
    [callRPCAndFormatReply] ([src/retryrpc/server.go], lines 305-365),
    which looks the method up, calls it and marshals the reply.

    Parameters and results are carried as their raw JSON text; a
    registered method is modelled by the test of whether
    [json.Unmarshal] accepts the parameters for its request type and by
    the function the method computes from them: its reply (with the
    JSON encoding of the reply value, or none when [json.Marshal]
    rejects that value), its error, or a panic of the handler itself,
    which [function.Call] propagates.  The second [json.Unmarshal] (line
    325) decodes the whole frame into [svrRequest]; the frame already
    decoded as a [jsonRequest], so it fails exactly when the parameters
    do not decode into the method's request type, which is what
    [request_parses] tests.  A reply is marshalled
    field by field in the order of [jsonReply]; strings are written
    without escaping, which is exact for the identifiers and messages
    that contain no quote, backslash or control character. *)

From S2P Require Import Prelude Wire.
From stdpp Require Import pretty.
From Stdlib Require Strings.String Strings.Ascii.
Local Open Scope N_scope.

Definition requestID := N.

(** ** Records on the wire *)

(** [jsonRequest]: the fields of an RPC request frame. *)
Record jsonRequest := mkJsonRequest {
  Method : string;
  Params : string;
  MyUniqueID : string;
  RequestID : requestID;
  HighestReplySeen : requestID
}.

(** [jsonReply]: [Result] is [None] when the Go interface value is nil. *)
Record jsonReply := mkJsonReply {
  ReplyUniqueID : string;
  ReplyRequestID : requestID;
  Result : option string;
  ErrStr : string
}.

(** [ioReply]: the header is the zero value until [setupHdrReply] fills
    it in. *)
Record ioReply := mkIoReply {
  Hdr : option ioHeader;
  JResult : string
}.

(** ** Marshalling a reply *)

Definition dq : string := String.String (Ascii.ascii_of_N 34) String.EmptyString.
Definition json_str (s : string) : string := dq +:+ s +:+ dq.
Definition json_field (name value : string) : string := json_str name +:+ ":" +:+ value.

Definition marshal_jsonReply (r : jsonReply) : string :=
  "{" +:+ json_field "MyUniqueID" (json_str (ReplyUniqueID r)) +:+ ","
      +:+ json_field "RequestID" (pretty (ReplyRequestID r)) +:+ ","
      +:+ json_field "Result" (match Result r with Some v => v | None => "null" end) +:+ ","
      +:+ json_field "ErrStr" (json_str (ErrStr r)) +:+ "}".

(** [setupHdrReply]: the header gives the payload length and the type. *)
Definition setupHdrReply (ior : ioReply) (t : MsgType) : ioReply :=
  mkIoReply (Some (mkIoHeader (N.of_nat (String.length (JResult ior))) t)) (JResult ior).

(** ** The method table *)

(** The outcome of [function.Call] (line 338): a nil error with the
    reply value, given by its JSON encoding ([None] when [json.Marshal]
    of the reply fails, at line 359); the error the method returns; or
    a panic raised inside the method. *)
Inductive callResult :=
  | CallOk (reply : option string)
  | CallErr (msg : string)
  | CallPanic.

(** [methodArgs]: what [Register] records for a method. *)
Record methodArgs := mkMethodArgs {
  request_parses : string -> bool;
  methodPtr : string -> callResult
}.

Definition ENOENT : N := 2.

(** [fmt.Sprintf("errno: %d", unix.ENOENT)] *)
Definition errno_string (e : N) : string := "errno: " +:+ pretty e.

Definition with_Result (r : jsonReply) (v : string) : jsonReply :=
  mkJsonReply (ReplyUniqueID r) (ReplyRequestID r) (Some v) (ErrStr r).
Definition with_ErrStr (r : jsonReply) (e : string) : jsonReply :=
  mkJsonReply (ReplyUniqueID r) (ReplyRequestID r) (Result r) e.

(** [callRPCAndFormatReply]: [None] is a panic: the parameters do not
    unmarshal into the method's request type (line 326), the method
    panics (line 338), or [json.Marshal(jReply)] fails on the reply
    value (line 360). *)
Definition callRPCAndFormatReply (svr : gmap string methodArgs) (jReq : jsonRequest)
  : option ioReply :=
  let jReply := mkJsonReply (MyUniqueID jReq) (RequestID jReq) None String.EmptyString in
  let filled :=
    match svr !! Method jReq with
    | Some ma =>
        if request_parses ma (Params jReq) then
          match methodPtr ma (Params jReq) with
          | CallOk v => with_Result jReply <$> v
          | CallErr e => Some (with_ErrStr jReply e)
          | CallPanic => None
          end
        else None
    | None => Some (with_ErrStr jReply (errno_string ENOENT))
    end in
  match filled with
  | Some r => Some (mkIoReply None (marshal_jsonReply r))
  | None => None
  end.

(** ** Behaviour of [callRPCAndFormatReply] *)

(** C17: The call panics exactly when the method is registered and
    either its parameters do not unmarshal into its request type, or the
    method itself panics, or its reply value has no JSON encoding; an
    unknown method is answered, never a panic, and a parameter decoding
    failure is a panic whatever the method would have done. *)
Theorem callRPC_panics_iff svr jReq :
  callRPCAndFormatReply svr jReq = None <->
  exists ma, svr !! Method jReq = Some ma /\
    (request_parses ma (Params jReq) = false \/
     methodPtr ma (Params jReq) = CallPanic \/ methodPtr ma (Params jReq) = CallOk None).
Proof.
  unfold callRPCAndFormatReply.
  destruct (svr !! Method jReq) as [ma|]; [|split; [done | intros (? & ? & _); done]].
  split.
  - intros Hn. exists ma. split; [done|].
    destruct (request_parses ma (Params jReq)); [|by left]. right.
    destruct (methodPtr ma (Params jReq)) as [[v|]|e|]; by simplify_eq/=; auto.
  - intros (? & [= <-] & [Hp|[Hm|Hm]]); rewrite ?Hp; [done| |];
      destruct (request_parses ma (Params jReq)); rewrite ?Hm; done.
Qed.

(** Every reply names the request it answers: the client's identifier
    and the request ID, and its header is not yet set up. *)
Theorem callRPC_reply_correlates svr jReq ior :
  callRPCAndFormatReply svr jReq = Some ior ->
  Hdr ior = None /\
  exists res err, JResult ior = marshal_jsonReply (mkJsonReply (MyUniqueID jReq) (RequestID jReq) res err).
Proof.
  unfold callRPCAndFormatReply.
  destruct (svr !! Method jReq) as [ma|];
    [destruct (request_parses ma (Params jReq)); [destruct (methodPtr ma (Params jReq)) as [[]| |]|]|];
    intros; simplify_eq/=; eauto.
Qed.

(** An unknown method is answered, not aborted: the reply carries the
    error string [errno: 2] and no result. *)
Theorem callRPC_unknown_method svr jReq :
  svr !! Method jReq = None ->
  callRPCAndFormatReply svr jReq =
    Some (mkIoReply None (marshal_jsonReply
      (mkJsonReply (MyUniqueID jReq) (RequestID jReq) None "errno: 2"))).
Proof. intros Hnone. unfold callRPCAndFormatReply. by rewrite Hnone. Qed.

(** The not-found reply is not distinguishable from a handler error: a
    registered method whose handler fails with the message [errno: 2]
    produces the same reply bytes as an unregistered method. *)
Theorem callRPC_notfound_indistinguishable svr jReq ma :
  svr !! Method jReq = Some ma ->
  request_parses ma (Params jReq) = true ->
  methodPtr ma (Params jReq) = CallErr (errno_string ENOENT) ->
  callRPCAndFormatReply svr jReq = callRPCAndFormatReply (delete (Method jReq) svr) jReq.
Proof.
  intros Hma Hp Hm. unfold callRPCAndFormatReply.
  by rewrite Hma, Hp, Hm, lookup_delete_eq.
Qed.

(** ** Witnesses *)

(** [RpcInvalidMethod] of [testServer] is not registered. *)
Lemma callRPC_unknown_method_witness :
  callRPCAndFormatReply ∅ (mkJsonRequest "RpcInvalidMethod" "{}" "client 1" 3 0) =
    Some (mkIoReply None (marshal_jsonReply
      (mkJsonReply "client 1" 3 None "errno: 2"))).
Proof. apply callRPC_unknown_method. reflexivity. Defined.

(** A handler that fails with [errno: 2]. *)
Lemma callRPC_notfound_indistinguishable_witness :
  callRPCAndFormatReply
    {[ "RpcPingWithError" := mkMethodArgs (fun _ => true) (fun _ => CallErr (errno_string ENOENT)) ]}
    (mkJsonRequest "RpcPingWithError" "{}" "client 1" 2 0) =
  callRPCAndFormatReply ∅ (mkJsonRequest "RpcPingWithError" "{}" "client 1" 2 0).
Proof.
  refine (callRPC_notfound_indistinguishable _ _
            (mkMethodArgs (fun _ => true) (fun _ => CallErr (errno_string ENOENT))) _ _ _);
    reflexivity.
Defined.

Lemma callRPC_reply_correlates_witness :
  Hdr (mkIoReply None (marshal_jsonReply (mkJsonReply "client 1" 1 (Some "{}") String.EmptyString))) = None.
Proof.
  refine (proj1 (callRPC_reply_correlates
    {[ "RpcPing" := mkMethodArgs (fun _ => true) (fun _ => CallOk (Some "{}")) ]}
    (mkJsonRequest "RpcPing" "{}" "client 1" 1 0)
    (mkIoReply None (marshal_jsonReply (mkJsonReply "client 1" 1 (Some "{}") String.EmptyString))) _)).
  vm_compute. reflexivity.
Defined.
