(* ===== verification/Reply.v ===== *)
(** * Reply: the reply write path [returnResults]

    [returnResults] ([src/retryrpc/server.go], lines 367-394) writes a
    reply on a connection: under the connection's mutex it writes the
    header with [binary.Write] and then the JSON bytes with
    [conn.Write]; if the header write fails it releases the mutex and
    returns, and a failed payload write is only logged.  Every
    [processRequest] goroutine of a connection calls it, so several
    writers race for the mutex.

    The model is one connection: the bytes written so far, the holder of
    the mutex, and the writers, each at one of the points of
    [returnResults].  Events run one writer one step; the outcome of a
    write (all bytes, or an error after [k] of them, as a deadline set by
    [SetDeadline] gives) is part of the event.  A ghost list records the
    order in which writers finished. *)

From S2P Require Import Prelude Wire Registry.
From Stdlib Require Import Strings.Byte.
From Stdlib Require Strings.String.
Local Open Scope N_scope.
Local Set Warnings "-clear-no-such-hyp".

Module Reply.

(** ** State *)

(** What a write on the socket returns: every byte, or an error after
    [written] bytes. *)
Inductive writeResult := WriteOk | WriteErr (written : nat).

(** Where a writer is in [returnResults]. *)
Inductive pc := AtLock | AtHeader | AtPayload | Finished.

#[export] Instance pc_eq_dec : EqDecision pc.
Proof. solve_decision. Defined.

Record writer := mkWriter { w_reply : ioReply; w_pc : pc }.

Record conn := mkConn {
  wire : list byte;           (* the bytes on the socket, in order *)
  cLock : option nat;         (* the writer holding cCtx's mutex *)
  writers : list writer;
  completed : list nat        (* ghost: writers that returned, in order *)
}.

(** [binary.Write(conn, binary.BigEndian, ior.Hdr)]: a header that
    [setupHdrReply] has not filled in is the zero header. *)
Definition hdr_bytes (h : option ioHeader) : list byte :=
  match h with Some h => encode_header h | None => repeat x00 9 end.

Definition payload_bytes (ior : ioReply) : list byte := String.list_byte_of_string (JResult ior).

(** The bytes of a whole reply. *)
Definition frame_of (ior : ioReply) : list byte := hdr_bytes (Hdr ior) ++ payload_bytes ior.

Definition written (bs : list byte) (r : writeResult) : list byte :=
  match r with WriteOk => bs | WriteErr k => take k bs end.

Definition initConn (replies : list ioReply) : conn :=
  mkConn [] None ((fun r => mkWriter r AtLock) <$> replies) [].

Definition set_pc (c : conn) (i : nat) (w : writer) (p : pc) : list writer :=
  <[i := mkWriter (w_reply w) p]> (writers c).

(** ** The steps of [returnResults] *)

Inductive event := WLock (i : nat) | WHeader (i : nat) (r : writeResult) | WPayload (i : nat) (r : writeResult).

(** Line 375: [cCtx.Lock()]. *)
Definition returnResults_lock (i : nat) (c : conn) : option conn :=
  match writers c !! i, cLock c with
  | Some w, None =>
      if decide (w_pc w = AtLock) then Some (mkConn (wire c) (Some i) (set_pc c i w AtHeader) (completed c))
      else None
  | _, _ => None
  end.

(** Lines 376-381: the header write; on an error, unlock and return. *)
Definition returnResults_header (i : nat) (r : writeResult) (c : conn) : option conn :=
  match writers c !! i with
  | Some w =>
      if decide (cLock c = Some i /\ w_pc w = AtHeader) then
        let bs := wire c ++ written (hdr_bytes (Hdr (w_reply w))) r in
        match r with
        | WriteOk => Some (mkConn bs (Some i) (set_pc c i w AtPayload) (completed c))
        | WriteErr _ => Some (mkConn bs None (set_pc c i w Finished) (completed c ++ [i]))
        end
      else None
  | None => None
  end.

(** Lines 383-393: the payload write, logged on an error, then unlock. *)
Definition returnResults_payload (i : nat) (r : writeResult) (c : conn) : option conn :=
  match writers c !! i with
  | Some w =>
      if decide (cLock c = Some i /\ w_pc w = AtPayload) then
        Some (mkConn (wire c ++ written (payload_bytes (w_reply w)) r) None
                (set_pc c i w Finished) (completed c ++ [i]))
      else None
  | None => None
  end.

Definition rr_step (ev : event) (c : conn) : option conn :=
  match ev with
  | WLock i => returnResults_lock i c
  | WHeader i r => returnResults_header i r c
  | WPayload i r => returnResults_payload i r c
  end.

Fixpoint rr_run (evs : list event) (c : conn) : option conn :=
  match evs with
  | [] => Some c
  | ev :: evs' => c' ← rr_step ev c; rr_run evs' c'
  end.

(** ** What the stream holds *)

(** The writes did not fail. *)
Definition write_ok (ev : event) : bool :=
  match ev with
  | WLock _ => true
  | WHeader _ r | WPayload _ r => match r with WriteOk => true | WriteErr _ => false end
  end.

(** The whole replies of the writers that finished, in that order, then
    the header of the writer between its two writes. *)
Definition expected_wire (c : conn) : list byte :=
  mjoin ((fun i => default [] (frame_of <$> (w_reply <$> writers c) !! i)) <$> completed c) ++
  match cLock c with
  | Some i => match writers c !! i with
              | Some w => if decide (w_pc w = AtPayload) then hdr_bytes (Hdr (w_reply w)) else []
              | None => []
              end
  | None => []
  end.

(** The states reached from [c0] by writes that do not fail. *)
Inductive rr_reachable (c0 : conn) : conn -> Prop :=
  | rr_init : rr_reachable c0 c0
  | rr_next c ev c' : rr_reachable c0 c -> write_ok ev = true -> rr_step ev c = Some c' -> rr_reachable c0 c'.

(** A reply as [setupHdrReply] leaves it: the header gives the length
    of the JSON bytes, which fits in a [uint64], and the type [RPC]. *)
Definition reply_ready (r : ioReply) : Prop :=
  Hdr r = Some (mkIoHeader (N.of_nat (length (payload_bytes r))) RPC) /\
  is_u64 (N.of_nat (length (payload_bytes r))).

(** A run of events whose writes all succeed; [None] if one is not
    enabled or fails. *)
Fixpoint rr_run_ok (evs : list event) (c : conn) : option conn :=
  match evs with
  | [] => Some c
  | ev :: evs' => if write_ok ev then c' ← rr_step ev c; rr_run_ok evs' c' else None
  end.

(** The replies, read back by [getIO] one after the other. *)
Fixpoint read_frames (n : nat) (bs : list byte) : option (list (list byte)) :=
  match n with
  | O => Some []
  | S n' =>
      match getIO bs with
      | inr (payload, _, rest) => cons payload <$> read_frames n' rest
      | inl _ => None
      end
  end.

(** ** Two replies on one connection *)
Module Demo.

Definition demo_replies : list ioReply :=
  [setupHdrReply (mkIoReply None "{}") RPC; setupHdrReply (mkIoReply None "[1]") RPC].

(** Writer 1 takes the mutex first, then writer 0. *)
Definition demo_events : list event :=
  [WLock 1; WHeader 1 WriteOk; WPayload 1 WriteOk; WLock 0; WHeader 0 WriteOk; WPayload 0 WriteOk].

Definition demo_after : conn :=
  default (initConn demo_replies) (rr_run_ok demo_events (initConn demo_replies)).

(** Writer 0's header write times out after 4 bytes; writer 1 then
    writes its whole reply. *)
Definition partial_events : list event :=
  [WLock 0; WHeader 0 (WriteErr 4); WLock 1; WHeader 1 WriteOk; WPayload 1 WriteOk].

Definition partial_after : conn :=
  default (initConn demo_replies) (rr_run partial_events (initConn demo_replies)).

End Demo.

(** ** Lemmas *)
Module Facts.

(** The writers' replies never change. *)
Lemma replies_set_pc c i w p :
  writers c !! i = Some w -> w_reply <$> set_pc c i w p = w_reply <$> writers c.
Proof.
  intros Hw. unfold set_pc. rewrite list_fmap_insert. cbn.
  apply list_insert_id. by rewrite list_lookup_fmap, Hw.
Qed.

Lemma lookup_set_pc c i w p : (i < length (writers c))%nat ->
  set_pc c i w p !! i = Some (mkWriter (w_reply w) p).
Proof. intros Hi. unfold set_pc. by rewrite list_lookup_insert_eq. Qed.

(** The invariant of a connection whose writes succeed: the replies are
    those it started with; the mutex is held exactly by the writer
    between [Lock] and [Unlock]; the socket holds the finished replies,
    whole and in order, then the header of the holder if it wrote it. *)
Record rr_inv (rs : list ioReply) (c : conn) : Prop := {
  ri_replies : w_reply <$> writers c = rs;
  ri_locked i w : writers c !! i = Some w -> (w_pc w = AtHeader \/ w_pc w = AtPayload) -> cLock c = Some i;
  ri_holder i : cLock c = Some i -> exists w, writers c !! i = Some w /\ (w_pc w = AtHeader \/ w_pc w = AtPayload);
  ri_wire : wire c = expected_wire c;
  ri_done i : i ∈ completed c -> exists w, writers c !! i = Some w /\ w_pc w = Finished;
  ri_nodup : NoDup (completed c) }.

Lemma rr_inv_init rs : rr_inv rs (initConn rs).
Proof.
  split; cbn; [|intros i w Hw|done|done|set_solver|constructor].
  - induction rs as [|r rs IH]; cbn; congruence.
  - apply list_lookup_fmap_Some in Hw as (r & Hw & _). subst w. cbn. naive_solver.
Qed.
Lemma lookup_set_pc_ne c i j w p : j <> i -> set_pc c i w p !! j = writers c !! j.
Proof. intros Hne. unfold set_pc. by rewrite list_lookup_insert_ne. Qed.

(** The part of [expected_wire] that the lock holder contributes. *)
Lemma expected_wire_split c :
  expected_wire c =
  mjoin ((fun i => default [] (frame_of <$> (w_reply <$> writers c) !! i)) <$> completed c) ++
  match cLock c with
  | Some i => match writers c !! i with
              | Some w => if decide (w_pc w = AtPayload) then hdr_bytes (Hdr (w_reply w)) else []
              | None => []
              end
  | None => []
  end.
Proof. done. Qed.


Lemma rr_inv_step rs c ev c' :
  rr_inv rs c -> write_ok ev = true -> rr_step ev c = Some c' -> rr_inv rs c'.
Proof.
  intros Hinv Hok Hstep. pose proof (ri_wire _ _ Hinv) as Hwire.
  rewrite expected_wire_split in Hwire.
  destruct ev as [i|i [|k]|i [|k]]; try done; cbn in Hstep.
  - (* WLock *)
    unfold returnResults_lock in Hstep.
    destruct (writers c !! i) as [w|] eqn:Hw, (cLock c) as [h|] eqn:Hl; try done.
    case_decide as Hpc; [|done]. injection Hstep as <-.
    assert (Hlt : (i < length (writers c))%nat) by (by eapply lookup_lt_Some).
    split; cbn; [by rewrite replies_set_pc, (ri_replies _ _ Hinv)|..].
    + intros j w' Hj Hpc'. destruct (decide (j = i)) as [->|Hne]; [done|].
      rewrite lookup_set_pc_ne in Hj by done.
      rewrite (ri_locked _ _ Hinv j w' Hj Hpc') in Hl. done.
    + intros j [= <-]. exists (mkWriter (w_reply w) AtHeader). rewrite lookup_set_pc by done. auto.
    + cbn. rewrite replies_set_pc by done.
      rewrite lookup_set_pc by done. cbn. by rewrite Hwire.
    + intros j Hj. destruct (ri_done _ _ Hinv j Hj) as (w' & Hj' & Hf).
      destruct (decide (j = i)) as [->|Hne]; [congruence|]. rewrite lookup_set_pc_ne by done. eauto.
    + apply Hinv.
  - (* WHeader, the write succeeds *)
    unfold returnResults_header in Hstep.
    destruct (writers c !! i) as [w|] eqn:Hw; [|done].
    case_decide as Hpc; [|done]. destruct Hpc as [Hl Hpc]. injection Hstep as <-.
    assert (Hlt : (i < length (writers c))%nat) by (by eapply lookup_lt_Some).
    split; cbn; [by rewrite replies_set_pc, (ri_replies _ _ Hinv)|..].
    + intros j w' Hj Hpc'. destruct (decide (j = i)) as [->|Hne]; [done|].
      rewrite lookup_set_pc_ne in Hj by done. by rewrite <- Hl; apply (ri_locked _ _ Hinv j w').
    + intros j [= <-]. exists (mkWriter (w_reply w) AtPayload). rewrite lookup_set_pc by done. auto.
    + cbn. rewrite replies_set_pc by done.
      rewrite lookup_set_pc by done. cbn. rewrite Hwire, Hl, Hw, Hpc. cbn. by rewrite app_nil_r.
    + intros j Hj. destruct (ri_done _ _ Hinv j Hj) as (w' & Hj' & Hf).
      destruct (decide (j = i)) as [->|Hne]; [congruence|]. rewrite lookup_set_pc_ne by done. eauto.
    + apply Hinv.
  - (* WPayload, the write succeeds *)
    unfold returnResults_payload in Hstep.
    destruct (writers c !! i) as [w|] eqn:Hw; [|done].
    case_decide as Hpc; [|done]. destruct Hpc as [Hl Hpc]. injection Hstep as <-.
    assert (Hlt : (i < length (writers c))%nat) by (by eapply lookup_lt_Some).
    split; cbn; [by rewrite replies_set_pc, (ri_replies _ _ Hinv)|..].
    + intros j w' Hj Hpc'. destruct (decide (j = i)) as [->|Hne].
      * rewrite lookup_set_pc in Hj by done. injection Hj as <-. cbn in Hpc'. naive_solver.
      * rewrite lookup_set_pc_ne in Hj by done.
        rewrite (ri_locked _ _ Hinv j w' Hj Hpc') in Hl. congruence.
    + done.
    + cbn. rewrite replies_set_pc by done.
      rewrite Hwire, Hl, Hw, Hpc, fmap_app, join_app. cbn.
      rewrite list_lookup_fmap, Hw. cbn. unfold frame_of. by rewrite !app_nil_r, app_assoc.
    + intros j [Hj|Hj]%elem_of_app; [|apply list_elem_of_singleton in Hj; subst j].
      * destruct (ri_done _ _ Hinv j Hj) as (w' & Hj' & Hf).
        destruct (decide (j = i)) as [->|Hne]; [congruence|]. rewrite lookup_set_pc_ne by done. eauto.
      * rewrite lookup_set_pc by done. eexists; split; [done|]. done.
    + apply NoDup_app. split_and!; [apply Hinv| |apply NoDup_singleton].
      intros j Hj Hj'. apply list_elem_of_singleton in Hj'. subst j. destruct (ri_done _ _ Hinv i Hj) as (w' & Hj' & Hf).
      congruence.
Qed.

Lemma rr_inv_reachable rs c : rr_reachable (initConn rs) c -> rr_inv rs c.
Proof.
  induction 1 as [|c ev c' _ IH Hok Hstep]; [apply rr_inv_init|].
  by apply (rr_inv_step _ c ev).
Qed.
(** [getIO] reads back whole replies, one after the other. *)
Lemma read_frames_frames (rs : list ioReply) (l : list nat) rest :
  Forall (fun i => exists r, rs !! i = Some r /\ reply_ready r) l ->
  read_frames (length l) (mjoin ((fun i => default [] (frame_of <$> rs !! i)) <$> l) ++ rest) =
  Some ((fun i => default [] (payload_bytes <$> rs !! i)) <$> l).
Proof.
  induction 1 as [|i l (r & Hr & Hh & Hu) _ IH]; [done|].
  cbn [length fmap list_fmap mjoin read_frames]. rewrite Hr. cbn.
  assert (Hf : frame_of r = encode_header (mkIoHeader (N.of_nat (length (payload_bytes r))) RPC) ++ payload_bytes r)
    by (unfold frame_of; by rewrite Hh).
  rewrite Hf, <- !app_assoc, getIO_header_payload by done. cbn. by rewrite IH.
Qed.

End Facts.

(** ** Properties *)
Module Properties.
Import Facts.

(** C21: replies written concurrently on one connection reach the client
    whole and in order: in every state reached by [returnResults]
    goroutines whose writes succeed, once no writer holds the mutex, the
    stream read frame by frame with [getIO] gives the JSON of each
    finished writer's reply, in the order the writers finished, each
    writer at most once. *)
Theorem replies_read_back (rs : list ioReply) (c : conn) :
  Forall reply_ready rs -> rr_reachable (initConn rs) c -> cLock c = None ->
  NoDup (completed c) /\
  read_frames (length (completed c)) (wire c) =
  Some ((fun i => default [] (payload_bytes <$> rs !! i)) <$> completed c).
Proof.
  intros Hready Hr Hl. pose proof (rr_inv_reachable _ _ Hr) as Hinv.
  split; [apply Hinv|].
  rewrite (ri_wire _ _ Hinv), expected_wire_split, Hl, (ri_replies _ _ Hinv), app_nil_r.
  rewrite <- (app_nil_r (mjoin _)). apply read_frames_frames.
  apply Forall_forall. intros i Hi. destruct (ri_done _ _ Hinv i Hi) as (w & Hw & _).
  assert (Hrs : rs !! i = Some (w_reply w)) by (rewrite <- (ri_replies _ _ Hinv), list_lookup_fmap, Hw; done).
  exists (w_reply w). split; [done|]. by eapply Forall_lookup_1.
Qed.

Import Demo.

Lemma rr_run_ok_reachable c0 evs c1 c :
  rr_reachable c0 c1 -> rr_run_ok evs c1 = Some c -> rr_reachable c0 c.
Proof.
  revert c1. induction evs as [|ev evs IH]; intros c1 Hr Hrun; cbn in Hrun; [by simplify_eq|].
  destruct (write_ok ev) eqn:Hok; [|done].
  destruct (rr_step ev c1) as [c2|] eqn:Hs; [|done].
  apply (IH c2); [|done]. by apply (rr_next _ c1 ev).
Qed.

(** Witness of C22: writer 1 then writer 0 finish, and the client reads
    [[1]] and then [{}]. *)
Lemma replies_read_back_witness :
  Forall reply_ready demo_replies /\
  read_frames 2 (wire demo_after) = Some [String.list_byte_of_string "[1]"; String.list_byte_of_string "{}"].
Proof.
  assert (Hready : Forall reply_ready demo_replies)
    by (repeat constructor; vm_compute; reflexivity).
  split; [exact Hready|].
  destruct (replies_read_back demo_replies demo_after Hready) as [_ Hread].
  - apply (rr_run_ok_reachable _ demo_events _ _ (rr_init _)). vm_compute. reflexivity.
  - vm_compute. reflexivity.
  - assert (Hlen : length (completed demo_after) = 2%nat) by (vm_compute; reflexivity).
    rewrite Hlen in Hread. rewrite Hread. vm_compute. reflexivity.
Defined.

(** A header write that fails after some bytes is not undone: the next
    reply on the connection follows the partial header, and the client's
    reader no longer finds that reply. *)
Lemma partial_write_desyncs :
  rr_run partial_events (initConn demo_replies) = Some partial_after /\
  read_frames 1 (wire partial_after) <> Some [String.list_byte_of_string "[1]"].
Proof. split; vm_compute; [reflexivity|discriminate]. Qed.

End Properties.

End Reply.
