(* ===== verification/Client.v ===== *)
(** * Client: request-ID allocation in [send] and the reply watermark

    [send] of [src/retryrpc/client.go] (lines 35-76): under the client
    lock the request ID counter (a [uint64]) is incremented and the new
    value is the request's ID; the request is marshalled, recorded in
    [outstandingRequest] and written as a length-prefixed frame; then
    [send] reads the reply frame and unmarshals it twice ([send_wait],
    [send_call], lines 77-109), but never assigns its [reply] result.
    The code of [src/retryrpc/client.go] never sets [HighestReplySeen];
    the reply path of the client runtime
    ([updateHighestConsecutiveNum], [setHighestConsecutive]) is not under
    [src/] and is modelled from the spec (section 4.8) and from what
    [testBtree] ([src/retryrpc/retryrpc_test.go], lines 121-164) checks:
    the received IDs are kept in a sorted set [bt], and
    [setHighestConsecutive] consumes the run that continues the
    watermark, keeping the last element of the run in the set.

    The watermark is proved to refine its abstract specification: after
    every update it is the largest [k] such that every ID in [1..k] has
    been received. *)

From stdpp Require Import pretty.
From S2P Require Import Prelude Wire Registry.
From Stdlib Require Import Strings.Byte.
From Stdlib Require Strings.String.
Local Open Scope N_scope.

(** ** State *)

(** [Request]: the marshalled request and its length. *)
Record request := mkRequest {
  JReq : string;
  ReqLen : Z
}.

Record client := mkClient {
  cl_myUniqueID : string;
  currentRequestID : requestID;
  outstandingRequest : gmap requestID request;
  bt : list requestID;
  highestConsecutive : requestID
}.

(** [json.Marshal(jreq)]: [Params] is a one-element array. *)
Definition marshal_jsonRequest (r : jsonRequest) : string :=
  "{" +:+ json_field "Method" (json_str (Method r)) +:+ ","
      +:+ json_field "Params" ("[" +:+ Params r +:+ "]") +:+ ","
      +:+ json_field "MyUniqueID" (json_str (MyUniqueID r)) +:+ ","
      +:+ json_field "RequestID" (pretty (RequestID r)) +:+ ","
      +:+ json_field "HighestReplySeen" (pretty (HighestReplySeen r)) +:+ "}".

(** ** [send] *)

(** Lines 35-62: the request ID is the incremented counter; the request
    is recorded as outstanding.  [HighestReplySeen] keeps its zero
    value. *)
Definition send_request (c : client) (method params : string) : client * jsonRequest * request :=
  let crID := u64_succ (currentRequestID c) in
  let jreq := mkJsonRequest method params (cl_myUniqueID c) crID 0 in
  let js := marshal_jsonRequest jreq in
  let req := mkRequest js (Z.of_nat (String.length js)) in
  (mkClient (cl_myUniqueID c) crID (<[crID := req]> (outstandingRequest c))
     (bt c) (highestConsecutive c), jreq, req).

(** Lines 35-76: the state after [send] and the bytes it writes. *)
Definition send (c : client) (method params : string) : client * list byte :=
  let '(c', jreq, req) := send_request c method params in
  (c', client_send_frame (JReq req)).

(** ** Waiting for the reply (lines 77-109) *)

(** What [json.Unmarshal] accepts for the two values [send] decodes the
    reply buffer into, a [jsonReply] and then a [pingJSONReply];
    [encoding/json] is not modelled. *)
Record replyDecoder := mkReplyDecoder {
  unmarshal_jsonReply : list byte -> bool;
  unmarshal_pingJSONReply : list byte -> bool }.

(** The errors [send] returns: its read's, or an unmarshal error. *)
Inductive sendError := GetIOErr (e : frameError) | UnmarshalErr.

(** [getIO(client.tcpConn, "CLIENT")] returns the buffer of the next
    frame or an error (the frame is read as [Wire.getIO] reads it); then
    the two unmarshals.  The named result [reply] is never assigned:
    every path returns it [nil] ([None]). *)
Definition send_wait (dec : replyDecoder) (incoming : list byte) : option string * option sendError :=
  match getIO incoming with
  | inl e => (None, Some (GetIOErr e))
  | inr (buf, _, _) =>
      if negb (unmarshal_jsonReply dec buf) then (None, Some UnmarshalErr)
      else if negb (unmarshal_pingJSONReply dec buf) then (None, Some UnmarshalErr)
      else (None, None)
  end.

(** The whole of [send] (lines 35-109): the state, the bytes written, and
    the results [(reply, err)].  The errors of [binary.Write] and of
    [tcpConn.Write] are printed and then overwritten, so they are not
    results. *)
Definition send_call (c : client) (method params : string) (dec : replyDecoder) (incoming : list byte)
    : client * list byte * (option string * option sendError) :=
  let '(c', frame) := send c method params in
  (c', frame, send_wait dec incoming).

(** ** The watermark *)

(** Insert into the sorted set of received IDs. *)
Fixpoint bt_insert (x : requestID) (l : list requestID) : list requestID :=
  match l with
  | [] => [x]
  | y :: l' => if decide (x < y) then x :: l
               else if decide (x = y) then l
               else y :: bt_insert x l'
  end.

(** Follow the run [x, x+1, ...] from the front of the set; the last
    element of the run is the new watermark and stays in the set. *)
Fixpoint advance (x : requestID) (rest : list requestID) : requestID * list requestID :=
  match rest with
  | y :: rest' => if decide (y = x + 1) then advance y rest' else (x, x :: rest)
  | [] => (x, [x])
  end.

(** [setHighestConsecutive]: the smallest received ID continues the
    watermark (or is the kept end of the previous run). *)
Definition setHighestConsecutive (c : client) : client :=
  match bt c with
  | x :: rest =>
      if decide (x = highestConsecutive c \/ x = highestConsecutive c + 1) then
        let '(h, l) := advance x rest in
        mkClient (cl_myUniqueID c) (currentRequestID c) (outstandingRequest c) l h
      else c
  | [] => c
  end.

(** [updateHighestConsecutiveNum]: record a received reply. *)
Definition updateHighestConsecutiveNum (c : client) (rid : requestID) : client :=
  setHighestConsecutive
    (mkClient (cl_myUniqueID c) (currentRequestID c) (outstandingRequest c)
       (bt_insert rid (bt c)) (highestConsecutive c)).

Definition newClient (uid : string) : client := mkClient uid 0 ∅ [] 0.

(** [testBtree] (lines 135-163): updates, then [setHighestConsecutive];
    the watermark and the size of the set after each phase. *)
Definition testBtree_run : list (requestID * nat) :=
  let c := newClient "client 1" in
  let c := foldl updateHighestConsecutiveNum c [10; 5; 11] in
  let c := setHighestConsecutive c in
  let r1 := (highestConsecutive c, length (bt c)) in
  let c := foldl updateHighestConsecutiveNum c [4; 3; 2; 1] in
  let r2 := (highestConsecutive c, length (bt c)) in
  let c := setHighestConsecutive c in
  let r3 := (highestConsecutive c, length (bt c)) in
  let c := foldl updateHighestConsecutiveNum c [6; 7; 8; 9] in
  let r4 := (highestConsecutive c, length (bt c)) in
  let c := setHighestConsecutive c in
  [r1; r2; r3; r4; (highestConsecutive c, length (bt c))].

(** ** The abstract watermark *)

(** Every ID in [1..k] is in [R]. *)
Definition consecutive_upto (R : list requestID) (k : requestID) : Prop :=
  forall i, 1 <= i <= k -> i ∈ R.

(** The concrete state represents the set [R] of received IDs: the set
    is sorted, holds received IDs not below the watermark, and the
    received IDs are the watermark's prefix and the set. *)
Record watermark_inv (c : client) (R : list requestID) : Prop := {
  wi_sorted : StronglySorted N.lt (bt c);
  wi_above : forall x, x ∈ bt c -> highestConsecutive c <= x;
  wi_sub : forall x, x ∈ bt c -> x ∈ R;
  wi_prefix : consecutive_upto R (highestConsecutive c);
  wi_covers : forall x, x ∈ R -> 1 <= x -> x <= highestConsecutive c \/ x ∈ bt c;
  wi_next : highestConsecutive c + 1 ∉ bt c
}.

(** The invariant without its last clause: what holds between the
    insertion of a received ID and [setHighestConsecutive]. *)
Record watermark_pre (c : client) (R : list requestID) : Prop := {
  wp_sorted : StronglySorted N.lt (bt c);
  wp_above : forall x, x ∈ bt c -> highestConsecutive c <= x;
  wp_sub : forall x, x ∈ bt c -> x ∈ R;
  wp_prefix : consecutive_upto R (highestConsecutive c);
  wp_covers : forall x, x ∈ R -> 1 <= x -> x <= highestConsecutive c \/ x ∈ bt c
}.

(** ** The sorted set *)

Lemma elem_of_bt_insert x y l : y ∈ bt_insert x l <-> y = x \/ y ∈ l.
Proof.
  induction l as [|z l IH]; cbn; [set_solver|].
  repeat case_decide; subst; rewrite ?elem_of_cons, ?IH; naive_solver.
Qed.

Lemma bt_insert_sorted x l : StronglySorted N.lt l -> StronglySorted N.lt (bt_insert x l).
Proof.
  induction l as [|z l IH]; intros Hs; cbn; [repeat constructor|].
  apply StronglySorted_inv in Hs as [Hs Hall]. rewrite Forall_forall in Hall.
  repeat case_decide; subst.
  - constructor; [by constructor; [|apply Forall_forall]|].
    constructor; [lia|]. eapply Forall_impl; [apply Forall_forall, Hall|]. intros; lia.
  - by constructor; [|apply Forall_forall].
  - constructor; [by apply IH|]. apply Forall_forall. intros y Hy%elem_of_bt_insert.
    destruct Hy as [->|Hy]; [lia|by apply Hall].
Qed.

Lemma sorted_cons_gt x rest y : StronglySorted N.lt (x :: rest) -> y ∈ rest -> x < y.
Proof.
  intros Hs Hy. apply StronglySorted_inv in Hs as [_ Hall].
  rewrite Forall_forall in Hall. by apply Hall.
Qed.

(** Following a run from [x]. *)
Lemma advance_spec x rest h l :
  StronglySorted N.lt (x :: rest) -> advance x rest = (h, l) ->
  x <= h /\ (forall i, x <= i <= h -> i ∈ x :: rest) /\ StronglySorted N.lt l /\
  (forall y, y ∈ l -> y ∈ x :: rest /\ h <= y) /\
  (forall y, y ∈ x :: rest -> y <= h \/ y ∈ l) /\ h + 1 ∉ l.
Proof.
  revert x. induction rest as [|y rest IH]; intros x Hs Hadv; cbn in Hadv.
  - simplify_eq. split_and!; [lia| |repeat constructor|set_solver|set_solver|].
    + intros i Hi. assert (i = h) as -> by lia. set_solver.
    + rewrite list_elem_of_singleton. lia.
  - pose proof (sorted_cons_gt x (y :: rest)) as Hgt.
    case_decide as Hy.
    + subst y. apply StronglySorted_inv in Hs as [Hs _].
      destruct (IH _ Hs Hadv) as (Hle & Hrun & Hsl & Hin & Hcov & Hnext).
      split_and!; [lia| |done| | |done].
      * intros i Hi. destruct (decide (i = x)) as [->|Hne]; [set_solver|].
        apply elem_of_cons. right. apply Hrun. lia.
      * intros z Hz. destruct (Hin z Hz). set_solver.
      * intros z [->|Hz]%elem_of_cons; [left; lia|by apply Hcov].
    + simplify_eq. split_and!; [lia| |done| |set_solver|].
      * intros i Hi. assert (i = h) as -> by lia. set_solver.
      * intros z Hz. split; [done|]. apply elem_of_cons in Hz as [->|Hz]; [lia|].
        specialize (Hgt z Hs Hz). lia.
      * intros [Heq|Hz]%elem_of_cons; [lia|].
        apply elem_of_cons in Hz as [Heq|Hz]; [done|].
        specialize (Hgt y Hs ltac:(set_solver)).
        apply StronglySorted_inv in Hs as [Hs _]. specialize (sorted_cons_gt _ _ _ Hs Hz). lia.
Qed.

(** ** The watermark refines its specification *)

(** [setHighestConsecutive] re-establishes the invariant. *)
Lemma setHighestConsecutive_inv c R :
  watermark_pre c R -> watermark_inv (setHighestConsecutive c) R.
Proof.
  intros [Hs Hab Hsub Hpre Hcov]. unfold setHighestConsecutive.
  destruct (bt c) as [|x rest] eqn:Hbt.
  { split; rewrite ?Hbt; auto; set_solver. }
  case_decide as Hx.
  - destruct (advance x rest) as [h l] eqn:Hadv.
    destruct (advance_spec x rest h l Hs Hadv) as (Hle & Hrun & Hsl & Hin & Hcv & Hnext).
    assert (Hx' : highestConsecutive c <= x) by (apply Hab; set_solver).
    split; cbn; [done| | | | |done].
    + intros y Hy. apply Hin, Hy.
    + intros y Hy. apply Hsub, Hin, Hy.
    + intros i Hi. destruct (decide (i <= highestConsecutive c)); [apply Hpre; lia|].
      apply Hsub, Hrun. lia.
    + intros z Hz Hz1. destruct (Hcov z Hz Hz1) as [Hle'|Hb]; [left; lia|].
      destruct (Hcv z Hb); auto.
  - split; rewrite ?Hbt; auto.
    intros [Heq|Hin]%elem_of_cons; [lia|].
    assert (highestConsecutive c <= x) by (apply Hab; set_solver).
    pose proof (sorted_cons_gt _ _ _ Hs Hin). lia.
Qed.

(** Recording a new reply ID keeps the invariant before the walk. *)
Lemma insert_pre c R rid :
  watermark_inv c R -> 1 <= rid -> rid ∉ R ->
  watermark_pre (mkClient (cl_myUniqueID c) (currentRequestID c) (outstandingRequest c)
                   (bt_insert rid (bt c)) (highestConsecutive c)) (rid :: R).
Proof.
  intros [Hs Hab Hsub Hpre Hcov _] Hrid Hnew.
  assert (Hgt : highestConsecutive c < rid).
  { apply N.nle_gt. intros Hle. apply Hnew, Hpre. lia. }
  split; cbn.
  - by apply bt_insert_sorted.
  - intros x [->|Hx]%elem_of_bt_insert; [lia|auto].
  - intros x [->|Hx]%elem_of_bt_insert; set_solver.
  - intros i Hi. apply elem_of_cons. right. by apply Hpre.
  - intros x [->|Hx]%elem_of_cons Hx1; rewrite elem_of_bt_insert; [by right; left|].
    destruct (Hcov x Hx Hx1); auto.
Qed.

Lemma updateHighestConsecutiveNum_inv c R rid :
  watermark_inv c R -> 1 <= rid -> rid ∉ R ->
  watermark_inv (updateHighestConsecutiveNum c rid) (rid :: R) /\
  highestConsecutive c <= highestConsecutive (updateHighestConsecutiveNum c rid).
Proof.
  intros Hinv Hrid Hnew. split.
  - by apply setHighestConsecutive_inv, insert_pre.
  - pose proof (insert_pre c R rid Hinv Hrid Hnew) as Hp.
    pose proof (wp_sorted _ _ Hp) as Hs. cbn in Hs.
    unfold updateHighestConsecutiveNum, setHighestConsecutive. cbn.
    destruct (bt_insert rid (bt c)) as [|x rest]; [done|].
    case_decide as Hx; [|done].
    destruct (advance x rest) as [h l] eqn:Hadv. cbn.
    destruct (advance_spec x rest h l Hs Hadv) as [? _]. lia.
Qed.

(** The invariant pins the watermark down: it is the largest [k] whose
    prefix [1..k] has been received. *)
Lemma watermark_inv_max c R :
  watermark_inv c R ->
  consecutive_upto R (highestConsecutive c) /\
  forall k, consecutive_upto R k -> k <= highestConsecutive c.
Proof.
  intros [_ _ _ Hpre Hcov Hnext]. split; [done|].
  intros k Hk. apply N.nlt_ge. intros Hlt.
  destruct (Hcov (highestConsecutive c + 1)) as [?|?]; [apply Hk; lia|lia|lia|done].
Qed.

Lemma newClient_inv uid : watermark_inv (newClient uid) [].
Proof. split; cbn; try set_solver; [constructor|intros i Hi; lia]. Qed.

(** Updates with distinct reply IDs, in any order, keep the invariant
    over everything received. *)
Lemma foldl_update_inv c R l :
  watermark_inv c R -> NoDup (l ++ R) -> (forall x, x ∈ l -> 1 <= x) ->
  watermark_inv (foldl updateHighestConsecutiveNum c l) (rev l ++ R).
Proof.
  revert c R. induction l as [|x l IH]; intros c R Hinv Hnd Hpos; [done|]. cbn.
  assert (Hnd' : NoDup (l ++ x :: R)) by (by rewrite <- Permutation_middle).
  apply NoDup_cons in Hnd as [Hx Hnd].
  rewrite <- app_assoc. apply IH; [|exact Hnd'|set_solver].
  apply updateHighestConsecutiveNum_inv; [done|apply Hpos; set_solver|set_solver].
Qed.

(** ** Sending a request *)

(** C20: [send] gives the request the next request ID, which no
    outstanding request carries, records it as outstanding and writes
    the frame of its marshalled JSON; the request acknowledges nothing
    ([HighestReplySeen] is 0), whatever the watermark. *)
Theorem send_request_fresh c method params :
  currentRequestID c < u64_max ->
  (forall k, k ∈ dom (outstandingRequest c) -> k <= currentRequestID c) ->
  let '(c', jreq, req) := send_request c method params in
  RequestID jreq = currentRequestID c + 1 /\
  currentRequestID c + 1 ∉ dom (outstandingRequest c) /\
  outstandingRequest c' = <[currentRequestID c + 1 := req]> (outstandingRequest c) /\
  (forall k, k ∈ dom (outstandingRequest c') -> k <= currentRequestID c') /\
  HighestReplySeen jreq = 0 /\
  (send c method params).2 = client_send_frame (marshal_jsonRequest jreq).
Proof.
  intros Hmax Hdom. unfold send, send_request. cbn.
  rewrite u64_succ_small by done. split_and!; try done.
  - intros Hin. specialize (Hdom _ Hin). lia.
  - intros k. rewrite dom_insert_L, elem_of_union, elem_of_singleton.
    intros [->|Hk]; [lia|]. specialize (Hdom k Hk). lia.
Qed.

(** ** The watermark *)

(** [updateHighestConsecutiveNum] refines the abstract watermark: on
    a state that represents the received IDs [R], recording a new reply
    ID gives a state that represents [rid :: R], whose watermark has not
    decreased and is the largest [k] such that every ID of [1..k] has
    been received. *)
Theorem updateHighestConsecutiveNum_refines c R rid :
  watermark_inv c R -> 1 <= rid -> rid ∉ R ->
  watermark_inv (updateHighestConsecutiveNum c rid) (rid :: R) /\
  highestConsecutive c <= highestConsecutive (updateHighestConsecutiveNum c rid) /\
  consecutive_upto (rid :: R) (highestConsecutive (updateHighestConsecutiveNum c rid)) /\
  (forall k, consecutive_upto (rid :: R) k ->
     k <= highestConsecutive (updateHighestConsecutiveNum c rid)).
Proof.
  intros Hinv Hrid Hnew.
  destruct (updateHighestConsecutiveNum_inv c R rid Hinv Hrid Hnew) as [Hinv' Hmono].
  destruct (watermark_inv_max _ _ Hinv') as [Hpre Hmax]. by split_and!.
Qed.

(** after the replies to requests [1..n] have arrived, in any order,
    the watermark is [n] (the spec's property 3). *)
Theorem watermark_after_all_replies uid n l :
  l ≡ₚ N.of_nat <$> seq 1 n ->
  highestConsecutive (foldl updateHighestConsecutiveNum (newClient uid) l) = N.of_nat n.
Proof.
  intros Hperm.
  assert (Hin : forall x, x ∈ l <-> 1 <= x <= N.of_nat n).
  { intros x. rewrite Hperm, list_elem_of_fmap. setoid_rewrite elem_of_seq. split.
    - intros (i & -> & Hi). lia.
    - intros Hx. exists (N.to_nat x). lia. }
  assert (Hnd : NoDup l).
  { rewrite Hperm. apply NoDup_fmap; [intros ? ? ?; lia|apply NoDup_seq]. }
  pose proof (foldl_update_inv (newClient uid) [] l (newClient_inv uid)
                ltac:(by rewrite app_nil_r) ltac:(intros x Hx; apply Hin in Hx; lia)) as Hinv.
  rewrite app_nil_r in Hinv. destruct (watermark_inv_max _ _ Hinv) as [Hpre Hmax].
  apply N.le_antisymm.
  - apply N.nlt_ge. intros Hlt. specialize (Hpre (N.of_nat n + 1) ltac:(lia)).
    apply list_elem_of_rev, Hin in Hpre. lia.
  - apply Hmax. intros i Hi. apply list_elem_of_rev, Hin. lia.
Qed.

(** the model of the client runtime passes the assertions of
    [testBtree]: watermark 0 with 3 pending IDs, then 5 with 3 pending
    (before and after [setHighestConsecutive]), then 11 with 1 pending,
    the end of the last run. *)
Theorem testBtree_assertions :
  testBtree_run = [(0, 3%nat); (5, 3%nat); (5, 3%nat); (11, 1%nat); (11, 1%nat)].
Proof. reflexivity. Qed.

(** ** Witnesses *)

(** [send] never returns the reply it waited for: on every path its
    [reply] result is nil; its error is nil exactly when the incoming
    stream starts with a complete frame whose payload both unmarshals
    accept, and is otherwise the read error or an unmarshal error; the
    state and the bytes written are those of the request. *)
Theorem send_call_reply_nil c method params dec incoming :
  let '(c', frame, (reply, err)) := send_call c method params dec incoming in
  reply = None /\ (c', frame) = send c method params /\
  (err = None <-> exists buf k rest, getIO incoming = inr (buf, k, rest) /\
                  unmarshal_jsonReply dec buf = true /\ unmarshal_pingJSONReply dec buf = true).
Proof.
  unfold send_call, send_wait. destruct (send c method params) as [c' frame].
  destruct (getIO incoming) as [e|[[buf k] rest]]; cbn.
  - naive_solver.
  - destruct (unmarshal_jsonReply dec buf) eqn:H1, (unmarshal_pingJSONReply dec buf) eqn:H2.
    all: cbn; split; [done|]; split; [done|]; split.
    all: try (intros (? & ? & ? & [= <- <- <-] & ? & ?); congruence).
    all: try discriminate. eauto 10.
Qed.

Lemma send_request_fresh_witness :
  let '(c', jreq, req) := send_request (newClient "client 1") "RpcPing" "{}" in
  RequestID jreq = 1.
Proof.
  pose proof (send_request_fresh (newClient "client 1") "RpcPing" "{}") as H.
  destruct (send_request (newClient "client 1") "RpcPing" "{}") as [[c' jreq] req].
  destruct H as (H & _); [decide_by_eval|intros k Hk; set_solver|exact H].
Defined.

Lemma updateHighestConsecutiveNum_refines_witness :
  highestConsecutive (updateHighestConsecutiveNum (newClient "client 1") 1) = 1.
Proof.
  destruct (updateHighestConsecutiveNum_refines (newClient "client 1") [] 1) as (_ & _ & _ & Hmax);
    [apply newClient_inv|lia|set_solver|].
  apply N.le_antisymm; [|apply Hmax; intros i Hi; assert (i = 1) as -> by lia; set_solver].
  vm_compute. discriminate.
Defined.

Lemma watermark_after_all_replies_witness :
  highestConsecutive (foldl updateHighestConsecutiveNum (newClient "client 1") [3; 1; 2]) = 3.
Proof.
  apply (watermark_after_all_replies "client 1" 3). vm_compute.
  apply (Permutation_trans (l' := [1; 3; 2])); [apply perm_swap|apply perm_skip, perm_swap].
Defined.
