(* ===== verification/Session.v ===== *)
(** * Session: one client's state on the server and its operations

    [clientInfo] of [src/retryrpc/server.go]: the completed-reply cache
    [completedRequest] (request ID to [completedEntry]), the LRU
    [completedRequestLRU] of completions in completion order, the
    watermarks [highestReplySeen]/[previousHighestReplySeen] and the
    statistics counters.  The LRU is a [container/list]; its elements
    are modelled with explicit handles ([lruNext] allocates them), so
    that [Remove(v.lruElem)] removes exactly the element a cache entry
    points to.

    Operations: the two locked halves of [processRequest] around the
    unlocked method call ([processRequest_begin], lines 107-134, and
    [processRequest_finish], lines 135-168); [trimAClientBasedACK]
    (lines 457-476), whose [h++] loop runs on [uint64] with fuel; and
    [trimTLLBased] (lines 483-509).  The invariant [session_wf] ties the
    cache to the LRU; the lemmas below show each operation preserves
    it. *)

From S2P Require Import Prelude Wire Registry.

(** ** State *)

Record completedLRUEntry := mkLRUEntry {
  lru_requestID : requestID;
  timeCompleted : Z
}.

(** A [list.Element] of the LRU: its handle and its value. *)
Definition lruElement : Type := N * completedLRUEntry.

Record completedEntry := mkCompletedEntry {
  reply : ioReply;
  lruElem : N
}.

Record clientInfo := mkClientInfo {
  cCtx : N;
  myUniqueID : string;
  completedRequest : gmap requestID completedEntry;
  completedRequestLRU : list lruElement;
  lruNext : N;
  highestReplySeen : requestID;
  previousHighestReplySeen : requestID;
  numRPCattempted : Z;
  numRPCretried : Z;
  numRPCinprocess : Z;
  numRPCcompleted : Z;
  cntAddCompleted : Z;
  cntRmCompleted : Z;
  longestRPC : Z;
  largestReplySize : Z
}.

(** Field updates, one per field written by the code. *)
Definition set_cCtx (ci : clientInfo) (c : N) : clientInfo :=
  let '(mkClientInfo _ u m l n h p a r i d ad rm lg ls) := ci in
  mkClientInfo c u m l n h p a r i d ad rm lg ls.
Definition set_cache (ci : clientInfo) (m : gmap requestID completedEntry)
    (l : list lruElement) (n : N) : clientInfo :=
  let '(mkClientInfo c u _ _ _ h p a r i d ad rm lg ls) := ci in
  mkClientInfo c u m l n h p a r i d ad rm lg ls.
Definition set_highestReplySeen (ci : clientInfo) (h : requestID) : clientInfo :=
  let '(mkClientInfo c u m l n _ p a r i d ad rm lg ls) := ci in
  mkClientInfo c u m l n h p a r i d ad rm lg ls.
Definition set_previousHighestReplySeen (ci : clientInfo) (p : requestID) : clientInfo :=
  let '(mkClientInfo c u m l n h _ a r i d ad rm lg ls) := ci in
  mkClientInfo c u m l n h p a r i d ad rm lg ls.
Definition set_counters (ci : clientInfo) (a r i d ad rm lg ls : Z) : clientInfo :=
  let '(mkClientInfo c u m l n h p _ _ _ _ _ _ _ _) := ci in
  mkClientInfo c u m l n h p a r i d ad rm lg ls.

(** A fresh session ([getClientIDAndWait], lines 220-222). *)
Definition newClientInfo (c : N) (uid : string) : clientInfo :=
  mkClientInfo c uid ∅ [] 0 0 0 0 0 0 0 0 0 0 0.

(** [list.Remove(e)]: drop the element with handle [e]. *)
Definition lru_remove (e : N) (l : list lruElement) : list lruElement :=
  filter (fun x => x.1 <> e) l.
Arguments lru_remove : simpl never.

(** ** [processRequest] *)

(** What the first locked section decides: replay a cached reply, or run
    the method. *)
Inductive beginOutcome := Replay (ior : ioReply) | Run.

(** Lines 107-134: raise [highestReplySeen], count the attempt, and look
    the request ID up in the completed cache. *)
Definition processRequest_begin (ci : clientInfo) (jReq : jsonRequest)
  : clientInfo * beginOutcome :=
  let ci := set_highestReplySeen ci
              (if decide (highestReplySeen ci < HighestReplySeen jReq)
               then HighestReplySeen jReq else highestReplySeen ci) in
  let ci := set_counters ci (numRPCattempted ci + 1) (numRPCretried ci) (numRPCinprocess ci)
              (numRPCcompleted ci) (cntAddCompleted ci) (cntRmCompleted ci)
              (longestRPC ci) (largestReplySize ci) in
  match completedRequest ci !! RequestID jReq with
  | Some ce =>
      (set_counters ci (numRPCattempted ci) (numRPCretried ci + 1) (numRPCinprocess ci)
         (numRPCcompleted ci) (cntAddCompleted ci) (cntRmCompleted ci)
         (longestRPC ci) (largestReplySize ci),
       Replay (setupHdrReply (reply ce) RPC))
  | None =>
      (set_counters ci (numRPCattempted ci) (numRPCretried ci) (numRPCinprocess ci + 1)
         (numRPCcompleted ci) (cntAddCompleted ci) (cntRmCompleted ci)
         (longestRPC ci) (largestReplySize ci),
       Run)
  end.

(** Lines 135-168: after the method returned [ior] (started at [t0],
    ended at [t1]), record the completion at time [now]; the reply sent
    is the cached one with its header set up. *)
Definition processRequest_finish (ci : clientInfo) (rid : requestID) (ior : ioReply)
    (t0 t1 now : Z) : clientInfo * ioReply :=
  let dur := (t1 - t0)%Z in
  let ce := mkCompletedEntry (setupHdrReply ior RPC) (lruNext ci) in
  let l := Z.of_nat (String.length (JResult ior)) in
  let ci := set_cache ci (<[rid := ce]> (completedRequest ci))
              (completedRequestLRU ci ++ [(lruNext ci, mkLRUEntry rid now)])
              (lruNext ci + 1) in
  (set_counters ci (numRPCattempted ci) (numRPCretried ci) (numRPCinprocess ci - 1)
     (numRPCcompleted ci + 1) (cntAddCompleted ci + 1) (cntRmCompleted ci)
     (if decide (longestRPC ci < dur)%Z then dur else longestRPC ci)
     (if decide (largestReplySize ci < l)%Z then l else largestReplySize ci),
   reply ce).

(** ** Trimming by acknowledgement *)

(** One iteration of the loop body of lines 462-470. *)
Definition ack_trim_one (ci : clientInfo) (h : requestID) : clientInfo * Z :=
  match completedRequest ci !! h with
  | Some v =>
      let ci' := set_cache ci (delete h (completedRequest ci))
                   (lru_remove (lruElem v) (completedRequestLRU ci)) (lruNext ci) in
      (set_counters ci' (numRPCattempted ci) (numRPCretried ci) (numRPCinprocess ci)
         (numRPCcompleted ci) (cntAddCompleted ci) (cntRmCompleted ci + 1)
         (longestRPC ci) (largestReplySize ci), 1%Z)
  | None => (ci, 0%Z)
  end.

(** [for h := prev + 1; h <= highest; h++] on [uint64], with fuel: [None]
    when the fuel runs out before the loop exits. *)
Fixpoint ack_trim_loop (fuel : nat) (h : requestID) (ci : clientInfo) (n : Z)
  : option (clientInfo * Z) :=
  match fuel with
  | O => None
  | S fuel' =>
      if decide (h <= highestReplySeen ci) then
        let '(ci', k) := ack_trim_one ci h in
        ack_trim_loop fuel' (u64_succ h) ci' (n + k)%Z
      else Some (ci, n)
  end.

(** [trimAClientBasedACK]: the loop, then
    [previousHighestReplySeen = highestReplySeen]. *)
Definition trimAClientBasedACK (fuel : nat) (ci : clientInfo) : option (clientInfo * Z) :=
  match ack_trim_loop fuel (u64_succ (previousHighestReplySeen ci)) ci 0 with
  | Some (ci', n) => Some (set_previousHighestReplySeen ci' (highestReplySeen ci'), n)
  | None => None
  end.

(** ** Trimming by age *)

(** The walk of lines 485-499 from the front of the LRU: entries whose
    completion time plus [ttl] is before [t] are dropped from the cache
    (by request ID) and from the list; the walk stops at the first
    younger entry. *)
Fixpoint ttl_walk (ttl t : Z) (l : list lruElement) (m : gmap requestID completedEntry)
    (rm n : Z) : list lruElement * gmap requestID completedEntry * Z * Z :=
  match l with
  | [] => ([], m, rm, n)
  | (e, le) :: rest =>
      if decide (timeCompleted le + ttl < t)%Z
      then ttl_walk ttl t rest (delete (lru_requestID le) m) (rm + 1) (n + 1)
      else (l, m, rm, n)
  end.

Definition trimTLLBased (ttl t : Z) (ci : clientInfo) : clientInfo * Z :=
  let '(l, m, rm, n) := ttl_walk ttl t (completedRequestLRU ci) (completedRequest ci)
                          (cntRmCompleted ci) 0 in
  let ci' := set_cache ci m l (lruNext ci) in
  (set_counters ci' (numRPCattempted ci) (numRPCretried ci) (numRPCinprocess ci)
     (numRPCcompleted ci) (cntAddCompleted ci) rm (longestRPC ci) (largestReplySize ci), n).

(** [isEmpty]: no cached completion and no method call in progress. *)
Definition isEmpty (ci : clientInfo) : bool :=
  bool_decide (completedRequest ci = ∅) && bool_decide (numRPCinprocess ci = 0%Z).

(** The request IDs of a list of LRU elements. *)
Definition lru_rids (l : list lruElement) : list requestID := (fun x => lru_requestID x.2) <$> l.

(** ** The session invariant *)

Definition lru_time (x : lruElement) : Z := timeCompleted x.2.

(** Each cache entry points at an LRU element carrying its request ID;
    each LRU element is pointed at by the cache entry of its request ID;
    handles are distinct and below [lruNext]; the LRU is in completion
    order; the trim watermark does not pass the acknowledged one. *)
Record session_wf (ci : clientInfo) : Prop := {
  wf_lru_nodup : NoDup ((fun x : lruElement => x.1) <$> completedRequestLRU ci);
  wf_lru_fresh : forall x, x ∈ completedRequestLRU ci -> x.1 < lruNext ci;
  wf_map_lru : forall rid ce, completedRequest ci !! rid = Some ce ->
                 exists t, (lruElem ce, mkLRUEntry rid t) ∈ completedRequestLRU ci;
  wf_lru_map : forall e le, (e, le) ∈ completedRequestLRU ci ->
                 exists ce, completedRequest ci !! lru_requestID le = Some ce /\ lruElem ce = e;
  wf_lru_sorted : StronglySorted (fun x y => (lru_time x <= lru_time y)%Z) (completedRequestLRU ci);
  wf_watermarks : previousHighestReplySeen ci <= highestReplySeen ci
}.

(** ** The invariant, checked by evaluation *)

Fixpoint sorted_by_time (l : list lruElement) : bool :=
  match l with
  | [] => true
  | x :: l' => forallb (fun y => bool_decide (lru_time x <= lru_time y)%Z) l' && sorted_by_time l'
  end.

Definition session_wfb (ci : clientInfo) : bool :=
  bool_decide (NoDup ((fun x : lruElement => x.1) <$> completedRequestLRU ci)) &&
  forallb (fun x : lruElement => bool_decide (x.1 < lruNext ci)) (completedRequestLRU ci) &&
  forallb (fun kv : requestID * completedEntry =>
             existsb (fun x : lruElement => bool_decide (x.1 = lruElem kv.2 /\ lru_requestID x.2 = kv.1))
               (completedRequestLRU ci))
    (map_to_list (completedRequest ci)) &&
  forallb (fun x : lruElement =>
             match completedRequest ci !! lru_requestID x.2 with
             | Some ce => bool_decide (lruElem ce = x.1)
             | None => false
             end) (completedRequestLRU ci) &&
  sorted_by_time (completedRequestLRU ci) &&
  bool_decide (previousHighestReplySeen ci <= highestReplySeen ci).

(** A session of [client 1] that completed requests 1, 2 and 3 at times
    1, 2 and 3, and was told by request 4 that replies up to 2 were
    seen. *)
Definition demo_reply : ioReply := mkIoReply None "ok".

Definition demo_request (rid hrs : requestID) : jsonRequest :=
  mkJsonRequest "RpcPing" "{}" "client 1" rid hrs.

Definition demo_session : clientInfo :=
  let ci := newClientInfo 0 "client 1" in
  let ci := (processRequest_finish ci 1 demo_reply 0 1 1).1 in
  let ci := (processRequest_finish ci 2 demo_reply 1 2 2).1 in
  let ci := (processRequest_finish ci 3 demo_reply 2 3 3).1 in
  (processRequest_begin ci (demo_request 4 2)).1.

(** The invariant only reads the cache, the LRU, the handle allocator and
    the watermarks; raising [highestReplySeen] keeps it. *)
Lemma session_wf_frame ci ci' :
  completedRequest ci' = completedRequest ci ->
  completedRequestLRU ci' = completedRequestLRU ci ->
  lruNext ci' = lruNext ci ->
  previousHighestReplySeen ci' = previousHighestReplySeen ci ->
  highestReplySeen ci <= highestReplySeen ci' ->
  session_wf ci -> session_wf ci'.
Proof.
  intros Hm Hl Hn Hp Hh [? ? ? ? ? ?]. split; rewrite ?Hm, ?Hl, ?Hn, ?Hp; auto. lia.
Qed.

Lemma sorted_by_time_sound l :
  sorted_by_time l = true -> StronglySorted (fun x y => (lru_time x <= lru_time y)%Z) l.
Proof.
  induction l as [|x l IH]; cbn; [constructor|].
  intros [Hall Hs]%andb_true_iff. constructor; [by apply IH|].
  apply Forall_forall. intros y Hy. apply forallb_forall with (x := y) in Hall; [|by apply list_elem_of_In].
  by apply bool_decide_eq_true_1 in Hall.
Qed.

(** The boolean check is sound for the invariant. *)
Lemma session_wfb_sound ci : session_wfb ci = true -> session_wf ci.
Proof.
  unfold session_wfb. rewrite !andb_true_iff, !forallb_forall.
  intros (((((Hnd & Hfr) & Hml) & Hlm) & Hso) & Hwm). split.
  - by rewrite bool_decide_eq_true in Hnd.
  - intros x Hx%list_elem_of_In. specialize (Hfr x Hx). by rewrite bool_decide_eq_true in Hfr.
  - intros rid ce Hce. apply elem_of_map_to_list, list_elem_of_In, Hml in Hce.
    apply existsb_exists in Hce as ([e le] & Hin & Hx). rewrite bool_decide_eq_true in Hx.
    cbn in Hx. destruct Hx as [-> Hrid]. exists (timeCompleted le).
    apply list_elem_of_In. destruct le; cbn in *. by subst.
  - intros e le Hin. apply list_elem_of_In, Hlm in Hin. cbn in Hin.
    destruct (completedRequest ci !! lru_requestID le) as [ce|]; [|done].
    rewrite bool_decide_eq_true in Hin. eauto.
  - by apply sorted_by_time_sound.
  - by rewrite bool_decide_eq_true in Hwm.
Qed.

(** [processRequest_begin] keeps the invariant. *)
Lemma processRequest_begin_wf ci jReq :
  session_wf ci -> session_wf (processRequest_begin ci jReq).1.
Proof.
  intros Hwf. destruct ci. unfold processRequest_begin. cbn.
  destruct (_ !! RequestID jReq); cbn;
    (eapply session_wf_frame; [..|exact Hwf]); cbn; try done; case_decide; lia.
Qed.

(** [processRequest_finish] keeps the invariant when the request ID is
    not cached yet and the completion time is not before any earlier
    completion. *)
Lemma processRequest_finish_wf ci rid ior t0 t1 now :
  session_wf ci ->
  completedRequest ci !! rid = None ->
  (forall x, x ∈ completedRequestLRU ci -> (lru_time x <= now)%Z) ->
  session_wf (processRequest_finish ci rid ior t0 t1 now).1.
Proof.
  intros [Hnd Hfr Hml Hlm Hso Hwm] Hnone Hnow.
  destruct ci as [c u m l n h p a r i d ad rm lg ls]; cbn in *.
  split; cbn.
  - rewrite fmap_app, NoDup_app. split; [done|]. split; [|cbn; apply NoDup_singleton].
    intros e He1 He2. apply list_elem_of_fmap in He1 as [x [-> Hx]].
    apply list_elem_of_singleton in He2. cbn in He2. specialize (Hfr x Hx). lia.
  - intros x Hx. apply elem_of_app in Hx as [Hx|Hx%list_elem_of_singleton].
    + specialize (Hfr x Hx). lia.
    + subst. cbn. lia.
  - intros rid' ce Hce. destruct (decide (rid = rid')) as [<-|Hne].
    + rewrite lookup_insert_eq in Hce. simplify_eq/=. exists now. set_solver.
    + rewrite lookup_insert_ne in Hce by done.
      destruct (Hml rid' ce Hce) as [t Ht]. exists t. set_solver.
  - intros e le Hin. apply elem_of_app in Hin as [Hin|Hin%list_elem_of_singleton].
    + destruct (Hlm e le Hin) as [ce [Hce <-]].
      destruct (decide (rid = lru_requestID le)) as [Heq|Hne].
      { rewrite <- Heq in Hce. by rewrite Hce in Hnone. }
      rewrite lookup_insert_ne by done. eauto.
    + simplify_eq/=. rewrite lookup_insert_eq. eauto.
  - apply StronglySorted_snoc; [done|]. intros y Hy. apply Hnow. done.
  - done.
Qed.

(** ** Trimming by acknowledgement: invariant, result and termination *)

Lemma lru_remove_sublist e l : lru_remove e l `sublist_of` l.
Proof. apply sublist_filter. Qed.

Lemma elem_of_lru_remove x e l : x ∈ lru_remove e l <-> x ∈ l /\ x.1 <> e.
Proof. unfold lru_remove. rewrite list_elem_of_filter. tauto. Qed.

(** One iteration keeps the invariant and the watermarks, and removes
    exactly request ID [h] from the cache. *)
Lemma ack_trim_one_spec ci h :
  session_wf ci ->
  session_wf (ack_trim_one ci h).1 /\
  highestReplySeen (ack_trim_one ci h).1 = highestReplySeen ci /\
  previousHighestReplySeen (ack_trim_one ci h).1 = previousHighestReplySeen ci /\
  completedRequest (ack_trim_one ci h).1 = delete h (completedRequest ci) /\
  completedRequestLRU (ack_trim_one ci h).1 `sublist_of` completedRequestLRU ci.
Proof.
  intros Hwf. unfold ack_trim_one.
  destruct (completedRequest ci !! h) as [v|] eqn:Hv;
    [|split_and!; [done..| by rewrite delete_id | done]].
  destruct Hwf as [Hnd Hfr Hml Hlm Hso Hwm].
  destruct ci as [c u m l n hi p a r i d ad rm lg ls]; cbn in *.
  split_and!; [|done..|apply lru_remove_sublist]. split; cbn.
  - eapply NoDup_fst_sublist; [apply lru_remove_sublist|done].
  - intros x [Hx _]%elem_of_lru_remove. by apply Hfr.
  - intros rid ce Hce. apply lookup_delete_Some in Hce as [Hne Hce].
    destruct (Hml rid ce Hce) as [t Ht]. exists t. apply elem_of_lru_remove.
    split; [done|]. cbn. intros Heq.
    destruct (Hml h v Hv) as [t' Ht'].
    rewrite Heq in Ht. pose proof (NoDup_fst_unique _ _ _ _ Hnd Ht Ht') as [=]. congruence.
  - intros e le [Hin Hne]%elem_of_lru_remove. cbn in Hne.
    destruct (Hlm e le Hin) as [ce [Hce <-]]. exists ce. split; [|done].
    apply lookup_delete_Some. split; [|done]. intros Heq. rewrite <- Heq in Hce. congruence.
  - eapply StronglySorted_sublist; [apply lru_remove_sublist|done].
  - done.
Qed.

(** The loop keeps the invariant and the watermarks, and its result
    differs from its input exactly on the IDs it visited. *)
Lemma ack_trim_loop_spec fuel h ci n ci' n' :
  session_wf ci -> highestReplySeen ci < u64_max ->
  ack_trim_loop fuel h ci n = Some (ci', n') ->
  session_wf ci' /\
  highestReplySeen ci' = highestReplySeen ci /\
  previousHighestReplySeen ci' = previousHighestReplySeen ci /\
  (forall k, h <= k <= highestReplySeen ci -> completedRequest ci' !! k = None) /\
  (forall k, (k < h \/ highestReplySeen ci < k) -> completedRequest ci' !! k = completedRequest ci !! k) /\
  completedRequestLRU ci' `sublist_of` completedRequestLRU ci.
Proof.
  revert h ci n. induction fuel as [|fuel IH]; intros h ci n Hwf Hmax Hloop; [done|].
  cbn in Hloop. case_decide as Hh.
  - destruct (ack_trim_one ci h) as [ci1 k] eqn:E1.
    pose proof (ack_trim_one_spec ci h Hwf) as (Hwf1 & Hhi1 & Hp1 & Hm1 & Hl1).
    rewrite E1 in Hwf1, Hhi1, Hp1, Hm1, Hl1. cbn in *.
    rewrite u64_succ_small in Hloop by lia.
    destruct (IH _ _ _ Hwf1 ltac:(lia) Hloop) as (Hwf' & Hhi' & Hp' & Hgone & Hkeep & Hl').
    split_and!; [done|lia|lia| | |by etrans].
    + intros k' Hk'. destruct (decide (k' = h)) as [->|Hne].
      * rewrite Hkeep by lia. by rewrite Hm1, lookup_delete_eq.
      * apply Hgone. lia.
    + intros k' Hk'. rewrite Hkeep by lia. rewrite Hm1, lookup_delete_ne; [done|lia].
  - simplify_eq. split_and!; [done..| |done|done]. intros k Hk. lia.
Qed.

(** What the ACK-based trim does to a well-formed session, in full. *)
Lemma trimAClientBasedACK_correct fuel ci ci' n :
  session_wf ci -> highestReplySeen ci < u64_max ->
  trimAClientBasedACK fuel ci = Some (ci', n) ->
  session_wf ci' /\
  previousHighestReplySeen ci' = highestReplySeen ci /\
  (forall k, previousHighestReplySeen ci < k <= highestReplySeen ci ->
             completedRequest ci' !! k = None) /\
  (forall k, (k <= previousHighestReplySeen ci \/ highestReplySeen ci < k) ->
             completedRequest ci' !! k = completedRequest ci !! k) /\
  completedRequest ci' ⊆ completedRequest ci /\
  completedRequestLRU ci' `sublist_of` completedRequestLRU ci.
Proof.
  intros Hwf Hmax Htrim. unfold trimAClientBasedACK in Htrim.
  destruct (ack_trim_loop _ _ _ _) as [[ci1 n1]|] eqn:Hloop; [|done]. simplify_eq.
  pose proof (wf_watermarks _ Hwf) as Hwm.
  rewrite u64_succ_small in Hloop by lia.
  destruct (ack_trim_loop_spec _ _ _ _ _ _ Hwf Hmax Hloop) as (Hwf1 & Hhi1 & Hp1 & Hgone & Hkeep & Hl1).
  destruct ci1 as [c u m l nx hi p a r i d ad rm lg ls]; cbn in *.
  split_and!.
  - destruct Hwf1 as [? ? ? ? ? ?]. split; cbn; auto; lia.
  - done.
  - intros k Hk. apply Hgone. lia.
  - intros k Hk. apply Hkeep. lia.
  - apply map_subseteq_spec. intros k ce Hk.
    destruct (decide (previousHighestReplySeen ci < k <= highestReplySeen ci)).
    + rewrite Hgone in Hk by lia. done.
    + rewrite Hkeep in Hk by lia. done.
  - done.
Qed.

Lemma ack_trim_one_highest ci h :
  highestReplySeen (ack_trim_one ci h).1 = highestReplySeen ci.
Proof. unfold ack_trim_one. destruct (_ !! h); [by destruct ci|done]. Qed.

Lemma ack_trim_loop_enough_fuel fuel h ci n :
  highestReplySeen ci < u64_max -> h <= highestReplySeen ci + 1 ->
  (N.to_nat (highestReplySeen ci + 1 - h) < fuel)%nat ->
  is_Some (ack_trim_loop fuel h ci n).
Proof.
  revert h ci n. induction fuel as [|fuel IH]; intros h ci n Hmax Hh Hfuel; [lia|].
  cbn. case_decide as Hle; [|by eexists].
  destruct (ack_trim_one ci h) as [ci1 k] eqn:E1.
  pose proof (ack_trim_one_highest ci h) as Hhi. rewrite E1 in Hhi. cbn in Hhi.
  rewrite u64_succ_small by lia. apply IH; lia.
Qed.

Lemma ack_trim_loop_at_max fuel h ci n :
  u64_max <= highestReplySeen ci -> is_u64 h -> ack_trim_loop fuel h ci n = None.
Proof.
  revert h ci n. induction fuel as [|fuel IH]; intros h ci n Hmax Hh; [done|].
  cbn. rewrite decide_True by (unfold u64_max in *; lia).
  destruct (ack_trim_one ci h) as [ci1 k] eqn:E1.
  pose proof (ack_trim_one_highest ci h) as Hhi. rewrite E1 in Hhi. cbn in Hhi.
  apply IH; [lia|apply u64_succ_bound].
Qed.

(** C10: Termination of the ACK trim: below [MaxUint64], fuel one above the
    width of the acknowledged window is enough for the loop to exit. *)
Theorem trimAClientBasedACK_terminates ci fuel :
  previousHighestReplySeen ci <= highestReplySeen ci < u64_max ->
  (N.to_nat (highestReplySeen ci - previousHighestReplySeen ci) < fuel)%nat ->
  is_Some (trimAClientBasedACK fuel ci).
Proof.
  intros Hwin Hfuel. unfold trimAClientBasedACK.
  destruct (ack_trim_loop_enough_fuel fuel (u64_succ (previousHighestReplySeen ci)) ci 0)
    as [[ci' n] ->]; [lia|rewrite u64_succ_small by lia; lia|rewrite u64_succ_small by lia; lia|].
  by eexists.
Qed.

(** When [highestReplySeen] is [MaxUint64], [h <= highestReplySeen]
    holds for every [uint64] [h] and [h++] wraps to 0: the ACK trim loop
    never exits, whatever the fuel. *)
Theorem trimAClientBasedACK_diverges_at_max ci fuel :
  u64_max <= highestReplySeen ci -> trimAClientBasedACK fuel ci = None.
Proof.
  intros Hmax. unfold trimAClientBasedACK.
  by rewrite ack_trim_loop_at_max by (done || apply u64_succ_bound).
Qed.


(** The walk drops a prefix of old entries, stops at a young one (or at
    the end), and deletes from the cache exactly the request IDs of the
    dropped prefix. *)
(** ** Trimming by age: invariant and bound *)

Lemma ttl_walk_decomp ttl t l m rm n l' m' rm' n' :
  ttl_walk ttl t l m rm n = (l', m', rm', n') ->
  exists pre, l = pre ++ l' /\
    Forall (fun x => lru_time x + ttl < t)%Z pre /\
    (forall x rest, l' = x :: rest -> (t <= lru_time x + ttl)%Z) /\
    (forall k, m' !! k = if decide (k ∈ lru_rids pre) then None else m !! k) /\
    rm' = (rm + Z.of_nat (length pre))%Z.
Proof.
  revert m rm n. induction l as [|[e le] l IH]; intros m rm n Hwalk; cbn in Hwalk.
  - simplify_eq. exists []. split_and!; [done|done|done| |cbn; lia].
    intros k. by rewrite decide_False by set_solver.
  - case_decide as Hold.
    + destruct (IH _ _ _ Hwalk) as (pre & -> & Hall & Hyoung & Hm & Hrm).
      exists ((e, le) :: pre). split_and!; [done|by constructor| done | |cbn; lia].
      intros k. rewrite Hm. unfold lru_rids. cbn.
      destruct (decide (k = lru_requestID le)) as [->|Hne].
      * rewrite lookup_delete_eq. by repeat case_decide; set_solver.
      * rewrite lookup_delete_ne by done.
        repeat case_decide; set_solver.
    + simplify_eq. exists []. split_and!; [done|done| |  |cbn; lia].
      * intros x rest Heq. inversion Heq; subst. unfold lru_time. cbn. lia.
      * intros k. by rewrite decide_False by set_solver.
Qed.

Lemma NoDup_fst_app_disjoint (pre post : list lruElement) e a b :
  NoDup ((fun x : lruElement => x.1) <$> pre ++ post) -> (e, a) ∈ pre -> (e, b) ∈ post -> False.
Proof.
  rewrite fmap_app, NoDup_app. intros (_ & Hdis & _) Ha Hb.
  apply (Hdis e); apply list_elem_of_fmap; [by exists (e, a) | by exists (e, b)].
Qed.

(** What the TTL-based trim does to a well-formed session, in full. *)
Lemma trimTLLBased_correct ttl t ci ci' k :
  session_wf ci ->
  trimTLLBased ttl t ci = (ci', k) ->
  session_wf ci' /\
  (forall x, x ∈ completedRequestLRU ci' -> (t <= lru_time x + ttl)%Z) /\
  (forall rid ce, completedRequest ci' !! rid = Some ce ->
     completedRequest ci !! rid = Some ce /\
     exists tc, (lruElem ce, mkLRUEntry rid tc) ∈ completedRequestLRU ci' /\ (t <= tc + ttl)%Z) /\
  completedRequestLRU ci' `sublist_of` completedRequestLRU ci.
Proof.
  intros Hwf Htrim. unfold trimTLLBased in Htrim.
  destruct (ttl_walk _ _ _ _ _ _) as [[[l' m'] rm'] n'] eqn:Hwalk.
  destruct (ttl_walk_decomp _ _ _ _ _ _ _ _ _ _ Hwalk) as (pre & Hl & Hold & Hyoung & Hm & _).
  destruct Hwf as [Hnd Hfr Hml Hlm Hso Hwm].
  destruct ci as [c u m l nx hi p a r i d ad rm lg ls]; cbn in *; simplify_eq/=.
  assert (Hsub : l' `sublist_of` pre ++ l') by (apply sublist_inserts_l; done).
  assert (Hyoung' : forall x, x ∈ l' -> (t <= lru_time x + ttl)%Z).
  { intros x Hx. destruct l' as [|y rest]; [set_solver|].
    specialize (Hyoung y rest eq_refl).
    apply elem_of_cons in Hx as [->|Hx]; [done|].
    apply StronglySorted_sublist with (l1 := y :: rest) in Hso; [|done].
    apply StronglySorted_inv in Hso as [_ Hall]. rewrite Forall_forall in Hall.
    specialize (Hall x Hx). lia. }
  assert (Hmap : forall rid ce, m' !! rid = Some ce ->
            m !! rid = Some ce /\ exists tc, (lruElem ce, mkLRUEntry rid tc) ∈ l').
  { intros rid ce Hce. rewrite Hm in Hce. case_decide as Hin; [done|]. split; [done|].
    destruct (Hml rid ce Hce) as [tc Htc]. exists tc.
    apply elem_of_app in Htc as [Htc|Htc]; [|done].
    destruct Hin. apply list_elem_of_fmap. by exists (lruElem ce, mkLRUEntry rid tc). }
  split_and!.
  - split; cbn.
    + by eapply NoDup_fst_sublist.
    + intros x Hx. apply Hfr. by apply (sublist_subseteq _ _ Hsub).
    + intros rid ce Hce. by destruct (Hmap rid ce Hce) as [_ ?].
    + intros e le Hin. destruct (Hlm e le) as [ce [Hce He]]; [set_solver|].
      exists ce. split; [|done]. rewrite Hm. case_decide as Hpre; [|done].
      apply list_elem_of_fmap in Hpre as [[e2 le2] [Hrid Hin2]]. cbn in Hrid.
      destruct (Hlm e2 le2) as [ce2 [Hce2 He2]]; [set_solver|].
      rewrite <- Hrid, Hce in Hce2. simplify_eq.
      exfalso. by apply (NoDup_fst_app_disjoint pre l' (lruElem ce2) le2 le).
    + eapply StronglySorted_sublist; [exact Hsub|done].
    + done.
  - done.
  - intros rid ce Hce. destruct (Hmap rid ce Hce) as [Hold' [tc Htc]]. split; [done|].
    exists tc. split; [done|]. apply (Hyoung' _ Htc).
  - done.
Qed.

(** Whether the ACK trim exits does not depend on the cache. *)
Lemma trimAClientBasedACK_below_max fuel ci r :
  trimAClientBasedACK fuel ci = Some r -> highestReplySeen ci < u64_max.
Proof.
  unfold trimAClientBasedACK. intros Hr.
  destruct (decide (highestReplySeen ci < u64_max)) as [|Hmax]; [done|].
  rewrite ack_trim_loop_at_max in Hr by (lia || apply u64_succ_bound). done.
Qed.

(** C9: ACK-based trim ([trimAClientBasedACK]): it keeps the invariant, sets
    [previousHighestReplySeen] to [highestReplySeen], and the request IDs
    still cached afterwards are exactly those cached before outside the
    acknowledged window [(previousHighestReplySeen, highestReplySeen]]. *)
Theorem trimAClientBasedACK_spec fuel ci ci' n :
  session_wf ci -> highestReplySeen ci < u64_max ->
  trimAClientBasedACK fuel ci = Some (ci', n) ->
  session_wf ci' /\
  previousHighestReplySeen ci' = highestReplySeen ci /\
  forall k, k ∈ dom (completedRequest ci') <->
    k ∈ dom (completedRequest ci) /\
    ~ (previousHighestReplySeen ci < k <= highestReplySeen ci).
Proof.
  intros Hwf Hmax Htrim.
  destruct (trimAClientBasedACK_correct _ _ _ _ Hwf Hmax Htrim) as (Hwf' & Hp & Hgone & Hkeep & _).
  split_and!; [done|done|]. intros k. rewrite !elem_of_dom.
  destruct (decide (previousHighestReplySeen ci < k <= highestReplySeen ci)) as [Hin|Hout].
  - rewrite Hgone by done. split; [by intros []|tauto].
  - rewrite Hkeep by lia. tauto.
Qed.

(** C11: TTL-based trim ([trimTLLBased]) at time [t]: it keeps the invariant,
    every remaining LRU entry and every remaining cached reply completed
    no earlier than [t - ttl], and every reply it keeps was cached
    before. *)
Theorem trimTLLBased_spec ttl t ci ci' k :
  session_wf ci ->
  trimTLLBased ttl t ci = (ci', k) ->
  session_wf ci' /\
  (forall x, x ∈ completedRequestLRU ci' -> (t <= lru_time x + ttl)%Z) /\
  (forall rid ce, completedRequest ci' !! rid = Some ce ->
     completedRequest ci !! rid = Some ce /\
     exists tc, (lruElem ce, mkLRUEntry rid tc) ∈ completedRequestLRU ci' /\ (t <= tc + ttl)%Z).
Proof. intros Hwf Htrim. by destruct (trimTLLBased_correct _ _ _ _ _ Hwf Htrim) as (? & ? & ? & _). Qed.

(** [processRequest_begin] neither reserves the request ID nor touches
    the cache: on a miss it answers [Run] and leaves the cache, the LRU
    and the next handle as they were. *)
Lemma processRequest_begin_miss ci jReq :
  completedRequest ci !! RequestID jReq = None ->
  (processRequest_begin ci jReq).2 = Run /\
  completedRequest (processRequest_begin ci jReq).1 = completedRequest ci /\
  completedRequestLRU (processRequest_begin ci jReq).1 = completedRequestLRU ci /\
  lruNext (processRequest_begin ci jReq).1 = lruNext ci.
Proof.
  intros Hnone. destruct ci as [c u m l n h p a r i d ad rm lg ls]; cbn in Hnone.
  unfold processRequest_begin; cbn. by rewrite Hnone.
Qed.

(** C13: two workers for one request ID, as two frames with that ID on
    one connection produce ([serviceClient] spawns a [processRequest]
    per frame): if both take the first locked section before either
    completes, both miss the cache and run the method; after both
    complete, the first completion's LRU element points at a cache entry
    that refers to the second one's element, and the session breaks
    [session_wf].  This holds for every session in which the request is
    not cached. *)
Theorem duplicate_frame_double_execution ci jReq ior1 ior2 t0 t1 now1 t0' t1' now2 :
  completedRequest ci !! RequestID jReq = None ->
  let b1 := processRequest_begin ci jReq in
  let b2 := processRequest_begin b1.1 jReq in
  let f1 := (processRequest_finish b2.1 (RequestID jReq) ior1 t0 t1 now1).1 in
  let f2 := (processRequest_finish f1 (RequestID jReq) ior2 t0' t1' now2).1 in
  b1.2 = Run /\ b2.2 = Run /\ ~ session_wf f2.
Proof.
  intros Hnone. cbv zeta.
  destruct (processRequest_begin_miss ci jReq Hnone) as (Ho1 & Hm1 & Hl1 & Hn1).
  destruct (processRequest_begin_miss (processRequest_begin ci jReq).1 jReq)
    as (Ho2 & Hm2 & Hl2 & Hn2); [by rewrite Hm1|].
  split_and!; [done|done|]. intros Hwf.
  set (b := (processRequest_begin (processRequest_begin ci jReq).1 jReq).1) in *.
  destruct (wf_lru_map _ Hwf (lruNext b) (mkLRUEntry (RequestID jReq) now1)) as (ce & Hce & He).
  - destruct b as [c u m l n h p a r i d ad rm lg ls]. cbn. set_solver.
  - destruct b as [c u m l n h p a r i d ad rm lg ls]. cbn in Hce, He.
    rewrite lookup_insert_eq in Hce. injection Hce as <-. cbn in He. lia.
Qed.

(** ** Witnesses on [demo_session] *)

(** A fresh session, one request twice. *)
Lemma duplicate_frame_double_execution_witness :
  completedRequest (newClientInfo 0 "client 1") !! 1 = None /\
  (processRequest_begin (newClientInfo 0 "client 1") (mkJsonRequest "RpcPing" "{}" "client 1" 1 0)).2 = Run.
Proof.
  assert (Hn : completedRequest (newClientInfo 0 "client 1") !! 1 = None) by reflexivity.
  split; [done|].
  exact (proj1 (duplicate_frame_double_execution (newClientInfo 0 "client 1")
    (mkJsonRequest "RpcPing" "{}" "client 1" 1 0)
    (mkIoReply None "a") (mkIoReply None "b") 0 0 0 0 0 0 Hn)).
Defined.

(** The ACK trim of [demo_session] keeps it well formed and moves the
    trim watermark to 2. *)
Lemma trimAClientBasedACK_spec_witness :
  match trimAClientBasedACK 3 demo_session with
  | Some (ci', _) => session_wf ci' /\ previousHighestReplySeen ci' = 2
  | None => False
  end.
Proof.
  destruct (trimAClientBasedACK 3 demo_session) as [[ci' n]|] eqn:E; [|vm_compute in E; discriminate E].
  destruct (trimAClientBasedACK_spec 3 demo_session ci' n) as (Hwf & Hp & _);
    [apply session_wfb_sound; vm_compute; reflexivity|decide_by_eval|exact E|].
  split; [exact Hwf|]. rewrite Hp. vm_compute. reflexivity.
Defined.

Lemma trimAClientBasedACK_terminates_witness : is_Some (trimAClientBasedACK 3 demo_session).
Proof. apply trimAClientBasedACK_terminates; decide_by_eval. Defined.

Lemma trimAClientBasedACK_diverges_at_max_witness :
  trimAClientBasedACK 1000 (set_highestReplySeen demo_session u64_max) = None.
Proof. apply trimAClientBasedACK_diverges_at_max. decide_by_eval. Defined.

(** The TTL trim of [demo_session] at time 4 with a TTL of 1 keeps it
    well formed. *)
Lemma trimTLLBased_spec_witness : session_wf (trimTLLBased 1 4 demo_session).1.
Proof.
  destruct (trimTLLBased 1 4 demo_session) as [ci' k] eqn:E.
  destruct (trimTLLBased_spec 1 4 demo_session ci' k) as (Hwf & _);
    [apply session_wfb_sound; vm_compute; reflexivity|exact E|exact Hwf].
Defined.
