(* ===== verification/Server.v ===== *)
(** * Server: the RetryRPC server as a step function over events

    The server of [src/retryrpc/server.go]: the accept loop [run] with
    [getClientIDAndWait] (the handshake frame is read by [readClientID];
    [run_accept] is one iteration of [run], and every iteration is a
    step), the per-connection [serviceClient] loop, the
    [processRequest] goroutines, and [trimCompleted].  Goroutines are
    interleaved by an explicit sequence of events; [server_step] is
    executable, so the traces below are checked by evaluation.

    The state holds the session map [perClientInfo] (client identifier to
    the address of its [clientInfo]) over a heap [cis] of [clientInfo]
    objects: a [processRequest] goroutine keeps the pointer it was given
    even when the trim daemon drops the map entry.  Connection contexts
    [connCtx] live in the heap [conns].  [accepting] is the connection
    whose handshake the accept loop is blocked on.  [deadlocked] records
    that the server lock was never released (a goroutine holds it
    forever); every code path that takes the server lock is then
    disabled.

    A ghost part, which the code does not have, records what the
    theorems talk about: every call of a method ([executed]), every reply
    written ([sent]), the request IDs framed on each connection
    ([framed]) and the cached replies the trims removed ([trimmed]). *)

From S2P Require Import Prelude Wire Registry Session.
From Stdlib Require Import Strings.Byte.

(** ** State *)

Record connCtx := mkConnCtx {
  cc_ci : option N;
  serviceClientExited : bool;
  activeRPCs : nat
}.

(** A [processRequest] goroutine: the session and connection it was
    given, the request it decoded ([None]: [json.Unmarshal] failed), and
    whether it has passed its first locked section (it then runs the
    method, started at time [start]). *)
Inductive workerPhase := Spawned | Running (start : Z).

Record worker := mkWorker {
  w_ci : N;
  w_conn : N;
  w_req : option jsonRequest;
  w_phase : workerPhase
}.

Record sentReply := mkSent {
  sent_conn : N;
  sent_ci : N;
  sent_rid : requestID;
  sent_reply : ioReply
}.

Record ghost := mkGhost {
  executed : list (N * requestID);
  sent : list sentReply;
  framed : gset (N * requestID);
  trimmed : gset (N * requestID)
}.

Record server := mkServer {
  svrMap : gmap string methodArgs;
  completedLongTTL : Z;
  perClientInfo : gmap string N;
  cis : gmap N clientInfo;
  conns : gmap N connCtx;
  nextId : N;
  accepting : option (N * N);
  workers : list worker;
  halting : bool;
  deadlocked : bool;
  clock : Z;
  gh : ghost
}.

(** The server after [NewServer] and [Register]: nothing accepted yet. *)
Definition initServer (svr : gmap string methodArgs) (ttl : Z) : server :=
  mkServer svr ttl ∅ ∅ ∅ 0 None [] false false 0 (mkGhost [] [] ∅ ∅).

(** Updates of the mutable part. *)
Definition set_sessions (s : server) (pci : gmap string N) (h : gmap N clientInfo) : server :=
  let '(mkServer m ttl _ _ cs n a ws hl dl t g) := s in mkServer m ttl pci h cs n a ws hl dl t g.
Definition set_conns (s : server) (cs : gmap N connCtx) (n : N) (a : option (N * N)) : server :=
  let '(mkServer m ttl pci h _ _ _ ws hl dl t g) := s in mkServer m ttl pci h cs n a ws hl dl t g.
Definition set_workers (s : server) (ws : list worker) : server :=
  let '(mkServer m ttl pci h cs n a _ hl dl t g) := s in mkServer m ttl pci h cs n a ws hl dl t g.
Definition set_flags (s : server) (hl dl : bool) (t : Z) : server :=
  let '(mkServer m ttl pci h cs n a ws _ _ _ g) := s in mkServer m ttl pci h cs n a ws hl dl t g.
Definition set_ghost (s : server) (g : ghost) : server :=
  let '(mkServer m ttl pci h cs n a ws hl dl t _) := s in mkServer m ttl pci h cs n a ws hl dl t g.

Definition add_executed (g : ghost) (x : N * requestID) : ghost :=
  mkGhost (executed g ++ [x]) (sent g) (framed g) (trimmed g).
Definition add_sent (g : ghost) (x : sentReply) : ghost :=
  mkGhost (executed g) (sent g ++ [x]) (framed g) (trimmed g).
Definition add_framed (g : ghost) (x : N * requestID) : ghost :=
  mkGhost (executed g) (sent g) ({[x]} ∪ framed g) (trimmed g).
Definition add_trimmed (g : ghost) (x : gset (N * requestID)) : ghost :=
  mkGhost (executed g) (sent g) (framed g) (x ∪ trimmed g).

Definition set_activeRPCs (cc : connCtx) (k : nat) : connCtx :=
  mkConnCtx (cc_ci cc) (serviceClientExited cc) k.

(** The cached replies of session [p] that disappeared between two
    versions of its cache. *)
Definition removed_keys (p : N) (before after : gmap requestID completedEntry)
  : gset (N * requestID) :=
  set_map (fun k => (p, k)) (dom before ∖ dom after).

(** ** Events *)

Inductive event :=
  | EvAcceptNew (uid : string)       (* run + getClientIDAndWait, first connection *)
  | EvAcceptKnown (uid : string)     (* run + getClientIDAndWait, returning client *)
  | EvAcceptFailed                   (* run: the handshake frame is rejected *)
  | EvRebind                         (* getClientIDAndWait resumes after the waits *)
  | EvFrame (c : N) (req : jsonRequest)  (* serviceClient reads an RPC frame *)
  | EvFrameMalformed (c : N)         (* an RPC frame whose JSON does not parse *)
  | EvFrameOther (c : N)             (* a frame of another type *)
  | EvExit (c : N)                   (* serviceClient's read fails *)
  | EvBegin (i : nat)                (* worker i: first locked section *)
  | EvFinish (i : nat)               (* worker i: method returned, second section *)
  | EvTick (d : Z)                   (* time passes *)
  | EvTrimShort                      (* trimCompleted(t, false) *)
  | EvTrimLong                       (* trimCompleted(t, true) *)
  | EvClose.                         (* Close sets halting *)

(** ** The trim daemon's passes over all sessions *)

(** Fuel for one session's ACK trim: one more than the width of the
    acknowledged window, which [trimAClientBasedACK_terminates] shows is
    enough below [MaxUint64]; at [MaxUint64] the loop never exits
    whatever the fuel ([trimAClientBasedACK_diverges_at_max]), and no
    fuel is spent. *)
Definition ack_fuel (ci : clientInfo) : nat :=
  if decide (highestReplySeen ci < u64_max)
  then S (N.to_nat (highestReplySeen ci - previousHighestReplySeen ci))
  else O.

(** Lines 445-448: [trimAClientBasedACK] on every session of the map, in
    the order given; [None] when one of the loops never exits.  The
    second component collects the cached replies removed. *)
Fixpoint trim_short_all (ps : list N) (h : gmap N clientInfo)
  : option (gmap N clientInfo * gset (N * requestID)) :=
  match ps with
  | [] => Some (h, ∅)
  | p :: ps' =>
      match h !! p with
      | Some ci =>
          match trimAClientBasedACK (ack_fuel ci) ci with
          | Some (ci', _) =>
              match trim_short_all ps' (<[p := ci']> h) with
              | Some (h', r) => Some (h', removed_keys p (completedRequest ci) (completedRequest ci') ∪ r)
              | None => None
              end
          | None => None
          end
      | None => trim_short_all ps' h
      end
  end.

(** Lines 416-426: [trimTLLBased] on every session of the map. *)
Fixpoint trim_long_all (ttl t : Z) (ps : list N) (h : gmap N clientInfo)
  : gmap N clientInfo * gset (N * requestID) :=
  match ps with
  | [] => (h, ∅)
  | p :: ps' =>
      match h !! p with
      | Some ci =>
          let ci' := (trimTLLBased ttl t ci).1 in
          let '(h', r) := trim_long_all ttl t ps' (<[p := ci']> h) in
          (h', removed_keys p (completedRequest ci) (completedRequest ci') ∪ r)
      | None => trim_long_all ttl t ps' h
      end
  end.

(** Lines 432-442: a session whose cache is empty, with no method call
    in progress, and whose connection's service loop has exited, is
    dropped from the map. *)
Definition session_retired (h : gmap N clientInfo) (cs : gmap N connCtx) (p : N) : bool :=
  match h !! p with
  | Some ci =>
      isEmpty ci &&
      match cs !! cCtx ci with Some cc => serviceClientExited cc | None => false end
  | None => false
  end.

Definition drop_retired (h : gmap N clientInfo) (cs : gmap N connCtx) (pci : gmap string N)
  : gmap string N :=
  filter (fun kv : string * N => session_retired h cs kv.2 = false) pci.

(** ** One step of the server *)

Definition lock_free (s : server) : bool := negb (deadlocked s) && negb (halting s).

(** [serviceClient] (lines 258-301) is reading connection [c]: its
    handshake bound it to session [p], its loop has not exited, and the
    server lock can be taken. *)
Definition serving (s : server) (c : N) : option (N * connCtx) :=
  match conns s !! c with
  | Some cc =>
      match cc_ci cc with
      | Some p => if lock_free s && negb (serviceClientExited cc) then Some (p, cc) else None
      | None => None
      end
  | None => None
  end.

(** [cCtx.activeRPCsWG.Add(1)] *)
Definition count_active (s : server) (c : N) (cc : connCtx) : server :=
  set_conns s (<[c := set_activeRPCs cc (S (activeRPCs cc))]> (conns s)) (nextId s) (accepting s).

(** [run] accepts a connection and [getClientIDAndWait] (lines 215-228)
    reads the identifier of a client it has not seen: a fresh session is
    created and bound to the connection. *)
Definition getClientIDAndWait_new (uid : string) (s : server) : option server :=
  if lock_free s && bool_decide (accepting s = None) &&
     bool_decide (perClientInfo s !! uid = None) then
    let c := nextId s in
    let p := (nextId s + 1)%N in
    let s := set_sessions s (<[uid := p]> (perClientInfo s)) (<[p := newClientInfo c uid]> (cis s)) in
    Some (set_conns s (<[c := mkConnCtx (Some p) false 0]> (conns s)) (nextId s + 2) None)
  else None.

(** Lines 216-217 and 229-232: the identifier is known; the accept loop now waits in
    [getClientIDAndWait] for the session's previous connection. *)
Definition getClientIDAndWait_known (uid : string) (s : server) : option server :=
  match perClientInfo s !! uid with
  | Some p =>
      if lock_free s && bool_decide (accepting s = None) then
        let c := nextId s in
        Some (set_conns s (<[c := mkConnCtx None false 0]> (conns s)) (nextId s + 1) (Some (c, p)))
      else None
  | None => None
  end.

(** Lines 233-251: once the previous service loop has exited and its
    wait group is zero, the session is re-bound to the new connection. *)
Definition getClientIDAndWait_rebind (s : server) : option server :=
  match accepting s with
  | Some (c, p) =>
      match cis s !! p with
      | Some ci =>
          match conns s !! cCtx ci, conns s !! c with
          | Some old, Some cc =>
              if serviceClientExited old && bool_decide (activeRPCs old = 0%nat) then
                let s := set_sessions s (perClientInfo s) (<[p := set_cCtx ci c]> (cis s)) in
                Some (set_conns s (<[c := mkConnCtx (Some p) false (activeRPCs cc)]> (conns s))
                        (nextId s) None)
              else None
          | _, _ => None
          end
      | None => None
      end
  | None => None
  end.

(** Lines 198-213: the handshake frame.  [getIO] reads it, its type
    must be [PassID], and [json.Unmarshal] makes a string of its payload
    ([dec]: what the unmarshal makes of a payload, [encoding/json] not
    being modelled). *)
Inductive handshakeError := HsGetIO (e : frameError) | HsNotPassID (t : MsgType) | HsUnmarshal.

Definition readClientID (dec : list byte -> option string) (stream : list byte)
  : handshakeError + string :=
  match getIO stream with
  | inl e => inl (HsGetIO e)
  | inr (buf, msgType, _) =>
      if decide (msgType = PassID) then
        match dec buf with Some uid => inr uid | None => inl HsUnmarshal end
      else inl (HsNotPassID msgType)
  end.

(** [run] (lines 35-90) after a failed handshake: it logs, sleeps and
    closes the connection ([closeClient]), and accepts the next one; no
    session and no connection context of the model changes.  The
    listener is open while the server is not halting. *)
Definition getClientIDAndWait_failed (s : server) : option server :=
  if bool_decide (accepting s = None) && negb (halting s) then Some s else None.

(** One iteration of [run]: accept, read the handshake, then create or
    look up the session. *)
Definition run_accept (dec : list byte -> option string) (stream : list byte) (s : server)
  : option server :=
  match readClientID dec stream with
  | inl _ => getClientIDAndWait_failed s
  | inr uid =>
      match perClientInfo s !! uid with
      | None => getClientIDAndWait_new uid s
      | Some _ => getClientIDAndWait_known uid s
      end
  end.

(** Lines 276-300: an [RPC] frame is handed to a new [processRequest]
    goroutine; [r] is what [json.Unmarshal] will make of its payload. *)
Definition serviceClient_rpc (c : N) (r : option jsonRequest) (s : server) : option server :=
  match serving s c with
  | Some (p, cc) => Some (set_workers (count_active s c cc) (workers s ++ [mkWorker p c r Spawned]))
  | None => None
  end.

(** Lines 281-284: a frame of another type; the loop continues with the
    server lock still held. *)
Definition serviceClient_other (c : N) (s : server) : option server :=
  match serving s c with
  | Some _ => Some (set_flags s (halting s) true (clock s))
  | None => None
  end.

(** Lines 262-272: the read fails; the loop records that it exited. *)
Definition serviceClient_exit (c : N) (s : server) : option server :=
  match conns s !! c with
  | Some cc =>
      if bool_decide (is_Some (cc_ci cc)) && negb (serviceClientExited cc) then
        Some (set_conns s (<[c := mkConnCtx (cc_ci cc) true (activeRPCs cc)]> (conns s))
                (nextId s) (accepting s))
      else None
  | None => None
  end.

(** Lines 93-134: the worker's payload did not unmarshal (it returns),
    or it takes the session lock, and either replays the cached reply
    (then [returnResults] and [activeRPCsWG.Done()], lines 171-174) or
    goes on to run the method. *)
Definition processRequest_lock1 (i : nat) (s : server) : option server :=
  match workers s !! i with
  | Some (mkWorker p c None Spawned) => Some (set_workers s (delete i (workers s)))
  | Some (mkWorker p c (Some req) Spawned) =>
      match cis s !! p, conns s !! c with
      | Some ci, Some cc =>
          let '(ci', out) := processRequest_begin ci req in
          let s1 := set_sessions s (perClientInfo s) (<[p := ci']> (cis s)) in
          match out with
          | Replay r =>
              let s2 := set_conns s1 (<[c := set_activeRPCs cc (pred (activeRPCs cc))]> (conns s))
                          (nextId s) (accepting s) in
              let s3 := set_workers s2 (delete i (workers s)) in
              Some (set_ghost s3 (add_sent (gh s) (mkSent c p (RequestID req) r)))
          | Run =>
              Some (set_workers s1 (<[i := mkWorker p c (Some req) (Running (clock s))]> (workers s)))
          end
      | _, _ => None
      end
  | _ => None
  end.

(** Lines 135-174: the method returns; the completion is recorded under
    the session lock, the reply written and the wait group released. *)
Definition processRequest_lock2 (i : nat) (s : server) : option server :=
  match workers s !! i with
  | Some (mkWorker p c (Some req) (Running t0)) =>
      match callRPCAndFormatReply (svrMap s) req, cis s !! p, conns s !! c with
      | Some ior, Some ci, Some cc =>
          let '(ci', r) := processRequest_finish ci (RequestID req) ior t0 (clock s) (clock s) in
          let s1 := set_sessions s (perClientInfo s) (<[p := ci']> (cis s)) in
          let s2 := set_conns s1 (<[c := set_activeRPCs cc (pred (activeRPCs cc))]> (conns s))
                      (nextId s) (accepting s) in
          let s3 := set_workers s2 (delete i (workers s)) in
          Some (set_ghost s3 (add_sent (add_executed (gh s) (p, RequestID req))
                                       (mkSent c p (RequestID req) r)))
      | _, _, _ => None
      end
  | _ => None
  end.

(** [trimCompleted(t, false)] (lines 408-413 and 443-450): the ACK trim
    of every session, under the server lock; a loop that never exits
    keeps the lock forever. *)
Definition trimCompleted_short (s : server) : option server :=
  if negb (deadlocked s) then
    match trim_short_all (map_to_list (perClientInfo s)).*2 (cis s) with
    | Some (h', r) => Some (set_ghost (set_sessions s (perClientInfo s) h') (add_trimmed (gh s) r))
    | None => Some (set_flags s (halting s) true (clock s))
    end
  else None.

(** [trimCompleted(t, true)] (lines 408-442): the TTL trim of every
    session, then the retirement of idle sessions. *)
Definition trimCompleted_long (s : server) : option server :=
  if negb (deadlocked s) then
    let '(h', r) := trim_long_all (completedLongTTL s) (clock s)
                      (map_to_list (perClientInfo s)).*2 (cis s) in
    let s1 := set_sessions s (drop_retired h' (conns s) (perClientInfo s)) h' in
    Some (set_ghost s1 (add_trimmed (gh s) r))
  else None.

(** [Close] sets [halting]. *)
Definition server_close (s : server) : option server :=
  Some (set_flags s true (deadlocked s) (clock s)).

(** Ghost bookkeeping of a frame: its request ID is recorded as framed on
    its connection. *)
Definition record_framed (c : N) (req : jsonRequest) (s : server) : server :=
  set_ghost s (add_framed (gh s) (c, RequestID req)).

Definition server_step (ev : event) (s : server) : option server :=
  match ev with
  | EvAcceptNew uid => getClientIDAndWait_new uid s
  | EvAcceptKnown uid => getClientIDAndWait_known uid s
  | EvAcceptFailed => getClientIDAndWait_failed s
  | EvRebind => getClientIDAndWait_rebind s
  | EvFrame c req => record_framed c req <$> serviceClient_rpc c (Some req) s
  | EvFrameMalformed c => serviceClient_rpc c None s
  | EvFrameOther c => serviceClient_other c s
  | EvExit c => serviceClient_exit c s
  | EvBegin i => processRequest_lock1 i s
  | EvFinish i => processRequest_lock2 i s
  | EvTick d =>
      if bool_decide (0 <= d)%Z then Some (set_flags s (halting s) (deadlocked s) (clock s + d)) else None
  | EvTrimShort => trimCompleted_short s
  | EvTrimLong => trimCompleted_long s
  | EvClose => server_close s
  end.

(** Unfold one step into the handler it runs. *)
Ltac unfold_step H :=
  unfold server_step, getClientIDAndWait_new, getClientIDAndWait_known, getClientIDAndWait_failed,
    getClientIDAndWait_rebind, serviceClient_rpc, serviceClient_other, serviceClient_exit,
    processRequest_lock1, processRequest_lock2, trimCompleted_short, trimCompleted_long,
    server_close, record_framed in H.

(** A run of events from a state: [None] if some event was not enabled. *)
Fixpoint run_events (evs : list event) (s : server) : option server :=
  match evs with
  | [] => Some s
  | ev :: evs' => match server_step ev s with Some s' => run_events evs' s' | None => None end
  end.

(** ** Reachable states *)

(** A well-behaved client sends each request ID at most once per
    connection (it resends only after reconnecting). *)
Definition frame_fresh (s : server) (ev : event) : bool :=
  match ev with
  | EvFrame c req => bool_decide ((c, RequestID req) ∉ framed (gh s))
  | _ => true
  end.

(** States reachable from [s0]; with [wb = true], only through events of
    a well-behaved client. *)
Inductive reachable (wb : bool) (s0 : server) : server -> Prop :=
  | reach_init : reachable wb s0 s0
  | reach_step s ev s' :
      reachable wb s0 s -> server_step ev s = Some s' ->
      (wb = true -> frame_fresh s ev = true) -> reachable wb s0 s'.

(** ** The structural invariant *)

Definition workers_on (c : N) (ws : list worker) : nat :=
  length (filter (fun w => w_conn w = c) ws).
Arguments workers_on : simpl never.

(** Sessions, connections and workers point at allocated objects; a
    serving connection is the current connection of its session; every
    worker belongs to the current connection of its session; a
    connection's wait group counts at least its workers.  The sessions
    are seen through [ctx], the current connection of each session. *)
Record sinv (pci : gmap string N) (ctx : gmap N N) (cs : gmap N connCtx) (n : N)
    (a : option (N * N)) (ws : list worker) : Prop := {
  si_fresh : forall p c, ctx !! p = Some c -> p < n /\ c < n;
  si_conns : forall c cc, cs !! c = Some cc -> c < n;
  si_ctx : forall p c, ctx !! p = Some c -> exists cc, cs !! c = Some cc /\ cc_ci cc = Some p;
  si_pci : forall uid p, pci !! uid = Some p -> is_Some (ctx !! p);
  si_accepting : forall c p, a = Some (c, p) ->
    is_Some (ctx !! p) /\ exists cc, cs !! c = Some cc /\ cc_ci cc = None;
  si_bound : forall c cc p, cs !! c = Some cc -> cc_ci cc = Some p ->
    serviceClientExited cc = false -> ctx !! p = Some c;
  si_workers : forall w, w ∈ ws -> ctx !! w_ci w = Some (w_conn w);
  si_active : forall c cc, cs !! c = Some cc -> (workers_on c ws <= activeRPCs cc)%nat
}.

Definition struct_inv (s : server) : Prop :=
  sinv (perClientInfo s) (cCtx <$> cis s) (conns s) (nextId s) (accepting s) (workers s).

(** ** Runs checked by evaluation *)

(** A run of events, refused as soon as one is not enabled or (with
    [wb]) is not an event of a well-behaved client. *)
Fixpoint run_checked (wb : bool) (evs : list event) (s : server) : option server :=
  match evs with
  | [] => Some s
  | ev :: evs' =>
      if negb wb || frame_fresh s ev then
        match server_step ev s with Some s' => run_checked wb evs' s' | None => None end
      else None
  end.

(** The configuration of [testServer] ([src/retryrpc/retryrpc_test.go]):
    [RpcPing] of the [rpctest] server is registered and answers
    [pong 8 bytes]; completions live 10 seconds. *)
Definition json_message (m : string) : string := "{" +:+ json_field "Message" (json_str m) +:+ "}".

Definition ping_methods : gmap string methodArgs :=
  {[ "RpcPing" := mkMethodArgs (fun _ => true) (fun _ => CallOk (Some (json_message "pong 8 bytes"))) ]}.

Definition long_ttl : Z := 10000000000.

Definition ping (rid hrs : requestID) : jsonRequest :=
  mkJsonRequest "RpcPing" (json_message "Ping Me!") "client 1" rid hrs.

(** [client 1] connects (connection 0, session 1), sends request 1, the
    method runs and replies, the connection drops; the client reconnects
    (connection 2), is re-bound to its session and retries request 1. *)
Definition retry_prefix : list event :=
  [EvAcceptNew "client 1"; EvFrame 0 (ping 1 0); EvBegin 0; EvTick 5; EvFinish 0;
   EvExit 0; EvAcceptKnown "client 1"].

Definition retry_trace : list event := retry_prefix ++ [EvRebind; EvFrame 2 (ping 1 0); EvBegin 0].

Definition state_after (evs : list event) : server :=
  default (initServer ping_methods long_ttl) (run_checked true evs (initServer ping_methods long_ttl)).

(** ** Counting the workers of a connection *)

Lemma workers_on_app c ws ws' : workers_on c (ws ++ ws') = (workers_on c ws + workers_on c ws')%nat.
Proof. unfold workers_on. by rewrite filter_app, length_app. Qed.

Lemma workers_on_cons c w ws :
  workers_on c (w :: ws) = ((if decide (w_conn w = c) then 1 else 0) + workers_on c ws)%nat.
Proof. unfold workers_on. rewrite filter_cons. by case_decide. Qed.

Lemma workers_on_delete c ws i w :
  ws !! i = Some w ->
  workers_on c ws = (workers_on c (delete i ws) + if decide (w_conn w = c) then 1 else 0)%nat.
Proof.
  intros Hi. rewrite <- (take_drop_middle ws i w Hi) at 1.
  rewrite delete_take_drop, !workers_on_app, workers_on_cons. lia.
Qed.

Lemma workers_on_insert c ws i w w' :
  ws !! i = Some w -> w_conn w' = w_conn w -> workers_on c (<[i:=w']> ws) = workers_on c ws.
Proof.
  intros Hi Hc. rewrite <- (take_drop_middle ws i w Hi) at 2.
  rewrite insert_take_drop by (eapply lookup_lt_Some; eauto).
  rewrite !workers_on_app, !workers_on_cons, Hc. lia.
Qed.

Lemma workers_on_none c ws : (forall w, w ∈ ws -> w_conn w <> c) -> workers_on c ws = 0%nat.
Proof.
  induction ws as [|w ws IH]; intros Hn; [done|].
  rewrite workers_on_cons, decide_False by (apply Hn; set_solver).
  apply IH. intros w' Hw'. apply Hn. set_solver.
Qed.

Lemma workers_on_pos ws i w : ws !! i = Some w -> (1 <= workers_on (w_conn w) ws)%nat.
Proof. intros Hi. rewrite (workers_on_delete (w_conn w) ws i w Hi), decide_True; lia. Qed.

Lemma workers_on_elem ws w : w ∈ ws -> (1 <= workers_on (w_conn w) ws)%nat.
Proof. intros [i Hi]%list_elem_of_lookup. by apply (workers_on_pos ws i). Qed.

Lemma cCtx_set_cCtx ci c : cCtx (set_cCtx ci c) = c.
Proof. by destruct ci. Qed.
(** A session whose current connection's wait group is zero has no
    worker in flight. *)
Lemma sinv_idle_no_workers pci ctx cs n a ws p o old :
  sinv pci ctx cs n a ws -> ctx !! p = Some o -> cs !! o = Some old ->
  activeRPCs old = 0%nat -> forall w, w ∈ ws -> w_ci w <> p.
Proof.
  intros Hinv Hp Ho Hidle w Hw Heq. pose proof (si_workers _ _ _ _ _ _ Hinv w Hw) as Hwc.
  rewrite Heq, Hp in Hwc. simplify_eq.
  pose proof (workers_on_elem ws w Hw). pose proof (si_active _ _ _ _ _ _ Hinv _ _ Ho). lia.
Qed.

Section Sinv.
Context (pci : gmap string N) (ctx : gmap N N) (cs : gmap N connCtx) (n : N)
  (a : option (N * N)) (ws : list worker).

Lemma sinv_accept_new uid :
  sinv pci ctx cs n None ws -> pci !! uid = None ->
  sinv (<[uid := (n + 1)%N]> pci) (<[(n + 1)%N := n]> ctx)
    (<[n := mkConnCtx (Some (n + 1)%N) false 0]> cs) (n + 2) None ws.
Proof.
  intros [Hfr Hconns Hctx Hpci Hacc Hbound Hws Hact] Huid.
  assert (Hold : forall p c, ctx !! p = Some c -> p <> (n + 1)%N /\ c <> n)
    by (intros p c Hp; destruct (Hfr p c Hp); lia).
  split.
  - intros p c [[<- <-]|[Hne Hp]]%lookup_insert_Some; [lia|]. destruct (Hfr p c Hp). lia.
  - intros c cc [[<- _]|[Hne Hc]]%lookup_insert_Some; [lia|]. specialize (Hconns c cc Hc). lia.
  - intros p c [[<- <-]|[Hne Hp]]%lookup_insert_Some; [rewrite lookup_insert_eq; by eexists|].
    rewrite lookup_insert_ne by (apply not_eq_sym, (Hold p c Hp)). by apply Hctx.
  - intros uid' p [[<- <-]|[Hne Hp]]%lookup_insert_Some; [by rewrite lookup_insert_eq|].
    destruct (Hpci uid' p Hp) as [c Hc]. rewrite lookup_insert_ne by (apply not_eq_sym, (Hold p c Hc)).
    by exists c.
  - done.
  - intros c cc p [[<- <-]|[Hne Hc]]%lookup_insert_Some Hp Hex; cbn in *.
    + simplify_eq. by rewrite lookup_insert_eq.
    + pose proof (Hbound c cc p Hc Hp Hex) as Hpc.
      rewrite lookup_insert_ne by (apply not_eq_sym, (Hold p c Hpc)). done.
  - intros w Hw. pose proof (Hws w Hw) as Hwc.
    rewrite lookup_insert_ne by (apply not_eq_sym, (Hold _ _ Hwc)). done.
  - intros c cc [[<- <-]|[Hne Hc]]%lookup_insert_Some; [|by apply Hact].
    cbn. rewrite workers_on_none; [lia|]. intros w Hw Heq.
    destruct (Hold _ _ (Hws w Hw)). congruence.
Qed.

Lemma sinv_accept_known c p :
  sinv pci ctx cs n None ws -> is_Some (ctx !! p) -> c = n ->
  sinv pci ctx (<[c := mkConnCtx None false 0]> cs) (n + 1) (Some (c, p)) ws.
Proof.
  intros [Hfr Hconns Hctx Hpci Hacc Hbound Hws Hact] Hp ->.
  split; auto.
  - intros q c Hq. destruct (Hfr q c Hq). lia.
  - intros c cc [[<- _]|[Hne Hc]]%lookup_insert_Some; [lia|]. specialize (Hconns c cc Hc). lia.
  - intros q c Hq. destruct (Hfr q c Hq). rewrite lookup_insert_ne by lia. by apply Hctx.
  - intros c' p' [= <- <-]. split; [done|]. rewrite lookup_insert_eq. by eexists.
  - intros c cc q [[<- <-]|[Hne Hc]]%lookup_insert_Some Hq Hex; [done|]. by apply (Hbound c cc).
  - intros c cc [[<- <-]|[Hne Hc]]%lookup_insert_Some; [|by apply Hact].
    cbn. rewrite workers_on_none; [lia|]. intros w Hw Heq.
    destruct (Hfr _ _ (Hws w Hw)). lia.
Qed.

Lemma sinv_rebind c p o old cc :
  sinv pci ctx cs n (Some (c, p)) ws -> ctx !! p = Some o -> cs !! o = Some old ->
  serviceClientExited old = true -> activeRPCs old = 0%nat -> cs !! c = Some cc ->
  sinv pci (<[p := c]> ctx) (<[c := mkConnCtx (Some p) false (activeRPCs cc)]> cs) n None ws.
Proof.
  intros Hinv Hp Ho Hex Hidle Hc.
  pose proof (sinv_idle_no_workers _ _ _ _ _ _ p o old Hinv Hp Ho Hidle) as Hnow.
  destruct Hinv as [Hfr Hconns Hctx Hpci Hacc Hbound Hws Hact].
  destruct (Hacc c p eq_refl) as [_ (cc' & Hcc' & Hunb)]. simplify_eq.
  destruct (Hctx p o Hp) as (old' & Hold' & Hbp). simplify_eq.
  assert (Hnew : c <> o) by (intros ->; congruence).
  split.
  - intros q cq [[<- <-]|[Hne Hq]]%lookup_insert_Some; [|by apply Hfr].
    split; [by destruct (Hfr p o Hp)|by apply (Hconns c cc)].
  - intros c' cc' [[<- _]|[Hne Hc']]%lookup_insert_Some; [by apply (Hconns _ cc)|by apply (Hconns c' cc')].
  - intros q cq [[<- <-]|[Hne Hq]]%lookup_insert_Some.
    + rewrite lookup_insert_eq. by eexists.
    + destruct (Hctx q cq Hq) as (ccq & Hccq & Hbq).
      destruct (decide (c = cq)) as [<-|Hne']; [congruence|].
      rewrite lookup_insert_ne by done. by eexists.
  - intros uid q Hq. apply lookup_insert_is_Some'. right. by apply (Hpci uid).
  - done.
  - intros c' cc' q [[<- <-]|[Hne Hc']]%lookup_insert_Some Hq Hex'; cbn in *.
    + simplify_eq. by rewrite lookup_insert_eq.
    + pose proof (Hbound c' cc' q Hc' Hq Hex') as Hqc.
      destruct (decide (q = p)) as [->|Hqp]; [simplify_eq; congruence|].
      by rewrite lookup_insert_ne.
  - intros w Hw. rewrite lookup_insert_ne by (apply not_eq_sym, Hnow, Hw). by apply Hws.
  - intros c' cc' [[<- <-]|[Hne Hc']]%lookup_insert_Some; [cbn; by apply Hact|by apply Hact].
Qed.

Lemma sinv_add_worker c p cc r :
  sinv pci ctx cs n a ws -> cs !! c = Some cc -> cc_ci cc = Some p -> serviceClientExited cc = false ->
  sinv pci ctx (<[c := set_activeRPCs cc (S (activeRPCs cc))]> cs) n a (ws ++ [mkWorker p c r Spawned]).
Proof.
  intros [Hfr Hconns Hctx Hpci Hacc Hbound Hws Hact] Hc Hp Hex.
  split; auto.
  - intros c' cc' [[<- _]|[Hne Hc']]%lookup_insert_Some; eauto.
  - intros q cq Hq. destruct (Hctx q cq Hq) as (ccq & Hccq & Hbq).
    destruct (decide (c = cq)) as [<-|Hne].
    + rewrite lookup_insert_eq. eexists; split; [done|]. cbn. congruence.
    + rewrite lookup_insert_ne by done. eauto.
  - intros c' p' Ha. destruct (Hacc c' p' Ha) as [Hp' (cc' & Hcc' & Hun)]. split; [done|].
    destruct (decide (c = c')) as [<-|Hne]; [congruence|]. rewrite lookup_insert_ne by done. eauto.
  - intros c' cc' q [[<- <-]|[Hne Hc']]%lookup_insert_Some; eauto.
  - intros w [Hw|Hw%list_elem_of_singleton]%elem_of_app; [by apply Hws|subst; cbn].
    by apply (Hbound c cc p).
  - intros c' cc' [[<- <-]|[Hne Hc']]%lookup_insert_Some.
    + cbn. rewrite workers_on_app, workers_on_cons, decide_True by done.
      specialize (Hact c cc Hc). unfold workers_on at 2. cbn. lia.
    + rewrite workers_on_app, workers_on_cons, decide_False by done.
      specialize (Hact c' cc' Hc'). unfold workers_on at 2. cbn. lia.
Qed.

Lemma sinv_exit c cc :
  sinv pci ctx cs n a ws -> cs !! c = Some cc -> is_Some (cc_ci cc) ->
  sinv pci ctx (<[c := mkConnCtx (cc_ci cc) true (activeRPCs cc)]> cs) n a ws.
Proof.
  intros [Hfr Hconns Hctx Hpci Hacc Hbound Hws Hact] Hc Hb.
  split; auto.
  - intros c' cc' [[<- _]|[Hne Hc']]%lookup_insert_Some; eauto.
  - intros q cq Hq. destruct (Hctx q cq Hq) as (ccq & Hccq & Hbq).
    destruct (decide (c = cq)) as [<-|Hne].
    + rewrite lookup_insert_eq. eexists; split; [done|]. cbn. congruence.
    + rewrite lookup_insert_ne by done. eauto.
  - intros c' p' Ha. destruct (Hacc c' p' Ha) as [Hp' (cc' & Hcc' & Hun)]. split; [done|].
    destruct (decide (c = c')) as [<-|Hne]; [|rewrite lookup_insert_ne by done; eauto].
    simplify_eq. destruct Hb as [? Hb]. congruence.
  - intros c' cc' q [[<- <-]|[Hne Hc']]%lookup_insert_Some; cbn; [done|eauto].
  - intros c' cc' [[<- <-]|[Hne Hc']]%lookup_insert_Some; [cbn; eauto|eauto].
Qed.

(** A worker leaves; with [dec], its connection's wait group is
    decremented ([activeRPCsWG.Done()]). *)
Lemma sinv_remove_worker i w (dec : bool) :
  sinv pci ctx cs n a ws -> ws !! i = Some w ->
  (dec = true -> is_Some (cs !! w_conn w)) ->
  sinv pci ctx
    (if dec then match cs !! w_conn w with
                 | Some cc => <[w_conn w := set_activeRPCs cc (pred (activeRPCs cc))]> cs
                 | None => cs end
     else cs) n a (delete i ws).
Proof.
  intros [Hfr Hconns Hctx Hpci Hacc Hbound Hws Hact] Hi Hdec.
  assert (Hcnt : forall c, workers_on c ws = (workers_on c (delete i ws) +
            if decide (w_conn w = c) then 1 else 0)%nat) by (intros; by apply workers_on_delete).
  destruct dec; [destruct (Hdec eq_refl) as [cc Hcc]; rewrite Hcc|].
  - split; auto.
    + intros c' cc' [[<- _]|[Hne Hc']]%lookup_insert_Some; eauto.
    + intros q cq Hq. destruct (Hctx q cq Hq) as (ccq & Hccq & Hbq).
      destruct (decide (w_conn w = cq)) as [<-|Hne].
      * rewrite lookup_insert_eq. eexists; split; [done|]. cbn. congruence.
      * rewrite lookup_insert_ne by done. eauto.
    + intros c' p' Ha. destruct (Hacc c' p' Ha) as [Hp' (cc' & Hcc' & Hun)]. split; [done|].
      destruct (decide (w_conn w = c')) as [<-|Hne].
      * rewrite lookup_insert_eq. eexists; split; [done|]. cbn. congruence.
      * rewrite lookup_insert_ne by done. eauto.
    + intros c' cc' q [[<- <-]|[Hne Hc']]%lookup_insert_Some; cbn; eauto.
    + intros w' Hw'%list_elem_of_delete_inv. by apply Hws.
    + intros c' cc' [[<- <-]|[Hne Hc']]%lookup_insert_Some.
      * cbn. specialize (Hcnt (w_conn w)). specialize (Hact _ _ Hcc).
        rewrite decide_True in Hcnt by done. lia.
      * specialize (Hcnt c'). specialize (Hact _ _ Hc'). rewrite decide_False in Hcnt by done. lia.
  - split; auto.
    + intros w' Hw'%list_elem_of_delete_inv. by apply Hws.
    + intros c' cc' Hc'. specialize (Hcnt c'). specialize (Hact _ _ Hc'). case_decide; lia.
Qed.

(** A worker moves on to running the method. *)
Lemma sinv_set_phase i w ph :
  sinv pci ctx cs n a ws -> ws !! i = Some w ->
  sinv pci ctx cs n a (<[i := mkWorker (w_ci w) (w_conn w) (w_req w) ph]> ws).
Proof.
  intros [Hfr Hconns Hctx Hpci Hacc Hbound Hws Hact] Hi.
  split; auto.
  - intros w' [->|Hw']%list_elem_of_insert_inv; [|by apply Hws].
    cbn. apply Hws. by eapply list_elem_of_lookup_2.
  - intros c cc Hc. rewrite (workers_on_insert c ws i w) by done. eauto.
Qed.

(** The trim daemon drops sessions from the map. *)
Lemma sinv_sub_pci pci' :
  sinv pci ctx cs n a ws -> pci' ⊆ pci -> sinv pci' ctx cs n a ws.
Proof.
  intros [Hfr Hconns Hctx Hpci Hacc Hbound Hws Hact] Hsub. split; auto.
  intros uid p Hp. apply (Hpci uid). eapply lookup_weaken; eauto.
Qed.
End Sinv.

(** ** The structural invariant holds in every reachable state *)

Lemma cCtx_begin ci req : cCtx (processRequest_begin ci req).1 = cCtx ci.
Proof. destruct ci. unfold processRequest_begin. cbn. by case_match. Qed.

Lemma cCtx_finish ci rid ior t0 t1 now : cCtx (processRequest_finish ci rid ior t0 t1 now).1 = cCtx ci.
Proof. by destruct ci. Qed.

Lemma cCtx_ack_trim_loop fuel h ci n ci' n' :
  ack_trim_loop fuel h ci n = Some (ci', n') -> cCtx ci' = cCtx ci.
Proof.
  revert h ci n. induction fuel as [|fuel IH]; intros h ci n Hl; [done|]. cbn in Hl.
  case_decide; [|by simplify_eq].
  destruct (ack_trim_one ci h) as [ci1 k] eqn:E. rewrite (IH _ _ _ Hl).
  unfold ack_trim_one in E. destruct ci; cbn in E. case_match; by simplify_eq.
Qed.

Lemma cCtx_trimAClientBasedACK fuel ci ci' n :
  trimAClientBasedACK fuel ci = Some (ci', n) -> cCtx ci' = cCtx ci.
Proof.
  unfold trimAClientBasedACK.
  destruct (ack_trim_loop _ _ _ _) as [[ci1 n1]|] eqn:Hl; [|done].
  intros [= <- _]. rewrite <- (cCtx_ack_trim_loop _ _ _ _ _ _ Hl). by destruct ci1.
Qed.

Lemma cCtx_trimTLLBased ttl t ci : cCtx (trimTLLBased ttl t ci).1 = cCtx ci.
Proof. unfold trimTLLBased. destruct ci. cbn. by repeat case_match. Qed.

Lemma ctx_update (h : gmap N clientInfo) p ci ci' :
  h !! p = Some ci -> cCtx ci' = cCtx ci -> cCtx <$> <[p := ci']> h = cCtx <$> h.
Proof. intros Hp Hc. rewrite fmap_insert, Hc. apply insert_id. by rewrite lookup_fmap, Hp. Qed.

Lemma ctx_trim_short_all ps h h' r :
  trim_short_all ps h = Some (h', r) -> cCtx <$> h' = cCtx <$> h.
Proof.
  revert h r. induction ps as [|p ps IH]; intros h r Ht; cbn in Ht; [by simplify_eq|].
  destruct (h !! p) as [ci|] eqn:Hp; [|by eapply IH].
  destruct (trimAClientBasedACK _ ci) as [[ci' k]|] eqn:Htr; [|done].
  destruct (trim_short_all ps _) as [[h1 r1]|] eqn:Hrest; [|done]. simplify_eq.
  rewrite (IH _ _ Hrest). apply (ctx_update _ _ ci); [done|]. by eapply cCtx_trimAClientBasedACK.
Qed.

Lemma ctx_trim_long_all ttl t ps h :
  cCtx <$> (trim_long_all ttl t ps h).1 = cCtx <$> h.
Proof.
  revert h. induction ps as [|p ps IH]; intros h; cbn; [done|].
  destruct (h !! p) as [ci|] eqn:Hp; [|apply IH].
  destruct (trim_long_all ttl t ps _) as [h1 r1] eqn:Hrest. cbn.
  specialize (IH (<[p := (trimTLLBased ttl t ci).1]> h)). rewrite Hrest in IH. cbn in IH.
  rewrite IH. apply (ctx_update _ _ ci); [done|apply cCtx_trimTLLBased].
Qed.

Lemma drop_retired_subseteq h cs pci : drop_retired h cs pci ⊆ pci.
Proof. apply map_filter_subseteq. Qed.

Lemma serving_Some s c p cc :
  serving s c = Some (p, cc) ->
  conns s !! c = Some cc /\ cc_ci cc = Some p /\ serviceClientExited cc = false /\ lock_free s = true.
Proof.
  unfold serving. destruct (conns s !! c) as [cc'|]; [|done].
  destruct (cc_ci cc') as [p'|] eqn:E; [|done]. case_match; [|done].
  apply andb_true_iff in H as [? ?%negb_true_iff]. intros [= <- <-]. done.
Qed.

Lemma struct_inv_init svr ttl : struct_inv (initServer svr ttl).
Proof. split; cbn; intros; simplify_map_eq; set_solver. Qed.

Lemma struct_inv_step s ev s' : struct_inv s -> server_step ev s = Some s' -> struct_inv s'.
Proof.
  intros Hinv Hstep. destruct s as [m ttl pci h cs n a ws hl dl t g].
  unfold struct_inv in *. unfold_step Hstep.
  destruct ev; cbn -[processRequest_begin processRequest_finish] in Hstep |- *.
  - (* EvAcceptNew *)
    repeat case_match; simplify_eq/=. rewrite !fmap_insert.
    apply andb_true_iff in H as [[_ ?%bool_decide_eq_true_1]%andb_true_iff ?%bool_decide_eq_true_1].
    subst. by apply sinv_accept_new.
  - (* EvAcceptKnown *)
    repeat case_match; simplify_eq/=.
    apply andb_true_iff in H0 as [_ ?%bool_decide_eq_true_1]. subst.
    apply sinv_accept_known; [done| |done]. apply (si_pci _ _ _ _ _ _ Hinv uid). done.
  - (* EvAcceptFailed *)
    case_match; by simplify_eq/=.
  - (* EvRebind *)
    repeat case_match; simplify_eq/=.
    apply andb_true_iff in H4 as [Hex Hidle%bool_decide_eq_true_1].
    rewrite fmap_insert, cCtx_set_cCtx.
    eapply (sinv_rebind _ _ _ _ _ n0 n1 (cCtx c) c0 c1); try done.
    by rewrite lookup_fmap, H1.
  - (* EvFrame *)
    destruct (serving _ c) as [[p cc]|] eqn:Hs; simplify_eq/=.
    apply serving_Some in Hs as (Hc & Hp & Hex & _). by apply sinv_add_worker.
  - destruct (serving _ c) as [[p cc]|] eqn:Hs; simplify_eq/=.
    apply serving_Some in Hs as (Hc & Hp & Hex & _). by apply sinv_add_worker.
  - destruct (serving _ c) as [[p cc]|] eqn:Hs; by simplify_eq/=.
  - (* EvExit *)
    destruct (cs !! c) as [cc|] eqn:Hc; [|done]. case_match; simplify_eq/=.
    apply andb_true_iff in H as [?%bool_decide_eq_true_1 _]. by apply sinv_exit.
  - (* EvBegin *)
    destruct (ws !! i) as [[p c [req|] [|t0]]|] eqn:Hi; try done.
    + destruct (h !! p) as [ci|] eqn:Hp; [|done]. destruct (cs !! c) as [cc|] eqn:Hc; [|done].
      destruct (processRequest_begin ci req) as [ci' out] eqn:Hb.
      assert (Hctx : cCtx <$> <[p := ci']> h = cCtx <$> h).
      { apply (ctx_update _ _ ci); [done|]. rewrite <- (cCtx_begin ci req), Hb. done. }
      destruct out; simplify_eq/=; rewrite Hctx.
      * pose proof (sinv_remove_worker _ _ _ _ _ _ i _ true Hinv Hi) as Hr. cbn in Hr.
        rewrite Hc in Hr. by apply Hr.
      * exact (sinv_set_phase _ _ _ _ _ _ i _ (Running t) Hinv Hi).
    + simplify_eq/=. exact (sinv_remove_worker _ _ _ _ _ _ i _ false Hinv Hi ltac:(done)).
  - (* EvFinish *)
    destruct (ws !! i) as [[p c [req|] [|t0]]|] eqn:Hi; try done.
    destruct (callRPCAndFormatReply m req) as [ior|]; [|done].
    destruct (h !! p) as [ci|] eqn:Hp; [|done]. destruct (cs !! c) as [cc|] eqn:Hc; [|done].
    destruct (processRequest_finish ci (RequestID req) ior t0 t t) as [ci' r] eqn:Hf.
    simplify_eq. cbn.
    assert (Hctx : cCtx <$> <[p := ci']> h = cCtx <$> h).
    { apply (ctx_update _ _ ci); [done|]. by rewrite <- (cCtx_finish ci (RequestID req) ior t0 t t), Hf. }
    rewrite Hctx.
    pose proof (sinv_remove_worker _ _ _ _ _ _ i _ true Hinv Hi) as Hr. cbn in Hr.
    rewrite Hc in Hr. by apply Hr.
  - (* EvTick *) case_match; by simplify_eq/=.
  - (* EvTrimShort *)
    destruct dl; [done|]. cbn in Hstep.
    destruct (trim_short_all _ h) as [[h' r]|] eqn:Ht; simplify_eq/=; [|done].
    by rewrite (ctx_trim_short_all _ _ _ _ Ht).
  - (* EvTrimLong *)
    destruct dl; [done|]. cbn in Hstep.
    destruct (trim_long_all _ _ _ h) as [h' r] eqn:Ht. simplify_eq/=.
    pose proof (ctx_trim_long_all ttl t (map_to_list pci).*2 h) as Hctx. rewrite Ht in Hctx. cbn in Hctx.
    rewrite Hctx. eapply sinv_sub_pci; [done|apply drop_retired_subseteq].
  - (* EvClose *) by simplify_eq/=.
Qed.

Lemma struct_inv_reachable wb s0 s : struct_inv s0 -> reachable wb s0 s -> struct_inv s.
Proof. intros H0. induction 1; [done|]. by eapply struct_inv_step. Qed.

(** ** Reconnection is serialized *)

(** C5: in every reachable state, whatever the clients send, a session
    is served by at most one [serviceClient] loop: two live connections
    bound to the same session are the same connection. *)
Theorem single_service_loop svr ttl wb s c1 c2 cc1 cc2 p :
  reachable wb (initServer svr ttl) s ->
  conns s !! c1 = Some cc1 -> conns s !! c2 = Some cc2 ->
  cc_ci cc1 = Some p -> cc_ci cc2 = Some p ->
  serviceClientExited cc1 = false -> serviceClientExited cc2 = false ->
  c1 = c2.
Proof.
  intros Hr H1 H2 Hp1 Hp2 He1 He2.
  pose proof (struct_inv_reachable _ _ _ (struct_inv_init svr ttl) Hr) as Hinv.
  pose proof (si_bound _ _ _ _ _ _ Hinv _ _ _ H1 Hp1 He1).
  pose proof (si_bound _ _ _ _ _ _ Hinv _ _ _ H2 Hp2 He2). congruence.
Qed.

(** C4: a returning client's new connection is bound to its session only
    after the old connection's service loop has exited and every
    [processRequest] goroutine of the session has finished
    ([getClientIDAndWait], lines 230-247); the session then points at
    the new connection and the accept loop is free again. *)
Theorem rebind_serialized svr ttl wb s s' :
  reachable wb (initServer svr ttl) s -> server_step EvRebind s = Some s' ->
  exists c p ci old,
    accepting s = Some (c, p) /\ cis s !! p = Some ci /\ conns s !! cCtx ci = Some old /\
    serviceClientExited old = true /\ activeRPCs old = 0%nat /\
    (forall w, w ∈ workers s -> w_ci w <> p) /\
    (cCtx <$> cis s') !! p = Some c /\ accepting s' = None.
Proof.
  intros Hr Hstep.
  pose proof (struct_inv_reachable _ _ _ (struct_inv_init svr ttl) Hr) as Hinv.
  unfold_step Hstep. destruct s as [m ttl' pci h cs n a ws hl dl t g]; cbn in Hstep |- *.
  destruct a as [[c p]|]; [|done].
  destruct (h !! p) as [ci|] eqn:Hp; [|done].
  destruct (cs !! cCtx ci) as [old|] eqn:Ho; [|done].
  destruct (cs !! c) as [cc|]; [|done].
  destruct (serviceClientExited old && bool_decide (activeRPCs old = 0%nat)) eqn:Hok; [|done].
  apply andb_true_iff in Hok as [Hex Hidle%bool_decide_eq_true_1]. simplify_eq/=.
  exists c, p, ci, old. split_and!; try done.
  - refine (sinv_idle_no_workers _ _ _ _ _ _ _ _ _ Hinv _ Ho Hidle). cbn. by rewrite lookup_fmap, Hp.
  - rewrite lookup_fmap, lookup_insert_eq. cbn. by rewrite cCtx_set_cCtx.
Qed.

(** ** The handshake *)

(** The handshake frame a client writes, [PassID] with the marshalled
    identifier, is read back as what the unmarshal makes of it. *)
Lemma readClientID_passid dec payload rest :
  is_u64 (N.of_nat (length payload)) ->
  readClientID dec (encode_frame PassID payload ++ rest) =
  match dec payload with Some uid => inr uid | None => inl HsUnmarshal end.
Proof.
  intros Hlen. unfold readClientID, encode_frame. rewrite <- app_assoc.
  by rewrite getIO_header_payload.
Qed.

(** A failed handshake leaves the server as it was. *)
Lemma run_accept_failed dec stream s s' e :
  readClientID dec stream = inl e -> run_accept dec stream s = Some s' -> s' = s.
Proof.
  intros He. unfold run_accept, getClientIDAndWait_failed. rewrite He.
  destruct (_ && _); by intros [=].
Qed.

(** Every iteration of [run] is a step of the server, so the guarantees
    of the reachable states hold for the handshake as the code reads it. *)
Lemma run_accept_reachable wb s0 s s' dec stream :
  reachable wb s0 s -> run_accept dec stream s = Some s' -> reachable wb s0 s'.
Proof.
  intros Hr Hacc. unfold run_accept in Hacc.
  destruct (readClientID dec stream) as [e|uid].
  - by apply (reach_step _ _ s EvAcceptFailed).
  - destruct (perClientInfo s !! uid).
    + by apply (reach_step _ _ s (EvAcceptKnown uid)).
    + by apply (reach_step _ _ s (EvAcceptNew uid)).
Qed.

(** ** Checked runs are reachable *)

Lemma run_checked_reachable wb s0 evs s1 s :
  reachable wb s0 s1 -> run_checked wb evs s1 = Some s -> reachable wb s0 s.
Proof.
  revert s1. induction evs as [|ev evs IH]; intros s1 Hr Hrun; cbn in Hrun; [by simplify_eq|].
  destruct (negb wb || frame_fresh s1 ev) eqn:Hok; [|done].
  destruct (server_step ev s1) as [s2|] eqn:Hstep; [|done].
  apply (IH s2); [|done]. apply (reach_step _ _ s1 ev s2 Hr Hstep).
  intros ->. done.
Qed.

(** A state reached by a checked run of well-behaved events is
    reachable. *)
Ltac reachable_by_run evs :=
  apply (run_checked_reachable true _ evs _ _ (reach_init true _)); vm_compute; reflexivity.

(** The returning client of [retry_trace] is served by connection 2
    only. *)
Lemma single_service_loop_witness : (2 = 2)%N.
Proof.
  apply (single_service_loop ping_methods long_ttl true (state_after retry_trace) 2 2
           (mkConnCtx (Some 1) false 0) (mkConnCtx (Some 1) false 0) 1);
    [|vm_compute; reflexivity..].
  reachable_by_run retry_trace.
Defined.

(** In [retry_trace], connection 2 is bound to session 1 once connection
    0 has exited with no request in flight. *)
Lemma rebind_serialized_witness :
  exists c p ci old, accepting (state_after retry_prefix) = Some (c, p) /\
    cis (state_after retry_prefix) !! p = Some ci /\
    conns (state_after retry_prefix) !! cCtx ci = Some old /\ serviceClientExited old = true.
Proof.
  destruct (rebind_serialized ping_methods long_ttl true (state_after retry_prefix)
              (state_after (retry_prefix ++ [EvRebind])))
    as (c & p & ci & old & H1 & H2 & H3 & H4 & _).
  - reachable_by_run retry_prefix.
  - vm_compute. reflexivity.
  - exists c, p, ci, old. split_and!; assumption.
Defined.
