(* ===== verification/Conns.v ===== *)
(** * Conns: the server's list of live connections

    [src/retryrpc/server.go]: [run] (lines 47-51) adds one to
    [connWG] and pushes each accepted connection on [server.connections]
    under [connLock]; [closeClient] (lines 24-34) removes a connection
    from the list, closes it and calls [connWG.Done()]; it is called once
    per accepted connection, by [run] after a failed handshake or by the
    connection's goroutine after [serviceClient] returns.
    [closeClientConn] (lines 398-406) closes every listed connection, so
    that blocked reads fail and the service loops return.

    The model keeps the list (connection identifiers, which are unique
    as the [list.Element] handles are), the set of closed connections,
    the [connWG] counter and, as ghost state, the connections ever
    accepted.  [sync.WaitGroup.Done] on a zero counter panics; that is
    the [None] of [closeClient]. *)

From S2P Require Import Prelude.
Local Open Scope N_scope.
Local Set Warnings "-clear-no-such-hyp".

Module Conns.

Record connections := mkConns {
  elems : list N;          (* server.connections, front to back *)
  closed : gset N;         (* connections whose Close has been called *)
  connWG : nat;            (* server.connWG *)
  accepted : gset N        (* ghost: every connection run accepted *)
}.

Definition initConns : connections := mkConns [] ∅ 0 ∅.

(** Lines 47-51: [connWG.Add(1)], then [connections.PushBack(conn)]. *)
Definition accept (c : N) (s : connections) : connections :=
  mkConns (elems s ++ [c]) (closed s) (S (connWG s)) ({[c]} ∪ accepted s).

(** Lines 24-34: [connections.Remove(myElm)], [myConn.Close()],
    [connWG.Done()]. *)
Definition closeClient (c : N) (s : connections) : option connections :=
  match connWG s with
  | O => None
  | S n => Some (mkConns (filter (fun x => x <> c) (elems s)) ({[c]} ∪ closed s) n (accepted s))
  end.

(** Lines 398-406: close every listed connection. *)
Definition closeClientConn (s : connections) : connections :=
  mkConns (elems s) (list_to_set (elems s) ∪ closed s) (connWG s) (accepted s).

(** The owners of the listed connections return, one after the other. *)
Fixpoint closeClients (cs : list N) (s : connections) : option connections :=
  match cs with
  | [] => Some s
  | c :: cs' => closeClient c s ≫= closeClients cs'
  end.

(** The operations as the goroutines run them: a fresh connection is
    accepted; the owner of a listed connection closes it once; the
    server closes all. *)
Inductive conns_step : connections -> connections -> Prop :=
  | StepAccept s c : c ∉ accepted s -> conns_step s (accept c s)
  | StepCloseClient s c s' : c ∈ elems s -> closeClient c s = Some s' -> conns_step s s'
  | StepCloseAll s : conns_step s (closeClientConn s).

Definition conns_reachable (s : connections) : Prop := rtc conns_step initConns s.

(** A run: two connections are accepted, the first one's handshake
    fails and [run] closes it, a third is accepted. *)
Definition demo_conns : connections :=
  accept 3 (default initConns (closeClient 1 (accept 2 (accept 1 initConns)))).

(** ** Lemmas *)
Module Facts.

(** The list holds each connection once, the counter is its length, and
    every accepted connection is listed or closed. *)
Record conns_inv (s : connections) : Prop := {
  ci_nodup : NoDup (elems s);
  ci_count : connWG s = length (elems s);
  ci_accepted : accepted s ⊆ list_to_set (elems s) ∪ closed s;
  ci_listed c : c ∈ elems s -> c ∈ accepted s }.

Lemma filter_ne_notin (l : list N) c : c ∉ l -> filter (fun x => x <> c) l = l.
Proof.
  induction l as [|x l IH]; intros Hc; [done|].
  rewrite filter_cons_True by set_solver. f_equal. apply IH. set_solver.
Qed.

Lemma length_filter_remove (l : list N) c :
  NoDup l -> c ∈ l -> S (length (filter (fun x => x <> c) l)) = length l.
Proof.
  induction l as [|x l IH]; intros Hnd Hc; [set_solver|].
  apply NoDup_cons in Hnd as [Hx Hnd]. rewrite filter_cons. cbn.
  destruct (decide (x <> c)) as [Hne|Heq].
  - cbn. f_equal. apply IH; [done|]. set_solver.
  - apply dec_stable in Heq. subst x. f_equal.
    by rewrite filter_ne_notin.
Qed.

Lemma conns_inv_init : conns_inv initConns.
Proof. split; cbn; [constructor|done|set_solver|set_solver]. Qed.

Lemma conns_inv_step s s' : conns_inv s -> conns_step s s' -> conns_inv s'.
Proof.
  intros [Hnd Hcnt Hacc Hl] Hstep. destruct Hstep as [s c Hc|s c s' Hc Hcl|s].
  - split; cbn.
    + apply NoDup_app. split_and!; [done| |apply NoDup_singleton].
      intros x Hx Hx'. apply list_elem_of_singleton in Hx'. subst x. by apply Hc, Hl.
    + rewrite length_app. cbn. lia.
    + rewrite list_to_set_app_L. set_solver.
    + intros x [Hx|Hx]%elem_of_app; [set_solver|]. apply list_elem_of_singleton in Hx. set_solver.
  - unfold closeClient in Hcl. rewrite Hcnt in Hcl.
    destruct (length (elems s)) as [|n] eqn:Hlen; [by destruct (elems s); set_solver|].
    injection Hcl as <-. split; cbn.
    + by apply NoDup_filter.
    + pose proof (length_filter_remove _ _ Hnd Hc). lia.
    + intros x Hx. destruct (decide (x = c)) as [->|Hne]; [set_solver|].
      assert (x ∈ list_to_set (elems s) ∪ closed s) as Hx' by set_solver.
      apply elem_of_union in Hx' as [Hx'|Hx']; [|set_solver].
      apply elem_of_union_l, elem_of_list_to_set, list_elem_of_filter. split; [done|].
      by apply elem_of_list_to_set in Hx'.
    + intros x [_ Hx]%list_elem_of_filter. by apply Hl.
  - split; cbn; [done|done| |done]. set_solver.
Qed.

Lemma conns_inv_rtc s0 s : rtc conns_step s0 s -> conns_inv s0 -> conns_inv s.
Proof.
  induction 1 as [|x y z Hxy _ IH]; intros Hx; [done|].
  apply IH. by eapply conns_inv_step.
Qed.

Lemma conns_inv_reachable s : conns_reachable s -> conns_inv s.
Proof. intros Hr. exact (conns_inv_rtc _ _ Hr conns_inv_init). Qed.

(** The owner of a listed connection closes it: no panic, the
    invariant holds, the connection leaves the list and the counter
    drops by one. *)
Lemma closeClient_listed s c :
  conns_inv s -> c ∈ elems s ->
  exists s', closeClient c s = Some s' /\ conns_inv s' /\
             elems s' = filter (fun x => x <> c) (elems s) /\ S (connWG s') = connWG s /\
             closed s' = {[c]} ∪ closed s /\ accepted s' = accepted s.
Proof.
  intros Hinv Hc. pose proof (ci_count _ Hinv) as Hn. unfold closeClient.
  destruct (connWG s) as [|n] eqn:Hw.
  { apply list_elem_of_lookup_1 in Hc as [k Hk%lookup_lt_Some]. lia. }
  eexists. split; [reflexivity|]. split_and!; try done.
  eapply conns_inv_step; [done|]. eapply StepCloseClient; [done|]. unfold closeClient. by rewrite Hw.
Qed.

(** The owners of the listed connections return, in any order: the
    list empties, the counter reaches zero and their connections are
    closed. *)
Lemma closeClients_drain s order :
  conns_inv s -> order ≡ₚ elems s ->
  exists s', closeClients order s = Some s' /\ elems s' = [] /\ connWG s' = 0%nat /\
             closed s' = list_to_set order ∪ closed s /\ accepted s' = accepted s.
Proof.
  revert s. induction order as [|c order IH]; intros s Hinv Hperm.
  - exists s. symmetry in Hperm. apply Permutation_nil_r in Hperm.
    pose proof (ci_count _ Hinv) as Hc. rewrite Hperm in Hc. cbn in Hc. split_and!; set_solver.
  - assert (Hc : c ∈ elems s) by (rewrite <- Hperm; set_solver).
    assert (Hnd : NoDup (c :: order)) by (rewrite Hperm; apply Hinv).
    apply NoDup_cons in Hnd as [Hnotin _].
    destruct (closeClient_listed s c Hinv Hc) as (s1 & Hcl & Hinv1 & He1 & _ & Hc1 & Ha1).
    assert (Hperm1 : order ≡ₚ elems s1).
    { rewrite He1, <- Hperm, filter_cons_False by (intros []; done).
      by rewrite filter_ne_notin. }
    destruct (IH s1 Hinv1 Hperm1) as (s' & Hrun & He & Hw & Hclosed & Hacc).
    exists s'. cbn. rewrite Hcl. cbn. split_and!; try congruence.
    rewrite Hclosed, Hc1. cbn. set_solver.
Qed.

End Facts.

(** ** Properties *)
Module Properties.
Import Facts.

(** shutting the connections down drains them: from every reachable
    state, after [closeClientConn] and once the goroutine of each listed
    connection has called [closeClient], in whatever order, no
    [connWG.Done] panics, [connWG] is zero (so a wait on it returns), the
    list is empty, and every connection [run] ever accepted is closed. *)
Theorem shutdown_closes_all (s : connections) (order : list N) :
  conns_reachable s -> order ≡ₚ elems s ->
  exists s', closeClients order (closeClientConn s) = Some s' /\
             connWG s' = 0%nat /\ elems s' = [] /\ accepted s' ⊆ closed s'.
Proof.
  intros Hr Hperm. pose proof (conns_inv_reachable _ Hr) as Hinv.
  assert (Hinv1 : conns_inv (closeClientConn s)) by (eapply conns_inv_step; [done|constructor]).
  destruct (closeClients_drain (closeClientConn s) order Hinv1 Hperm)
    as (s' & Hrun & He & Hw & Hclosed & Hacc).
  exists s'. split_and!; try done.
  pose proof (ci_accepted _ Hinv1) as Hsub. cbn in *. rewrite Hacc, Hclosed.
  rewrite <- Hperm in Hsub. set_solver.
Qed.

(** At shutdown the two live connections of [demo_conns] return in the
    reverse of their accept order. *)
Lemma shutdown_closes_all_witness :
  conns_reachable demo_conns /\ [3; 2] ≡ₚ elems demo_conns /\
  exists s', closeClients [3; 2] (closeClientConn demo_conns) = Some s' /\
             connWG s' = 0%nat /\ elems s' = [] /\ accepted s' ⊆ closed s'.
Proof.
  assert (Hr : conns_reachable demo_conns).
  { eapply rtc_l; [apply (StepAccept _ 1); cbn; set_solver|].
    eapply rtc_l; [apply (StepAccept _ 2); cbn; set_solver|].
    eapply rtc_l; [apply (StepCloseClient _ 1); [cbn; set_solver|reflexivity]|].
    eapply rtc_l; [apply (StepAccept _ 3); cbn; set_solver|]. apply rtc_refl. }
  assert (Hp : [3; 2] ≡ₚ elems demo_conns) by (cbn; apply Permutation_swap).
  split_and!; [exact Hr|exact Hp|]. exact (shutdown_closes_all _ _ Hr Hp).
Defined.

End Properties.

End Conns.
