(* ===== verification/AcceptLoop.v ===== *)
(** * AcceptLoop: [run]'s loop, its goroutines and its wait groups

    [src/retryrpc/server.go], [run] (lines 36-90): each [Accept] either
    fails, and then [run] calls [listenersWG.Done()] and returns (its
    deferred [goroutineWG.Done()] runs), or yields a connection, which is
    counted in [connWG] and pushed on the connections list
    ([Conns.accept]).  A failed handshake sleeps and closes the
    connection at once ([closeClient]); otherwise [run] adds one to
    [goroutineWG] and starts the connection's goroutine, which runs
    [serviceClient] and, when it returns, calls [closeClient] and
    [goroutineWG.Done()].

    This file models what [run] does to the connections list and the
    three wait groups; what it does to the sessions is
    [Server.run_accept].  The outcome of each [Accept] and of each
    handshake is an input.  The server is started with [goroutineWG] and
    [listenersWG] at one for [run] (the code that starts it is not under
    [src/]); [Close] waits for the three wait groups.  [goroutineWG] here
    counts [run] and the connection goroutines: the dispatch workers
    also add to it ([serviceClient], line 299) and release it with their
    deferred [Done] ([processRequest], line 94), one each; [Server]
    counts them in [activeRPCs], and they are left out of this file. *)

From S2P Require Import Prelude Conns.
Local Open Scope N_scope.
Local Set Warnings "-clear-no-such-hyp".

Module AcceptLoop.
Import Conns.

(** What [tlsListener.Accept()] returns, and for a connection whether
    [getClientIDAndWait] succeeded. *)
Inductive acceptResult :=
  | AcceptErr
  | AcceptConn (c : N) (handshakeOk : bool).

Record runState := mkRun {
  conns : connections;
  goroutineWG : nat;
  listenersWG : nat;
  services : list N;       (* connections whose goroutine is in serviceClient *)
  returned : bool }.       (* run has returned *)

(** [go server.run()] with both wait groups added for it. *)
Definition startRun : runState := mkRun initConns 1 1 [] false.

Definition set_conns (st : runState) (s : connections) : runState :=
  mkRun s (goroutineWG st) (listenersWG st) (services st) (returned st).

(** One iteration of the loop (lines 39-89).  [None]: a [Done] on a zero
    counter, which panics. *)
Definition run_iter (r : acceptResult) (st : runState) : option runState :=
  match r with
  | AcceptErr =>
      match listenersWG st, goroutineWG st with
      | S l, S g => Some (mkRun (conns st) g l (services st) true)
      | _, _ => None
      end
  | AcceptConn c handshakeOk =>
      let s := accept c (conns st) in
      if handshakeOk then
        Some (mkRun s (S (goroutineWG st)) (listenersWG st) (services st ++ [c]) (returned st))
      else set_conns st <$> closeClient c s
  end.

(** The loop over the results of successive [Accept] calls: it returns
    at the first error. *)
Fixpoint run (rs : list acceptResult) (st : runState) : option runState :=
  match rs with
  | [] => Some st
  | AcceptErr :: _ => run_iter AcceptErr st
  | r :: rs' => run_iter r st ≫= run rs'
  end.

(** The connection's goroutine after [serviceClient] returns (lines
    77-86): [closeClient], then the deferred [goroutineWG.Done()]. *)
Definition service_exit (c : N) (st : runState) : option runState :=
  match goroutineWG st with
  | O => None
  | S g =>
      (fun s => mkRun s g (listenersWG st) (filter (fun x => x <> c) (services st)) (returned st))
        <$> closeClient c (conns st)
  end.

Fixpoint service_exits (cs : list N) (st : runState) : option runState :=
  match cs with
  | [] => Some st
  | c :: cs' => service_exit c st ≫= service_exits cs'
  end.

(** Every connection [Accept] returns is new. *)
Definition fresh (r : acceptResult) (st : runState) : Prop :=
  match r with AcceptConn c _ => c ∉ accepted (conns st) | AcceptErr => True end.

(** [run]'s iterations, the service goroutines' exits and
    [closeClientConn], interleaved. *)
Inductive run_step : runState -> runState -> Prop :=
  | RunIter st r st' : returned st = false -> fresh r st -> run_iter r st = Some st' -> run_step st st'
  | RunServiceExit st c st' : c ∈ services st -> service_exit c st = Some st' -> run_step st st'
  | RunCloseAll st : run_step st (set_conns st (closeClientConn (conns st))).

Definition run_reachable (st : runState) : Prop := rtc run_step startRun st.

(** [Close]'s waits return: the three wait groups are at zero. *)
Definition close_can_return (st : runState) : Prop :=
  goroutineWG st = 0%nat /\ listenersWG st = 0%nat /\ connWG (conns st) = 0%nat.

(** The connections a sequence of [Accept] results hands out. *)
Definition conn_ids (rs : list acceptResult) : list N :=
  omap (fun r => match r with AcceptConn c _ => Some c | AcceptErr => None end) rs.

(** A run of the loop: three connections, the second one's handshake
    fails, then the listener is closed; a later result is never read. *)
Definition demo_accepts : list acceptResult :=
  [AcceptConn 1 true; AcceptConn 2 false; AcceptConn 3 true].
Definition demo_after : list acceptResult := [AcceptConn 4 true].

(** ** Lemmas *)
Module Facts.
Import Conns.Facts.

(** The connections list holds exactly the connections being serviced;
    [goroutineWG] counts their goroutines and [run] while it loops;
    [listenersWG] is one until [run] returns. *)
Record run_inv (st : runState) : Prop := {
  ri_conns : conns_inv (conns st);
  ri_goroutines : goroutineWG st = (length (services st) + if returned st then 0 else 1)%nat;
  ri_listeners : listenersWG st = if returned st then 0%nat else 1%nat;
  ri_services : services st ≡ₚ elems (conns st) }.

Lemma run_inv_start : run_inv startRun.
Proof. split; cbn; [apply conns_inv_init|done|done|done]. Qed.

Lemma notin_elems s c : conns_inv s -> c ∉ accepted s -> c ∉ elems s.
Proof. intros Hinv Hc Hin. by apply Hc, (ci_listed _ Hinv). Qed.

(** A connection whose handshake fails leaves the list as it was. *)
Lemma accept_close_failed s c :
  conns_inv s -> c ∉ accepted s ->
  exists s', closeClient c (accept c s) = Some s' /\ conns_inv s' /\ elems s' = elems s /\
             accepted s' = {[c]} ∪ accepted s.
Proof.
  intros Hinv Hc. assert (Hinv1 : conns_inv (accept c s)) by (eapply conns_inv_step; [done|by constructor]).
  destruct (closeClient_listed (accept c s) c Hinv1) as (s' & Hcl & Hinv' & He & _ & _ & Ha);
    [cbn; set_solver|].
  exists s'. split_and!; [done|done| |done]. rewrite He. cbn.
  rewrite filter_app, filter_ne_notin by (by apply notin_elems).
  rewrite filter_cons_False by (intros []; done). apply app_nil_r.
Qed.

Lemma run_inv_iter st r st' :
  run_inv st -> returned st = false -> fresh r st -> run_iter r st = Some st' -> run_inv st'.
Proof.
  intros [Hc Hg Hl Hs] Hret Hfr Hit. rewrite Hret in Hg, Hl.
  destruct r as [|c [|]]; cbn [run_iter fresh] in Hit, Hfr.
  - rewrite Hl, Hg, Nat.add_comm in Hit. injection Hit as <-. split; cbn; [done|lia|done|done].
  - injection Hit as <-. split; cbn.
    + eapply conns_inv_step; [done|by constructor].
    + rewrite Hret, length_app. cbn. lia.
    + by rewrite Hret.
    + by rewrite Hs.
  - destruct (accept_close_failed _ _ Hc Hfr) as (s' & Hcl & Hinv' & He & _).
    rewrite Hcl in Hit. injection Hit as <-. split; cbn; [done|by rewrite Hret|by rewrite Hret|by rewrite He].
Qed.

(** The goroutine of a serviced connection exits: no panic, and the
    connection leaves both lists. *)
Lemma service_exit_listed st c :
  run_inv st -> c ∈ services st ->
  exists st', service_exit c st = Some st' /\ run_inv st' /\
              conns st' = default (conns st) (closeClient c (conns st)) /\
              S (goroutineWG st') = goroutineWG st /\ listenersWG st' = listenersWG st /\
              services st' = filter (fun x => x <> c) (services st) /\ returned st' = returned st.
Proof.
  intros [Hc Hg Hl Hs] Hin.
  assert (Hin' : c ∈ elems (conns st)) by (by rewrite <- Hs).
  assert (Hnd : NoDup (services st)) by (rewrite Hs; apply Hc).
  pose proof (length_filter_remove _ _ Hnd Hin) as Hlen.
  destruct (closeClient_listed _ c Hc Hin') as (s' & Hcl & Hinv' & He & _).
  unfold service_exit. rewrite Hcl. destruct (goroutineWG st) as [|g] eqn:Hgz; [lia|].
  eexists. split; [reflexivity|]. split_and!; try done. split; cbn; [done|lia|done|].
  by rewrite He, Hs.
Qed.

Lemma run_inv_step st st' : run_inv st -> run_step st st' -> run_inv st'.
Proof.
  intros Hinv Hstep. destruct Hstep as [st r st' Hr Hf Hit|st c st' Hin Hex|st].
  - by eapply run_inv_iter.
  - by destruct (service_exit_listed st c Hinv Hin) as (? & Hex' & ? & _); simplify_eq.
  - destruct Hinv as [Hc Hg Hl Hs]. split; cbn; [|done|done|done].
    eapply conns_inv_step; [done|constructor].
Qed.

Lemma run_inv_reachable st : run_reachable st -> run_inv st.
Proof.
  intros Hr. cut (forall s0, rtc run_step s0 st -> run_inv s0 -> run_inv st); [eauto using run_inv_start|].
  clear Hr. intros s0 Hr. induction Hr; eauto using run_inv_step.
Qed.

(** One iteration on a fresh connection: no panic, and the connection is
    accepted. *)
Lemma run_iter_conn st c b :
  run_inv st -> returned st = false -> c ∉ accepted (conns st) ->
  exists st', run_iter (AcceptConn c b) st = Some st' /\ run_step st st' /\ run_inv st' /\
              returned st' = false /\ accepted (conns st') = {[c]} ∪ accepted (conns st).
Proof.
  intros Hinv Hr Hc. destruct b.
  - eexists. split_and!; [reflexivity|eapply (RunIter _ (AcceptConn c true)); [done|exact Hc|reflexivity]|
      eapply (run_inv_iter _ (AcceptConn c true)); [done|done|exact Hc|reflexivity]|done|done].
  - destruct (accept_close_failed _ _ (ri_conns _ Hinv) Hc) as (s' & Hcl & _ & _ & Ha).
    assert (Hit : run_iter (AcceptConn c false) st = Some (set_conns st s'))
      by (cbn [run_iter]; by rewrite Hcl).
    eexists. split_and!; [exact Hit|eapply (RunIter _ (AcceptConn c false)); [done|exact Hc|exact Hit]|
      eapply (run_inv_iter _ (AcceptConn c false)); [done|done|exact Hc|exact Hit]|done|exact Ha].
Qed.

(** The loop over fresh connections runs to the first [Accept] error,
    without a panic, and returns there. *)
Lemma run_to_error st pre post :
  run_inv st -> returned st = false -> Forall (fun r => r <> AcceptErr) pre ->
  NoDup (conn_ids pre) -> (forall c, c ∈ conn_ids pre -> c ∉ accepted (conns st)) ->
  exists st', run (pre ++ AcceptErr :: post) st = Some st' /\ rtc run_step st st' /\
              returned st' = true.
Proof.
  revert st. induction pre as [|r pre IH]; intros st Hinv Hr Hne Hnd Hfr.
  - destruct Hinv as [Hc Hg Hl Hs]. rewrite Hr in Hg, Hl. cbn. rewrite Hl, Hg, Nat.add_comm.
    eexists. split; [reflexivity|]. split; [|done].
    apply rtc_once. eapply (RunIter _ AcceptErr); [done|done|]. cbn. by rewrite Hl, Hg, Nat.add_comm.
  - apply Forall_cons in Hne as [Hne Hne']. destruct r as [|c b]; [done|].
    cbn in Hnd. apply NoDup_cons in Hnd as [Hcn Hnd].
    destruct (run_iter_conn st c b Hinv Hr) as (st1 & Hit & Hstep & Hinv1 & Hr1 & Ha1); [set_solver|].
    destruct (IH st1 Hinv1 Hr1 Hne' Hnd) as (st' & Hrun & Hrtc & Hret).
    { intros x Hx. rewrite Ha1. assert (x <> c) by (intros ->; done). set_solver. }
    exists st'. split; [change (run_iter (AcceptConn c b) st ≫= run (pre ++ AcceptErr :: post) = Some st'); by rewrite Hit|]. split; [by eapply rtc_l|done].
Qed.

(** The goroutines of the serviced connections exit, in any order: each
    closes its connection, and [goroutineWG] drops by one per goroutine. *)
Lemma service_exits_drain st order :
  run_inv st -> order ≡ₚ services st ->
  exists st', service_exits order st = Some st' /\ rtc run_step st st' /\
              closeClients order (conns st) = Some (conns st') /\
              (goroutineWG st' + length order)%nat = goroutineWG st /\
              listenersWG st' = listenersWG st /\ returned st' = returned st /\ services st' = [].
Proof.
  revert st. induction order as [|c order IH]; intros st Hinv Hperm.
  - exists st. symmetry in Hperm. apply Permutation_nil_r in Hperm. cbn. by split_and!; [| | |lia| | |].
  - assert (Hc : c ∈ services st) by (rewrite <- Hperm; set_solver).
    assert (Hnd : NoDup (c :: order)) by (rewrite Hperm, (ri_services _ Hinv); apply Hinv).
    apply NoDup_cons in Hnd as [Hnotin _].
    destruct (service_exit_listed st c Hinv Hc) as (st1 & Hex & Hinv1 & Hc1 & Hg1 & Hl1 & Hs1 & Hr1).
    assert (Hperm1 : order ≡ₚ services st1).
    { rewrite Hs1, <- Hperm, filter_cons_False by (intros []; done). by rewrite filter_ne_notin. }
    destruct (IH st1 Hinv1 Hperm1) as (st' & Hrun & Hrtc & Hcl & Hg & Hl & Hr & Hs).
    destruct (closeClient_listed (conns st) c) as (s1 & Hcs & _);
      [apply Hinv|by rewrite <- (ri_services _ Hinv)|].
    rewrite Hcs in Hc1. cbn in Hc1.
    exists st'. cbn. rewrite Hex. cbn. split_and!; try congruence.
    + eapply rtc_l; [by eapply RunServiceExit|done].
    + rewrite Hcs. cbn. by rewrite <- Hc1.
    + cbn. lia.
Qed.

End Facts.

(** ** Properties *)
Module Properties.
Import Conns.Facts Facts.

(** C15: in every state reachable by [run]'s iterations, the service
    goroutines' exits and [closeClientConn], the connections list holds
    each connection once and exactly the connections whose goroutine is
    in [serviceClient]; [connWG] counts them; [goroutineWG] counts them
    and [run] until it returns; [listenersWG] is one until [run]
    returns and zero after. *)
Theorem run_wait_groups_inv (st : runState) :
  run_reachable st ->
  NoDup (elems (conns st)) /\ services st ≡ₚ elems (conns st) /\
  connWG (conns st) = length (services st) /\
  goroutineWG st = (length (services st) + if returned st then 0 else 1)%nat /\
  listenersWG st = (if returned st then 0 else 1)%nat.
Proof.
  intros Hr. destruct (run_inv_reachable _ Hr) as [Hc Hg Hl Hs].
  split_and!; try done; [apply Hc|]. rewrite (ci_count _ Hc). by apply Permutation_length.
Qed.

(** C16: [run] over [Accept] results handing out distinct connections
    returns at the first [Accept] error, whatever follows it, without a
    [Done] on a zero counter; the state it returns in is reachable,
    [listenersWG] is zero and [goroutineWG] counts only the service
    goroutines. *)
Theorem run_returns_at_first_error (pre post : list acceptResult) :
  Forall (fun r => r <> AcceptErr) pre -> NoDup (conn_ids pre) ->
  exists st, run (pre ++ AcceptErr :: post) startRun = Some st /\ run_reachable st /\
             returned st = true /\ listenersWG st = 0%nat /\ goroutineWG st = length (services st).
Proof.
  intros Hne Hnd.
  destruct (run_to_error startRun pre post run_inv_start eq_refl Hne Hnd) as (st & Hrun & Hr & Hret);
    [cbn; set_solver|].
  destruct (run_inv_reachable st Hr) as [_ Hg Hl _]. rewrite Hret in Hg, Hl.
  exists st. split_and!; [done|done|done|done|lia].
Qed.

(** C14: [Close]'s waits return: once [run] has returned, after
    [closeClientConn] and the exit of every service goroutine, in any
    order, [goroutineWG], [listenersWG] and [connWG] are zero, no [Done]
    panicked, and every connection ever accepted was closed. *)
Theorem close_waits_return (st : runState) (order : list N) :
  run_reachable st -> returned st = true -> order ≡ₚ services st ->
  exists st', service_exits order (set_conns st (closeClientConn (conns st))) = Some st' /\
              rtc run_step st st' /\ close_can_return st' /\
              accepted (conns st') ⊆ closed (conns st').
Proof.
  intros Hr Hret Hperm. set (st1 := set_conns st (closeClientConn (conns st))).
  assert (Hinv1 : run_inv st1) by (eapply run_inv_step; [exact (run_inv_reachable _ Hr)|constructor]).
  destruct (service_exits_drain st1 order Hinv1 Hperm) as (st' & Hex & Hrtc & Hcl & Hg & Hl & Hr' & Hs).
  pose proof (ri_services _ Hinv1) as Hs1. change (services st ≡ₚ elems (conns st1)) in Hs1.
  rewrite <- Hperm in Hs1.
  destruct (closeClients_drain _ order (ri_conns _ Hinv1) Hs1) as (s' & Hcl' & _ & Hw & Hclosed & Hacc).
  rewrite Hcl in Hcl'. injection Hcl' as Heq. subst s'.
  pose proof (ri_goroutines _ Hinv1) as Hg1. pose proof (ri_listeners _ Hinv1) as Hl1.
  unfold st1 in Hg1, Hl1, Hg, Hl. cbn in Hg1, Hl1, Hg, Hl. rewrite Hret in Hg1, Hl1. rewrite (Permutation_length Hperm) in Hg.
  exists st'. split_and!; [done|by eapply rtc_l; [apply RunCloseAll|]|split_and!; [lia|lia|done]|].
  pose proof (ci_accepted _ (ri_conns _ Hinv1)) as Hsub. cbn in Hsub |- *.
  rewrite Hacc, Hclosed. cbn. set_solver.
Qed.

(** The loop of [demo_accepts] returns at the error; at [Close] the
    two serviced connections' goroutines exit in reverse order. *)
Lemma close_waits_return_witness :
  exists st, run (demo_accepts ++ AcceptErr :: demo_after) startRun = Some st /\
    run_reachable st /\ returned st = true /\ [3; 1] ≡ₚ services st /\
    exists st', service_exits [3; 1] (set_conns st (closeClientConn (conns st))) = Some st' /\
                rtc run_step st st' /\ close_can_return st' /\ accepted (conns st') ⊆ closed (conns st').
Proof.
  destruct (run_to_error startRun demo_accepts demo_after run_inv_start eq_refl)
    as (st & Hrun & Hr & Hret);
    [unfold demo_accepts; repeat constructor; discriminate|cbn; repeat constructor; set_solver|cbn; set_solver|].
  assert (Hs : [3; 1] ≡ₚ services st).
  { vm_compute in Hrun. injection Hrun as Heq. rewrite <- Heq. cbn. apply Permutation_swap. }
  exists st. split_and!; [done|done|done|done|]. by apply close_waits_return.
Defined.

(** [run] over [demo_accepts] and a closed listener. *)
Lemma run_returns_at_first_error_witness :
  Forall (fun r => r <> AcceptErr) demo_accepts /\ NoDup (conn_ids demo_accepts) /\
  exists st, run (demo_accepts ++ AcceptErr :: demo_after) startRun = Some st /\ run_reachable st /\
             returned st = true /\ listenersWG st = 0%nat /\ goroutineWG st = length (services st).
Proof.
  assert (Hne : Forall (fun r => r <> AcceptErr) demo_accepts)
    by (unfold demo_accepts; repeat constructor; discriminate).
  assert (Hnd : NoDup (conn_ids demo_accepts)) by (cbn; repeat constructor; set_solver).
  split_and!; [done|done|]. exact (run_returns_at_first_error _ _ Hne Hnd).
Defined.

(** A reachable state: the loop of [demo_accepts] has returned. *)
Lemma run_wait_groups_inv_witness :
  exists st, run_reachable st /\ returned st = true /\
    NoDup (elems (conns st)) /\ services st ≡ₚ elems (conns st) /\
    connWG (conns st) = length (services st) /\
    goroutineWG st = (length (services st) + if returned st then 0 else 1)%nat /\
    listenersWG st = (if returned st then 0 else 1)%nat.
Proof.
  destruct (run_to_error startRun demo_accepts demo_after run_inv_start eq_refl)
    as (st & _ & Hr & Hret);
    [unfold demo_accepts; repeat constructor; discriminate|cbn; repeat constructor; set_solver|cbn; set_solver|].
  exists st. split; [done|split; [done|exact (run_wait_groups_inv st Hr)]].
Defined.

End Properties.

End AcceptLoop.
