(* ===== verification/AtMostOnce.v ===== *)
(** * AtMostOnce: the retry guarantee of the RetryRPC server

    The invariant [amo_inv] of the states the server reaches when its
    clients are well behaved (a request ID is framed at most once per
    connection), and the theorems it gives: a method is executed at most
    once per session and request ID until the trim daemon forgets the
    completion, and every reply sent for a request ID is the one that was
    cached.  The invariant ties the ghost logs of [Server] to the
    sessions' caches: each executed request is cached until it is
    trimmed, each sent reply is the cached reply, each running worker's
    request is not cached yet, and two workers never carry the same
    session and request ID. *)

From S2P Require Import Prelude Wire Registry Session Server.
Local Open Scope N_scope.

(** ** The invariant *)

(** The session and request ID a worker carries, when its frame
    parsed. *)
Definition worker_key (w : worker) : option (N * requestID) :=
  match w_req w with Some req => Some (w_ci w, RequestID req) | None => None end.

Definition worker_keys (ws : list worker) : list (N * requestID) := omap worker_key ws.

(** What a session holds in a reachable state: the invariant of its
    cache and LRU, completion times not after the clock, and cached
    replies whose header is set up. *)
Definition session_ok (now : Z) (ci : clientInfo) : Prop :=
  session_wf ci /\
  (forall x, x ∈ completedRequestLRU ci -> (lru_time x <= now)%Z) /\
  (forall rid ce, completedRequest ci !! rid = Some ce -> setupHdrReply (reply ce) RPC = reply ce).

(** The reply cached for request ID [rid] in session [p] of the heap. *)
Definition cached_reply (h : gmap N clientInfo) (p : N) (rid : requestID) : option completedEntry :=
  h !! p ≫= fun ci => completedRequest ci !! rid.

(** The invariant over the parts of the state it reads: the clock, the
    heap of sessions, the workers and the ghost logs. *)
Record ainv (now : Z) (h : gmap N clientInfo) (ws : list worker) (g : ghost) : Prop := {
  ai_sessions : forall p ci, h !! p = Some ci -> session_ok now ci;
  ai_framed : forall w req, w ∈ ws -> w_req w = Some req -> (w_conn w, RequestID req) ∈ framed g;
  ai_keys : NoDup (worker_keys ws);
  ai_running : forall w t0, w ∈ ws -> w_phase w = Running t0 ->
    exists req, w_req w = Some req /\ cached_reply h (w_ci w) (RequestID req) = None;
  ai_once : forall k, k ∉ trimmed g -> (occurrences k (executed g) <= 1)%nat;
  ai_cached : forall p rid, (p, rid) ∈ executed g -> (p, rid) ∉ trimmed g ->
    is_Some (cached_reply h p rid);
  ai_sent : forall x, x ∈ sent g -> (sent_ci x, sent_rid x) ∉ trimmed g ->
    exists ce, cached_reply h (sent_ci x) (sent_rid x) = Some ce /\ sent_reply x = reply ce
}.

Definition amo_inv (s : server) : Prop := ainv (clock s) (cis s) (workers s) (gh s).

(** The states reached from the server of [NewServer] and [Register]
    with methods [svr] and TTL [ttl], through events of well-behaved
    clients. *)
Definition wb_reachable (svr : gmap string methodArgs) (ttl : Z) (s : server) : Prop :=
  reachable true (initServer svr ttl) s.

(** ** What a trim pass does to the heap of sessions *)

(** A session shrank: its cache is a sub-map and its LRU a sub-list of
    what they were, and the request IDs that left the cache are
    recorded in [r]. *)
Definition shrunk (r : gset (N * requestID)) (p : N) (ci ci' : clientInfo) : Prop :=
  completedRequest ci' ⊆ completedRequest ci /\
  completedRequestLRU ci' `sublist_of` completedRequestLRU ci /\
  removed_keys p (completedRequest ci) (completedRequest ci') ⊆ r.

(** Every session of [h] shrank in [h']; no session appeared or
    disappeared. *)
Definition heap_shrunk (r : gset (N * requestID)) (h h' : gmap N clientInfo) : Prop :=
  forall p, match h !! p, h' !! p with
            | Some ci, Some ci' => shrunk r p ci ci'
            | None, None => True
            | _, _ => False
            end.

Definition sessions_wf (h : gmap N clientInfo) : Prop :=
  forall p ci, h !! p = Some ci -> session_wf ci.

(** ** Shrinking sessions *)

Lemma elem_of_removed_keys p m m' q k :
  (q, k) ∈ removed_keys p m m' <-> q = p /\ k ∈ dom m /\ k ∉ dom m'.
Proof.
  unfold removed_keys. rewrite elem_of_map. split.
  - intros (k' & [= -> ->] & Hk%elem_of_difference). tauto.
  - intros (-> & Hk & Hk'). exists k. split; [done|]. by apply elem_of_difference.
Qed.

Lemma shrunk_refl r p ci : shrunk r p ci ci.
Proof.
  split_and!; [done|done|]. intros [q k] [_ [? ?]]%elem_of_removed_keys. done.
Qed.

Lemma shrunk_trans r1 r2 r p ci1 ci2 ci3 :
  r1 ⊆ r -> r2 ⊆ r -> shrunk r1 p ci1 ci2 -> shrunk r2 p ci2 ci3 -> shrunk r p ci1 ci3.
Proof.
  intros H1 H2 (Hm12 & Hl12 & Hr12) (Hm23 & Hl23 & Hr23). split_and!.
  - by etrans.
  - by etrans.
  - intros [q k] (-> & Hk1 & Hk3)%elem_of_removed_keys.
    destruct (decide (k ∈ dom (completedRequest ci2))) as [Hk2|Hk2].
    + apply H2, Hr23, elem_of_removed_keys. done.
    + apply H1, Hr12, elem_of_removed_keys. done.
Qed.

Lemma heap_shrunk_refl r h : heap_shrunk r h h.
Proof. intros p. destruct (h !! p); [apply shrunk_refl|done]. Qed.

(** One session shrinks, then the heap shrinks further. *)
Lemma heap_shrunk_insert r1 r2 h h' p ci ci' :
  h !! p = Some ci -> shrunk r1 p ci ci' -> heap_shrunk r2 (<[p := ci']> h) h' ->
  heap_shrunk (r1 ∪ r2) h h'.
Proof.
  intros Hp Hs Hh q. specialize (Hh q).
  destruct (decide (p = q)) as [<-|Hne].
  - rewrite lookup_insert_eq in Hh. rewrite Hp. destruct (h' !! p); [|done].
    eapply shrunk_trans; [| |exact Hs|exact Hh]; set_solver.
  - rewrite lookup_insert_ne in Hh by done.
    destruct (h !! q), (h' !! q); try done.
    destruct Hh as (? & ? & Hr). split_and!; [done|done|]. set_solver.
Qed.

Lemma sessions_wf_insert h p ci :
  sessions_wf h -> session_wf ci -> sessions_wf (<[p := ci]> h).
Proof. intros Hh Hci q c [[<- <-]|[_ Hq]]%lookup_insert_Some; eauto. Qed.

(** The ACK pass over all sessions. *)
Lemma trim_short_all_shrunk ps h h' r :
  sessions_wf h -> trim_short_all ps h = Some (h', r) -> sessions_wf h' /\ heap_shrunk r h h'.
Proof.
  revert h r. induction ps as [|p ps IH]; intros h r Hwf Ht; cbn in Ht.
  { simplify_eq. split; [done|apply heap_shrunk_refl]. }
  destruct (h !! p) as [ci|] eqn:Hp; [|by eapply IH].
  destruct (trimAClientBasedACK _ ci) as [[ci' k]|] eqn:Htr; [|done].
  destruct (trim_short_all ps _) as [[h1 r1]|] eqn:Hrest; [|done]. simplify_eq.
  pose proof (trimAClientBasedACK_below_max _ _ _ Htr) as Hmax.
  destruct (trimAClientBasedACK_correct _ _ _ _ (Hwf p ci Hp) Hmax Htr)
    as (Hwf' & _ & _ & _ & Hm & Hl).
  destruct (IH _ _ (sessions_wf_insert _ p _ Hwf Hwf') Hrest) as [Hwf1 Hs1].
  split; [done|]. eapply heap_shrunk_insert; [exact Hp| |exact Hs1]. by split_and!.
Qed.

(** The TTL pass over all sessions. *)
Lemma trim_long_all_shrunk ttl t ps h :
  sessions_wf h ->
  sessions_wf (trim_long_all ttl t ps h).1 /\
  heap_shrunk (trim_long_all ttl t ps h).2 h (trim_long_all ttl t ps h).1.
Proof.
  revert h. induction ps as [|p ps IH]; intros h Hwf; cbn.
  { split; [done|apply heap_shrunk_refl]. }
  destruct (h !! p) as [ci|] eqn:Hp; [|by apply IH].
  destruct (trimTLLBased ttl t ci) as [ci' k] eqn:Htr. cbn.
  destruct (trimTLLBased_correct _ _ _ _ _ (Hwf p ci Hp) Htr) as (Hwf' & _ & Hmap & Hl).
  specialize (IH _ (sessions_wf_insert _ p _ Hwf Hwf')).
  destruct (trim_long_all ttl t ps _) as [h1 r1]. cbn in *. destruct IH as [Hwf1 Hs1].
  split; [done|]. eapply heap_shrunk_insert; [exact Hp| |exact Hs1].
  split_and!; [|done|done]. apply map_subseteq_spec. intros rid ce Hce. by apply Hmap.
Qed.

(** ** Lookups of cached replies and worker keys *)

Lemma cached_reply_insert h p ci q k :
  cached_reply (<[p := ci]> h) q k =
  if decide (q = p) then completedRequest ci !! k else cached_reply h q k.
Proof.
  unfold cached_reply. case_decide as Hq; [subst; by rewrite lookup_insert_eq|].
  by rewrite lookup_insert_ne by done.
Qed.

(** Replacing a session by one with the same cache changes no cached
    reply. *)
Lemma cached_reply_same h p ci ci' q k :
  h !! p = Some ci -> completedRequest ci' = completedRequest ci ->
  cached_reply (<[p := ci']> h) q k = cached_reply h q k.
Proof.
  intros Hp Hc. rewrite cached_reply_insert. case_decide; [subst|done].
  unfold cached_reply. by rewrite Hp, Hc.
Qed.

Lemma worker_keys_app ws1 ws2 : worker_keys (ws1 ++ ws2) = worker_keys ws1 ++ worker_keys ws2.
Proof. apply omap_app. Qed.

Lemma worker_keys_sublist ws1 ws2 : ws1 `sublist_of` ws2 -> worker_keys ws1 `sublist_of` worker_keys ws2.
Proof.
  unfold worker_keys.
  induction 1 as [|w ws1 ws2 _ IH|w ws1 ws2 _ IH]; cbn; [done| |];
    destruct (worker_key w); first [by constructor | done].
Qed.

Lemma worker_keys_delete ws i : worker_keys (delete i ws) `sublist_of` worker_keys ws.
Proof. apply worker_keys_sublist, sublist_delete. Qed.

(** With distinct keys, no other worker carries the key of worker [i]. *)
Lemma worker_keys_delete_notin ws i w k :
  NoDup (worker_keys ws) -> ws !! i = Some w -> worker_key w = Some k ->
  k ∉ worker_keys (delete i ws).
Proof.
  intros Hnd Hi Hk. rewrite <- (take_drop_middle ws i w Hi) in Hnd.
  rewrite delete_take_drop, worker_keys_app.
  rewrite worker_keys_app in Hnd. cbn in Hnd. rewrite Hk in Hnd.
  apply NoDup_app in Hnd as (_ & Hdis & Hnd2). apply NoDup_cons in Hnd2 as [Hnin _].
  intros [Hin|Hin]%elem_of_app; [|done].
  apply (Hdis k Hin). set_solver.
Qed.

Lemma worker_keys_insert ws i w w' :
  ws !! i = Some w -> worker_key w' = worker_key w -> worker_keys (<[i := w']> ws) = worker_keys ws.
Proof.
  intros Hi Hk. rewrite <- (take_drop_middle ws i w Hi) at 2.
  rewrite insert_take_drop by (eapply lookup_lt_Some; eauto).
  rewrite !worker_keys_app. cbn. by rewrite Hk.
Qed.

Lemma elem_of_worker_keys w ws req :
  w ∈ ws -> w_req w = Some req -> (w_ci w, RequestID req) ∈ worker_keys ws.
Proof.
  intros Hw Hr. apply list_elem_of_omap. exists w. split; [done|]. unfold worker_key. by rewrite Hr.
Qed.

Lemma setupHdrReply_idem ior t : setupHdrReply (setupHdrReply ior t) t = setupHdrReply ior t.
Proof. reflexivity. Qed.

(** A shrunk session keeps every reply whose removal is not recorded. *)
Lemma shrunk_keeps r p ci ci' rid ce :
  shrunk r p ci ci' -> (p, rid) ∉ r ->
  completedRequest ci !! rid = Some ce -> completedRequest ci' !! rid = Some ce.
Proof.
  intros (Hm & _ & Hr) Hnot Hce.
  destruct (completedRequest ci' !! rid) as [ce'|] eqn:Hce'.
  - by rewrite (lookup_weaken _ _ _ _ Hce' Hm) in Hce.
  - destruct Hnot. apply Hr, elem_of_removed_keys. split_and!; [done| |].
    + by apply elem_of_dom.
    + by apply not_elem_of_dom.
Qed.

(** The same, seen through [cached_reply]. *)
Lemma heap_shrunk_cached r h h' p rid ce :
  heap_shrunk r h h' -> (p, rid) ∉ r ->
  cached_reply h p rid = Some ce -> cached_reply h' p rid = Some ce.
Proof.
  intros Hs Hnot. specialize (Hs p). unfold cached_reply.
  destruct (h !! p) as [ci|], (h' !! p) as [ci'|]; cbn; try done.
  by apply (shrunk_keeps r p ci ci').
Qed.

Lemma heap_shrunk_uncached r h h' p rid :
  heap_shrunk r h h' -> cached_reply h p rid = None -> cached_reply h' p rid = None.
Proof.
  intros Hs. specialize (Hs p). unfold cached_reply.
  destruct (h !! p) as [ci|], (h' !! p) as [ci'|]; cbn; try done.
  destruct Hs as (Hm & _). intros Hn. by eapply lookup_weaken_None.
Qed.

Lemma cached_reply_absent h p rid : h !! p = None -> cached_reply h p rid = None.
Proof. intros Hp. unfold cached_reply. by rewrite Hp. Qed.

Lemma cached_reply_lookup h p ci rid :
  h !! p = Some ci -> cached_reply h p rid = completedRequest ci !! rid.
Proof. intros Hp. unfold cached_reply. by rewrite Hp. Qed.

(** What [processRequest_finish] does to the cache and the LRU. *)
Lemma processRequest_finish_cache ci rid ior t0 t1 now :
  completedRequest (processRequest_finish ci rid ior t0 t1 now).1 =
    <[rid := mkCompletedEntry (setupHdrReply ior RPC) (lruNext ci)]> (completedRequest ci) /\
  completedRequestLRU (processRequest_finish ci rid ior t0 t1 now).1 =
    completedRequestLRU ci ++ [(lruNext ci, mkLRUEntry rid now)] /\
  (processRequest_finish ci rid ior t0 t1 now).2 = setupHdrReply ior RPC.
Proof. by destruct ci. Qed.

(** What [processRequest_begin] leaves unchanged. *)
Lemma processRequest_begin_frame ci req :
  completedRequest (processRequest_begin ci req).1 = completedRequest ci /\
  completedRequestLRU (processRequest_begin ci req).1 = completedRequestLRU ci /\
  lruNext (processRequest_begin ci req).1 = lruNext ci /\
  previousHighestReplySeen (processRequest_begin ci req).1 = previousHighestReplySeen ci /\
  highestReplySeen ci <= highestReplySeen (processRequest_begin ci req).1.
Proof.
  destruct ci. unfold processRequest_begin. cbn.
  destruct (_ !! RequestID req); cbn; split_and!; try done; case_decide; lia.
Qed.

Lemma processRequest_begin_outcome ci req :
  (processRequest_begin ci req).2 =
    match completedRequest ci !! RequestID req with
    | Some ce => Replay (setupHdrReply (reply ce) RPC)
    | None => Run
    end.
Proof. destruct ci. unfold processRequest_begin. cbn. by destruct (_ !! RequestID req). Qed.

(** ** The invariant is kept by each kind of step *)

Section AinvSteps.
Context (now : Z) (h : gmap N clientInfo) (ws : list worker) (g : ghost).

Lemma ainv_sessions_wf : ainv now h ws g -> sessions_wf h.
Proof. intros Hi p ci Hp. apply (ai_sessions _ _ _ _ Hi p ci Hp). Qed.

Lemma ainv_tick now' : ainv now h ws g -> (now <= now')%Z -> ainv now' h ws g.
Proof.
  intros [Hs Hf Hk Hr Ho Hc Hse] Hle. split; auto.
  intros p ci Hp. destruct (Hs p ci Hp) as (? & Ht & ?). split_and!; auto.
  intros x Hx. specialize (Ht x Hx). lia.
Qed.

(** A session is replaced by one with the same cache and LRU. *)
Lemma ainv_session_same p ci ci' :
  ainv now h ws g -> h !! p = Some ci ->
  completedRequest ci' = completedRequest ci -> completedRequestLRU ci' = completedRequestLRU ci ->
  lruNext ci' = lruNext ci -> previousHighestReplySeen ci' = previousHighestReplySeen ci ->
  highestReplySeen ci <= highestReplySeen ci' ->
  ainv now (<[p := ci']> h) ws g.
Proof.
  intros [Hs Hf Hk Hr Ho Hc Hse] Hp Hm Hl Hn Hpr Hhi.
  pose proof (cached_reply_same h p ci ci') as Hsame.
  split; auto.
  - intros q cq [[<- <-]|[_ Hq]]%lookup_insert_Some; [|eauto].
    destruct (Hs p ci Hp) as (Hwf & Ht & Hhd). split_and!.
    + by eapply session_wf_frame.
    + by rewrite Hl.
    + by rewrite Hm.
  - intros w t0 Hw Hph. destruct (Hr w t0 Hw Hph) as (req & ? & ?).
    exists req. by rewrite Hsame.
  - intros q rid He Ht. rewrite Hsame by done. eauto.
  - intros x Hx Ht. destruct (Hse x Hx Ht) as (ce & ? & ?). exists ce. by rewrite Hsame.
Qed.

(** A fresh, empty session is allocated. *)
Lemma ainv_new_session p ci :
  ainv now h ws g -> h !! p = None ->
  completedRequest ci = ∅ -> completedRequestLRU ci = [] -> session_wf ci ->
  ainv now (<[p := ci]> h) ws g.
Proof.
  intros [Hs Hf Hk Hr Ho Hc Hse] Hp Hm Hl Hwf.
  split; auto.
  - intros q cq [[<- <-]|[_ Hq]]%lookup_insert_Some; [|eauto].
    split_and!; [done| |]; rewrite ?Hm, ?Hl; set_solver.
  - intros w t0 Hw Hph. destruct (Hr w t0 Hw Hph) as (req & Hreq & Hnone).
    exists req. split; [done|]. rewrite cached_reply_insert. case_decide; [|done].
    by rewrite Hm.
  - intros q rid He Ht. rewrite cached_reply_insert. case_decide as Hq; [|eauto].
    subst. destruct (Hc p rid He Ht) as [ce Hce]. by rewrite cached_reply_absent in Hce.
  - intros x Hx Ht. rewrite cached_reply_insert. case_decide as Hq; [|eauto].
    destruct (Hse x Hx Ht) as (ce & Hce & _). rewrite Hq, cached_reply_absent in Hce by done.
    done.
Qed.

(** [serviceClient] hands a parsed frame to a new worker; the request
    ID is new on the connection, and every worker of the session is on
    this connection. *)
Lemma ainv_frame c p req :
  ainv now h ws g -> (c, RequestID req) ∉ framed g ->
  (forall w, w ∈ ws -> w_ci w = p -> w_conn w = c) ->
  ainv now h (ws ++ [mkWorker p c (Some req) Spawned]) (add_framed g (c, RequestID req)).
Proof.
  intros [Hs Hf Hk Hr Ho Hc Hse] Hfresh Hconn. split; auto.
  - intros w r [Hw|Hw%list_elem_of_singleton]%elem_of_app Hwr; cbn; [set_solver|].
    subst. cbn in Hwr. simplify_eq. set_solver.
  - rewrite worker_keys_app. apply NoDup_app. split_and!; [done| |cbn; apply NoDup_singleton].
    intros k Hk1 Hk2. cbn in Hk2. apply list_elem_of_singleton in Hk2 as ->.
    apply list_elem_of_omap in Hk1 as (w & Hw & Hwk). unfold worker_key in Hwk.
    destruct (w_req w) as [r|] eqn:Hwr; simplify_eq.
    destruct Hfresh. rewrite <- (Hconn w Hw eq_refl), <- H0. by apply Hf.
  - intros w t0 [Hw|Hw%list_elem_of_singleton]%elem_of_app Hph; [eauto|by subst].
Qed.

(** A frame whose JSON does not parse gets a worker with no request. *)
Lemma ainv_frame_malformed c p :
  ainv now h ws g -> ainv now h (ws ++ [mkWorker p c None Spawned]) g.
Proof.
  intros [Hs Hf Hk Hr Ho Hc Hse]. split; auto.
  - intros w r [Hw|Hw%list_elem_of_singleton]%elem_of_app Hwr; [eauto|by subst].
  - rewrite worker_keys_app. cbn. by rewrite app_nil_r.
  - intros w t0 [Hw|Hw%list_elem_of_singleton]%elem_of_app Hph; [eauto|by subst].
Qed.

(** A worker leaves. *)
Lemma ainv_remove_worker i w :
  ainv now h ws g -> ws !! i = Some w -> ainv now h (delete i ws) g.
Proof.
  intros [Hs Hf Hk Hr Ho Hc Hse] Hi. split; auto.
  - intros w' r Hw'%list_elem_of_delete_inv. eauto.
  - eapply sublist_NoDup; [done|apply worker_keys_delete].
  - intros w' t0 Hw'%list_elem_of_delete_inv. eauto.
Qed.

(** A worker that found no cached reply goes on to run the method. *)
Lemma ainv_run i w req t :
  ainv now h ws g -> ws !! i = Some w -> w_req w = Some req ->
  cached_reply h (w_ci w) (RequestID req) = None ->
  ainv now h (<[i := mkWorker (w_ci w) (w_conn w) (w_req w) (Running t)]> ws) g.
Proof.
  intros [Hs Hf Hk Hr Ho Hc Hse] Hi Hreq Hnone.
  assert (Hwin : w ∈ ws) by (eapply list_elem_of_lookup_2; eauto).
  split; auto.
  - intros w' r [->|Hw']%list_elem_of_insert_inv; cbn; eauto.
  - by rewrite (worker_keys_insert _ _ w).
  - intros w' t0 [->|Hw']%list_elem_of_insert_inv; cbn; eauto.
Qed.

(** A reply that is the cached one is written. *)
Lemma ainv_add_sent c p rid ce :
  ainv now h ws g -> cached_reply h p rid = Some ce ->
  ainv now h ws (add_sent g (mkSent c p rid (reply ce))).
Proof.
  intros [Hs Hf Hk Hr Ho Hc Hse] Hce. split; auto.
  intros x [Hx|Hx%list_elem_of_singleton]%elem_of_app; subst; cbn; eauto.
Qed.

(** A trim pass shrinks the sessions and records what it removed. *)
Lemma ainv_trim r h' :
  ainv now h ws g -> heap_shrunk r h h' -> sessions_wf h' -> ainv now h' ws (add_trimmed g r).
Proof.
  intros [Hs Hf Hk Hr Ho Hc Hse] Hsh Hwf'. split; cbn; auto.
  - intros p ci' Hp'. pose proof (Hsh p) as Hsp. rewrite Hp' in Hsp.
    destruct (h !! p) as [ci|] eqn:Hp; [|done]. destruct Hsp as (Hm & Hl & _).
    destruct (Hs p ci Hp) as (_ & Ht & Hhd). split_and!; [eauto| |].
    + intros x Hx. apply Ht. by apply (sublist_subseteq _ _ Hl).
    + intros rid ce Hce. apply (Hhd rid). by eapply lookup_weaken.
  - intros w t0 Hw Hph. destruct (Hr w t0 Hw Hph) as (req & ? & ?).
    exists req. split; [done|]. by eapply heap_shrunk_uncached.
  - intros k Hk'. apply Ho. set_solver.
  - intros p rid He Ht. destruct (Hc p rid He ltac:(set_solver)) as [ce Hce].
    exists ce. apply (heap_shrunk_cached r h); [done|set_solver|done].
  - intros x Hx Ht. destruct (Hse x Hx ltac:(set_solver)) as (ce & Hce & Hrep).
    exists ce. split; [|done]. apply (heap_shrunk_cached r h); [done|set_solver|done].
Qed.
End AinvSteps.

(** The cached replies after a completion of [rid] in session [p]. *)
Lemma cached_reply_finish h p ci rid ior t0 t1 now q k :
  h !! p = Some ci ->
  cached_reply (<[p := (processRequest_finish ci rid ior t0 t1 now).1]> h) q k =
  if decide ((q, k) = (p, rid))
  then Some (mkCompletedEntry (setupHdrReply ior RPC) (lruNext ci))
  else cached_reply h q k.
Proof.
  intros Hp. destruct (processRequest_finish_cache ci rid ior t0 t1 now) as (Hm & _).
  rewrite cached_reply_insert, Hm.
  destruct (decide (q = p)) as [->|Hq].
  - rewrite (cached_reply_lookup h p ci) by done.
    destruct (decide (k = rid)) as [->|Hk].
    + by rewrite lookup_insert_eq, decide_True.
    + rewrite lookup_insert_ne, decide_False by congruence. done.
  - rewrite decide_False by congruence. done.
Qed.

(** The second locked section of a worker whose request ID is not cached
    and carried by no other worker: the method was executed once, its
    reply is cached and sent. *)
Lemma ainv_complete now h ws g p ci rid ior t0 c ci' r :
  ainv now h ws g -> h !! p = Some ci -> completedRequest ci !! rid = None ->
  (p, rid) ∉ worker_keys ws ->
  processRequest_finish ci rid ior t0 now now = (ci', r) ->
  ainv now (<[p := ci']> h) ws (add_sent (add_executed g (p, rid)) (mkSent c p rid r)).
Proof.
  intros Hinv Hp Hnone Hkey Hfin.
  pose proof (cached_reply_finish h p ci rid ior t0 now now) as Hcr. rewrite Hfin in Hcr. cbn in Hcr.
  destruct (processRequest_finish_cache ci rid ior t0 now now) as (Hm & Hl & Hr').
  pose proof (processRequest_finish_wf ci rid ior t0 now now) as Hwf.
  rewrite Hfin in Hm, Hl, Hr', Hwf. cbn in Hm, Hl, Hr', Hwf.
  destruct Hinv as [Hs Hf Hk Hr Ho Hc Hse].
  destruct (Hs p ci Hp) as (Hwf0 & Ht & Hhd). unfold add_sent, add_executed.
  assert (Hold : cached_reply h p rid = None) by by rewrite (cached_reply_lookup h p ci).
  assert (Hnotexec : (p, rid) ∉ trimmed g -> (p, rid) ∉ executed g).
  { intros Ht' He. destruct (Hc p rid He Ht') as [? Hsome]. congruence. }
  split; cbn.
  - intros q cq [[<- <-]|[_ Hq]]%lookup_insert_Some; [|eauto]. split_and!.
    + by apply Hwf.
    + rewrite Hl. intros x [Hx|Hx%list_elem_of_singleton]%elem_of_app; [by apply Ht|by subst].
    + rewrite Hm. intros k ce [[<- <-]|[_ Hce]]%lookup_insert_Some; [done|eauto].
  - done.
  - done.
  - intros w t1 Hw Hph. destruct (Hr w t1 Hw Hph) as (req & Hreq & Hn).
    exists req. split; [done|]. rewrite Hcr by done. case_decide as Heq; [|done].
    destruct Hkey. rewrite <- Heq. by apply elem_of_worker_keys.
  - intros k Ht'. rewrite occurrences_snoc. specialize (Ho k Ht'). case_decide; [subst|lia].
    apply occurrences_zero in Hnotexec; [lia|done].
  - intros q k [He|He%list_elem_of_singleton]%elem_of_app Ht'; rewrite Hcr by done;
      case_decide; eauto; congruence.
  - intros x [Hx|Hx%list_elem_of_singleton]%elem_of_app Ht'; rewrite Hcr by done; case_decide as Heq.
    + destruct (Hse x Hx Ht') as (ce & Hce & _). destruct x; cbn in *. simplify_eq; congruence.
    + eauto.
    + subst. eexists. split; [done|]. cbn. done.
    + subst. by destruct Heq.
Qed.

Lemma newClientInfo_wf c uid : session_wf (newClientInfo c uid).
Proof. split; cbn; [constructor|set_solver..|constructor|lia]. Qed.

Lemma set_cCtx_frame ci c :
  completedRequest (set_cCtx ci c) = completedRequest ci /\
  completedRequestLRU (set_cCtx ci c) = completedRequestLRU ci /\
  lruNext (set_cCtx ci c) = lruNext ci /\
  previousHighestReplySeen (set_cCtx ci c) = previousHighestReplySeen ci /\
  highestReplySeen ci <= highestReplySeen (set_cCtx ci c).
Proof. destruct ci. cbn. split_and!; done || lia. Qed.

(** Under the structural invariant, the workers of the session a
    serving connection is bound to are all on that connection. *)
Lemma struct_inv_workers_on s c p cc :
  struct_inv s -> conns s !! c = Some cc -> cc_ci cc = Some p -> serviceClientExited cc = false ->
  forall w, w ∈ workers s -> w_ci w = p -> w_conn w = c.
Proof.
  intros Hinv Hc Hp Hex w Hw <-.
  pose proof (si_bound _ _ _ _ _ _ Hinv _ _ _ Hc Hp Hex).
  pose proof (si_workers _ _ _ _ _ _ Hinv w Hw). congruence.
Qed.

(** The next session address is not allocated. *)
Lemma struct_inv_fresh_session s :
  struct_inv s -> cis s !! (nextId s + 1) = None.
Proof.
  intros Hinv. destruct (cis s !! (nextId s + 1)) as [ci|] eqn:Hp; [|done].
  destruct (si_fresh _ _ _ _ _ _ Hinv (nextId s + 1) (cCtx ci)); [|lia].
  by rewrite lookup_fmap, Hp.
Qed.

(** ** The invariant holds in every state a well-behaved client reaches *)

Lemma amo_inv_init svr ttl : amo_inv (initServer svr ttl).
Proof.
  split; cbn; try (intros; simplify_map_eq; set_solver).
  all: first [constructor | intros k _; unfold occurrences; cbn; lia].
Qed.

(** The first locked section of a worker with a parsed request. *)
Lemma ainv_begin now h ws g i p c req ci :
  ainv now h ws g -> ws !! i = Some (mkWorker p c (Some req) Spawned) -> h !! p = Some ci ->
  let '(ci', out) := processRequest_begin ci req in
  match out with
  | Replay r => ainv now (<[p := ci']> h) (delete i ws) (add_sent g (mkSent c p (RequestID req) r))
  | Run => ainv now (<[p := ci']> h)
             (<[i := mkWorker p c (Some req) (Running now)]> ws) g
  end.
Proof.
  intros Hinv Hi Hp.
  destruct (processRequest_begin_frame ci req) as (Hm & Hl & Hn & Hpr & Hhi).
  pose proof (processRequest_begin_outcome ci req) as Hout.
  destruct (processRequest_begin ci req) as [ci' out]. cbn in *.
  pose proof (ainv_session_same _ _ _ _ p ci ci' Hinv Hp Hm Hl Hn Hpr Hhi) as Hinv'.
  assert (Hcr : cached_reply (<[p := ci']> h) p (RequestID req) = completedRequest ci !! RequestID req).
  { by rewrite (cached_reply_same h p ci ci'), (cached_reply_lookup h p ci). }
  subst out. destruct (completedRequest ci !! RequestID req) as [ce|] eqn:Hce.
  - destruct (ai_sessions _ _ _ _ Hinv p ci Hp) as (_ & _ & Hhd). rewrite (Hhd _ _ Hce).
    apply (ainv_add_sent _ _ _ _ _ _ _ _ (ainv_remove_worker _ _ _ _ i _ Hinv' Hi) Hcr).
  - exact (ainv_run _ _ _ _ i _ req now Hinv' Hi eq_refl Hcr).
Qed.

(** The second locked section of a running worker. *)
Lemma ainv_finish now h ws g i p c req t0 ci ior ci' r :
  ainv now h ws g -> ws !! i = Some (mkWorker p c (Some req) (Running t0)) -> h !! p = Some ci ->
  processRequest_finish ci (RequestID req) ior t0 now now = (ci', r) ->
  ainv now (<[p := ci']> h) (delete i ws)
    (add_sent (add_executed g (p, RequestID req)) (mkSent c p (RequestID req) r)).
Proof.
  intros Hinv Hi Hp Hfin.
  destruct (ai_running _ _ _ _ Hinv _ t0 ltac:(by eapply list_elem_of_lookup_2) eq_refl)
    as (req' & [= <-] & Hn). cbn in Hn. rewrite (cached_reply_lookup h p ci) in Hn by done.
  eapply ainv_complete; [exact (ainv_remove_worker _ _ _ _ i _ Hinv Hi)|done|done| |exact Hfin].
  by apply (worker_keys_delete_notin _ _ (mkWorker p c (Some req) (Running t0))); [apply Hinv|..].
Qed.

Lemma amo_inv_step s ev s' :
  struct_inv s -> amo_inv s -> frame_fresh s ev = true -> server_step ev s = Some s' -> amo_inv s'.
Proof.
  intros Hst Hinv Hfresh Hstep. pose proof (struct_inv_fresh_session s Hst) as Hnew.
  destruct s as [m ttl pci h cs n a ws hl dl t g].
  unfold amo_inv in *. unfold_step Hstep.
  destruct ev; cbn -[processRequest_begin processRequest_finish] in Hstep, Hfresh |- *.
  - (* EvAcceptNew *)
    repeat case_match; simplify_eq/=. apply ainv_new_session; try done. apply newClientInfo_wf.
  - repeat case_match; by simplify_eq/=.
  - (* EvAcceptFailed *)
    case_match; by simplify_eq/=.
  - (* EvRebind *)
    repeat case_match; simplify_eq/=.
    destruct (set_cCtx_frame c n0) as (? & ? & ? & ? & ?). by eapply ainv_session_same.
  - (* EvFrame *)
    destruct (serving _ c) as [[p cc]|] eqn:Hs; simplify_eq/=.
    apply serving_Some in Hs as (Hc & Hp & Hex & _).
    apply ainv_frame; [done|by apply bool_decide_eq_true_1 in Hfresh|].
    exact (struct_inv_workers_on _ _ _ _ Hst Hc Hp Hex).
  - destruct (serving _ c) as [[p cc]|] eqn:Hs; simplify_eq/=. by apply ainv_frame_malformed.
  - destruct (serving _ c) as [[p cc]|] eqn:Hs; by simplify_eq/=.
  - repeat case_match; by simplify_eq/=.
  - (* EvBegin *)
    destruct (ws !! i) as [[p c [req|] [|t0]]|] eqn:Hi; try done.
    + destruct (h !! p) as [ci|] eqn:Hp; [|done]. destruct (cs !! c) as [cc|]; [|done].
      pose proof (ainv_begin _ _ _ _ i p c req ci Hinv Hi Hp) as Hb.
      destruct (processRequest_begin ci req) as [ci' []]; by simplify_eq/=.
    + simplify_eq/=. exact (ainv_remove_worker _ _ _ _ i _ Hinv Hi).
  - (* EvFinish *)
    destruct (ws !! i) as [[p c [req|] [|t0]]|] eqn:Hi; try done.
    destruct (callRPCAndFormatReply m req) as [ior|]; [|done].
    destruct (h !! p) as [ci|] eqn:Hp; [|done]. destruct (cs !! c) as [cc|]; [|done].
    destruct (processRequest_finish ci (RequestID req) ior t0 t t) as [ci' r] eqn:Hfin.
    simplify_eq/=. exact (ainv_finish _ _ _ _ i p c req t0 ci ior ci' r Hinv Hi Hp Hfin).
  - (* EvTick *)
    case_match; simplify_eq/=. apply (ainv_tick t); [done|]. apply bool_decide_eq_true_1 in H. lia.
  - (* EvTrimShort *)
    destruct dl; [done|]. cbn in Hstep.
    destruct (trim_short_all _ h) as [[h' r]|] eqn:Ht; simplify_eq/=; [|done].
    destruct (trim_short_all_shrunk _ _ _ _ (ainv_sessions_wf _ _ _ _ Hinv) Ht).
    by apply (ainv_trim _ h).
  - (* EvTrimLong *)
    destruct dl; [done|]. cbn in Hstep.
    destruct (trim_long_all_shrunk ttl t (map_to_list pci).*2 h (ainv_sessions_wf _ _ _ _ Hinv)).
    destruct (trim_long_all _ _ _ h) as [h' r] eqn:Ht. simplify_eq/=. by apply (ainv_trim _ h).
  - by simplify_eq/=.
Qed.

Lemma amo_inv_reachable svr ttl s :
  reachable true (initServer svr ttl) s -> amo_inv s.
Proof.
  induction 1 as [|s ev s' Hr IH Hstep Hwb]; [apply amo_inv_init|].
  eapply amo_inv_step; [|done|by apply Hwb|done].
  exact (struct_inv_reachable _ _ _ (struct_inv_init svr ttl) Hr).
Qed.

(** ** At most once *)

(** C1: with well-behaved clients, a registered method is executed at
    most once for each session and request ID, as long as the trim
    daemon has not forgotten the completion: a retry, on the same or on
    a new connection, is answered from the cache. *)
Theorem at_most_once svr ttl s p rid :
  wb_reachable svr ttl s -> (p, rid) ∉ trimmed (gh s) ->
  (occurrences (p, rid) (executed (gh s)) <= 1)%nat.
Proof. intros Hr. apply (ai_once _ _ _ _ (amo_inv_reachable svr ttl s Hr)). Qed.

(** C2: every reply written for a session and request ID, on whichever
    connection, is the same reply, as long as the completion has not been
    trimmed. *)
Theorem sent_replies_agree svr ttl s x y :
  wb_reachable svr ttl s ->
  x ∈ sent (gh s) -> y ∈ sent (gh s) ->
  sent_ci x = sent_ci y -> sent_rid x = sent_rid y ->
  (sent_ci x, sent_rid x) ∉ trimmed (gh s) ->
  sent_reply x = sent_reply y.
Proof.
  intros Hr Hx Hy Hci Hrid Ht. pose proof (amo_inv_reachable svr ttl s Hr) as Hinv.
  destruct (ai_sent _ _ _ _ Hinv x Hx Ht) as (ce1 & Hce1 & ->).
  destruct (ai_sent _ _ _ _ Hinv y Hy ltac:(by rewrite <- Hci, <- Hrid)) as (ce2 & Hce2 & ->).
  rewrite <- Hci, <- Hrid in Hce2. congruence.
Qed.

(** C3: once a request has been executed, and until its completion is
    trimmed, its session caches the reply, and the first locked section
    of every retry of it replays exactly that reply. *)
Theorem executed_then_replayed svr ttl s p rid :
  wb_reachable svr ttl s ->
  (p, rid) ∈ executed (gh s) -> (p, rid) ∉ trimmed (gh s) ->
  exists ci ce, cis s !! p = Some ci /\ cached_reply (cis s) p rid = Some ce /\
    forall req, RequestID req = rid -> (processRequest_begin ci req).2 = Replay (reply ce).
Proof.
  intros Hr He Ht. pose proof (amo_inv_reachable svr ttl s Hr) as Hinv.
  destruct (ai_cached _ _ _ _ Hinv p rid He Ht) as [ce Hce].
  destruct (cis s !! p) as [ci|] eqn:Hp; [|by rewrite cached_reply_absent in Hce].
  rewrite (cached_reply_lookup _ p ci) in Hce by done.
  exists ci, ce. split_and!; [done|by rewrite (cached_reply_lookup _ p ci)|]. intros req <-.
  rewrite processRequest_begin_outcome, Hce.
  destruct (ai_sessions _ _ _ _ Hinv p ci Hp) as (_ & _ & Hhd). by rewrite (Hhd _ _ Hce).
Qed.

(** C12: with well-behaved clients, every session of every reachable state
    satisfies the session invariant ([session_wf]): the cache and the
    LRU agree, handles are distinct and the LRU is in completion order. *)
Theorem session_wf_reachable svr ttl s p ci :
  wb_reachable svr ttl s -> cis s !! p = Some ci -> session_wf ci.
Proof. intros Hr Hp. apply (ai_sessions _ _ _ _ (amo_inv_reachable svr ttl s Hr) p ci Hp). Qed.

(** ** Witnesses on the retry of [testServer]'s ping *)


(** Request 1 of session 1 was executed once and answered twice. *)
Lemma at_most_once_witness :
  occurrences (1%N, 1%N) (executed (gh (state_after retry_trace))) = 1%nat /\
  (occurrences (1%N, 1%N) (executed (gh (state_after retry_trace))) <= 1)%nat.
Proof.
  split; [vm_compute; reflexivity|].
  apply (at_most_once ping_methods long_ttl); [reachable_by_run retry_trace|decide_by_eval].
Defined.

(** The reply written on connection 0 and the retried one written on
    connection 2 are the same. *)
Lemma sent_replies_agree_witness :
  match sent (gh (state_after retry_trace)) with
  | [x; y] => sent_conn x = 0 /\ sent_conn y = 2 /\ sent_reply x = sent_reply y
  | _ => False
  end.
Proof.
  destruct (sent (gh (state_after retry_trace))) as [|x [|y [|z l]]] eqn:Hs;
    pose proof Hs as Hs'; vm_compute in Hs; try discriminate Hs.
  injection Hs as Hx Hy. subst x y. split_and!; [reflexivity|reflexivity|].
  apply (sent_replies_agree ping_methods long_ttl (state_after retry_trace));
    [reachable_by_run retry_trace| | |reflexivity|reflexivity|decide_by_eval];
    rewrite Hs'; apply elem_of_cons; [left|right; apply elem_of_cons; left]; reflexivity.
Defined.

(** After the first execution of request 1, a retry replays the cached
    reply. *)
Lemma executed_then_replayed_witness :
  exists ci ce, cis (state_after retry_trace) !! 1 = Some ci /\
    cached_reply (cis (state_after retry_trace)) 1 1 = Some ce /\
    forall req, RequestID req = 1 -> (processRequest_begin ci req).2 = Replay (reply ce).
Proof.
  apply (executed_then_replayed ping_methods long_ttl);
    [reachable_by_run retry_trace|decide_by_eval|decide_by_eval].
Defined.

(** The session of [client 1] after the retry is well formed. *)
Lemma session_wf_reachable_witness :
  exists ci, cis (state_after retry_trace) !! 1 = Some ci /\ session_wf ci.
Proof.
  destruct (cis (state_after retry_trace) !! 1) as [ci|] eqn:E; [|vm_compute in E; discriminate].
  exists ci. split; [done|].
  apply (session_wf_reachable ping_methods long_ttl (state_after retry_trace) 1 ci);
    [reachable_by_run retry_trace|exact E].
Defined.
