(* ===== verification/Hazards.v ===== *)
(** * Hazards: runs of the server that break its guarantees

    Runs of [server_step], checked by evaluation, on the configuration of
    [testServer], together with the lemmas that show their effect is
    permanent:
    - a session retired by the TTL trim while one of its requests is
      still queued lets a well-behaved client's retry execute the method
      a second time, in a fresh session;
    - a request ID framed twice on one connection is executed twice and
      leaves a dangling LRU element in the session;
    - a frame whose JSON does not parse leaves the connection's wait
      group at one forever, so a reconnection of its client blocks the
      accept loop for good;
    - a frame of another type than [RPC], or an ACK trim with
      [highestReplySeen] equal to [MaxUint64], keeps the server lock
      forever: no connection is accepted and no frame is read again. *)

From S2P Require Import Prelude Wire Registry Session Server AtMostOnce.
Local Open Scope N_scope.

(** ** Runs *)

Definition initPing : server := initServer ping_methods long_ttl.

(** [client 1] frames request 1 on connection 0, whose read then fails
    before the worker has taken the session lock; the TTL trim finds
    the session empty and drops it; the client reconnects (connection
    2), gets a fresh session (3) and retries. *)
Definition retire_race_trace : list event :=
  [EvAcceptNew "client 1"; EvFrame 0 (ping 1 0); EvExit 0; EvTrimLong;
   EvAcceptNew "client 1"; EvFrame 2 (ping 1 0); EvBegin 0; EvBegin 1; EvFinish 0; EvFinish 0].

(** Request 1 framed twice on connection 0. *)
Definition duplicate_frame_trace : list event :=
  [EvAcceptNew "client 1"; EvFrame 0 (ping 1 0); EvFrame 0 (ping 1 0);
   EvBegin 0; EvBegin 1; EvFinish 0; EvFinish 0].

(** A frame that does not unmarshal, then a reconnection. *)
Definition malformed_trace : list event :=
  [EvAcceptNew "client 1"; EvFrameMalformed 0; EvBegin 0; EvExit 0; EvAcceptKnown "client 1"].

(** A frame whose type byte is not [RPC]. *)
Definition invalid_type_trace : list event := [EvAcceptNew "client 1"; EvFrameOther 0].

(** A request acknowledging [MaxUint64], then the short trim. *)
Definition max_ack_trace : list event :=
  [EvAcceptNew "client 1"; EvFrame 0 (ping 1 u64_max); EvBegin 0; EvTrimShort].

(** The accept loop waits on connection [c] of session [p], whose
    previous connection [o] has exited with one wait-group count that no
    worker will ever release. *)
Definition accept_stuck (c p o : N) (s : server) : Prop :=
  accepting s = Some (c, p) /\
  (cCtx <$> cis s) !! p = Some o /\
  conns s !! o = Some (mkConnCtx (Some p) true 1) /\
  forall w, w ∈ workers s -> w_conn w <> o.

(** ** A deadlocked server stays deadlocked *)

Lemma deadlocked_step s ev s' :
  deadlocked s = true -> server_step ev s = Some s' -> deadlocked s' = true.
Proof.
  intros Hd Hstep. destruct s as [m ttl pci h cs n a ws hl dl t g]; cbn in Hd; subst dl.
  unfold lock_free, serving in Hstep.
  unfold_step Hstep. destruct ev; cbn -[processRequest_begin processRequest_finish] in Hstep;
    repeat (case_match; simplify_eq/=); by simplify_eq/=.
Qed.

Lemma deadlocked_reachable wb s0 s :
  reachable wb s0 s -> deadlocked s0 = true -> deadlocked s = true.
Proof. induction 1 as [|s ev s' _ IH Hstep _]; [done|]. intros Hd. exact (deadlocked_step s ev s' (IH Hd) Hstep). Qed.

(** With the lock held, no connection is accepted and no frame is read. *)
Lemma deadlocked_disabled s uid c req :
  deadlocked s = true ->
  server_step (EvAcceptNew uid) s = None /\ server_step (EvAcceptKnown uid) s = None /\
  server_step (EvFrame c req) s = None /\ server_step EvTrimShort s = None.
Proof.
  intros Hd. destruct s as [m ttl pci h cs n a ws hl dl t g]; cbn in Hd; subst dl.
  cbn. unfold getClientIDAndWait_new, getClientIDAndWait_known, serviceClient_rpc,
    trimCompleted_short, serving, lock_free; cbn.
  split_and!; [done|by case_match|by repeat case_match|done].
Qed.

(** ** A leaked wait-group count blocks the accept loop for good *)

Lemma lookup_insert_other {V} (m : gmap N V) k k' v :
  k <> k' -> <[k := v]> m !! k' = m !! k'.
Proof. intros Hne. by rewrite lookup_insert_ne. Qed.

Lemma accept_stuck_step c p o s ev s' :
  accept_stuck c p o s -> server_step ev s = Some s' -> accept_stuck c p o s'.
Proof.
  intros (Ha & Hctx & Ho & Hws) Hstep.
  destruct s as [m ttl pci h cs n a ws hl dl t g]; cbn in Ha, Hctx, Ho, Hws; subst a.
  unfold accept_stuck. unfold_step Hstep.
  destruct ev; cbn -[processRequest_begin processRequest_finish] in Hstep |- *.
  - (* EvAcceptNew *) by rewrite andb_false_r, andb_false_l in Hstep.
  - (* EvAcceptKnown *) case_match; [|done]. by rewrite andb_false_r in Hstep.
  - (* EvAcceptFailed *) done.
  - (* EvRebind *)
    rewrite lookup_fmap in Hctx. destruct (h !! p) as [ci|]; [|done]. cbn in Hctx. simplify_eq.
    rewrite Ho in Hstep. by destruct (cs !! c).
  - (* EvFrame *)
    destruct (serving _ c0) as [[p' cc]|] eqn:Hs; simplify_eq/=.
    apply serving_Some in Hs as (Hc & _ & Hex & _).
    cbn in Hc. assert (c0 <> o) by (intros Heq; rewrite Heq, Ho in Hc; by simplify_eq).
    rewrite lookup_insert_other by done. split_and!; [done..|].
    intros w [Hw|Hw%list_elem_of_singleton]%elem_of_app; [auto|by subst].
  - destruct (serving _ c0) as [[p' cc]|] eqn:Hs; simplify_eq/=.
    apply serving_Some in Hs as (Hc & _ & Hex & _).
    cbn in Hc. assert (c0 <> o) by (intros Heq; rewrite Heq, Ho in Hc; by simplify_eq).
    rewrite lookup_insert_other by done. split_and!; [done..|].
    intros w [Hw|Hw%list_elem_of_singleton]%elem_of_app; [auto|by subst].
  - destruct (serving _ c0) as [[p' cc]|]; by simplify_eq/=.
  - (* EvExit *)
    destruct (cs !! c0) as [cc|] eqn:Hc; [|done].
    destruct (_ && negb (serviceClientExited cc)) eqn:Hok; simplify_eq/=.
    assert (c0 <> o) by (intros Heq; rewrite Heq, Ho in Hc; simplify_eq; by rewrite andb_false_r in Hok).
    rewrite lookup_insert_other by done. done.
  - (* EvBegin *)
    destruct (ws !! i) as [[p' c' [req|] [|t0]]|] eqn:Hi; try done.
    + assert (c' <> o) by (apply (Hws (mkWorker p' c' (Some req) Spawned)); by eapply list_elem_of_lookup_2).
      destruct (h !! p') as [ci|] eqn:Hp; [|done]. destruct (cs !! c') as [cc|]; [|done].
      destruct (processRequest_begin ci req) as [ci' out] eqn:Hb.
      assert (Hc' : cCtx <$> <[p' := ci']> h = cCtx <$> h).
      { apply (ctx_update _ _ ci); [done|]. rewrite <- (cCtx_begin ci req), Hb. done. }
      destruct out; simplify_eq/=; rewrite Hc'.
      * rewrite lookup_insert_other by done.
        split_and!; [done..|]. intros w Hw%list_elem_of_delete_inv. auto.
      * split_and!; [done..|]. intros w [->|Hw]%list_elem_of_insert_inv; cbn; auto.
    + simplify_eq/=. split_and!; [done..|]. intros w Hw%list_elem_of_delete_inv. auto.
  - (* EvFinish *)
    destruct (ws !! i) as [[p' c' [req|] [|t0]]|] eqn:Hi; try done.
    assert (c' <> o) by (apply (Hws (mkWorker p' c' (Some req) (Running t0))); by eapply list_elem_of_lookup_2).
    destruct (callRPCAndFormatReply m req) as [ior|]; [|done].
    destruct (h !! p') as [ci|] eqn:Hp; [|done]. destruct (cs !! c') as [cc|]; [|done].
    destruct (processRequest_finish ci (RequestID req) ior t0 t t) as [ci' r] eqn:Hf.
    simplify_eq/=.
    assert (Hc' : cCtx <$> <[p' := ci']> h = cCtx <$> h).
    { apply (ctx_update _ _ ci); [done|]. by rewrite <- (cCtx_finish ci (RequestID req) ior t0 t t), Hf. }
    rewrite Hc', lookup_insert_other by done.
    split_and!; [done..|]. intros w Hw%list_elem_of_delete_inv. auto.
  - case_match; by simplify_eq/=.
  - (* EvTrimShort *)
    destruct dl; [done|]. cbn in Hstep.
    destruct (trim_short_all _ h) as [[h' r]|] eqn:Ht; simplify_eq/=; [|done].
    by rewrite (ctx_trim_short_all _ _ _ _ Ht).
  - (* EvTrimLong *)
    destruct dl; [done|]. cbn in Hstep.
    pose proof (ctx_trim_long_all ttl t (map_to_list pci).*2 h) as Hc'.
    destruct (trim_long_all _ _ _ h) as [h' r]. simplify_eq/=. by rewrite Hc'.
  - by simplify_eq/=.
Qed.

Lemma accept_stuck_reachable wb c p o s0 s :
  reachable wb s0 s -> accept_stuck c p o s0 -> accept_stuck c p o s.
Proof. induction 1 as [|s ev s' _ IH Hstep _]; [done|]. intros H0. exact (accept_stuck_step _ _ _ _ _ _ (IH H0) Hstep). Qed.

(** While the accept loop waits, no other connection is accepted, and
    the waiting one is never bound. *)
Lemma accept_stuck_disabled c p o s uid :
  accept_stuck c p o s ->
  server_step (EvAcceptNew uid) s = None /\ server_step (EvAcceptKnown uid) s = None /\
  server_step EvRebind s = None.
Proof.
  intros (Ha & Hctx & Ho & _).
  destruct s as [m ttl pci h cs n a ws hl dl t g]; cbn in Ha, Hctx, Ho; subst a. cbn.
  unfold getClientIDAndWait_new, getClientIDAndWait_known, getClientIDAndWait_rebind; cbn.
  rewrite !andb_false_r. split_and!; [by rewrite andb_false_l|by case_match|].
  rewrite lookup_fmap in Hctx. destruct (h !! p) as [ci|]; [|done]. cbn in Hctx. simplify_eq.
  rewrite Ho. by destruct (cs !! c).
Qed.

(** ** The runs *)

(** At-most-once does not survive the TTL trim's retirement of a
    session whose request is still queued: a well-behaved [client 1]
    has its request 1 executed twice, in sessions 1 and 3, though no
    completion was ever trimmed ([trimCompleted], lines 416-440, drops a
    session whose [isEmpty] holds while a [processRequest] goroutine has
    not yet taken its lock). *)
Theorem retired_session_reexecutes :
  match run_checked true retire_race_trace initPing with
  | Some s =>
      executed (gh s) = [(1, 1); (3, 1)] /\ trimmed (gh s) = ∅ /\
      (myUniqueID <$> cis s !! 1) = Some "client 1" /\ (myUniqueID <$> cis s !! 3) = Some "client 1"
  | None => False
  end.
Proof. vm_compute. split_and!; reflexivity. Qed.

(** The run of [duplicate_frame_trace] on the server: request 1 framed
    twice on one connection is executed twice, and the session no longer
    satisfies [session_wf] ([Session.duplicate_frame_double_execution]
    states this for every session). *)
Theorem duplicate_frame_trace_breaks_wf :
  match run_checked false duplicate_frame_trace initPing with
  | Some s =>
      occurrences (1, 1) (executed (gh s)) = 2%nat /\ ((1, 1) ∉ trimmed (gh s)) /\
      match cis s !! 1 with Some ci => ~ session_wf ci | None => False end
  | None => False
  end.
Proof.
  vm_compute. split_and!; [reflexivity|set_solver|].
  intros Hwf. destruct (wf_lru_map _ Hwf 0 (mkLRUEntry 1 0)) as (ce & Hce & He); [by left|].
  vm_compute in Hce. by simplify_eq.
Qed.

(** C6: after a frame whose JSON does not unmarshal ([processRequest]
    returns without [activeRPCsWG.Done()]), a reconnection of the client
    blocks the accept loop forever: whatever happens next, no connection
    is accepted and the waiting one is never bound. *)
Theorem malformed_frame_blocks_accept wb s uid :
  reachable wb (state_after malformed_trace) s ->
  run_checked true malformed_trace initPing = Some (state_after malformed_trace) /\
  server_step (EvAcceptNew uid) s = None /\ server_step (EvAcceptKnown uid) s = None /\
  server_step EvRebind s = None.
Proof.
  intros Hr. split; [vm_compute; reflexivity|].
  apply (accept_stuck_disabled 2 1 0). apply (accept_stuck_reachable wb _ _ _ _ _ Hr).
  split_and!; [vm_compute; reflexivity..|]. intros w Hw. vm_compute in Hw. set_solver.
Qed.

(** C7: a frame whose type is not [RPC] makes [serviceClient] continue
    without releasing the server lock: from then on no connection is
    accepted, no frame is read and no ACK trim runs. *)
Theorem invalid_msgtype_deadlocks wb s uid c req :
  reachable wb (state_after invalid_type_trace) s ->
  run_checked true invalid_type_trace initPing = Some (state_after invalid_type_trace) /\
  server_step (EvAcceptNew uid) s = None /\ server_step (EvAcceptKnown uid) s = None /\
  server_step (EvFrame c req) s = None /\ server_step EvTrimShort s = None.
Proof.
  intros Hr. split; [vm_compute; reflexivity|].
  apply deadlocked_disabled, (deadlocked_reachable wb _ _ Hr). vm_compute. reflexivity.
Qed.

(** C8: a request acknowledging [MaxUint64] makes the next ACK trim loop
    forever with the server lock held: from then on no connection is
    accepted, no frame is read and no trim runs. *)
Theorem max_ack_deadlocks wb s uid c req :
  reachable wb (state_after max_ack_trace) s ->
  run_checked true max_ack_trace initPing = Some (state_after max_ack_trace) /\
  server_step (EvAcceptNew uid) s = None /\ server_step (EvAcceptKnown uid) s = None /\
  server_step (EvFrame c req) s = None /\ server_step EvTrimShort s = None.
Proof.
  intros Hr. split; [vm_compute; reflexivity|].
  apply deadlocked_disabled, (deadlocked_reachable wb _ _ Hr). vm_compute. reflexivity.
Qed.

(** ** Witnesses *)

Lemma malformed_frame_blocks_accept_witness :
  server_step (EvAcceptNew "client 2") (state_after malformed_trace) = None.
Proof.
  pose proof (malformed_frame_blocks_accept true (state_after malformed_trace) "client 2" (reach_init _ _)) as (_ & H & _).
  exact H.
Defined.

Lemma invalid_msgtype_deadlocks_witness :
  server_step (EvAcceptNew "client 2") (state_after invalid_type_trace) = None.
Proof.
  pose proof (invalid_msgtype_deadlocks true (state_after invalid_type_trace) "client 2" 0 (ping 2 0) (reach_init _ _)) as (_ & H & _).
  exact H.
Defined.

Lemma max_ack_deadlocks_witness :
  server_step (EvAcceptNew "client 2") (state_after max_ack_trace) = None.
Proof.
  pose proof (max_ack_deadlocks true (state_after max_ack_trace) "client 2" 0 (ping 2 0) (reach_init _ _)) as (_ & H & _).
  exact H.
Defined.
