(* ===== verification/Swift.v ===== *)
(** * Swift: the in-memory Swift emulator ([src/iswift/iswiftpkg/impl.go])

    The emulator keeps a map of accounts; an account holds its headers
    and a sorted tree of containers, a container its headers and a sorted
    tree of objects, an object its headers and its contents.  An HTTP
    request goes through [ServeHTTP] (the [/info] and [/auth/v1.0] GETs,
    the token check, the [/v1/] prefix) to one of [doDELETE], [doGET],
    [doHEAD], [doPOST], [doPUT], each of which runs under the global lock
    and so is one atomic step here.

    - [GoLib] (another file): the Go string functions the handlers call
      ([strings.SplitN], [strings.HasPrefix], slicing, [strconv.Atoi],
      [%08x]/[%016x] formatting) and their lemmas.
    - Module [LLRB]: [sortedmap.LLRBTree] with string keys, as a list of
      key/value pairs strictly sorted by key (the library is not under
      [src/] and is modelled from its interface).
    - Module [Store]: the structs, [parsePath], [parseRangeHeader], the
      locate/create/delete functions, the header update loop and the
      response writer.
    - Module [Handlers]: the five handlers and [ServeHTTP].

    A Go pointer to an account, container or object is followed by the
    handler, the struct mutated and, in the model, written back to the
    tree or map it came from: every struct is reachable from exactly one
    tree entry, so this is the same store.  The back-references
    ([swiftAccount], [swiftContainer]) are never read by a handler and
    are not modelled. *)

From S2P Require Import Prelude GoLib.
From stdpp Require Import pretty.
From Stdlib Require Import Strings.Byte.
From Stdlib Require Strings.String.
From Stdlib Require Import Strings.Ascii.
Local Open Scope N_scope.
Local Set Warnings "-clear-no-such-hyp".


Module LLRB.

(** Byte-wise string order, [sortedmap.CompareString]. *)
Definition str_lt (a b : string) : Prop := String.compare a b = Lt.
#[global] Instance str_lt_dec a b : Decision (str_lt a b).
Proof. unfold str_lt. apply _. Defined.

(** A tree is its in-order list of entries; it is well formed when the
    keys are strictly increasing. *)
Abbreviation tree V := (list (string * V)).
Definition sorted {V} (t : tree V) : Prop := StronglySorted str_lt (map fst t).

Section Ops.
Context {V : Type}.

(** [GetByKey]: the value under [k], if any. *)
Fixpoint GetByKey (t : tree V) (k : string) : option V :=
  match t with
  | [] => None
  | (k', v) :: t' => if String.eqb k k' then Some v else GetByKey t' k
  end.

(** [Put]: insert at the key's place; an existing key is left alone
    ([ok = false]). *)
Fixpoint Put (t : tree V) (k : string) (v : V) : tree V :=
  match t with
  | [] => [(k, v)]
  | (k', v') :: t' =>
      match String.compare k k' with
      | Lt => (k, v) :: t
      | Eq => t
      | Gt => (k', v') :: Put t' k v
      end
  end.

(** [DeleteByKey]. *)
Fixpoint DeleteByKey (t : tree V) (k : string) : tree V :=
  match t with
  | [] => []
  | (k', v') :: t' => if String.eqb k k' then t' else (k', v') :: DeleteByKey t' k
  end.

(** [Len], [GetByIndex]. *)
Definition Len (t : tree V) : nat := length t.
Definition GetByIndex (t : tree V) (i : nat) : option (string * V) := t !! i.

(** [BisectRight]: the index of [k] if present ([found]), otherwise the
    index of the first key above [k]; on a sorted tree both are the
    number of keys below [k]. *)
Fixpoint BisectRight (t : tree V) (k : string) : nat * bool :=
  match t with
  | [] => (O, false)
  | (k', _) :: t' =>
      match String.compare k' k with
      | Lt => let '(i, f) := BisectRight t' k in (S i, f)
      | Eq => (O, true)
      | Gt => (O, false)
      end
  end.

(** A struct reached through the tree and mutated through its pointer:
    the entry under [k] now holds [v]. *)
Fixpoint update_at (t : tree V) (k : string) (v : V) : tree V :=
  match t with
  | [] => []
  | (k', v') :: t' => if String.eqb k k' then (k', v) :: t' else (k', v') :: update_at t' k v
  end.

End Ops.
End LLRB.

Module Store.
Import GoStr.

(** ** The structs (lines 26-86) *)

(** [http.Header]: canonical header name to its values. *)
Abbreviation header := (gmap string (list string)).

Record swiftObjectStruct := mkObject {
  obj_name : string;
  obj_headers : header;
  contents : list byte }.

Record swiftContainerStruct := mkContainer {
  cont_name : string;
  cont_headers : header;
  swiftObjectTree : LLRB.tree swiftObjectStruct }.

Record swiftAccountStruct := mkAccount {
  acct_name : string;
  acct_headers : header;
  swiftContainerTree : LLRB.tree swiftContainerStruct }.

Record rangeStruct := mkRange { startOffset : N; stopOffset : N }.
#[global] Instance rangeStruct_eq_dec : EqDecision rangeStruct.
Proof. solve_decision. Defined.

Record configStruct := mkConfig {
  SwiftProxyIPAddr : string;
  SwiftProxyTCPPort : N;
  MaxAccountNameLength : N;
  MaxContainerNameLength : N;
  MaxObjectNameLength : N;
  AccountListingLimit : N;
  ContainerListingLimit : N }.

Record globalsStruct := mkGlobals {
  config : configStruct;
  currentAuthNonce : N;
  currentAuthToken : string;
  swiftAccountMap : gmap string swiftAccountStruct }.

(** The errno values the store functions return ([0] is [NoErr]). *)
Inductive errno := NoErr | ENOENT | EEXIST | ENOTEMPTY.

(** An incoming request: method, decoded URL path, headers, query
    parameters and body. *)
Record request := mkRequest {
  Method : string;
  Path : string;
  Header : header;
  Query : gmap string (list string);
  Body : list byte }.

(** [request.Header.Get]: the first value, or the empty string. *)
Definition header_get (h : header) (k : string) : string :=
  match h !! k with Some (v :: _) => v | _ => EmptyString end.

(** The values a header update keeps: [if 0 < len(headerValue)]. *)
Definition nonempty_values (vs : list string) : list string :=
  filter (fun v => v <> EmptyString) vs.

Definition headerNameIgnoreSet : list string :=
  ["Accept"; "Accept-Encoding"; "User-Agent"; "Content-Length"].

Definition fixedAuthTokenPrefix : string := "AUTH_tk0123456789abcde012345678".
Definition fixedUserToAccountPrefix : string := "AUTH_".

(** [fmt.Sprintf("%s%08x", fixedAuthTokenPrefix, nonce)]. *)
Definition auth_token (nonce : N) : string :=
  fixedAuthTokenPrefix +:+ hex_fixed 8 nonce EmptyString.

(** ** Auth nonce (lines 114-126) and globals (128-177) *)

Definition forceReAuth (g : globalsStruct) : globalsStruct :=
  let n := (currentAuthNonce g + 1) mod 2 ^ 32 in
  mkGlobals (config g) n (auth_token n) (swiftAccountMap g).

Definition getCurrentAuthToken (g : globalsStruct) : string := currentAuthToken g.

Definition initializeGlobals (cfg : configStruct) : globalsStruct :=
  mkGlobals cfg 0 (auth_token 0) ∅.

Definition uninitializeGlobals (g : globalsStruct) : globalsStruct :=
  mkGlobals (mkConfig EmptyString 0 0 0 0 0 0) (currentAuthNonce g) (currentAuthToken g) ∅.

(** ** [parsePath] (lines 310-342) *)

Definition parsePath (path : string) : bool * string * string * string :=
  if String.eqb "/info" path then (true, EmptyString, EmptyString, EmptyString)
  else if HasPrefix path "/v1/" then
    match SplitN (drop_str 4 path) "/" 3 with
    | [a] => (false, a, EmptyString, EmptyString)
    | [a; c] => (false, a, c, EmptyString)
    | a :: c :: o :: _ => (false, a, c, o)
    | [] => (false, EmptyString, EmptyString, EmptyString)
    end
  else (false, EmptyString, EmptyString, EmptyString).

(** ** [parseRangeHeader] (lines 344-429)

    [None] is a non-nil [err].  The offsets are [int64]s computed in [Z]:
    the only subtraction, [int64(objectLen) - stopOffset], runs with
    [stopOffset >= 0], so it cannot overflow; the final [uint64(...)]
    conversions are written out. *)

Definition parse_offset (s : string) : option Z :=
  if String.eqb s EmptyString then Some (-1)%Z else Atoi s.

Definition parse_one_range (objectLen : Z) (rangeString : string) : option rangeStruct :=
  match SplitN rangeString "-" 2 with
  | [a; b] =>
      match parse_offset a, parse_offset b with
      | Some startOffset, Some stopOffset =>
          if ((startOffset <? 0) && (stopOffset <? 0)) || (stopOffset <? startOffset) then None
          else if (startOffset <? 0)%Z then
            let startOffset := (objectLen - stopOffset)%Z in
            if (startOffset <? 0)%Z then None
            else Some (mkRange (u64_of_int startOffset) (u64_of_int (objectLen - 1)))
          else if (stopOffset <? 0)%Z then
            Some (mkRange (u64_of_int startOffset) (u64_of_int (objectLen - 1)))
          else
            let stopOffset := if (objectLen - 1 <? stopOffset)%Z then (objectLen - 1)%Z else stopOffset in
            Some (mkRange (u64_of_int startOffset) (u64_of_int stopOffset))
      | _, _ => None
      end
  | _ => None
  end%Z.

Definition parseRangeHeader (rangeHeaderValue : string) (objectLen : Z) : option (list rangeStruct) :=
  if String.eqb rangeHeaderValue EmptyString then Some []
  else if negb (HasPrefix rangeHeaderValue "bytes=") then None
  else mapM (parse_one_range objectLen) (SplitN (drop_str 6 rangeHeaderValue) "," 2).

(** ** Accounts (lines 431-514) *)

Definition set_accounts (g : globalsStruct) (m : gmap string swiftAccountStruct) : globalsStruct :=
  mkGlobals (config g) (currentAuthNonce g) (currentAuthToken g) m.

Definition newSwiftAccount (name : string) : swiftAccountStruct := mkAccount name ∅ [].

Definition locateSwiftAccount (g : globalsStruct) (name : string) : option swiftAccountStruct :=
  swiftAccountMap g !! name.

Definition createSwiftAccount (g : globalsStruct) (name : string) : globalsStruct * errno :=
  match swiftAccountMap g !! name with
  | Some _ => (g, EEXIST)
  | None => (set_accounts g (<[name := newSwiftAccount name]> (swiftAccountMap g)), NoErr)
  end.

Definition createOrLocateSwiftAccount (g : globalsStruct) (name : string)
    : globalsStruct * swiftAccountStruct * bool :=
  match swiftAccountMap g !! name with
  | Some a => (g, a, false)
  | None => (set_accounts g (<[name := newSwiftAccount name]> (swiftAccountMap g)),
             newSwiftAccount name, true)
  end.

Definition deleteSwiftAccount (g : globalsStruct) (name : string) (force : bool) : globalsStruct * errno :=
  match swiftAccountMap g !! name with
  | Some a =>
      if force then (set_accounts g (delete name (swiftAccountMap g)), NoErr)
      else if negb (LLRB.Len (swiftContainerTree a) =? 0)%nat then (g, ENOTEMPTY)
      else (set_accounts g (delete name (swiftAccountMap g)), NoErr)
  | None => (g, ENOENT)
  end.

(** The account reached through its pointer is stored back under its key. *)
Definition store_account (g : globalsStruct) (name : string) (a : swiftAccountStruct) : globalsStruct :=
  set_accounts g (<[name := a]> (swiftAccountMap g)).

(** ** Containers (lines 516-629) *)

Definition set_containers (a : swiftAccountStruct) (t : LLRB.tree swiftContainerStruct) : swiftAccountStruct :=
  mkAccount (acct_name a) (acct_headers a) t.

Definition newSwiftContainer (name : string) : swiftContainerStruct := mkContainer name ∅ [].

Definition locateSwiftContainer (a : swiftAccountStruct) (name : string) : option swiftContainerStruct :=
  LLRB.GetByKey (swiftContainerTree a) name.

Definition createSwiftContainer (a : swiftAccountStruct) (name : string) : swiftAccountStruct * errno :=
  match LLRB.GetByKey (swiftContainerTree a) name with
  | Some _ => (a, EEXIST)
  | None => (set_containers a (LLRB.Put (swiftContainerTree a) name (newSwiftContainer name)), NoErr)
  end.

Definition createOrLocateSwiftContainer (a : swiftAccountStruct) (name : string)
    : swiftAccountStruct * swiftContainerStruct * bool :=
  match LLRB.GetByKey (swiftContainerTree a) name with
  | Some c => (a, c, false)
  | None => (set_containers a (LLRB.Put (swiftContainerTree a) name (newSwiftContainer name)),
             newSwiftContainer name, true)
  end.

Definition deleteSwiftContainer (a : swiftAccountStruct) (name : string) : swiftAccountStruct * errno :=
  match LLRB.GetByKey (swiftContainerTree a) name with
  | Some c =>
      if negb (LLRB.Len (swiftObjectTree c) =? 0)%nat then (a, ENOTEMPTY)
      else (set_containers a (LLRB.DeleteByKey (swiftContainerTree a) name), NoErr)
  | None => (a, ENOENT)
  end.

Definition store_container (a : swiftAccountStruct) (name : string) (c : swiftContainerStruct) : swiftAccountStruct :=
  set_containers a (LLRB.update_at (swiftContainerTree a) name c).

(** ** Objects (lines 631-722) *)

Definition set_objects (c : swiftContainerStruct) (t : LLRB.tree swiftObjectStruct) : swiftContainerStruct :=
  mkContainer (cont_name c) (cont_headers c) t.

(** [&swiftObjectStruct{name, swiftContainer, contents: []byte{}}]: its
    [headers] map is nil, which reads as empty; [doPUT] replaces it with
    [make(http.Header)] before writing to it. *)
Definition newSwiftObject (name : string) : swiftObjectStruct := mkObject name ∅ [].

Definition locateSwiftObject (c : swiftContainerStruct) (name : string) : option swiftObjectStruct :=
  LLRB.GetByKey (swiftObjectTree c) name.

Definition createSwiftObject (c : swiftContainerStruct) (name : string) : swiftContainerStruct * errno :=
  match LLRB.GetByKey (swiftObjectTree c) name with
  | Some _ => (c, EEXIST)
  | None => (set_objects c (LLRB.Put (swiftObjectTree c) name (newSwiftObject name)), NoErr)
  end.

Definition createOrLocateSwiftObject (c : swiftContainerStruct) (name : string)
    : swiftContainerStruct * swiftObjectStruct * bool :=
  match LLRB.GetByKey (swiftObjectTree c) name with
  | Some o => (c, o, false)
  | None => (set_objects c (LLRB.Put (swiftObjectTree c) name (newSwiftObject name)),
             newSwiftObject name, true)
  end.

Definition deleteSwiftObject (c : swiftContainerStruct) (name : string) : swiftContainerStruct * errno :=
  match LLRB.GetByKey (swiftObjectTree c) name with
  | Some _ => (set_objects c (LLRB.DeleteByKey (swiftObjectTree c) name), NoErr)
  | None => (c, ENOENT)
  end.

Definition store_object (c : swiftContainerStruct) (name : string) (o : swiftObjectStruct) : swiftContainerStruct :=
  set_objects c (LLRB.update_at (swiftObjectTree c) name o).
End Store.

Module Handlers.
Import GoStr Store.

(** ** The header loop of [doPOST] and [doPUT]

    For every request header not in [headerNameIgnoreSet] with at least
    one value, the stored header is replaced by its non-empty values,
    and deleted when none is left.  Distinct names touch distinct
    entries, so the order of Go's map iteration does not matter. *)
Definition update_header (name : string) (vs : list string) (h : header) : header :=
  if decide (name ∈ headerNameIgnoreSet) then h
  else match vs with
       | [] => h
       | _ => match nonempty_values vs with
              | [] => delete name h
              | vs' => <[name := vs']> h
              end
       end.

Definition apply_request_headers (reqh h : header) : header := map_fold update_header h reqh.

(** ** The response writer

    [WriteHeader] fixes the status once; [Write] fixes it at 200 if no
    status was written; [Header().Add] appends a value, [Set] replaces. *)
Record responseWriter := mkRW {
  rw_status : option N;
  rw_header : header;
  rw_body : list byte }.

Definition rw0 : responseWriter := mkRW None ∅ [].

Definition WriteHeader (code : N) (w : responseWriter) : responseWriter :=
  match rw_status w with
  | None => mkRW (Some code) (rw_header w) (rw_body w)
  | Some _ => w
  end.

Definition Write (bs : list byte) (w : responseWriter) : responseWriter :=
  mkRW (Some (default 200 (rw_status w))) (rw_header w) (rw_body w ++ bs).

Definition HeaderAdd (k v : string) (w : responseWriter) : responseWriter :=
  mkRW (rw_status w) (<[k := default [] (rw_header w !! k) ++ [v]]> (rw_header w)) (rw_body w).

Definition HeaderSet (k v : string) (w : responseWriter) : responseWriter :=
  mkRW (rw_status w) (<[k := [v]]> (rw_header w)) (rw_body w).

(** [for name, vs := range src { for _, v := range vs { Header().Add(name, v) } }]. *)
Definition copy_headers (src : header) (w : responseWriter) : responseWriter :=
  map_fold (fun k vs w => foldl (fun w v => HeaderAdd k v w) w vs) w src.

(** What the client receives; a panic in a handler makes [net/http]
    drop the connection (the deferred [Unlock] runs). *)
Inductive outcome := Served (status : N) (hdrs : header) (body : list byte) | Panicked.

Definition served (w : responseWriter) : outcome :=
  Served (default 200 (rw_status w)) (rw_header w) (rw_body w).

Definition status (code : N) : outcome := served (WriteHeader code rw0).

Definition StatusOK : N := 200.
Definition StatusCreated : N := 201.
Definition StatusAccepted : N := 202.
Definition StatusNoContent : N := 204.
Definition StatusPartialContent : N := 206.
Definition StatusBadRequest : N := 400.
Definition StatusUnauthorized : N := 401.
Definition StatusForbidden : N := 403.
Definition StatusNotFound : N := 404.
Definition StatusMethodNotAllowed : N := 405.
Definition StatusConflict : N := 409.

(** ** [doDELETE] (lines 724-806) *)

Definition doDELETE (g : globalsStruct) (req : request) : globalsStruct * outcome :=
  let '(infoOnly, an, cn, on) := parsePath (Path req) in
  if infoOnly || String.eqb an EmptyString then (g, status StatusForbidden)
  else if String.eqb cn EmptyString then
    let '(g', e) := deleteSwiftAccount g an false in
    (g', match e with
         | NoErr => status StatusNoContent
         | ENOENT => status StatusNotFound
         | ENOTEMPTY => status StatusConflict
         | _ => Panicked
         end)
  else
    match locateSwiftAccount g an with
    | Some a =>
        if String.eqb on EmptyString then
          let '(a', e) := deleteSwiftContainer a cn in
          (store_account g an a',
           match e with
           | NoErr => status StatusNoContent
           | ENOENT => status StatusNotFound
           | ENOTEMPTY => status StatusConflict
           | _ => Panicked
           end)
        else
          match locateSwiftContainer a cn with
          | Some c =>
              let '(c', e) := deleteSwiftObject c on in
              (store_account g an (store_container a cn c'),
               match e with
               | NoErr => status StatusNoContent
               | ENOENT => status StatusNotFound
               | _ => Panicked
               end)
          | None => (g, status StatusNotFound)
          end
    | None => (g, status StatusNotFound)
    end.

(** ** [doHEAD] (lines 1018-1098) *)

Definition doHEAD (g : globalsStruct) (req : request) : outcome :=
  let '(infoOnly, an, cn, on) := parsePath (Path req) in
  if infoOnly || String.eqb an EmptyString then status StatusForbidden
  else
    match locateSwiftAccount g an with
    | Some a =>
        if String.eqb cn EmptyString then
          served (WriteHeader StatusNoContent (copy_headers (acct_headers a) rw0))
        else
          match locateSwiftContainer a cn with
          | Some c =>
              if String.eqb on EmptyString then
                served (WriteHeader StatusNoContent (copy_headers (cont_headers c) rw0))
              else
                match locateSwiftObject c on with
                | Some o =>
                    served (WriteHeader StatusOK
                      (HeaderSet "Content-Length" (Itoa (Z.of_nat (length (contents o))))
                         (copy_headers (obj_headers o) rw0)))
                | None => status StatusNotFound
                end
          | None => status StatusNotFound
          end
    | None => status StatusNotFound
    end.

(** ** [doPOST] (lines 1100-1217): header updates on an existing entity. *)

Definition doPOST (g : globalsStruct) (req : request) : globalsStruct * outcome :=
  let '(infoOnly, an, cn, on) := parsePath (Path req) in
  if infoOnly || String.eqb an EmptyString then (g, status StatusForbidden)
  else
    match locateSwiftAccount g an with
    | Some a =>
        if String.eqb cn EmptyString then
          (store_account g an (mkAccount (acct_name a)
             (apply_request_headers (Header req) (acct_headers a)) (swiftContainerTree a)),
           status StatusNoContent)
        else
          match locateSwiftContainer a cn with
          | Some c =>
              if String.eqb on EmptyString then
                (store_account g an (store_container a cn (mkContainer (cont_name c)
                   (apply_request_headers (Header req) (cont_headers c)) (swiftObjectTree c))),
                 status StatusNoContent)
              else
                match locateSwiftObject c on with
                | Some o =>
                    (store_account g an (store_container a cn (store_object c on
                       (mkObject (obj_name o) (apply_request_headers (Header req) (obj_headers o))
                          (contents o)))),
                     status StatusNoContent)
                | None => (g, status StatusNotFound)
                end
          | None => (g, status StatusNotFound)
          end
    | None => (g, status StatusNotFound)
    end.

(** ** [doPUT] (lines 1219-1353)

    An account or container PUT creates it (201) or updates the headers
    of the existing one (202).  An object PUT creates or locates the
    object, updates its headers, replaces its contents with the body and
    answers 201 in both cases; a missing account or container is 403. *)

Definition doPUT (g : globalsStruct) (req : request) : globalsStruct * outcome :=
  let '(infoOnly, an, cn, on) := parsePath (Path req) in
  if infoOnly || String.eqb an EmptyString then (g, status StatusForbidden)
  else if String.eqb cn EmptyString then
    let '(g1, a, wasCreated) := createOrLocateSwiftAccount g an in
    let hs := if wasCreated then ∅ else acct_headers a in
    (store_account g1 an (mkAccount (acct_name a) (apply_request_headers (Header req) hs)
                            (swiftContainerTree a)),
     status (if wasCreated then StatusCreated else StatusAccepted))
  else
    match locateSwiftAccount g an with
    | Some a =>
        if String.eqb on EmptyString then
          let '(a1, c, wasCreated) := createOrLocateSwiftContainer a cn in
          let hs := if wasCreated then ∅ else cont_headers c in
          (store_account g an (store_container a1 cn (mkContainer (cont_name c)
             (apply_request_headers (Header req) hs) (swiftObjectTree c))),
           status (if wasCreated then StatusCreated else StatusAccepted))
        else
          match locateSwiftContainer a cn with
          | Some c =>
              let '(c1, o, wasCreated) := createOrLocateSwiftObject c on in
              let hs := if wasCreated then ∅ else obj_headers o in
              (store_account g an (store_container a cn (store_object c1 on
                 (mkObject (obj_name o) (apply_request_headers (Header req) hs) (Body req)))),
               status (if wasCreated then StatusCreated else StatusCreated))
          | None => (g, status StatusForbidden)
          end
    | None => (g, status StatusForbidden)
    end.

(** ** [doGET] (lines 808-1016) *)

Definition dquote : string := String "034"%char EmptyString.
Definition crlf : string := String "013"%char (String "010"%char EmptyString).
Definition json_key (k : string) : string := dquote +:+ k +:+ dquote +:+ ": ".

(** The [/info] document, written piece by piece. *)
Definition info_body (cfg : configStruct) : list string :=
  [ "{"; json_key "swift" +:+ "{";
    json_key "max_account_name_length" +:+ Itoa (int_of_u64 (MaxAccountNameLength cfg)) +:+ ",";
    json_key "max_container_name_length" +:+ Itoa (int_of_u64 (MaxContainerNameLength cfg)) +:+ ",";
    json_key "max_object_name_length" +:+ Itoa (int_of_u64 (MaxObjectNameLength cfg)) +:+ ",";
    json_key "account_listing_limit" +:+ Itoa (int_of_u64 (AccountListingLimit cfg)) +:+ ",";
    json_key "container_listing_limit" +:+ Itoa (int_of_u64 (ContainerListingLimit cfg));
    "}"; "}" ].

(** [for idx < limit { key := GetByIndex(idx); Write(key); Write("\n") }];
    a missing index would make the type assertion panic ([None]). *)
Fixpoint write_names {V} (t : LLRB.tree V) (idx k : nat) (w : responseWriter) : option responseWriter :=
  match k with
  | O => Some w
  | S k' =>
      match LLRB.GetByIndex t idx with
      | Some (name, _) => write_names t (S idx) k' (Write [x0a] (Write (bytes name) w))
      | None => None
      end
  end.

(** [request.URL.Query()["marker"]]: the first value, or the empty string. *)
Definition marker_of (req : request) : string :=
  match Query req !! "marker" with Some (m :: _) => m | _ => EmptyString end.

(** The bytes a listing writes for the names [l], one per line. *)
Definition write_all (l : list string) (w : responseWriter) : responseWriter :=
  foldl (fun w name => Write [x0a] (Write (bytes name) w)) w l.

(** The listing of an account's containers or a container's objects:
    204 when empty, otherwise the names after [marker], at most [limit]
    of them ([int(limit)] of the [uint64] configuration value). *)
Definition listing {V} (t : LLRB.tree V) (limit : N) (req : request) (w : responseWriter) : outcome :=
  let n := LLRB.Len t in
  if (n =? 0)%nat then served (WriteHeader StatusNoContent w)
  else
    let '(idx, found) := LLRB.BisectRight t (marker_of req) in
    let idx := if found then S idx else idx in
    if (idx <? n)%nat then
      let lim := if (Z.of_nat n - Z.of_nat idx >? int_of_u64 limit)%Z
                 then (Z.of_nat idx + int_of_u64 limit)%Z else Z.of_nat n in
      match write_names t idx (Z.to_nat (lim - Z.of_nat idx)) w with
      | Some w => served w
      | None => Panicked
      end
    else served (WriteHeader StatusNoContent w).

(** [contents[lo:hi]]: Go panics unless [lo <= hi <= cap]; [hi] is at
    most [len(contents)] whenever [parseRangeHeader] succeeds, so the
    capacity is taken to be the length. *)
Definition go_slice (l : list byte) (lo hi : N) : option (list byte) :=
  if (lo <=? hi) && (hi <=? N.of_nat (length l))
  then Some (take (N.to_nat (hi - lo)) (drop (N.to_nat lo) l)) else None.

Definition content_range (r : rangeStruct) (len : nat) : string :=
  "bytes " +:+ pretty (startOffset r) +:+ "-" +:+ pretty (stopOffset r) +:+ "/" +:+ Itoa (Z.of_nat len).

(** [contents[rS.startOffset:(rS.stopOffset + 1)]], the addition on [uint64]. *)
Definition range_bytes (l : list byte) (r : rangeStruct) : option (list byte) :=
  go_slice l (startOffset r) (u64_succ (stopOffset r)).

Fixpoint write_parts (l : list byte) (boundary : string) (rs : list rangeStruct) (w : responseWriter)
    : option responseWriter :=
  match rs with
  | [] => Some (Write (bytes ("--" +:+ boundary +:+ "--")) w)
  | r :: rs' =>
      let w := Write (bytes ("--" +:+ boundary +:+ crlf)) w in
      let w := Write (bytes ("Content-Type: application/octet-stream" +:+ crlf)) w in
      let w := Write (bytes ("Content-Range: " +:+ content_range r (length l) +:+ crlf)) w in
      let w := Write (bytes crlf) w in
      match range_bytes l r with
      | Some part => write_parts l boundary rs' (Write (bytes crlf) (Write part w))
      | None => None
      end
  end.

(** An object GET; [rnd] are the two [rand.Uint64()] draws of the
    multipart boundary. *)
Definition get_object (o : swiftObjectStruct) (req : request) (rnd : N * N) : outcome :=
  let w := copy_headers (obj_headers o) rw0 in
  let l := contents o in
  match parseRangeHeader (header_get (Header req) "Range") (Z.of_nat (length l)) with
  | Some [] =>
      served (Write l (WriteHeader StatusOK (HeaderAdd "Content-Type" "application/octet-stream" w)))
  | Some [r] =>
      let w := HeaderAdd "Content-Range" (content_range r (length l))
                 (HeaderAdd "Content-Type" "application/octet-stream" w) in
      match range_bytes l r with
      | Some part => served (Write part (WriteHeader StatusPartialContent w))
      | None => Panicked
      end
  | Some rs =>
      let boundary := hex_fixed 16 rnd.1 EmptyString +:+ hex_fixed 16 rnd.2 EmptyString in
      let w := WriteHeader StatusPartialContent
                 (HeaderAdd "Content-Type" ("multipart/byteranges; boundary=" +:+ boundary) w) in
      match write_parts l boundary rs w with
      | Some w => served w
      | None => Panicked
      end
  | None => served (WriteHeader StatusBadRequest w)
  end.

Definition doGET (g : globalsStruct) (req : request) (rnd : N * N) : outcome :=
  let '(infoOnly, an, cn, on) := parsePath (Path req) in
  if infoOnly then served (foldl (fun w s => Write (bytes s) w) rw0 (info_body (config g)))
  else if String.eqb an EmptyString then status StatusForbidden
  else
    match locateSwiftAccount g an with
    | Some a =>
        if String.eqb cn EmptyString then
          listing (swiftContainerTree a) (AccountListingLimit (config g)) req
            (copy_headers (acct_headers a) rw0)
        else
          match locateSwiftContainer a cn with
          | Some c =>
              if String.eqb on EmptyString then
                listing (swiftObjectTree c) (ContainerListingLimit (config g)) req
                  (copy_headers (cont_headers c) rw0)
              else
                match locateSwiftObject c on with
                | Some o => get_object o req rnd
                | None => status StatusNotFound
                end
          | None => status StatusNotFound
          end
    | None => status StatusNotFound
    end.

(** ** [ServeHTTP] (lines 230-296) *)

(** [net.JoinHostPort(ip, fmt.Sprintf("%d", port))], the server's [Addr]. *)
Definition JoinHostPort (host port : string) : string :=
  match cut_at ":" host with
  | Some _ => "[" +:+ host +:+ "]:" +:+ port
  | None => host +:+ ":" +:+ port
  end.
Definition emulator_addr (cfg : configStruct) : string :=
  JoinHostPort (SwiftProxyIPAddr cfg) (pretty (SwiftProxyTCPPort cfg)).

Definition auth_reply (g : globalsStruct) (req : request) : outcome :=
  let xAuthUser := header_get (Header req) "X-Auth-User" in
  let xAuthKey := header_get (Header req) "X-Auth-Key" in
  if String.eqb xAuthUser EmptyString || String.eqb xAuthKey EmptyString then status StatusUnauthorized
  else
    let user := match SplitN xAuthUser ":" 2 with u :: _ => u | [] => EmptyString end in
    let xStorageURL := "http://" +:+ emulator_addr (config g) +:+ "/v1/" +:+ fixedUserToAccountPrefix +:+ user in
    served (HeaderAdd "X-Storage-Url" xStorageURL
              (HeaderAdd "X-Auth-Token" (getCurrentAuthToken g) rw0)).

Definition ServeHTTP (g : globalsStruct) (req : request) (rnd : N * N) : globalsStruct * outcome :=
  if String.eqb (Method req) "GET" && String.eqb (Path req) "/info" then (g, doGET g req rnd)
  else if String.eqb (Method req) "GET" && String.eqb (Path req) "/auth/v1.0" then (g, auth_reply g req)
  else if negb (String.eqb (getCurrentAuthToken g) (header_get (Header req) "X-Auth-Token"))
  then (g, status StatusUnauthorized)
  else if negb (HasPrefix (Path req) "/v1/") then (g, status StatusNotFound)
  else if String.eqb (Method req) "DELETE" then doDELETE g req
  else if String.eqb (Method req) "GET" then (g, doGET g req rnd)
  else if String.eqb (Method req) "HEAD" then (g, doHEAD g req)
  else if String.eqb (Method req) "POST" then doPOST g req
  else if String.eqb (Method req) "PUT" then doPUT g req
  else (g, status StatusMethodNotAllowed).
End Handlers.

(** ** The store invariant

    Every account is filed under its name, its container tree is sorted
    and files each container under its name, likewise for objects; every
    stored header has at least one value; the token is the one formatted
    from the nonce. *)
Module Wf.
Import Store.

Definition headers_wf (h : header) : Prop := map_Forall (fun _ vs => vs <> []) h.

Definition object_wf (k : string) (o : swiftObjectStruct) : Prop :=
  obj_name o = k /\ headers_wf (obj_headers o).

Definition entries_wf {V} (P : string -> V -> Prop) (t : LLRB.tree V) : Prop :=
  LLRB.sorted t /\ Forall (fun e => P e.1 e.2) t.

Definition container_wf (k : string) (c : swiftContainerStruct) : Prop :=
  cont_name c = k /\ headers_wf (cont_headers c) /\ entries_wf object_wf (swiftObjectTree c).

Definition account_wf (k : string) (a : swiftAccountStruct) : Prop :=
  acct_name a = k /\ headers_wf (acct_headers a) /\ entries_wf container_wf (swiftContainerTree a).

Definition globals_wf (g : globalsStruct) : Prop :=
  map_Forall account_wf (swiftAccountMap g) /\ currentAuthToken g = auth_token (currentAuthNonce g).

(** The invariant is decidable, so that it can be checked on a state. *)
#[global] Instance strongly_sorted_dec (l : list string) : Decision (StronglySorted LLRB.str_lt l).
Proof.
  induction l as [|x l IH]; [left; constructor|].
  destruct IH as [H|H]; [|right; intros Hs; apply StronglySorted_inv in Hs; tauto].
  destruct (decide (Forall (LLRB.str_lt x) l)) as [Hf|Hf];
    [left; by constructor|right; intros Hs; apply StronglySorted_inv in Hs; tauto].
Defined.
#[global] Instance headers_wf_dec h : Decision (headers_wf h).
Proof. unfold headers_wf. apply _. Defined.
#[global] Instance object_wf_dec k o : Decision (object_wf k o).
Proof. unfold object_wf. apply _. Defined.
#[global] Instance entries_wf_dec {V} (P : string -> V -> Prop) `{!forall k v, Decision (P k v)} t :
  Decision (entries_wf P t).
Proof. unfold entries_wf, LLRB.sorted. apply _. Defined.
#[global] Instance container_wf_dec k c : Decision (container_wf k c).
Proof. unfold container_wf. apply _. Defined.
#[global] Instance account_wf_dec k a : Decision (account_wf k a).
Proof. unfold account_wf. apply _. Defined.
#[global] Instance globals_wf_dec g : Decision (globals_wf g).
Proof. unfold globals_wf. apply _. Defined.

End Wf.

(** ** Reference definitions the theorems compare the handlers with *)
Module Spec.
Import Store.

(** The effect of the header loop on one name: a request header with
    values replaces the stored one by its non-empty values, or deletes
    it if there are none, unless the name is ignored. *)
Definition updated_header (name : string) (r old : option (list string)) : option (list string) :=
  match r with
  | Some ((_ :: _) as vs) =>
      if decide (name ∈ headerNameIgnoreSet) then old
      else match nonempty_values vs with [] => None | vs' => Some vs' end
  | _ => old
  end.

(** The names of a sorted tree strictly after [marker]. *)
Definition names_after {V} (t : LLRB.tree V) (marker : string) : list string :=
  fst <$> filter (fun e => LLRB.str_lt marker e.1) t.

(** The object [on] of container [cn] of account [an], if any. *)
Definition lookup_container (g : globalsStruct) (an cn : string) : option swiftContainerStruct :=
  a ← locateSwiftAccount g an; locateSwiftContainer a cn.
Definition lookup_object (g : globalsStruct) (an cn on : string) : option swiftObjectStruct :=
  c ← lookup_container g an cn; locateSwiftObject c on.

(** The request paths of an account, a container and an object. *)
Definition account_path (an : string) : string := "/v1/" +:+ an.
Definition container_path (an cn : string) : string := "/v1/" +:+ an +:+ "/" +:+ cn.
Definition object_path (an cn on : string) : string := "/v1/" +:+ an +:+ "/" +:+ cn +:+ "/" +:+ on.

(** The bytes [a..b] of [l], both included. *)
Definition byte_range (l : list byte) (a b : N) : list byte :=
  take (S (N.to_nat b) - N.to_nat a) (drop (N.to_nat a) l).

(** A listing's body: each name followed by a newline. *)
Definition listing_body (names : list string) : list byte :=
  foldr (fun name acc => GoStr.bytes name ++ [x0a] ++ acc) [] names.

(** The emulator as a state machine: a request served under the lock,
    or a forced re-authentication; the states reachable from
    [initializeGlobals]. *)
Inductive emu_step : globalsStruct -> globalsStruct -> Prop :=
| StepServe g req rnd : emu_step g (Handlers.ServeHTTP g req rnd).1
| StepReAuth g : emu_step g (forceReAuth g).

Definition emu_reachable (cfg : configStruct) (g : globalsStruct) : Prop :=
  rtc emu_step (initializeGlobals cfg) g.

(** A path segment the emulator accepts as an account or container name. *)
Definition segment (s : string) : Prop := s <> EmptyString /\ GoStr.cut_at "/" s = None.

End Spec.

(** ** A small emulator session: the inputs of the witnesses *)
Module Demo.
Import Store Handlers Spec.

Definition demo_config : configStruct := mkConfig "127.0.0.1" 9999 256 256 1024 2 2.

Definition demo_token : string := auth_token 0.

Definition demo_request (method path : string) (hdrs : header) (body : list byte) : request :=
  mkRequest method path (<["X-Auth-Token" := [demo_token]]> hdrs) ∅ body.

(** Account [A], containers [c1] and [c2], object [c1/o] holding [ABC]
    with one metadata header, object [c1/p]. *)
Definition demo_setup : list request :=
  [ demo_request "PUT" (account_path "A") ∅ [];
    demo_request "PUT" (container_path "A" "c1") ∅ [];
    demo_request "PUT" (container_path "A" "c2") ∅ [];
    demo_request "PUT" (object_path "A" "c1" "o") (<["X-Object-Meta-Color" := ["blue"]]> ∅) [x41; x42; x43];
    demo_request "PUT" (object_path "A" "c1" "p") ∅ [] ].

Definition run_requests (g : globalsStruct) (rs : list request) : globalsStruct :=
  foldl (fun g r => (ServeHTTP g r (0, 0)).1) g rs.

Definition demo_globals : globalsStruct := run_requests (initializeGlobals demo_config) demo_setup.

Definition demo_object : swiftObjectStruct :=
  default (newSwiftObject "o") (lookup_object demo_globals "A" "c1" "o").

Definition demo_range_request (range : string) : request :=
  demo_request "GET" (object_path "A" "c1" "o") (<["Range" := [range]]> ∅) [].

End Demo.

(** ** Lemmas: the string order and the tree *)
Module LLRBFacts.
Import LLRB.

Lemma str_compare_refl s : String.compare s s = Eq.
Proof.
  induction s as [|a s IH]; [done|]. cbn. unfold Ascii.compare. by rewrite N.compare_refl.
Qed.

Lemma str_compare_eq a b : String.compare a b = Eq <-> a = b.
Proof. split; [apply String.compare_eq_iff|intros ->; apply str_compare_refl]. Qed.

Lemma str_compare_gt a b : String.compare a b = Gt -> str_lt b a.
Proof. unfold str_lt. rewrite String.compare_antisym. by destruct (String.compare b a). Qed.

Lemma str_lt_trans a b c : str_lt a b -> str_lt b c -> str_lt a c.
Proof.
  unfold str_lt. revert b c.
  induction a as [|x a IH]; intros [|y b] [|z c] H1 H2; simplify_eq/=; [done..|].
  destruct (Ascii.compare x y) eqn:Hxy; simplify_eq/=.
  - apply Ascii.compare_eq_iff in Hxy as ->. destruct (Ascii.compare y z); eauto.
  - destruct (Ascii.compare y z) eqn:Hyz; simplify_eq/=.
    + apply Ascii.compare_eq_iff in Hyz as ->. by rewrite Hxy.
    + assert (Ascii.compare x z = Lt) as ->; [|done].
      unfold Ascii.compare in *. apply N.compare_lt_iff. by etrans; apply N.compare_lt_iff.
Qed.

Lemma str_lt_irrefl a : ~ str_lt a a.
Proof. unfold str_lt. by rewrite str_compare_refl. Qed.

Lemma str_lt_ne a b : str_lt a b -> a <> b.
Proof. intros H ->. by apply (str_lt_irrefl b). Qed.

Section Facts.
Context {V : Type}.
Implicit Types (t : tree V) (k : string) (v : V).

Lemma sorted_cons k v t : sorted ((k, v) :: t) <-> sorted t /\ forall k', k' ∈ map fst t -> str_lt k k'.
Proof.
  unfold sorted. cbn. split.
  - intros Hs. apply StronglySorted_inv in Hs as [Hs Hall]. rewrite Forall_forall in Hall.
    split; [done|]. intros k' Hk'. apply Hall. rewrite ?list_elem_of_In in Hk' |- *. done.
  - intros [Hs Hall]. constructor; [done|]. rewrite Forall_forall. intros k' Hk'.
    apply Hall. rewrite ?list_elem_of_In in Hk' |- *. done.
Qed.

Lemma GetByKey_None t k : GetByKey t k = None <-> k ∉ map fst t.
Proof.
  induction t as [|[k' v'] t IH]; cbn; [set_solver|].
  destruct (String.eqb_spec k k') as [->|Hne]; [set_solver|]. rewrite IH. set_solver.
Qed.

Lemma GetByKey_elem t k v : GetByKey t k = Some v -> (k, v) ∈ t.
Proof.
  induction t as [|[k' v'] t IH]; cbn; [done|].
  destruct (String.eqb_spec k k') as [->|Hne]; intros H; simplify_eq; set_solver.
Qed.

Lemma GetByKey_sorted_elem t k v : sorted t -> (k, v) ∈ t -> GetByKey t k = Some v.
Proof.
  induction t as [|[k' v'] t IH]; cbn; [set_solver|].
  intros [Hs Hall]%sorted_cons [Heq|Hin]%elem_of_cons.
  - simplify_eq. by rewrite String.eqb_refl.
  - destruct (String.eqb_spec k k') as [->|Hne]; [|by apply IH].
    exfalso. apply (str_lt_irrefl k'), Hall. apply list_elem_of_fmap. by exists (k', v).
Qed.

Lemma Put_keys t k v k' : k' ∈ map fst (Put t k v) -> k' = k \/ k' ∈ map fst t.
Proof.
  induction t as [|[k0 v0] t IH]; cbn; [set_solver|].
  destruct (String.compare k k0); cbn; [set_solver..|]. intros [->|Hin]%elem_of_cons; [set_solver|].
  destruct (IH Hin); set_solver.
Qed.

Lemma sorted_Put t k v : sorted t -> sorted (Put t k v).
Proof.
  induction t as [|[k0 v0] t IH]; intros Hs; cbn.
  - apply sorted_cons. split; [constructor|set_solver].
  - pose proof Hs as [Hs' Hall]%sorted_cons.
    destruct (String.compare k k0) eqn:Hc; [done| |].
    + apply sorted_cons. split; [done|]. intros k' [->|Hin]%elem_of_cons; [done|].
      by eapply str_lt_trans, Hall.
    + apply sorted_cons. split; [by apply IH|]. intros k' [->|Hin]%Put_keys; [|by apply Hall].
      by apply str_compare_gt.
Qed.

Lemma GetByKey_Put_eq t k v : GetByKey t k = None -> GetByKey (Put t k v) k = Some v.
Proof.
  induction t as [|[k0 v0] t IH]; cbn; [by rewrite String.eqb_refl|].
  destruct (String.eqb_spec k k0) as [->|Hne]; [done|]. intros H.
  destruct (String.compare k k0) eqn:Hc; cbn.
  - by apply str_compare_eq in Hc.
  - by rewrite String.eqb_refl.
  - apply String.eqb_neq in Hne. rewrite Hne. by apply IH.
Qed.

Lemma GetByKey_Put_ne t k v k' : k' <> k -> GetByKey (Put t k v) k' = GetByKey t k'.
Proof.
  intros Hne. induction t as [|[k0 v0] t IH]; cbn.
  - by apply String.eqb_neq in Hne as ->.
  - destruct (String.compare k k0); cbn; [done| |by rewrite IH].
    by apply String.eqb_neq in Hne as ->.
Qed.

Lemma DeleteByKey_sublist t k : DeleteByKey t k `sublist_of` t.
Proof.
  induction t as [|[k0 v0] t IH]; cbn; [done|].
  destruct (String.eqb k k0); [by apply sublist_cons|by apply sublist_skip].
Qed.

Lemma sorted_DeleteByKey t k : sorted t -> sorted (DeleteByKey t k).
Proof.
  unfold sorted. apply StronglySorted_sublist. apply (fmap_sublist fst). apply DeleteByKey_sublist.
Qed.

Lemma GetByKey_DeleteByKey_eq t k : sorted t -> GetByKey (DeleteByKey t k) k = None.
Proof.
  induction t as [|[k0 v0] t IH]; cbn; [done|]. intros [Hs Hall]%sorted_cons.
  destruct (String.eqb_spec k k0) as [->|Hne]; cbn.
  - apply GetByKey_None. intros Hin. by apply (str_lt_irrefl k0), Hall.
  - apply String.eqb_neq in Hne as ->. by apply IH.
Qed.

Lemma GetByKey_DeleteByKey_ne t k k' : k' <> k -> GetByKey (DeleteByKey t k) k' = GetByKey t k'.
Proof.
  intros Hne. induction t as [|[k0 v0] t IH]; cbn; [done|].
  destruct (String.eqb_spec k k0) as [->|Hne']; cbn.
  - by apply String.eqb_neq in Hne as ->.
  - by rewrite IH.
Qed.

Lemma update_at_keys t k v : map fst (update_at t k v) = map fst t.
Proof.
  induction t as [|[k0 v0] t IH]; cbn; [done|]. destruct (String.eqb k k0); cbn; by f_equal.
Qed.

Lemma sorted_update_at t k v : sorted t -> sorted (update_at t k v).
Proof. unfold sorted. by rewrite update_at_keys. Qed.

Lemma GetByKey_update_at_eq t k v v0 :
  GetByKey t k = Some v0 -> GetByKey (update_at t k v) k = Some v.
Proof.
  induction t as [|[k1 v1] t IH]; cbn; [done|].
  destruct (String.eqb_spec k k1) as [->|Hne]; cbn.
  - by rewrite String.eqb_refl.
  - apply String.eqb_neq in Hne as ->. done.
Qed.

Lemma GetByKey_update_at_ne t k v k' : k' <> k -> GetByKey (update_at t k v) k' = GetByKey t k'.
Proof.
  intros Hne. induction t as [|[k1 v1] t IH]; cbn; [done|].
  destruct (String.eqb_spec k k1) as [->|Hne']; cbn.
  - by apply String.eqb_neq in Hne as ->.
  - by rewrite IH.
Qed.

Lemma Forall_Put (P : string -> V -> Prop) t k v :
  Forall (fun e => P e.1 e.2) t -> P k v -> Forall (fun e => P e.1 e.2) (Put t k v).
Proof.
  intros Hall Hkv. induction t as [|[k0 v0] t IH]; cbn; [by constructor|].
  apply Forall_cons in Hall as [H0 Hall].
  destruct (String.compare k k0); repeat constructor; auto.
Qed.

Lemma Forall_DeleteByKey (P : string -> V -> Prop) t k :
  Forall (fun e => P e.1 e.2) t -> Forall (fun e => P e.1 e.2) (DeleteByKey t k).
Proof.
  rewrite !Forall_forall. intros Hall x Hx. apply Hall.
  by eapply sublist_subseteq; [apply DeleteByKey_sublist|].
Qed.

Lemma Forall_update_at (P : string -> V -> Prop) t k v :
  Forall (fun e => P e.1 e.2) t -> P k v -> Forall (fun e => P e.1 e.2) (update_at t k v).
Proof.
  intros Hall Hkv. induction t as [|[k0 v0] t IH]; cbn; [by constructor|].
  apply Forall_cons in Hall as [H0 Hall].
  destruct (String.eqb_spec k k0) as [->|Hne]; repeat constructor; auto.
Qed.

Lemma Forall_GetByKey (P : string -> V -> Prop) t k v :
  Forall (fun e => P e.1 e.2) t -> GetByKey t k = Some v -> P k v.
Proof. rewrite Forall_forall. intros Hall Hget%GetByKey_elem. by apply Hall in Hget. Qed.

Lemma filter_all_true (P : string * V -> Prop) `{!forall e, Decision (P e)} t :
  Forall P t -> filter P t = t.
Proof. induction 1; [done|]. rewrite filter_cons_True; [by f_equal|done]. Qed.

(** On a sorted tree, [BisectRight] and the [found] correction of the
    handlers skip exactly the keys up to the marker. *)
Lemma BisectRight_drop t k :
  sorted t ->
  let '(i, f) := BisectRight t k in
  drop (if f then S i else i) t = filter (fun e => str_lt k e.1) t.
Proof.
  induction t as [|[k0 v0] t IH]; cbn [BisectRight]; [done|]. intros Hs.
  pose proof Hs as [Hs' Hall]%sorted_cons.
  assert (Hgt : forall k1, str_lt k k0 -> Forall (fun e => str_lt k e.1) t).
  { intros k1 Hk. apply Forall_forall. intros [k2 v2] Hin. apply (str_lt_trans _ k0); [done|].
    apply Hall, list_elem_of_fmap. by exists (k2, v2). }
  destruct (String.compare k0 k) eqn:Hc.
  - apply str_compare_eq in Hc as ->. rewrite filter_cons_False; [|apply str_lt_irrefl].
    rewrite filter_all_true; [done|]. apply Forall_forall. intros [k2 v2] Hin.
    apply Hall, list_elem_of_fmap. by exists (k2, v2).
  - specialize (IH Hs'). destruct (BisectRight t k) as [i f].
    rewrite filter_cons_False; [by destruct f|].
    intros Hlt. apply (str_lt_irrefl k). by eapply str_lt_trans.
  - apply str_compare_gt in Hc. rewrite filter_cons_True by done. cbn [drop]. f_equal.
    symmetry. by apply filter_all_true, (Hgt k0).
Qed.

Lemma write_names_spec t idx n (w : Handlers.responseWriter) :
  (idx + n <= length t)%nat ->
  Handlers.write_names t idx n w = Some (Handlers.write_all (take n (drop idx (fst <$> t))) w).
Proof.
  revert idx w. induction n as [|n IH]; intros idx w Hlen; cbn; [done|].
  unfold GetByIndex. destruct (t !! idx) as [[name v]|] eqn:Ht.
  - rewrite IH by lia. f_equal. rewrite (drop_S (fst <$> t) name idx); [done|].
    by rewrite list_lookup_fmap, Ht.
  - apply lookup_ge_None in Ht. lia.
Qed.

End Facts.
End LLRBFacts.

(** ** Lemmas: headers and the response writer *)
Module HeaderFacts.
Import Store Handlers Spec.

Lemma update_header_lookup i vs h k :
  update_header i vs h !! k = if decide (k = i) then updated_header k (Some vs) (h !! k) else h !! k.
Proof.
  unfold update_header, updated_header. destruct (decide (k = i)) as [->|Hne].
  - destruct vs as [|v vs']; destruct (decide (i ∈ headerNameIgnoreSet)); try done.
    destruct (nonempty_values (v :: vs')); [by rewrite lookup_delete_eq|by rewrite lookup_insert_eq].
  - destruct (decide (i ∈ headerNameIgnoreSet)); [done|]. destruct vs; [done|].
    destruct (nonempty_values _); [by rewrite lookup_delete_ne|by rewrite lookup_insert_ne].
Qed.

Lemma updated_header_None k old : updated_header k None old = old.
Proof. done. Qed.

Lemma apply_request_headers_lookup reqh h k :
  apply_request_headers reqh h !! k = updated_header k (reqh !! k) (h !! k).
Proof.
  revert k. unfold apply_request_headers.
  apply (map_fold_weak_ind (fun r m => forall k, r !! k = updated_header k (m !! k) (h !! k)));
    [done|].
  intros i vs m r Hi IH k. rewrite update_header_lookup. destruct (decide (k = i)) as [->|Hne].
  - rewrite lookup_insert_eq, IH, Hi. done.
  - by rewrite lookup_insert_ne, IH.
Qed.

(** The loop over the request headers in the order of a list of
    distinct names. *)
Lemma foldl_update_header_lookup l h k :
  NoDup l.*1 ->
  foldl (fun acc e => update_header e.1 e.2 acc) h l !! k =
  updated_header k ((list_to_map l : header) !! k) (h !! k).
Proof.
  revert h. induction l as [|[i vs] l IH]; intros h Hnd; [done|].
  apply NoDup_cons in Hnd as [Hi Hnd]. cbn [foldl]. rewrite IH by done.
  rewrite update_header_lookup. cbn. destruct (decide (k = i)) as [->|Hne].
  - rewrite lookup_insert_eq. rewrite not_elem_of_list_to_map_1 by done. done.
  - by rewrite lookup_insert_ne.
Qed.

Lemma apply_request_headers_wf reqh h : Wf.headers_wf h -> Wf.headers_wf (apply_request_headers reqh h).
Proof.
  unfold Wf.headers_wf. intros Hh k vs. rewrite apply_request_headers_lookup.
  unfold updated_header. destruct (reqh !! k) as [[|v vs']|]; try by apply Hh.
  destruct (decide _); [by apply Hh|]. destruct (nonempty_values _); congruence.
Qed.

Lemma foldl_HeaderAdd k vs w :
  foldl (fun w v => HeaderAdd k v w) w vs =
  mkRW (rw_status w)
    (match vs with [] => rw_header w | _ => <[k := default [] (rw_header w !! k) ++ vs]> (rw_header w) end)
    (rw_body w).
Proof.
  revert w. induction vs as [|v vs IH]; intros w; cbn; [by destruct w|].
  rewrite IH. cbn. f_equal. destruct vs as [|v' vs']; [done|].
  rewrite lookup_insert_eq, insert_insert_eq. cbn. by rewrite <- app_assoc.
Qed.

Lemma copy_headers_spec src w :
  rw_status (copy_headers src w) = rw_status w /\ rw_body (copy_headers src w) = rw_body w /\
  forall k, rw_header (copy_headers src w) !! k =
    match src !! k with
    | Some ((_ :: _) as vs) => Some (default [] (rw_header w !! k) ++ vs)
    | _ => rw_header w !! k
    end.
Proof.
  unfold copy_headers.
  apply (map_fold_weak_ind (fun r m => rw_status r = rw_status w /\ rw_body r = rw_body w /\
    forall k, rw_header r !! k = match m !! k with
      | Some ((_ :: _) as vs) => Some (default [] (rw_header w !! k) ++ vs)
      | _ => rw_header w !! k end)); [done|].
  intros i vs m r Hi (Hs & Hb & Hh). rewrite foldl_HeaderAdd. cbn. split_and!; [done..|].
  intros k. destruct (decide (k = i)) as [->|Hne].
  - specialize (Hh i). rewrite Hi in Hh.
    destruct vs; rewrite !lookup_insert_eq; [done|]. by rewrite Hh.
  - rewrite lookup_insert_ne by done. rewrite <- Hh. destruct vs; [done|].
    by rewrite lookup_insert_ne.
Qed.

(** Copying well-formed stored headers into a fresh response gives them back. *)
Lemma copy_headers_fresh src :
  Wf.headers_wf src ->
  rw_status (copy_headers src rw0) = None /\ rw_body (copy_headers src rw0) = [] /\
  rw_header (copy_headers src rw0) = src.
Proof.
  intros Hwf. destruct (copy_headers_spec src rw0) as (Hs & Hb & Hh). split_and!; [done..|].
  apply map_eq. intros k. rewrite Hh. cbn. rewrite lookup_empty.
  destruct (src !! k) as [[|v vs]|] eqn:Hk; [|done..]. by apply Hwf in Hk.
Qed.

End HeaderFacts.


(** ** Lemmas: [parsePath] and [parseRangeHeader] *)
Module ParseFacts.
Import GoStr Store Spec StrFacts.

Lemma parsePath_v1 x :
  parsePath ("/v1/" +:+ x) =
  match SplitN x "/" 3 with
  | [a] => (false, a, EmptyString, EmptyString)
  | [a; c] => (false, a, c, EmptyString)
  | a :: c :: o :: _ => (false, a, c, o)
  | [] => (false, EmptyString, EmptyString, EmptyString)
  end.
Proof. destruct x; reflexivity. Qed.

Lemma parsePath_object an cn on :
  cut_at "/" an = None -> cut_at "/" cn = None -> parsePath (object_path an cn on) = (false, an, cn, on).
Proof.
  intros Ha Hc. unfold object_path. rewrite parsePath_v1, !str_app_char.
  rewrite (SplitN_cons an "/" _ 1 Ha), (SplitN_cons cn "/" on 0 Hc). done.
Qed.

Lemma parsePath_container an cn :
  cut_at "/" an = None -> cut_at "/" cn = None -> parsePath (container_path an cn) = (false, an, cn, EmptyString).
Proof.
  intros Ha Hc. unfold container_path. rewrite parsePath_v1, !str_app_char.
  rewrite (SplitN_cons an "/" cn 1 Ha), (SplitN_no_sep cn "/" 2 Hc) by lia. done.
Qed.

Lemma parsePath_account an :
  cut_at "/" an = None -> parsePath (account_path an) = (false, an, EmptyString, EmptyString).
Proof. intros Ha. unfold account_path. rewrite parsePath_v1, (SplitN_no_sep an "/" 3 Ha) by lia. done. Qed.

Lemma u64_of_int_N x : x < 2 ^ 64 -> u64_of_int (Z.of_N x) = x.
Proof. intros Hx. unfold u64_of_int. rewrite Z.mod_small by lia. apply N2Z.id. Qed.

Lemma u64_of_int_minus_one : u64_of_int (-1) = u64_max.
Proof. reflexivity. Qed.

Lemma atoi_body_nonneg body z : atoi_body false body = Some z -> (0 <= z)%Z.
Proof.
  unfold atoi_body. destruct body; [done|]. destruct (digits_val 0 _); [|done].
  case_match; [|done]. intros [= <-]. lia.
Qed.

Lemma Atoi_nonneg s z : cut_at "-" s = None -> Atoi s = Some z -> (0 <= z)%Z.
Proof.
  unfold Atoi, sign_split. destruct s as [|c s']; [done|].
  destruct (Ascii.eqb_spec c "-") as [->|_]; [by simpl|].
  intros _. destruct (Ascii.eqb c "+"); apply atoi_body_nonneg.
Qed.

Lemma parse_offset_nonempty s : s <> EmptyString -> parse_offset s = Atoi s.
Proof. intros Hs. unfold parse_offset. by apply String.eqb_neq in Hs as ->. Qed.

Lemma cut_at_app_some c x y a b : cut_at c x = Some (a, b) -> cut_at c (x +:+ y) = Some (a, b +:+ y).
Proof.
  revert a. induction x as [|d x IH]; intros a; simpl; [done|].
  destruct (Ascii.eqb c d); [by intros [= <- <-]|].
  destruct (cut_at c x) as [[a' b']|] eqn:Hx; [|done]. intros [= <- <-].
  by rewrite (IH a' eq_refl).
Qed.

Lemma SplitN_two x a b : cut_at "-" x = Some (a, b) -> SplitN x "-" 2 = [a; b].
Proof. intros Hx. simpl. by rewrite Hx. Qed.

(** A range whose text ends with ["-"] is rejected: either its stop is
    empty while its start is a non-negative number or empty, or its stop
    is not a number. *)
Lemma parse_one_range_dash len p : parse_one_range len (p +:+ "-") = None.
Proof.
  assert (exists a b, cut_at "-" (p +:+ "-") = Some (a, b)) as (a & b & Hc).
  { destruct (cut_at "-" p) as [[a0 b0]|] eqn:Hp.
    - eexists _, _. by apply cut_at_app_some.
    - eexists _, _. by apply cut_at_first. }
  apply cut_at_spec in Hc as Hc'. destruct Hc' as [Hab Ha].
  unfold parse_one_range. rewrite (SplitN_two _ _ _ Hc). symmetry in Hab.
  destruct (app_dash_cut _ _ _ _ Hab) as [[-> _]|[p' ->]].
  2: { rewrite (parse_offset_nonempty (p' +:+ "-")), Atoi_dash by (by destruct p').
       by destruct (parse_offset a). }
  destruct (String.eqb_spec a EmptyString) as [->|Hne]; [reflexivity|].
  change (parse_offset EmptyString) with (Some (-1)%Z).
  rewrite parse_offset_nonempty by done. destruct (Atoi a) as [z|] eqn:Hz; [|done].
  apply Atoi_nonneg in Hz; [|done].
  destruct (Z.ltb_spec (-1) z); [by rewrite orb_true_r|lia].
Qed.

Lemma parseRangeHeader_bytes x len :
  parseRangeHeader ("bytes=" +:+ x) len = mapM (parse_one_range len) (SplitN x "," 2).
Proof. destruct x; reflexivity. Qed.

Lemma pretty_no_sep (n : N) c : digit_val c = None -> cut_at c (pretty n) = None.
Proof. apply digits_val_cut with (acc := 0) (v := n), digits_val_pretty. Qed.

Lemma parse_one_range_closed len a b :
  a <= b -> (Z.of_N b <= int64_max)%Z ->
  parse_one_range len (pretty a +:+ String "-" (pretty b)) =
  Some (mkRange a (u64_of_int (if (len - 1 <? Z.of_N b)%Z then (len - 1)%Z else Z.of_N b))).
Proof.
  intros Hab Hb. unfold int64_max in Hb.
  unfold parse_one_range. rewrite (SplitN_two _ _ _ (cut_at_first _ _ _ (pretty_no_sep a "-" eq_refl))).
  rewrite !parse_offset_nonempty by apply pretty_N_nonempty.
  rewrite !Atoi_pretty by (unfold int64_max; lia).
  destruct (Z.ltb_spec (Z.of_N a) 0); [lia|]. destruct (Z.ltb_spec (Z.of_N b) (Z.of_N a)); [lia|].
  destruct (Z.ltb_spec (Z.of_N b) 0); [lia|]. cbn. by rewrite u64_of_int_N by lia.
Qed.

Lemma parseRangeHeader_closed len a b :
  a <= b -> (Z.of_N b <= int64_max)%Z ->
  parseRangeHeader ("bytes=" +:+ pretty a +:+ "-" +:+ pretty b) len =
  Some [mkRange a (u64_of_int (if (len - 1 <? Z.of_N b)%Z then (len - 1)%Z else Z.of_N b))].
Proof.
  intros Hab Hb. rewrite parseRangeHeader_bytes, str_app_char.
  rewrite (SplitN_no_sep _ _ 2); [|rewrite cut_at_app by (by apply pretty_no_sep);
                                   simpl; by rewrite pretty_no_sep|lia].
  simpl. by rewrite parse_one_range_closed.
Qed.

Ltac bool_facts :=
  repeat match goal with
  | H : (_ || _) = false |- _ => apply orb_false_iff in H as [? ?]
  | H : (_ && _) = false |- _ => apply andb_false_iff in H as [?|?]
  | H : (_ <? _)%Z = true |- _ => apply Z.ltb_lt in H
  | H : (_ <? _)%Z = false |- _ => apply Z.ltb_ge in H
  end.

(** What a parsed range is made of: a start that is not negative, and
    a stop that is the last offset or a requested offset at or after the
    start and within the object. *)
Lemma parse_one_range_spec len s r :
  parse_one_range len s = Some r ->
  exists st sp, startOffset r = u64_of_int st /\ stopOffset r = u64_of_int sp /\ (0 <= st)%Z /\
    (sp = len - 1 \/ st <= sp <= len - 1)%Z.
Proof.
  unfold parse_one_range. repeat case_match; try done; intros [= <-]; cbn; bool_facts;
    eexists _, _; (split; [reflexivity|]); (split; [reflexivity|]); lia.
Qed.

Lemma u64_succ_of_int z : (-1 <= z < 2 ^ 63)%Z -> u64_succ (u64_of_int z) = Z.to_N (z + 1).
Proof.
  intros Hz. destruct (decide (z = -1)%Z) as [->|Hne]; [reflexivity|].
  unfold u64_succ, u64_of_int, u64_modulus. rewrite Z.mod_small by lia.
  rewrite N.mod_small by lia. lia.
Qed.

End ParseFacts.

(** ** Lemmas: the handlers *)
Module HandlerFacts.
Import GoStr Store Handlers Spec StrFacts ParseFacts HeaderFacts.

Lemma eqb_nonempty s : s <> EmptyString -> String.eqb s EmptyString = false.
Proof. apply String.eqb_neq. Qed.

Lemma doGET_object g req rnd an cn on o :
  parsePath (Path req) = (false, an, cn, on) -> an <> EmptyString -> cn <> EmptyString ->
  on <> EmptyString -> lookup_object g an cn on = Some o ->
  doGET g req rnd = get_object o req rnd.
Proof.
  intros Hp Ha Hc Ho Hl. unfold doGET. rewrite Hp, !eqb_nonempty by done.
  unfold lookup_object, lookup_container in Hl.
  destruct (locateSwiftAccount g an); [|done]. simpl in Hl.
  destruct (locateSwiftContainer _ cn); [|done]. by simpl in Hl; rewrite Hl.
Qed.

Lemma go_slice_range l a b :
  a <= b -> b < N.of_nat (length l) -> go_slice l a (b + 1) = Some (byte_range l a b).
Proof.
  intros Hab Hb. unfold go_slice, byte_range.
  assert ((a <=? b + 1) && (b + 1 <=? N.of_nat (length l)) = true) as -> by
    (apply andb_true_intro; split; apply N.leb_le; lia).
  f_equal. f_equal. lia.
Qed.

Lemma go_slice_past l a b : N.of_nat (length l) < a -> b <= N.of_nat (length l) -> go_slice l a b = None.
Proof.
  intros Ha Hb. unfold go_slice. destruct (N.leb_spec a b); [lia|done].
Qed.

Lemma copy_headers_rw0 src : rw_status (copy_headers src rw0) = None /\ rw_body (copy_headers src rw0) = [].
Proof. by destruct (copy_headers_spec src rw0) as (-> & -> & _). Qed.

(** An object GET with one closed range [bytes=a-b] answers the slice
    [contents[a:stop+1]] of the clamped stop, or panics when that slice
    is out of bounds. *)
Lemma get_object_closed o req rnd a b :
  header_get (Header req) "Range" = "bytes=" +:+ pretty a +:+ "-" +:+ pretty b ->
  a <= b -> (Z.of_N b <= int64_max)%Z ->
  let len := Z.of_nat (length (contents o)) in
  let stop := if (len - 1 <? Z.of_N b)%Z then (len - 1)%Z else Z.of_N b in
  (forall part, go_slice (contents o) a (Z.to_N (stop + 1)) = Some part ->
     exists hdrs, get_object o req rnd = Served StatusPartialContent hdrs part) /\
  (go_slice (contents o) a (Z.to_N (stop + 1)) = None -> get_object o req rnd = Panicked).
Proof.
  intros Hr Hab Hb len stop. unfold get_object. rewrite Hr, parseRangeHeader_closed by done.
  unfold range_bytes. cbn [startOffset stopOffset]. fold len stop.
  rewrite u64_succ_of_int by (unfold stop, int64_max in *; case_match; bool_facts; lia).
  destruct (copy_headers_rw0 (obj_headers o)) as [Hs Hbody].
  split; [intros part ->|intros ->]; [|done]. eexists. unfold served, Write, WriteHeader, HeaderAdd.
  cbn. rewrite Hs, Hbody. done.
Qed.

(** ** Updates of one entry, seen through [lookup_object] *)

Lemma locate_store_account g an a an' :
  locateSwiftAccount (store_account g an a) an' =
  if decide (an' = an) then Some a else locateSwiftAccount g an'.
Proof.
  unfold locateSwiftAccount, store_account, set_accounts. cbn.
  destruct (decide (an' = an)) as [->|Hne]; [apply lookup_insert_eq|by apply lookup_insert_ne].
Qed.

Lemma locate_store_container a cn c c' cn' :
  locateSwiftContainer a cn = Some c ->
  locateSwiftContainer (store_container a cn c') cn' =
  if decide (cn' = cn) then Some c' else locateSwiftContainer a cn'.
Proof.
  unfold locateSwiftContainer, store_container, set_containers. cbn. intros Hc.
  destruct (decide (cn' = cn)) as [->|Hne];
    [by eapply LLRBFacts.GetByKey_update_at_eq|by apply LLRBFacts.GetByKey_update_at_ne].
Qed.

Lemma lookup_object_update g an cn on a c c' r an' cn' on' :
  locateSwiftAccount g an = Some a -> locateSwiftContainer a cn = Some c ->
  locateSwiftObject c' on = r ->
  (forall x, x <> on -> locateSwiftObject c' x = locateSwiftObject c x) ->
  lookup_object (store_account g an (store_container a cn c')) an' cn' on' =
  if decide ((an', cn', on') = (an, cn, on)) then r else lookup_object g an' cn' on'.
Proof.
  intros Ha Hc Ho Hframe. unfold lookup_object, lookup_container.
  rewrite locate_store_account. destruct (decide (an' = an)) as [->|Hna].
  2: { case_decide; [simplify_eq|done]. }
  rewrite Ha. simpl. rewrite (locate_store_container _ _ _ _ _ Hc).
  destruct (decide (cn' = cn)) as [->|Hnc].
  2: { case_decide; [simplify_eq|done]. }
  rewrite Hc. simpl. destruct (decide (on' = on)) as [->|Hno].
  - by rewrite decide_True.
  - rewrite decide_False by congruence. by apply Hframe.
Qed.

Lemma locate_store_object c on o x :
  is_Some (locateSwiftObject c on) ->
  locateSwiftObject (store_object c on o) x = if decide (x = on) then Some o else locateSwiftObject c x.
Proof.
  unfold locateSwiftObject, store_object, set_objects. cbn. intros [o0 Ho].
  destruct (decide (x = on)) as [->|Hne];
    [by eapply LLRBFacts.GetByKey_update_at_eq|by apply LLRBFacts.GetByKey_update_at_ne].
Qed.

Lemma createOrLocateSwiftObject_spec c on :
  let '(c1, o, created) := createOrLocateSwiftObject c on in
  is_Some (locateSwiftObject c1 on) /\
  (forall x, x <> on -> locateSwiftObject c1 x = locateSwiftObject c x) /\
  (if created then o = newSwiftObject on /\ locateSwiftObject c on = None
   else locateSwiftObject c on = Some o /\ c1 = c).
Proof.
  unfold createOrLocateSwiftObject, locateSwiftObject.
  destruct (LLRB.GetByKey (swiftObjectTree c) on) as [o|] eqn:Ho; cbn.
  - split_and!; [by eexists|done|done|done].
  - split_and!; [eexists; by apply LLRBFacts.GetByKey_Put_eq| |done|done].
    intros x Hx. by apply LLRBFacts.GetByKey_Put_ne.
Qed.

(** ** The invariant, read at one entry *)

Lemma wf_account g an a :
  Wf.globals_wf g -> locateSwiftAccount g an = Some a -> Wf.account_wf an a.
Proof. intros [Hm _] Ha. by apply Hm in Ha. Qed.

Lemma wf_container g an a cn c :
  Wf.globals_wf g -> locateSwiftAccount g an = Some a -> locateSwiftContainer a cn = Some c ->
  Wf.container_wf cn c.
Proof.
  intros Hg Ha Hc. destruct (wf_account g an a Hg Ha) as (_ & _ & _ & Hall).
  by apply (LLRBFacts.Forall_GetByKey Wf.container_wf _ _ _ Hall).
Qed.

Lemma wf_object g an a cn c on o :
  Wf.globals_wf g -> locateSwiftAccount g an = Some a -> locateSwiftContainer a cn = Some c ->
  locateSwiftObject c on = Some o -> Wf.object_wf on o.
Proof.
  intros Hg Ha Hc Ho. destruct (wf_container g an a cn c Hg Ha Hc) as (_ & _ & _ & Hall).
  by apply (LLRBFacts.Forall_GetByKey Wf.object_wf _ _ _ Hall).
Qed.

Lemma lookup_container_Some g an cn c :
  lookup_container g an cn = Some c ->
  exists a, locateSwiftAccount g an = Some a /\ locateSwiftContainer a cn = Some c.
Proof.
  unfold lookup_container. destruct (locateSwiftAccount g an) as [a|]; [|done]. simpl. eauto.
Qed.

(** ** [doPUT] of an object *)

Lemma doPUT_object_eq g req an cn on a c :
  parsePath (Path req) = (false, an, cn, on) -> an <> EmptyString -> cn <> EmptyString ->
  on <> EmptyString -> locateSwiftAccount g an = Some a -> locateSwiftContainer a cn = Some c ->
  doPUT g req =
  let '(c1, o, created) := createOrLocateSwiftObject c on in
  (store_account g an (store_container a cn (store_object c1 on
     (mkObject (obj_name o) (apply_request_headers (Header req) (if created then ∅ else obj_headers o))
        (Body req)))),
   status StatusCreated).
Proof.
  intros Hp Ha Hc Ho Hla Hlc. unfold doPUT. rewrite Hp, !eqb_nonempty by done. cbn [orb].
  rewrite Hla, Hlc. by destruct (createOrLocateSwiftObject c on) as [[c1 o] []].
Qed.

(** A PUT of an object into an existing container stores the body and
    the request's headers over the old object's headers, and touches no
    other object. *)
Lemma doPUT_object_lookup g req an cn on c :
  Wf.globals_wf g -> parsePath (Path req) = (false, an, cn, on) -> an <> EmptyString ->
  cn <> EmptyString -> on <> EmptyString -> lookup_container g an cn = Some c ->
  (doPUT g req).2 = status StatusCreated /\
  forall an' cn' on', lookup_object (doPUT g req).1 an' cn' on' =
    if decide ((an', cn', on') = (an, cn, on))
    then Some (mkObject on
           (apply_request_headers (Header req)
              (match lookup_object g an cn on with Some o => obj_headers o | None => ∅ end))
           (Body req))
    else lookup_object g an' cn' on'.
Proof.
  intros Hg Hp Ha Hc Ho Hlc. destruct (lookup_container_Some _ _ _ _ Hlc) as (a & Hla & Hlc').
  rewrite (doPUT_object_eq g req an cn on a c) by done.
  pose proof (createOrLocateSwiftObject_spec c on) as Hspec.
  destruct (createOrLocateSwiftObject c on) as [[c1 o] created]. destruct Hspec as (Hin & Hfr & Hcr).
  cbn [fst snd]. split; [done|]. intros an' cn' on'.
  set (o' := mkObject (obj_name o) (apply_request_headers (Header req) (if created then ∅ else obj_headers o))
                (Body req)).
  rewrite (lookup_object_update g an cn on a c _ (Some o')); [|done|done| |].
  2: { rewrite locate_store_object by done. by rewrite decide_True. }
  2: { intros x Hx. rewrite locate_store_object by done. rewrite decide_False by done. by apply Hfr. }
  unfold lookup_object. rewrite Hlc. simpl. case_decide; [|done]. f_equal. unfold o'.
  destruct created; destruct Hcr as [Hl Hl'].
  - rewrite Hl'. by subst o.
  - rewrite Hl. by destruct (wf_object g an a cn c on o Hg Hla Hlc' Hl) as [-> _].
Qed.

(** An object GET without a [Range] header answers 200 with the stored
    headers, a [Content-Type] value appended, and the contents. *)
Lemma get_object_plain o req rnd :
  Wf.headers_wf (obj_headers o) -> header_get (Header req) "Range" = EmptyString ->
  get_object o req rnd =
  Served StatusOK
    (<["Content-Type" := default [] (obj_headers o !! "Content-Type") ++ ["application/octet-stream"]]>
       (obj_headers o))
    (contents o).
Proof.
  intros Hwf Hr. unfold get_object. rewrite Hr. cbn [parseRangeHeader String.eqb].
  destruct (copy_headers_fresh _ Hwf) as (Hs & Hb & Hh).
  unfold served, Write, WriteHeader, HeaderAdd. cbn. by rewrite Hs, Hb, Hh.
Qed.

(** ** [doDELETE] *)

Lemma doDELETE_object_eq g req an cn on a c :
  parsePath (Path req) = (false, an, cn, on) -> an <> EmptyString -> cn <> EmptyString ->
  on <> EmptyString -> locateSwiftAccount g an = Some a -> locateSwiftContainer a cn = Some c ->
  doDELETE g req =
  let '(c', e) := deleteSwiftObject c on in
  (store_account g an (store_container a cn c'),
   match e with NoErr => status StatusNoContent | ENOENT => status StatusNotFound | _ => Panicked end).
Proof.
  intros Hp Ha Hc Ho Hla Hlc. unfold doDELETE. rewrite Hp, !eqb_nonempty by done. cbn [orb].
  by rewrite Hla, Hlc.
Qed.

(** A DELETE of an object in an existing container removes exactly that
    object: 204 if it was there, 404 otherwise. *)
Lemma doDELETE_object_lookup g req an cn on c :
  Wf.globals_wf g -> parsePath (Path req) = (false, an, cn, on) -> an <> EmptyString ->
  cn <> EmptyString -> on <> EmptyString -> lookup_container g an cn = Some c ->
  (doDELETE g req).2 =
    status (if lookup_object g an cn on is Some _ then StatusNoContent else StatusNotFound) /\
  forall an' cn' on', lookup_object (doDELETE g req).1 an' cn' on' =
    if decide ((an', cn', on') = (an, cn, on)) then None else lookup_object g an' cn' on'.
Proof.
  intros Hg Hp Ha Hc Ho Hlc. destruct (lookup_container_Some _ _ _ _ Hlc) as (a & Hla & Hlc').
  destruct (wf_container g an a cn c Hg Hla Hlc') as (_ & _ & [Hsorted _]).
  rewrite (doDELETE_object_eq g req an cn on a c) by done.
  assert (Hlo : lookup_object g an cn on = locateSwiftObject c on) by (unfold lookup_object; by rewrite Hlc).
  rewrite Hlo. unfold deleteSwiftObject. unfold locateSwiftObject at 1.
  destruct (LLRB.GetByKey (swiftObjectTree c) on) eqn:Hget; cbn [fst snd];
    (split; [done|]); intros an' cn' on';
    (erewrite (lookup_object_update g an cn on a c); [|done|done|reflexivity|]).
  - cbn. rewrite LLRBFacts.GetByKey_DeleteByKey_eq by done. done.
  - intros x Hx. cbn. by apply LLRBFacts.GetByKey_DeleteByKey_ne.
  - unfold locateSwiftObject. by rewrite Hget.
  - done.
Qed.

(** ** [ServeHTTP] *)

Lemma HasPrefix_v1 x : HasPrefix ("/v1/" +:+ x) "/v1/" = true.
Proof. destruct x; reflexivity. Qed.

(** A request with the current token on a [/v1/] path reaches the
    handler of its method. *)
Lemma ServeHTTP_dispatch g req rnd :
  header_get (Header req) "X-Auth-Token" = getCurrentAuthToken g -> HasPrefix (Path req) "/v1/" = true ->
  ServeHTTP g req rnd =
  if String.eqb (Method req) "DELETE" then doDELETE g req
  else if String.eqb (Method req) "GET" then (g, doGET g req rnd)
  else if String.eqb (Method req) "HEAD" then (g, doHEAD g req)
  else if String.eqb (Method req) "POST" then doPOST g req
  else if String.eqb (Method req) "PUT" then doPUT g req
  else (g, status StatusMethodNotAllowed).
Proof.
  intros Htok Hpre. unfold ServeHTTP.
  destruct (String.eqb_spec (Path req) "/info") as [Hi|_]; [by rewrite Hi in Hpre|].
  destruct (String.eqb_spec (Path req) "/auth/v1.0") as [Hi|_]; [by rewrite Hi in Hpre|].
  rewrite !andb_false_r, Htok, String.eqb_refl, Hpre. done.
Qed.

(** ** Listings *)

Lemma write_all_spec l w :
  rw_header (write_all l w) = rw_header w /\ rw_body (write_all l w) = rw_body w ++ listing_body l /\
  default 200 (rw_status (write_all l w)) = default 200 (rw_status w).
Proof.
  unfold write_all, listing_body. revert w.
  induction l as [|name l IH]; intros w; cbn [foldl foldr]; [by rewrite app_nil_r|].
  destruct (IH (Write [x0a] (Write (bytes name) w))) as (-> & -> & ->). cbn.
  rewrite <- !app_assoc. by destruct (rw_status w).
Qed.

Lemma take_min_length {A} (l : list A) n :
  take (Nat.min n (length l)) l = take n l.
Proof.
  destruct (Nat.le_ge_cases n (length l)) as [H|H];
    [by rewrite Nat.min_l|rewrite Nat.min_r by done; rewrite !take_ge by lia; done].
Qed.

(** A listing answers 204 when no name follows the marker, and otherwise
    the first [limit] names after the marker, one per line. *)
Lemma listing_spec {V} (t : LLRB.tree V) limit req w :
  LLRB.sorted t -> limit < 2 ^ 63 ->
  listing t limit req w =
  match names_after t (marker_of req) with
  | [] => served (WriteHeader StatusNoContent w)
  | names => served (write_all (take (N.to_nat limit) names) w)
  end.
Proof.
  intros Hs Hlim. unfold listing, names_after, LLRB.Len.
  pose proof (LLRBFacts.BisectRight_drop t (marker_of req) Hs) as Hdrop.
  destruct (LLRB.BisectRight t (marker_of req)) as [i f].
  set (idx := if f then S i else i) in *. rewrite <- Hdrop, fmap_drop.
  destruct (Nat.eqb_spec (length t) 0) as [Hn|Hn].
  { apply nil_length_inv in Hn. subst t. by destruct idx. }
  destruct (Nat.ltb_spec idx (length t)) as [Hi|Hi].
  - assert (Hint : int_of_u64 limit = Z.of_N limit)
      by (unfold int_of_u64; destruct (N.ltb_spec limit (2 ^ 63)); [done|lia]).
    rewrite Hint. rewrite LLRBFacts.write_names_spec.
    2: { case_match; bool_facts; lia. }
    destruct (drop idx (fst <$> t)) as [|x l] eqn:Hd.
    { apply (f_equal length) in Hd. rewrite length_drop, length_fmap in Hd. cbn in Hd. lia. }
    f_equal. f_equal. rewrite <- (take_min_length (x :: l) (N.to_nat limit)).
    f_equal. apply (f_equal length) in Hd. rewrite length_drop, length_fmap in Hd.
    case_match; bool_facts; lia.
  - by rewrite drop_ge by (rewrite length_fmap; lia).
Qed.

Lemma doGET_container g req rnd an cn c :
  parsePath (Path req) = (false, an, cn, EmptyString) -> an <> EmptyString -> cn <> EmptyString ->
  lookup_container g an cn = Some c ->
  doGET g req rnd =
  listing (swiftObjectTree c) (ContainerListingLimit (config g)) req (copy_headers (cont_headers c) rw0).
Proof.
  intros Hp Ha Hc Hl. unfold doGET. rewrite Hp, !eqb_nonempty by done.
  destruct (lookup_container_Some _ _ _ _ Hl) as (a & -> & ->). done.
Qed.

Lemma store_account_same g an a : locateSwiftAccount g an = Some a -> store_account g an a = g.
Proof.
  unfold store_account, set_accounts, locateSwiftAccount. intros H.
  rewrite insert_id by done. by destruct g.
Qed.

Lemma GetByKey_nonempty {V} (t : LLRB.tree V) k v : LLRB.GetByKey t k = Some v -> t <> [].
Proof. by intros H ->. Qed.

End HandlerFacts.

(** ** Lemmas: every handler keeps the store invariant *)
Module WfFacts.
Import GoStr Store Handlers Wf HeaderFacts HandlerFacts.

Create HintDb swift_wf.

Section Entries.
Context {V : Type} (P : string -> V -> Prop).

Lemma entries_wf_update t k v : entries_wf P t -> P k v -> entries_wf P (LLRB.update_at t k v).
Proof.
  intros [Hs Hall] Hkv. split; [by apply LLRBFacts.sorted_update_at|by apply LLRBFacts.Forall_update_at].
Qed.

Lemma entries_wf_put t k v : entries_wf P t -> P k v -> entries_wf P (LLRB.Put t k v).
Proof. intros [Hs Hall] Hkv. split; [by apply LLRBFacts.sorted_Put|by apply LLRBFacts.Forall_Put]. Qed.

Lemma entries_wf_delete t k : entries_wf P t -> entries_wf P (LLRB.DeleteByKey t k).
Proof.
  intros [Hs Hall]. split; [by apply LLRBFacts.sorted_DeleteByKey|by apply LLRBFacts.Forall_DeleteByKey].
Qed.

Lemma entries_wf_get t k v : entries_wf P t -> LLRB.GetByKey t k = Some v -> P k v.
Proof. intros [_ Hall]. by apply LLRBFacts.Forall_GetByKey. Qed.

End Entries.

Lemma headers_wf_empty : headers_wf ∅.
Proof. apply map_Forall_empty. Qed.

Lemma account_wf_set an a h t :
  acct_name a = an -> headers_wf h -> entries_wf container_wf t -> account_wf an (mkAccount (acct_name a) h t).
Proof. by intros. Qed.

Lemma container_wf_set cn c h t :
  cont_name c = cn -> headers_wf h -> entries_wf object_wf t -> container_wf cn (mkContainer (cont_name c) h t).
Proof. by intros. Qed.

Lemma object_wf_set on o h l : obj_name o = on -> headers_wf h -> object_wf on (mkObject (obj_name o) h l).
Proof. by intros. Qed.

Lemma globals_wf_store g an a : globals_wf g -> account_wf an a -> globals_wf (store_account g an a).
Proof. intros [Hm Ht] Ha. split; [by apply map_Forall_insert_2|done]. Qed.

Lemma globals_wf_delete g an : globals_wf g -> globals_wf (set_accounts g (delete an (swiftAccountMap g))).
Proof. intros [Hm Ht]. split; [by apply map_Forall_delete|done]. Qed.

#[export] Hint Resolve entries_wf_update entries_wf_put entries_wf_delete headers_wf_empty
  account_wf_set container_wf_set object_wf_set globals_wf_store globals_wf_delete
  apply_request_headers_wf : swift_wf.

Lemma store_container_wf an a cn c :
  account_wf an a -> container_wf cn c -> account_wf an (store_container a cn c).
Proof. intros (Hn & Hh & He) Hc. apply account_wf_set; auto with swift_wf. Qed.

Lemma store_object_wf cn c on o :
  container_wf cn c -> object_wf on o -> container_wf cn (store_object c on o).
Proof. intros (Hn & Hh & He) Ho. apply container_wf_set; auto with swift_wf. Qed.

Lemma located_container_wf an a cn c :
  account_wf an a -> locateSwiftContainer a cn = Some c -> container_wf cn c.
Proof. intros (_ & _ & He). by apply entries_wf_get. Qed.

Lemma located_object_wf cn c on o :
  container_wf cn c -> locateSwiftObject c on = Some o -> object_wf on o.
Proof. intros (_ & _ & He). by apply entries_wf_get. Qed.

Lemma deleteSwiftAccount_wf g an force : globals_wf g -> globals_wf (deleteSwiftAccount g an force).1.
Proof. intros Hg. unfold deleteSwiftAccount. repeat case_match; simpl; auto with swift_wf. Qed.

Lemma deleteSwiftContainer_wf an a cn :
  account_wf an a -> account_wf an (deleteSwiftContainer a cn).1.
Proof.
  intros Ha. unfold deleteSwiftContainer. destruct Ha as (Hn & Hh & He).
  repeat case_match; simpl; try done; apply account_wf_set; auto with swift_wf.
Qed.

Lemma deleteSwiftObject_wf cn c on : container_wf cn c -> container_wf cn (deleteSwiftObject c on).1.
Proof.
  intros Hc. unfold deleteSwiftObject. destruct Hc as (Hn & Hh & He).
  repeat case_match; simpl; try done; apply container_wf_set; auto with swift_wf.
Qed.

Lemma createOrLocateSwiftAccount_wf g an :
  globals_wf g ->
  globals_wf (createOrLocateSwiftAccount g an).1.1 /\ account_wf an (createOrLocateSwiftAccount g an).1.2.
Proof.
  intros Hg. unfold createOrLocateSwiftAccount. destruct (swiftAccountMap g !! an) eqn:Ha; simpl.
  - split; [done|]. by apply (proj1 Hg) in Ha.
  - assert (account_wf an (newSwiftAccount an)).
    { split_and!; [done|apply headers_wf_empty|split; [constructor|constructor]]. }
    split; [|done]. by apply (globals_wf_store g an).
Qed.

Lemma createOrLocateSwiftContainer_wf an a cn :
  account_wf an a ->
  account_wf an (createOrLocateSwiftContainer a cn).1.1 /\
  container_wf cn (createOrLocateSwiftContainer a cn).1.2.
Proof.
  intros Ha. unfold createOrLocateSwiftContainer. destruct (LLRB.GetByKey _ cn) eqn:Hc; simpl.
  - split; [done|]. by apply (located_container_wf an a).
  - assert (container_wf cn (newSwiftContainer cn)).
    { split_and!; [done|apply headers_wf_empty|split; [constructor|constructor]]. }
    destruct Ha as (Hn & Hh & He). split; [|done]. apply account_wf_set; auto with swift_wf.
Qed.

Lemma createOrLocateSwiftObject_wf cn c on :
  container_wf cn c ->
  container_wf cn (createOrLocateSwiftObject c on).1.1 /\ object_wf on (createOrLocateSwiftObject c on).1.2.
Proof.
  intros Hc. unfold createOrLocateSwiftObject. destruct (LLRB.GetByKey _ on) eqn:Ho; simpl.
  - split; [done|]. by apply (located_object_wf cn c).
  - assert (object_wf on (newSwiftObject on)) by (split; [done|apply headers_wf_empty]).
    destruct Hc as (Hn & Hh & He). split; [|done]. apply container_wf_set; auto with swift_wf.
Qed.

Lemma headers_wf_of_account an a : account_wf an a -> headers_wf (acct_headers a).
Proof. by intros (_ & ? & _). Qed.
Lemma headers_wf_of_container cn c : container_wf cn c -> headers_wf (cont_headers c).
Proof. by intros (_ & ? & _). Qed.
Lemma headers_wf_of_object on o : object_wf on o -> headers_wf (obj_headers o).
Proof. by intros (_ & ?). Qed.

#[export] Hint Resolve store_container_wf store_object_wf headers_wf_of_account
  headers_wf_of_container headers_wf_of_object : swift_wf.

Lemma doDELETE_wf g req : globals_wf g -> globals_wf (doDELETE g req).1.
Proof.
  intros Hg. unfold doDELETE. destruct (parsePath (Path req)) as [[[info an] cn] on].
  destruct (info || _); [done|]. destruct (String.eqb cn EmptyString).
  { pose proof (deleteSwiftAccount_wf g an false Hg) as H.
    destruct (deleteSwiftAccount g an false). by simpl in *. }
  destruct (locateSwiftAccount g an) as [a|] eqn:Ha; [|done].
  pose proof (wf_account g an a Hg Ha) as Hwa. destruct (String.eqb on EmptyString).
  - pose proof (deleteSwiftContainer_wf an a cn Hwa) as H.
    destruct (deleteSwiftContainer a cn). simpl in *. auto with swift_wf.
  - destruct (locateSwiftContainer a cn) as [c|] eqn:Hc; [|done].
    pose proof (deleteSwiftObject_wf cn c on (located_container_wf an a cn c Hwa Hc)) as H.
    destruct (deleteSwiftObject c on). simpl in *. auto with swift_wf.
Qed.

Lemma doPOST_wf g req : globals_wf g -> globals_wf (doPOST g req).1.
Proof.
  intros Hg. unfold doPOST. destruct (parsePath (Path req)) as [[[info an] cn] on].
  destruct (info || _); [done|].
  destruct (locateSwiftAccount g an) as [a|] eqn:Ha; [|done].
  pose proof (wf_account g an a Hg Ha) as Hwa. pose proof Hwa as (Hn & Hh & He).
  destruct (String.eqb cn EmptyString); [simpl; auto with swift_wf|].
  destruct (locateSwiftContainer a cn) as [c|] eqn:Hc; [|done].
  pose proof (located_container_wf an a cn c Hwa Hc) as Hwc. pose proof Hwc as (Hn' & Hh' & He').
  destruct (String.eqb on EmptyString); [simpl; auto with swift_wf|].
  destruct (locateSwiftObject c on) as [o|] eqn:Ho; [|done].
  pose proof (located_object_wf cn c on o Hwc Ho) as (Hn'' & Hh'').
  simpl. auto 7 with swift_wf.
Qed.

Lemma doPUT_wf g req : globals_wf g -> globals_wf (doPUT g req).1.
Proof.
  intros Hg. unfold doPUT. destruct (parsePath (Path req)) as [[[info an] cn] on].
  destruct (info || _); [done|]. destruct (String.eqb cn EmptyString).
  { pose proof (createOrLocateSwiftAccount_wf g an Hg) as [H1 (Hn & Hh & He)].
    destruct (createOrLocateSwiftAccount g an) as [[g1 a] []]; simpl in *; auto with swift_wf. }
  destruct (locateSwiftAccount g an) as [a|] eqn:Ha; [|done].
  pose proof (wf_account g an a Hg Ha) as Hwa. destruct (String.eqb on EmptyString).
  { pose proof (createOrLocateSwiftContainer_wf an a cn Hwa) as [H1 (Hn & Hh & He)].
    destruct (createOrLocateSwiftContainer a cn) as [[a1 c] []]; simpl in *; auto 6 with swift_wf. }
  destruct (locateSwiftContainer a cn) as [c|] eqn:Hc; [|done].
  pose proof (createOrLocateSwiftObject_wf cn c on (located_container_wf an a cn c Hwa Hc))
    as [H1 (Hn & Hh)].
  destruct (createOrLocateSwiftObject c on) as [[c1 o] []]; simpl in *; auto 7 with swift_wf.
Qed.

Lemma ServeHTTP_wf g req rnd : globals_wf g -> globals_wf (ServeHTTP g req rnd).1.
Proof.
  intros Hg. unfold ServeHTTP.
  repeat case_match; simpl; auto using doDELETE_wf, doPOST_wf, doPUT_wf.
Qed.

Lemma forceReAuth_wf g : globals_wf g -> globals_wf (forceReAuth g).
Proof. intros [Hm _]. by split. Qed.

Lemma initializeGlobals_wf cfg : globals_wf (initializeGlobals cfg).
Proof. split; [apply map_Forall_empty|done]. Qed.

Lemma run_requests_reachable g rs : rtc Spec.emu_step g (Demo.run_requests g rs).
Proof.
  revert g. induction rs as [|r rs IH]; intros g; [constructor|].
  eapply rtc_l; [apply Spec.StepServe|apply IH].
Qed.

End WfFacts.

(** ** The properties of the emulator *)
Module Properties.
Import GoStr Store Handlers Spec Wf StrFacts ParseFacts HeaderFacts HandlerFacts Demo.

(** C29: a GET of an object with the range [bytes=a-b], [a <= b], where [a]
    is inside the object, answers 206 with the bytes from [a] to
    [min(b, len-1)]. *)
Theorem doGET_range_served g req rnd an cn on o a b :
  segment an -> segment cn -> on <> EmptyString ->
  lookup_object g an cn on = Some o -> Path req = object_path an cn on ->
  header_get (Header req) "Range" = "bytes=" +:+ pretty a +:+ "-" +:+ pretty b ->
  a <= b -> (Z.of_N b <= int64_max)%Z -> a < N.of_nat (length (contents o)) ->
  exists hdrs, doGET g req rnd =
    Served StatusPartialContent hdrs
      (byte_range (contents o) a (N.min b (N.of_nat (length (contents o)) - 1))).
Proof.
  intros [Ha Ha'] [Hc Hc'] Ho Hl Hp Hr Hab Hb Hlt.
  rewrite (doGET_object g req rnd an cn on o) by (rewrite ?Hp; auto using parsePath_object).
  destruct (get_object_closed o req rnd a b Hr Hab Hb) as [Hok _]. apply Hok.
  match goal with |- go_slice _ _ ?hi = _ =>
    replace hi with (N.min b (N.of_nat (length (contents o)) - 1) + 1)
      by (case_match; bool_facts; lia) end.
  apply go_slice_range; lia.
Qed.

(** C27: a GET of an object with the range [bytes=a-b], [a <= b], where [a]
    is past the end of the object, panics: [parseRangeHeader] clamps the
    stop but never checks the start, and the slice [contents[a:len]]
    has [a > len]. *)
Theorem doGET_range_past_end_panics g req rnd an cn on o a b :
  segment an -> segment cn -> on <> EmptyString ->
  lookup_object g an cn on = Some o -> Path req = object_path an cn on ->
  header_get (Header req) "Range" = "bytes=" +:+ pretty a +:+ "-" +:+ pretty b ->
  a <= b -> (Z.of_N b <= int64_max)%Z -> N.of_nat (length (contents o)) < a ->
  doGET g req rnd = Panicked.
Proof.
  intros [Ha Ha'] [Hc Hc'] Ho Hl Hp Hr Hab Hb Hlt.
  rewrite (doGET_object g req rnd an cn on o) by (rewrite ?Hp; auto using parsePath_object).
  apply (get_object_closed o req rnd a b Hr Hab Hb). apply go_slice_past; [lia|].
  case_match; bool_facts; lia.
Qed.

(** C28: a [Range] header that ends with ["-"], such as the open-ended
    [bytes=N-], is always rejected: the check [startOffset > stopOffset]
    runs before the branch written for an empty stop, with the empty stop
    read as [-1]. *)
Theorem parseRangeHeader_open_ended_rejected s len :
  parseRangeHeader ("bytes=" +:+ s +:+ "-") len = None.
Proof.
  rewrite parseRangeHeader_bytes. apply mapM_SplitN_dash; [apply parse_one_range_dash| |lia].
  by exists s.
Qed.

(** C32: for an object of length [len] (an [int], below [2^63]), every
    range [parseRangeHeader] accepts has [stopOffset + 1], computed in
    [uint64], at most [len]: the upper bound of the slice [doGET] takes
    never exceeds the contents, so only the start can be out of range. *)
Theorem parseRangeHeader_stop_within v len rs r :
  (0 <= len < 2 ^ 63)%Z -> parseRangeHeader v len = Some rs -> r ∈ rs ->
  u64_succ (stopOffset r) <= Z.to_N len.
Proof.
  intros Hlen Hp Hr. unfold parseRangeHeader in Hp.
  destruct (String.eqb v EmptyString); [injection Hp as <-; set_solver|].
  destruct (negb _); [done|]. apply mapM_Some_1 in Hp.
  apply list_elem_of_lookup in Hr as [i Hi].
  destruct (Forall2_lookup_r _ _ _ _ _ Hp Hi) as (x & _ & Hx).
  destruct (parse_one_range_spec _ _ _ Hx) as (st & sp & _ & -> & Hst & Hsp).
  rewrite u64_succ_of_int by lia. lia.
Qed.

(** [parsePath] reads back the account, container and object of the
    paths [/v1/A], [/v1/A/C] and [/v1/A/C/O] when [A] and [C] are
    non-empty names without ["/"]; the object name may contain ["/"]. *)
Theorem parsePath_roundtrip an cn on :
  segment an -> segment cn ->
  parsePath (account_path an) = (false, an, EmptyString, EmptyString) /\
  parsePath (container_path an cn) = (false, an, cn, EmptyString) /\
  parsePath (object_path an cn on) = (false, an, cn, on).
Proof.
  intros [_ Ha] [_ Hc].
  split_and!; auto using parsePath_account, parsePath_container, parsePath_object.
Qed.

(** C31: the header loop of [doPOST] and [doPUT] ranges over the request's
    header map in Go's unspecified order; every order gives the same
    headers, those of [apply_request_headers], and for each name they
    are: unchanged if the name is [Accept], [Accept-Encoding],
    [User-Agent] or [Content-Length] or if the request does not carry it
    with at least one value; otherwise the request's non-empty values,
    and no entry at all when every value is empty. *)
Theorem header_loop_order_independent reqh h l :
  l ≡ₚ map_to_list reqh ->
  foldl (fun acc e => update_header e.1 e.2 acc) h l = apply_request_headers reqh h /\
  forall k, foldl (fun acc e => update_header e.1 e.2 acc) h l !! k =
    match reqh !! k with
    | Some (v :: vs) =>
        if decide (k ∈ ["Accept"; "Accept-Encoding"; "User-Agent"; "Content-Length"]) then h !! k
        else match filter (fun x => x <> EmptyString) (v :: vs) with
             | [] => None
             | vs' => Some vs'
             end
    | _ => h !! k
    end.
Proof.
  intros Hl. assert (Hnd : NoDup l.*1) by (rewrite Hl; apply NoDup_fst_map_to_list).
  assert (Hk : forall k, foldl (fun acc e => update_header e.1 e.2 acc) h l !! k =
                         updated_header k (reqh !! k) (h !! k)).
  { intros k. rewrite foldl_update_header_lookup by done.
    by rewrite (list_to_map_proper l (map_to_list reqh)), list_to_map_to_list by done. }
  split.
  - apply map_eq. intros k. by rewrite Hk, apply_request_headers_lookup.
  - intros k. rewrite Hk. by destruct (reqh !! k) as [[|v vs]|].
Qed.

(** C25: PUT then GET of an object: the PUT into an existing container
    answers 201 whether or not the object existed, and a later GET
    without a range answers 200 with the PUT's body and with the old
    object's headers updated by the PUT's headers (all of them but
    [Accept], [Accept-Encoding], [User-Agent] and [Content-Length], so
    the [X-Auth-Token] too), plus [Content-Type]. *)
Theorem doPUT_doGET_roundtrip g req req2 rnd an cn on c :
  globals_wf g -> segment an -> segment cn -> on <> EmptyString ->
  Path req = object_path an cn on -> lookup_container g an cn = Some c ->
  Path req2 = object_path an cn on -> header_get (Header req2) "Range" = EmptyString ->
  let hs := apply_request_headers (Header req)
              (match lookup_object g an cn on with Some o => obj_headers o | None => ∅ end) in
  (doPUT g req).2 = status StatusCreated /\
  doGET (doPUT g req).1 req2 rnd =
    Served StatusOK
      (<["Content-Type" := default [] (hs !! "Content-Type") ++ ["application/octet-stream"]]> hs)
      (Body req).
Proof.
  intros Hg [Ha Ha'] [Hc Hc'] Ho Hp Hlc Hp2 Hr hs.
  assert (Hpp : parsePath (Path req) = (false, an, cn, on)) by (rewrite Hp; by apply parsePath_object).
  destruct (doPUT_object_lookup g req an cn on c Hg Hpp Ha Hc Ho Hlc) as [Hst Hl].
  split; [done|].
  rewrite (doGET_object _ req2 rnd an cn on (mkObject on hs (Body req)));
    [|rewrite Hp2; by apply parsePath_object|done..|by rewrite Hl, decide_True].
  apply get_object_plain; [|done]. apply apply_request_headers_wf.
  destruct (lookup_container_Some _ _ _ _ Hlc) as (a & Hla & Hlc').
  unfold lookup_object. rewrite Hlc. simpl.
  destruct (locateSwiftObject c on) as [o|] eqn:Hlo; [|done].
  by destruct (wf_object g an a cn c on o Hg Hla Hlc' Hlo).
Qed.

(** C23: [ServeHTTP] refines a map from (account, container, object) to
    objects: an authorized PUT of an object into an existing container
    answers 201 and maps that name, and only that name, to the body with
    the updated headers. *)
Theorem ServeHTTP_put_object_refines g req rnd an cn on c :
  globals_wf g -> Method req = "PUT" -> Path req = object_path an cn on ->
  header_get (Header req) "X-Auth-Token" = currentAuthToken g ->
  segment an -> segment cn -> on <> EmptyString -> lookup_container g an cn = Some c ->
  (ServeHTTP g req rnd).2 = status StatusCreated /\
  forall an' cn' on', lookup_object (ServeHTTP g req rnd).1 an' cn' on' =
    if decide ((an', cn', on') = (an, cn, on))
    then Some (mkObject on
           (apply_request_headers (Header req)
              (match lookup_object g an cn on with Some o => obj_headers o | None => ∅ end))
           (Body req))
    else lookup_object g an' cn' on'.
Proof.
  intros Hg Hm Hp Htok [Ha Ha'] [Hc Hc'] Ho Hlc.
  rewrite ServeHTTP_dispatch; [|exact Htok|rewrite Hp; apply HasPrefix_v1]. rewrite Hm. cbn -[doPUT].
  apply (doPUT_object_lookup g req an cn on c); [done|rewrite Hp; by apply parsePath_object|done..].
Qed.

(** C24: an authorized DELETE of an object of an existing container
    answers 204 if the object was there and 404 otherwise, and afterwards
    that name, and only that name, maps to nothing. *)
Theorem ServeHTTP_delete_object_refines g req rnd an cn on c :
  globals_wf g -> Method req = "DELETE" -> Path req = object_path an cn on ->
  header_get (Header req) "X-Auth-Token" = currentAuthToken g ->
  segment an -> segment cn -> on <> EmptyString -> lookup_container g an cn = Some c ->
  (ServeHTTP g req rnd).2 =
    status (if lookup_object g an cn on is Some _ then StatusNoContent else StatusNotFound) /\
  forall an' cn' on', lookup_object (ServeHTTP g req rnd).1 an' cn' on' =
    if decide ((an', cn', on') = (an, cn, on)) then None else lookup_object g an' cn' on'.
Proof.
  intros Hg Hm Hp Htok [Ha Ha'] [Hc Hc'] Ho Hlc.
  rewrite ServeHTTP_dispatch; [|exact Htok|rewrite Hp; apply HasPrefix_v1]. rewrite Hm. cbn -[doDELETE].
  apply (doDELETE_object_lookup g req an cn on c); [done|rewrite Hp; by apply parsePath_object|done..].
Qed.

(** C26: apart from [GET /info] and [GET /auth/v1.0], a request whose
    [X-Auth-Token] is not the current token is answered 401 and changes
    nothing. *)
Theorem ServeHTTP_rejects_bad_token g req rnd :
  ~ (Method req = "GET" /\ (Path req = "/info" \/ Path req = "/auth/v1.0")) ->
  header_get (Header req) "X-Auth-Token" <> currentAuthToken g ->
  ServeHTTP g req rnd = (g, status StatusUnauthorized).
Proof.
  intros Hpub Htok. unfold ServeHTTP, getCurrentAuthToken.
  assert (Hi : (String.eqb (Method req) "GET" && String.eqb (Path req) "/info") = false).
  { destruct (String.eqb_spec (Method req) "GET"), (String.eqb_spec (Path req) "/info");
      cbn; try done; tauto. }
  assert (Ha : (String.eqb (Method req) "GET" && String.eqb (Path req) "/auth/v1.0") = false).
  { destruct (String.eqb_spec (Method req) "GET"), (String.eqb_spec (Path req) "/auth/v1.0");
      cbn; try done; tauto. }
  rewrite Hi, Ha.
  by destruct (String.eqb_spec (currentAuthToken g) (header_get (Header req) "X-Auth-Token")).
Qed.

(** a DELETE of a non-empty account, or of a non-empty container,
    answers 409 and leaves the store unchanged. *)
Theorem doDELETE_nonempty_conflict g req an cn a c :
  segment an -> segment cn -> locateSwiftAccount g an = Some a -> locateSwiftContainer a cn = Some c ->
  (Path req = account_path an -> doDELETE g req = (g, status StatusConflict)) /\
  (Path req = container_path an cn -> LLRB.Len (swiftObjectTree c) <> 0%nat ->
   doDELETE g req = (g, status StatusConflict)).
Proof.
  intros [Ha Ha'] [Hc Hc'] Hla Hlc. split.
  - intros Hp. unfold doDELETE. rewrite Hp, parsePath_account, eqb_nonempty by done. cbn.
    unfold deleteSwiftAccount. unfold locateSwiftAccount in Hla. rewrite Hla.
    destruct (Nat.eqb_spec (LLRB.Len (swiftContainerTree a)) 0) as [Hn|_]; [|done].
    apply nil_length_inv in Hn. by apply GetByKey_nonempty in Hlc.
  - intros Hp Hne. unfold doDELETE. rewrite Hp, parsePath_container, !eqb_nonempty by done. cbn.
    rewrite Hla. cbn. unfold deleteSwiftContainer. unfold locateSwiftContainer in Hlc. rewrite Hlc.
    destruct (Nat.eqb_spec (LLRB.Len (swiftObjectTree c)) 0) as [Hn|_]; [done|].
    cbn. by rewrite store_account_same.
Qed.

(** C30: a GET of a container lists the names of its objects that sort
    after the [marker] query parameter, at most [ContainerListingLimit]
    of them, one per line, with the container's headers; with no such
    name it answers 204. *)
Theorem doGET_container_listing g req rnd an cn c :
  globals_wf g -> segment an -> segment cn -> Path req = container_path an cn ->
  lookup_container g an cn = Some c -> ContainerListingLimit (config g) < 2 ^ 63 ->
  doGET g req rnd =
  match names_after (swiftObjectTree c) (marker_of req) with
  | [] => Served StatusNoContent (cont_headers c) []
  | names => Served StatusOK (cont_headers c)
               (listing_body (take (N.to_nat (ContainerListingLimit (config g))) names))
  end.
Proof.
  intros Hg [Ha Ha'] [Hc Hc'] Hp Hl Hlim.
  destruct (lookup_container_Some _ _ _ _ Hl) as (a & Hla & Hlc).
  destruct (wf_container g an a cn c Hg Hla Hlc) as (_ & Hh & [Hs _]).
  rewrite (doGET_container g req rnd an cn c) by (rewrite ?Hp; auto using parsePath_container).
  rewrite listing_spec by done. destruct (copy_headers_fresh _ Hh) as (Hst & Hb & Hhd).
  destruct (names_after _ _) as [|n ns].
  - unfold served, WriteHeader. by rewrite Hst, Hb, Hhd.
  - destruct (write_all_spec (take (N.to_nat (ContainerListingLimit (config g))) (n :: ns))
                (copy_headers (cont_headers c) rw0)) as (H1 & H2 & H3).
    unfold served. by rewrite H1, H2, H3, Hst, Hb, Hhd.
Qed.

(** C22: the store invariant (every tree sorted, every entry filed under
    its own name, every stored header with a value, the token formatted
    from the nonce) holds in every state reachable from
    [initializeGlobals] by requests and re-authentications. *)
Theorem reachable_globals_wf cfg g : emu_reachable cfg g -> globals_wf g.
Proof.
  unfold emu_reachable. intros H. generalize (WfFacts.initializeGlobals_wf cfg).
  induction H as [x|x y z Hxy _ IH]; intros Hx; [done|]. apply IH.
  destruct Hxy; auto using WfFacts.ServeHTTP_wf, WfFacts.forceReAuth_wf.
Qed.

(** [currentAuthNonce] is a [uint32] incremented with wrap-around
    (its overflow is ignored): after [k] re-authentications the token is
    the one of nonce [k mod 2^32], so after [2^32] of them the first
    token is accepted again. *)
Theorem forceReAuth_token_wraps cfg k :
  currentAuthToken (Nat.iter k forceReAuth (initializeGlobals cfg)) = auth_token (N.of_nat k mod 2 ^ 32).
Proof.
  assert (Hn : currentAuthNonce (Nat.iter k forceReAuth (initializeGlobals cfg)) = N.of_nat k mod 2 ^ 32).
  { induction k as [|k IH]; [done|]. rewrite Nat.iter_succ. unfold forceReAuth at 1.
    cbn [currentAuthNonce]. rewrite IH, N.Div0.add_mod_idemp_l. f_equal. lia. }
  destruct k as [|k]; [done|]. rewrite Nat.iter_succ in *. unfold forceReAuth at 1.
  cbn [currentAuthToken]. f_equal. unfold forceReAuth at 1 in Hn. by cbn [currentAuthNonce] in Hn.
Qed.

(** ** Witnesses *)

Lemma doGET_range_served_witness :
  exists hdrs, doGET demo_globals (demo_range_request "bytes=1-5") (0, 0) =
    Served StatusPartialContent hdrs
      (byte_range (contents demo_object) 1 (N.min 5 (N.of_nat (length (contents demo_object)) - 1))).
Proof.
  apply (doGET_range_served demo_globals (demo_range_request "bytes=1-5") (0, 0) "A" "c1" "o"
           demo_object 1 5); try decide_by_eval; vm_compute; reflexivity.
Defined.

Lemma doGET_range_past_end_panics_witness :
  doGET demo_globals (demo_range_request "bytes=5-6") (0, 0) = Panicked.
Proof.
  apply (doGET_range_past_end_panics demo_globals (demo_range_request "bytes=5-6") (0, 0) "A" "c1" "o"
           demo_object 5 6); try decide_by_eval; vm_compute; reflexivity.
Defined.

Lemma parsePath_roundtrip_witness :
  parsePath (object_path "A" "c1" "dir/o") = (false, "A", "c1", "dir/o").
Proof. apply (parsePath_roundtrip "A" "c1" "dir/o"); decide_by_eval. Defined.

Lemma parseRangeHeader_stop_within_witness :
  u64_succ (stopOffset (mkRange 0 u64_max)) <= Z.to_N 0.
Proof.
  apply (parseRangeHeader_stop_within "bytes=-0" 0 [mkRange 0 u64_max]); [lia|vm_compute; reflexivity|].
  decide_by_eval.
Defined.

(** Two orders of a request carrying an ignored name, a name whose only
    value is empty and a name with one non-empty value. *)
Lemma header_loop_order_independent_witness :
  foldl (fun acc e => update_header e.1 e.2 acc) (<["X-B" := ["old"]]> ∅)
    [("X-B", [EmptyString]); ("Accept", ["*"]); ("X-A", ["1"; EmptyString])] =
  apply_request_headers
    (<["X-A" := ["1"; EmptyString]]> (<["Accept" := ["*"]]> (<["X-B" := [EmptyString]]> ∅)))
    (<["X-B" := ["old"]]> ∅) /\
  foldl (fun acc e => update_header e.1 e.2 acc) (<["X-B" := ["old"]]> ∅)
    [("X-B", [EmptyString]); ("Accept", ["*"]); ("X-A", ["1"; EmptyString])] !! "X-A" = Some ["1"].
Proof.
  destruct (header_loop_order_independent
    (<["X-A" := ["1"; EmptyString]]> (<["Accept" := ["*"]]> (<["X-B" := [EmptyString]]> ∅)))
    (<["X-B" := ["old"]]> ∅)
    [("X-B", [EmptyString]); ("Accept", ["*"]); ("X-A", ["1"; EmptyString])]) as [Heq Hk];
    [decide_by_eval|].
  split; [exact Heq|]. rewrite Hk. reflexivity.
Defined.

Lemma doPUT_doGET_roundtrip_witness :
  (doPUT demo_globals (demo_request "PUT" (object_path "A" "c1" "o") ∅ [x44])).2 = status StatusCreated /\
  doGET (doPUT demo_globals (demo_request "PUT" (object_path "A" "c1" "o") ∅ [x44])).1
    (demo_request "GET" (object_path "A" "c1" "o") ∅ []) (0, 0) =
  Served StatusOK
    (<["Content-Type" := ["application/octet-stream"]]>
       (<["X-Auth-Token" := [demo_token]]> (<["X-Object-Meta-Color" := ["blue"]]> ∅)))
    [x44].
Proof.
  refine (doPUT_doGET_roundtrip demo_globals (demo_request "PUT" (object_path "A" "c1" "o") ∅ [x44])
            (demo_request "GET" (object_path "A" "c1" "o") ∅ []) (0, 0) "A" "c1" "o"
            (default (newSwiftContainer "c1") (lookup_container demo_globals "A" "c1")) _ _ _ _ _ _ _ _);
    try decide_by_eval; vm_compute; reflexivity.
Defined.

Lemma ServeHTTP_put_object_refines_witness :
  (ServeHTTP demo_globals (demo_request "PUT" (object_path "A" "c2" "q") ∅ [x44]) (0, 0)).2 =
    status StatusCreated /\
  lookup_object (ServeHTTP demo_globals (demo_request "PUT" (object_path "A" "c2" "q") ∅ [x44]) (0, 0)).1
    "A" "c1" "o" = lookup_object demo_globals "A" "c1" "o".
Proof.
  split.
  - refine (proj1 (ServeHTTP_put_object_refines demo_globals
                     (demo_request "PUT" (object_path "A" "c2" "q") ∅ [x44]) (0, 0) "A" "c2" "q"
                     (default (newSwiftContainer "c2") (lookup_container demo_globals "A" "c2"))
                     _ _ _ _ _ _ _ _)); [decide_by_eval..|vm_compute; reflexivity].
  - rewrite (proj2 (ServeHTTP_put_object_refines demo_globals
                      (demo_request "PUT" (object_path "A" "c2" "q") ∅ [x44]) (0, 0) "A" "c2" "q"
                      (default (newSwiftContainer "c2") (lookup_container demo_globals "A" "c2"))
                      ltac:(decide_by_eval) ltac:(decide_by_eval) ltac:(decide_by_eval) ltac:(decide_by_eval) ltac:(decide_by_eval) ltac:(decide_by_eval) ltac:(decide_by_eval) ltac:(vm_compute; reflexivity))).
    vm_compute. reflexivity.
Defined.

Lemma ServeHTTP_delete_object_refines_witness :
  lookup_object (ServeHTTP demo_globals (demo_request "DELETE" (object_path "A" "c1" "o") ∅ []) (0, 0)).1
    "A" "c1" "o" = None.
Proof.
  rewrite (proj2 (ServeHTTP_delete_object_refines demo_globals
                    (demo_request "DELETE" (object_path "A" "c1" "o") ∅ []) (0, 0) "A" "c1" "o"
                    (default (newSwiftContainer "c1") (lookup_container demo_globals "A" "c1"))
                    ltac:(decide_by_eval) ltac:(decide_by_eval) ltac:(decide_by_eval) ltac:(decide_by_eval) ltac:(decide_by_eval) ltac:(decide_by_eval) ltac:(decide_by_eval) ltac:(vm_compute; reflexivity))).
  vm_compute. reflexivity.
Defined.

Lemma ServeHTTP_rejects_bad_token_witness :
  ServeHTTP demo_globals (mkRequest "DELETE" (account_path "A") ∅ ∅ []) (0, 0) =
    (demo_globals, status StatusUnauthorized).
Proof. apply ServeHTTP_rejects_bad_token; decide_by_eval. Defined.

Lemma doDELETE_nonempty_conflict_witness :
  doDELETE demo_globals (demo_request "DELETE" (container_path "A" "c1") ∅ []) =
    (demo_globals, status StatusConflict).
Proof.
  apply (proj2 (doDELETE_nonempty_conflict demo_globals (demo_request "DELETE" (container_path "A" "c1") ∅ [])
                  "A" "c1" (default (newSwiftAccount "A") (locateSwiftAccount demo_globals "A"))
                  (default (newSwiftContainer "c1") (lookup_container demo_globals "A" "c1"))
                  ltac:(decide_by_eval) ltac:(decide_by_eval) ltac:(vm_compute; reflexivity) ltac:(vm_compute; reflexivity))); [vm_compute; reflexivity|].
  decide_by_eval.
Defined.

Lemma doGET_container_listing_witness :
  doGET demo_globals (mkRequest "GET" (container_path "A" "c1") ∅ (<["marker" := ["o"]]> ∅) []) (0, 0) =
  Served StatusOK (cont_headers (default (newSwiftContainer "c1") (lookup_container demo_globals "A" "c1")))
    (listing_body ["p"]).
Proof.
  rewrite (doGET_container_listing demo_globals
             (mkRequest "GET" (container_path "A" "c1") ∅ (<["marker" := ["o"]]> ∅) []) (0, 0) "A" "c1"
             (default (newSwiftContainer "c1") (lookup_container demo_globals "A" "c1"))
             ltac:(decide_by_eval) ltac:(decide_by_eval) ltac:(decide_by_eval) ltac:(vm_compute; reflexivity) ltac:(vm_compute; reflexivity) ltac:(decide_by_eval)).
  vm_compute. reflexivity.
Defined.

Lemma reachable_globals_wf_witness : globals_wf demo_globals.
Proof. apply (reachable_globals_wf demo_config). apply WfFacts.run_requests_reachable. Defined.
End Properties.
