(* ===== verification/Lifecycle.v ===== *)
(** * Lifecycle: starting and stopping the Swift emulator

    [src/iswift/iswiftpkg/impl.go], lines 88-112 and 129-228: [start]
    reads the configuration ([initializeGlobals], seven fetches from the
    [conf.ConfMap], each returning early on its error) and starts the
    emulator ([startEmulator]: set up the HTTP server on
    [JoinHostPort(addr, port)], serve in a goroutine, then probe
    [GET /info] until it answers, at most [startGETInfoMaxRetries] retries,
    stopping the server if it never does); [stop] stops the server and
    clears the globals.

    The configuration map is not code of the repository: it is the class
    [ConfMap] of the three fetch functions the code calls, each returning
    a value and an error as Go does.  Whether the listener goroutine is
    accepting connections at the [i]-th probe, and whether
    [http.Server.Close] succeeds, are inputs of the model; whether the
    handler answers [GET /info] is the handler of [Swift.v]. *)

From S2P Require Import Prelude GoLib Swift.
From Stdlib Require Import Recdef.
From Stdlib Require Strings.String.
From Stdlib Require Import Strings.Ascii.
Local Open Scope N_scope.
Local Set Warnings "-clear-no-such-hyp".

Module Lifecycle.
Import GoStr Store Handlers.

(** ** The configuration map *)

(** [confMap.FetchOptionValueString(section, option)] and its [uint16]
    and [uint64] forms: the value and, when the fetch failed, the error. *)
Class ConfMap (C : Type) := {
  FetchOptionValueString : C -> string -> string -> string * option string;
  FetchOptionValueUint16 : C -> string -> string -> N * option string;
  FetchOptionValueUint64 : C -> string -> string -> N * option string }.

(** The errors [start] and [stop] return. *)
Inductive lifecycleError :=
  | ConfErr (msg : string)     (* a fetch of initializeGlobals failed *)
  | StartErr                   (* "startEmulator() failed to establish that emulator is up" *)
  | CloseErr.                  (* emulatorHTTPServer.Close() failed *)

(** ** [initializeGlobals] (lines 129-166) *)

Definition set_config (g : globalsStruct) (cfg : configStruct) : globalsStruct :=
  mkGlobals cfg (currentAuthNonce g) (currentAuthToken g) (swiftAccountMap g).

(** [globals.config.F, err = fetch]: the field is assigned whether or not
    [err] is nil; on an error the function returns. *)
Definition fetch_into {A} (r : A * option string) (set : A -> configStruct -> configStruct)
    (g : globalsStruct) (k : globalsStruct -> globalsStruct * option lifecycleError)
    : globalsStruct * option lifecycleError :=
  let g := set_config g (set r.1 (config g)) in
  match r.2 with
  | Some e => (g, Some (ConfErr e))
  | None => k g
  end.

Definition initializeGlobals `{ConfMap C} (confMap : C) (g : globalsStruct)
    : globalsStruct * option lifecycleError :=
  fetch_into (FetchOptionValueString confMap "ISWIFT" "SwiftProxyIPAddr")
    (fun v c => mkConfig v (SwiftProxyTCPPort c) (MaxAccountNameLength c) (MaxContainerNameLength c)
                  (MaxObjectNameLength c) (AccountListingLimit c) (ContainerListingLimit c)) g (fun g =>
  fetch_into (FetchOptionValueUint16 confMap "ISWIFT" "SwiftProxyTCPPort")
    (fun v c => mkConfig (SwiftProxyIPAddr c) v (MaxAccountNameLength c) (MaxContainerNameLength c)
                  (MaxObjectNameLength c) (AccountListingLimit c) (ContainerListingLimit c)) g (fun g =>
  fetch_into (FetchOptionValueUint64 confMap "ISWIFT" "MaxAccountNameLength")
    (fun v c => mkConfig (SwiftProxyIPAddr c) (SwiftProxyTCPPort c) v (MaxContainerNameLength c)
                  (MaxObjectNameLength c) (AccountListingLimit c) (ContainerListingLimit c)) g (fun g =>
  fetch_into (FetchOptionValueUint64 confMap "ISWIFT" "MaxContainerNameLength")
    (fun v c => mkConfig (SwiftProxyIPAddr c) (SwiftProxyTCPPort c) (MaxAccountNameLength c) v
                  (MaxObjectNameLength c) (AccountListingLimit c) (ContainerListingLimit c)) g (fun g =>
  fetch_into (FetchOptionValueUint64 confMap "ISWIFT" "MaxObjectNameLength")
    (fun v c => mkConfig (SwiftProxyIPAddr c) (SwiftProxyTCPPort c) (MaxAccountNameLength c)
                  (MaxContainerNameLength c) v (AccountListingLimit c) (ContainerListingLimit c)) g (fun g =>
  fetch_into (FetchOptionValueUint64 confMap "ISWIFT" "AccountListingLimit")
    (fun v c => mkConfig (SwiftProxyIPAddr c) (SwiftProxyTCPPort c) (MaxAccountNameLength c)
                  (MaxContainerNameLength c) (MaxObjectNameLength c) v (ContainerListingLimit c)) g (fun g =>
  fetch_into (FetchOptionValueUint64 confMap "ISWIFT" "ContainerListingLimit")
    (fun v c => mkConfig (SwiftProxyIPAddr c) (SwiftProxyTCPPort c) (MaxAccountNameLength c)
                  (MaxContainerNameLength c) (MaxObjectNameLength c) (AccountListingLimit c) v) g (fun g =>
  (mkGlobals (config g) 0 (auth_token 0) ∅, None)))))))).

(** ** The emulator process *)

(** The globals and [globals.emulatorHTTPServer]: the address it was set
    up on, until it is closed. *)
Record emulator := mkEmulator {
  globals : globalsStruct;
  emulatorHTTPServer : option string }.

Definition set_globals (e : emulator) (g : globalsStruct) : emulator :=
  mkEmulator g (emulatorHTTPServer e).
Definition set_server (e : emulator) (s : option string) : emulator :=
  mkEmulator (globals e) s.

Definition startGETInfoMaxRetries : nat := 10.

(** [http.Get("http://" + Addr + "/info")]: the request the handler sees. *)
Definition info_request : request := mkRequest "GET" "/info" ∅ ∅ [].

(** A probe has no error when the listener accepts its connection and
    the handler answers (a handler that panics closes the connection). *)
Definition probe_ok (listening : bool) (g : globalsStruct) : bool :=
  listening && match (ServeHTTP g info_request (0, 0)).2 with Panicked => false | Served _ _ _ => true end.

(** The loop of lines 198-214: [(true, n)] when the probe after [n]
    retries answered, [(false, n)] when [n] exceeded the maximum. *)
Function getInfo_loop (ok : nat -> bool) (startGETInfoNumRetries : nat)
    {measure (fun n => (S startGETInfoMaxRetries - n)%nat) startGETInfoNumRetries} : bool * nat :=
  if ok startGETInfoNumRetries then (true, startGETInfoNumRetries)
  else if Nat.ltb startGETInfoMaxRetries (S startGETInfoNumRetries) then (false, S startGETInfoNumRetries)
  else getInfo_loop ok (S startGETInfoNumRetries).
Proof.
  intros ok n Hok Hlt. apply Nat.ltb_ge in Hlt. unfold startGETInfoMaxRetries in *. lia.
Defined.

(** [stopEmulator] (lines 218-228): [Close], then wait for the serving
    goroutine, which returns once the server is closed. *)
Definition stopEmulator (e : emulator) (closeOk : bool) : emulator * option lifecycleError :=
  if closeOk then (set_server e None, None) else (e, Some CloseErr).

(** [startEmulator] (lines 181-216). [listening i]: the listener accepts
    the [i]-th probe's connection. *)
Definition startEmulator (e : emulator) (listening : nat -> bool) (closeOk : bool)
    : emulator * option lifecycleError :=
  let e := set_server e (Some (emulator_addr (config (globals e)))) in
  match getInfo_loop (fun i => probe_ok (listening i) (globals e)) 0 with
  | (true, _) => (e, None)
  | (false, _) => ((stopEmulator e closeOk).1, Some StartErr)
  end.

(** [start] (lines 88-100). *)
Definition start `{ConfMap C} (confMap : C) (e : emulator) (listening : nat -> bool) (closeOk : bool)
    : emulator * option lifecycleError :=
  let '(g, err) := initializeGlobals confMap (globals e) in
  let e := set_globals e g in
  match err with
  | Some _ => (e, err)
  | None => startEmulator e listening closeOk
  end.

(** [stop] (lines 102-112). *)
Definition stop (e : emulator) (closeOk : bool) : emulator * option lifecycleError :=
  match stopEmulator e closeOk with
  | (e, Some err) => (e, Some err)
  | (e, None) => (set_globals e (uninitializeGlobals (globals e)), None)
  end.

(** ** What the lifecycle promises *)

(** The values the seven fetches return, and their errors in order. *)
Definition fetched_config `{ConfMap C} (confMap : C) : configStruct :=
  mkConfig (FetchOptionValueString confMap "ISWIFT" "SwiftProxyIPAddr").1
    (FetchOptionValueUint16 confMap "ISWIFT" "SwiftProxyTCPPort").1
    (FetchOptionValueUint64 confMap "ISWIFT" "MaxAccountNameLength").1
    (FetchOptionValueUint64 confMap "ISWIFT" "MaxContainerNameLength").1
    (FetchOptionValueUint64 confMap "ISWIFT" "MaxObjectNameLength").1
    (FetchOptionValueUint64 confMap "ISWIFT" "AccountListingLimit").1
    (FetchOptionValueUint64 confMap "ISWIFT" "ContainerListingLimit").1.

Definition fetch_errors `{ConfMap C} (confMap : C) : list string :=
  omap id [(FetchOptionValueString confMap "ISWIFT" "SwiftProxyIPAddr").2;
           (FetchOptionValueUint16 confMap "ISWIFT" "SwiftProxyTCPPort").2;
           (FetchOptionValueUint64 confMap "ISWIFT" "MaxAccountNameLength").2;
           (FetchOptionValueUint64 confMap "ISWIFT" "MaxContainerNameLength").2;
           (FetchOptionValueUint64 confMap "ISWIFT" "MaxObjectNameLength").2;
           (FetchOptionValueUint64 confMap "ISWIFT" "AccountListingLimit").2;
           (FetchOptionValueUint64 confMap "ISWIFT" "ContainerListingLimit").2].

(** What a failed [initializeGlobals] must keep. *)
Definition auth_and_accounts (g : globalsStruct) : N * string * gmap string swiftAccountStruct :=
  (currentAuthNonce g, currentAuthToken g, swiftAccountMap g).

(** The probes the readiness loop makes: the first of [0 .. max] that
    answers, if any. *)
Definition first_answer (ok : nat -> bool) : option nat :=
  find ok (seq 0 (S startGETInfoMaxRetries)).

(** ** A concrete configuration: a list of (section, option, value) *)
Module Demo.

Definition conf_list := list (string * string * string).

Definition conf_lookup (c : conf_list) (sec opt : string) : option string :=
  snd <$> find (fun '(s, o, _) => String.eqb s sec && String.eqb o opt) c.

(** A number is decimal digits, below [2^bits]. *)
Definition parse_uint (bits : N) (v : string) : N * option string :=
  match v with
  | EmptyString => (0, Some "invalid syntax")
  | _ => match digits_val 0 v with
         | Some n => if n <? 2 ^ bits then (n, None) else (0, Some "value out of range")
         | None => (0, Some "invalid syntax")
         end
  end.

#[global] Instance conf_list_ConfMap : ConfMap conf_list := {|
  FetchOptionValueString c s o :=
    match conf_lookup c s o with Some v => (v, None) | None => (EmptyString, Some o) end;
  FetchOptionValueUint16 c s o :=
    match conf_lookup c s o with Some v => parse_uint 16 v | None => (0, Some o) end;
  FetchOptionValueUint64 c s o :=
    match conf_lookup c s o with Some v => parse_uint 64 v | None => (0, Some o) end |}.

Definition demo_conf : conf_list :=
  [("ISWIFT", "SwiftProxyIPAddr", "127.0.0.1"); ("ISWIFT", "SwiftProxyTCPPort", "9999");
   ("ISWIFT", "MaxAccountNameLength", "256"); ("ISWIFT", "MaxContainerNameLength", "256");
   ("ISWIFT", "MaxObjectNameLength", "1024"); ("ISWIFT", "AccountListingLimit", "2");
   ("ISWIFT", "ContainerListingLimit", "2")].

Definition demo_emulator : emulator := mkEmulator (uninitializeGlobals (Store.initializeGlobals (mkConfig EmptyString 0 0 0 0 0 0))) None.

(** The listener accepts from the third probe on. *)
Definition demo_listening (i : nat) : bool := Nat.leb 2 i.

End Demo.

(** ** Lemmas *)
Module Facts.

(** The handler always answers the readiness probe, and leaves the store
    as it was. *)
Lemma ServeHTTP_info g rnd :
  (ServeHTTP g info_request rnd).1 = g /\ exists h b, (ServeHTTP g info_request rnd).2 = Served 200 h b.
Proof. split; [done|]. eexists _, _. reflexivity. Qed.

Lemma probe_ok_listening b g : probe_ok b g = b.
Proof.
  unfold probe_ok. destruct (ServeHTTP_info g (0, 0)) as [_ (h & bd & ->)].
  by rewrite andb_true_r.
Qed.

(** The loop from [n] answers at the first answering probe of
    [n .. max]. *)
Lemma getInfo_loop_from ok n : (n <= startGETInfoMaxRetries)%nat ->
  getInfo_loop ok n =
  match find ok (seq n (S startGETInfoMaxRetries - n)) with
  | Some k => (true, k)
  | None => (false, S startGETInfoMaxRetries)
  end.
Proof.
  functional induction (getInfo_loop ok n) as [n Hok|n Hok Hmax|n Hok Hmax IH]; intros Hn;
    rewrite Nat.sub_succ_l by done; cbn [seq find]; rewrite Hok; [done|..].
  - apply Nat.ltb_lt in Hmax. assert (n = startGETInfoMaxRetries) as -> by lia.
    by rewrite Nat.sub_diag.
  - apply Nat.ltb_ge in Hmax. by rewrite IH by lia.
Qed.

Lemma fetch_into_keeps {A} (r : A * option string) set g k g' e :
  (forall g0, auth_and_accounts g0 = auth_and_accounts g -> k g0 = (g', Some e) ->
              auth_and_accounts g' = auth_and_accounts g) ->
  fetch_into r set g k = (g', Some e) -> auth_and_accounts g' = auth_and_accounts g.
Proof.
  unfold fetch_into. destruct r as [v [err|]]; cbn.
  - by intros _ [= <- _].
  - intros Hk. by apply Hk.
Qed.

(** [find] on a range of probe indices. *)
Lemma find_seq_Some (ok : nat -> bool) a len k : find ok (seq a len) = Some k ->
  (a <= k < a + len)%nat /\ ok k = true /\ forall j, (a <= j < k)%nat -> ok j = false.
Proof.
  revert a; induction len as [|len IH]; intros a; [done|]. cbn.
  destruct (ok a) eqn:Ha.
  - intros [= <-]. split; [lia|]. split; [done|]. lia.
  - intros Hf. destruct (IH _ Hf) as (Hk & Hok & Hj). split; [lia|]. split; [done|].
    intros j Hjk. destruct (decide (j = a)) as [->|]; [done|]. apply Hj. lia.
Qed.

Lemma find_seq_None (ok : nat -> bool) a len : find ok (seq a len) = None ->
  forall j, (a <= j < a + len)%nat -> ok j = false.
Proof.
  revert a; induction len as [|len IH]; intros a; cbn; [lia|].
  destruct (ok a) eqn:Ha; [done|]. intros Hf j Hj.
  destruct (decide (j = a)) as [->|]; [done|]. apply (IH (S a)); [done|lia].
Qed.

(** Case on the next fetch of [initializeGlobals], in the code's order. *)
Ltac fetch_step :=
  lazymatch goal with
  | |- fetch_into ?r _ _ _ = _ -> _ => destruct r as [? [?|]]; cbn [fetch_into fst snd omap]
  | |- _ -> fetch_into ?r _ _ _ = _ => destruct r as [? [?|]]; cbn [fetch_into fst snd omap]
  end.

(** With no fetch error, [initializeGlobals] is the initialization of
    the store model on the fetched configuration. *)
Lemma initializeGlobals_ok `{ConfMap C} (c : C) g : fetch_errors c = [] ->
  initializeGlobals c g = (Store.initializeGlobals (fetched_config c), None).
Proof.
  unfold initializeGlobals, fetch_errors, fetched_config.
  do 7 (fetch_step; [done|]). done.
Qed.

Lemma initializeGlobals_error `{ConfMap C} (c : C) g g' err :
  initializeGlobals c g = (g', Some err) ->
  exists e rest, fetch_errors c = e :: rest /\ err = ConfErr e /\
                 auth_and_accounts g' = auth_and_accounts g.
Proof.
  unfold initializeGlobals, fetch_errors.
  do 7 (fetch_step; [intros [= <- <-]; by eexists _, _|]). done.
Qed.

Lemma initializeGlobals_no_error `{ConfMap C} (c : C) g g' :
  initializeGlobals c g = (g', None) -> fetch_errors c = [].
Proof.
  unfold initializeGlobals, fetch_errors.
  do 7 (fetch_step; [by intros [=]|]). done.
Qed.

Lemma find_ext (ok ok' : nat -> bool) l : (forall i, ok i = ok' i) -> find ok l = find ok' l.
Proof. intros Hext. induction l as [|i l IH]; cbn; [done|]. by rewrite Hext, IH. Qed.

(** The loop, started at [0], answers at [first_answer]. *)
Lemma getInfo_loop_first ok :
  getInfo_loop ok 0 = match first_answer ok with Some k => (true, k) | None => (false, S startGETInfoMaxRetries) end.
Proof. by rewrite getInfo_loop_from by lia. Qed.

End Facts.

(** ** Properties *)
Module Properties.
Import Facts Demo.

(** C35: the readiness loop of [startEmulator] ends after at most
    [startGETInfoMaxRetries + 1] probes: it reports success at the first
    probe [k <= startGETInfoMaxRetries] that answers, every earlier probe
    having failed, and otherwise fails after exactly
    [startGETInfoMaxRetries + 1] failed probes. *)
Theorem getInfo_loop_bounded (ok : nat -> bool) :
  match getInfo_loop ok 0 with
  | (true, k) => (k <= startGETInfoMaxRetries)%nat /\ ok k = true /\ forall j, (j < k)%nat -> ok j = false
  | (false, n) => n = S startGETInfoMaxRetries /\ forall j, (j <= startGETInfoMaxRetries)%nat -> ok j = false
  end.
Proof.
  rewrite getInfo_loop_first. unfold first_answer.
  destruct (find ok _) as [k|] eqn:Hf.
  - destruct (find_seq_Some _ _ _ _ Hf) as (Hk & Hok & Hj). split; [lia|]. split; [done|].
    intros j ?. apply Hj. lia.
  - split; [done|]. intros j ?. apply (find_seq_None _ _ _ Hf). lia.
Qed.

(** [initializeGlobals] either fetches the seven options without
    error and initializes the store model on them (nonce 0, its token,
    no account), or returns the first fetch error and keeps the nonce,
    the token and the accounts it had. *)
Theorem initializeGlobals_refines `{ConfMap C} (c : C) (g : globalsStruct) :
  match fetch_errors c with
  | [] => initializeGlobals c g = (Store.initializeGlobals (fetched_config c), None)
  | e :: _ => (initializeGlobals c g).2 = Some (ConfErr e) /\
              auth_and_accounts (initializeGlobals c g).1 = auth_and_accounts g
  end.
Proof.
  destruct (fetch_errors c) as [|e rest] eqn:Hc; [by apply initializeGlobals_ok|].
  destruct (initializeGlobals c g) as [g' [err|]] eqn:Hi.
  - destruct (initializeGlobals_error _ _ _ _ Hi) as (e' & rest' & He & -> & Hk).
    rewrite Hc in He. injection He as -> ->. done.
  - apply initializeGlobals_no_error in Hi. congruence.
Qed.

(** C33: when every option fetches, [start] leaves the emulator on the
    initialized store and, if the listener answers one of the first
    [startGETInfoMaxRetries + 1] probes, serving on
    [JoinHostPort(SwiftProxyIPAddr, SwiftProxyTCPPort)] without error;
    otherwise it reports the start failure, with the server closed when
    [Close] succeeds.  The handler itself always answers the probe. *)
Theorem start_spec `{ConfMap C} (c : C) (e : emulator) (listening : nat -> bool) (closeOk : bool) :
  fetch_errors c = [] ->
  start c e listening closeOk =
  let g := Store.initializeGlobals (fetched_config c) in
  let addr := emulator_addr (fetched_config c) in
  match first_answer listening with
  | Some _ => (mkEmulator g (Some addr), None)
  | None => (mkEmulator g (if closeOk then None else Some addr), Some StartErr)
  end.
Proof.
  intros Hc. unfold start. rewrite initializeGlobals_ok by done.
  unfold startEmulator. cbn [globals set_globals set_server config Store.initializeGlobals].
  rewrite getInfo_loop_first. unfold first_answer.
  rewrite (find_ext _ listening) by (intros i; apply probe_ok_listening).
  destruct (find listening _); [done|]. by destruct closeOk.
Qed.

(** Witness of C40: the demo configuration fetches, the listener answers
    the third probe, and the emulator serves on [127.0.0.1:9999]. *)
Lemma start_spec_witness :
  fetch_errors demo_conf = [] /\
  start demo_conf demo_emulator demo_listening true =
  (mkEmulator (Store.initializeGlobals (mkConfig "127.0.0.1" 9999 256 256 1024 2 2)) (Some "127.0.0.1:9999"), None).
Proof.
  assert (Hc : fetch_errors demo_conf = []) by (vm_compute; reflexivity).
  split; [exact Hc|]. rewrite (start_spec demo_conf demo_emulator demo_listening true Hc).
  vm_compute. reflexivity.
Defined.

End Properties.

End Lifecycle.
