(* ===== verification/Imgr.v ===== *)
(** * Imgr: the administrative HTTP surface of imgr

    [src/imgr/imgrpkg/http-server.go]: [ServeHTTP] trims the trailing
    slashes of the path, reads the body (a read or close error is 400),
    and dispatches on the method to [serveHTTPDelete], [serveHTTPGet] or
    [serveHTTPPut] (any other method is 405).  The handlers route on the
    path ([/config], [/stats], [/volume...]) and call the volume table of
    the daemon: [putVolume], [deleteVolume], [getVolumeAsJSON],
    [getVolumeListAsJSON], whose code is not under [src/].

    The volume table is therefore an interface: the class
    [VolumeTable] holds the operations the handlers call, and
    [VolumeTableLaws] the contract the spec states for the endpoints
    ([PUT/GET/DELETE /volume/<name>] with 201/204/404/409).  The
    theorems about the handlers are proved against the interface, for
    every table that meets the contract; [volume_map], a map from volume
    names to storage URLs, is an instance that meets it, and the
    witnesses run on it. *)

From S2P Require Import Prelude GoLib.
From stdpp Require Import pretty.
From Stdlib Require Import Strings.Byte.
From Stdlib Require Strings.String.
From Stdlib Require Import Strings.Ascii.
Local Open Scope N_scope.
Local Set Warnings "-clear-no-such-hyp".
Create HintDb imgr.

Module Imgr.
Import GoStr.

(** ** The volume table the handlers call *)

(** [putVolume(name, storageURL)] and [deleteVolume(name)] return the
    new table and whether [err] is nil; [getVolumeAsJSON(name)] is [None]
    when it returns an error.  [configAsJSON] is [json.Marshal] of the
    configuration and [statsAsString] is [bucketstats.SprintStats]. *)
Class VolumeTable (S : Type) := {
  putVolume : S -> string -> string -> S * bool;
  deleteVolume : S -> string -> S * bool;
  getVolumeAsJSON : S -> string -> option (list byte);
  getVolumeListAsJSON : S -> list byte;
  configAsJSON : S -> list byte;
  statsAsString : S -> string }.

(** The contract of the endpoints: a PUT of a new name succeeds and
    creates it, a PUT of an existing name fails and changes nothing; a
    DELETE of an existing name succeeds and removes it, of a missing name
    fails and changes nothing; other names are untouched. *)
Class VolumeTableLaws (S : Type) `{!VolumeTable S} := {
  put_ok_iff_new s n u : (putVolume s n u).2 = true <-> getVolumeAsJSON s n = None;
  put_creates s n u : (putVolume s n u).2 = true -> is_Some (getVolumeAsJSON (putVolume s n u).1 n);
  put_failed_unchanged s n u : (putVolume s n u).2 = false -> (putVolume s n u).1 = s;
  put_frame s n u m : m <> n -> getVolumeAsJSON (putVolume s n u).1 m = getVolumeAsJSON s m;
  delete_ok_iff_present s n : (deleteVolume s n).2 = true <-> is_Some (getVolumeAsJSON s n);
  delete_removes s n : getVolumeAsJSON (deleteVolume s n).1 n = None;
  delete_failed_unchanged s n : (deleteVolume s n).2 = false -> (deleteVolume s n).1 = s;
  delete_frame s n m : m <> n -> getVolumeAsJSON (deleteVolume s n).1 m = getVolumeAsJSON s m }.

(** ** A table that meets the contract: names to storage URLs *)

Record volume_map := mkVolumeMap { volumes : gmap string string; vm_config : list byte; vm_stats : string }.

Definition set_volumes (v : volume_map) (m : gmap string string) : volume_map :=
  mkVolumeMap m (vm_config v) (vm_stats v).

Definition volume_json (name url : string) : list byte :=
  bytes ("{" +:+ name +:+ ": " +:+ url +:+ "}").

#[global] Instance volume_map_table : VolumeTable volume_map := {|
  putVolume v n u :=
    match volumes v !! n with
    | Some _ => (v, false)
    | None => (set_volumes v (<[n := u]> (volumes v)), true)
    end;
  deleteVolume v n :=
    match volumes v !! n with
    | Some _ => (set_volumes v (delete n (volumes v)), true)
    | None => (v, false)
    end;
  getVolumeAsJSON v n := volume_json n <$> volumes v !! n;
  getVolumeListAsJSON v := mjoin ((fun '(n, u) => volume_json n u) <$> map_to_list (volumes v));
  configAsJSON := vm_config;
  statsAsString := vm_stats |}.

(** ** The map of volumes meets the contract *)
#[global] Instance volume_map_laws : VolumeTableLaws volume_map.
Proof.
  split; intros s n; cbn -[volume_json]; destruct (volumes s !! n) eqn:E.
  all: intros; cbn [fst snd volumes set_volumes] in *.
  all: rewrite ?E, ?lookup_insert_eq, ?lookup_delete_eq,
         ?lookup_insert_ne, ?lookup_delete_ne by congruence.
  all: naive_solver.
Qed.

(** ** The handlers *)

Record request := mkRequest {
  Method : string;
  Path : string;
  Body : option (list byte) }.  (** [None]: reading or closing the body failed *)

Record response := mkResponse { status : N; headers : gmap string string; body : list byte }.

Definition respond (code : N) : response := mkResponse code ∅ [].

(** [Header().Set("Content-Length", ...)], [Set("Content-Type", ct)],
    [WriteHeader(http.StatusOK)], [Write(payload)]. *)
Definition payload_response (ct : string) (payload : list byte) : response :=
  mkResponse 200
    (<["Content-Type" := ct]> (<["Content-Length" := pretty (N.of_nat (length payload))]> ∅))
    payload.

Section Handlers.
Context {S : Type} `{!VolumeTable S}.

(** Lines 103-122. *)
Definition serveHTTPDeleteOfVolume (s : S) (requestPath : string) : S * response :=
  match Split requestPath "/" with
  | [_; _; name] =>
      let '(s', ok) := deleteVolume s name in (s', respond (if ok then 204 else 404))
  | _ => (s, respond 400)
  end.

(** Lines 94-101. *)
Definition serveHTTPDelete (s : S) (requestPath : string) : S * response :=
  if HasPrefix requestPath "/volume" then serveHTTPDeleteOfVolume s requestPath
  else (s, respond 404).

(** Lines 137-156 and 158-174. *)
Definition serveHTTPGetOfConfig (s : S) : response :=
  payload_response "application/json" (configAsJSON s).
Definition serveHTTPGetOfStats (s : S) : response :=
  payload_response "text/plain" (bytes (statsAsString s)).

(** Lines 176-214. *)
Definition serveHTTPGetOfVolume (s : S) (requestPath : string) : response :=
  match Split requestPath "/" with
  | [_; _] => payload_response "application/json" (getVolumeListAsJSON s)
  | [_; _; name] =>
      match getVolumeAsJSON s name with
      | Some j => payload_response "application/json" j
      | None => respond 404
      end
  | _ => respond 400
  end.

(** Lines 124-135. *)
Definition serveHTTPGet (s : S) (requestPath : string) : response :=
  if String.eqb "/config" requestPath then serveHTTPGetOfConfig s
  else if String.eqb "/stats" requestPath then serveHTTPGetOfStats s
  else if HasPrefix requestPath "/volume" then serveHTTPGetOfVolume s requestPath
  else respond 404.

(** Lines 225-247: the body is the storage URL. *)
Definition serveHTTPPutOfVolume (s : S) (requestPath : string) (requestBody : list byte) : S * response :=
  match Split requestPath "/" with
  | [_; _; name] =>
      let '(s', ok) := putVolume s name (String.string_of_list_byte requestBody) in
      (s', respond (if ok then 201 else 409))
  | _ => (s, respond 400)
  end.

(** Lines 216-223. *)
Definition serveHTTPPut (s : S) (requestPath : string) (requestBody : list byte) : S * response :=
  if HasPrefix requestPath "/volume" then serveHTTPPutOfVolume s requestPath requestBody
  else (s, respond 404).

(** Lines 60-92. *)
Definition ServeHTTP (s : S) (req : request) : S * response :=
  let requestPath := TrimRight (Path req) "/" in
  match Body req with
  | None => (s, respond 400)
  | Some requestBody =>
      if String.eqb (Method req) "DELETE" then serveHTTPDelete s requestPath
      else if String.eqb (Method req) "GET" then (s, serveHTTPGet s requestPath)
      else if String.eqb (Method req) "PUT" then serveHTTPPut s requestPath requestBody
      else (s, respond 405)
  end.

End Handlers.

(** The path of a volume. *)
Definition volume_path (name : string) : string := "/volume/" +:+ name.

(** ** The contract of the volume endpoints, as the spec states it *)

Inductive volume_op :=
  | OpPut (name : string) (storageURL : list byte)
  | OpGet (name : string)
  | OpDelete (name : string).

Definition op_name (o : volume_op) : string :=
  match o with OpPut n _ | OpGet n | OpDelete n => n end.

Definition op_request (o : volume_op) : request :=
  match o with
  | OpPut n u => mkRequest "PUT" (volume_path n) (Some u)
  | OpGet n => mkRequest "GET" (volume_path n) (Some [])
  | OpDelete n => mkRequest "DELETE" (volume_path n) (Some [])
  end.

(** The status promised for an operation, given whether the volume
    exists; whether it exists afterwards; whether the table may change. *)
Definition spec_status (present : bool) (o : volume_op) : N :=
  match o with
  | OpPut _ _ => if present then 409 else 201
  | OpGet _ => if present then 200 else 404
  | OpDelete _ => if present then 204 else 404
  end.

Definition spec_present_after (present : bool) (o : volume_op) : bool :=
  match o with OpPut _ _ => true | OpGet _ => present | OpDelete _ => false end.

Definition spec_changes (present : bool) (o : volume_op) : bool :=
  match o with OpPut _ _ => negb present | OpGet _ => false | OpDelete _ => present end.

Definition volume_exists {S} `{!VolumeTable S} (s : S) (n : string) : bool :=
  match getVolumeAsJSON s n with Some _ => true | None => false end.

(** A path segment: a non-empty name without a slash. *)
Definition segment (n : string) : Prop := n <> EmptyString /\ cut_at "/" n = None.

(** A well-formed response: a 200 carries its payload with its
    Content-Length and a Content-Type, any other status is one of the
    statuses the handlers write, with no header and no body. *)
Definition response_wf (r : response) : Prop :=
  (status r = 200 /\ headers r !! "Content-Length" = Some (pretty (N.of_nat (length (body r)))) /\
   is_Some (headers r !! "Content-Type")) \/
  (status r ∈ [201; 204; 400; 404; 405; 409] /\ headers r = ∅ /\ body r = []).

Fixpoint slashes (k : nat) : string :=
  match k with O => EmptyString | S k => String "/" (slashes k) end.

(** What [ServeHTTP] does on a request for the volume [n]. *)
Definition volume_handler {S} `{!VolumeTable S} (s : S) (m n : string) (b : option (list byte)) : S * response :=
  match b with
  | None => (s, respond 400)
  | Some requestBody =>
      if String.eqb m "DELETE" then
        let '(s', ok) := deleteVolume s n in (s', respond (if ok then 204 else 404))
      else if String.eqb m "GET" then
        (s, match getVolumeAsJSON s n with
            | Some j => payload_response "application/json" j
            | None => respond 404
            end)
      else if String.eqb m "PUT" then
        let '(s', ok) := putVolume s n (String.string_of_list_byte requestBody) in
        (s', respond (if ok then 201 else 409))
      else (s, respond 405)
  end.

(** The paths [/volume<x>/<n>] followed by slashes. *)
Definition route (x n : string) (k : nat) : string := "/volume" +:+ x +:+ "/" +:+ n +:+ slashes k.

(** ** A concrete table *)
Module Demo.
Definition demo_table : volume_map := mkVolumeMap ∅ (bytes "{}") EmptyString.
Definition demo_put : volume_op := OpPut "vol1" (bytes "http://swift/v1/AUTH_test").
Definition demo_after_put : volume_map := (ServeHTTP demo_table (op_request demo_put)).1.
End Demo.

(** ** Lemmas: routing *)
Module RouteFacts.
Import StrFacts.

Lemma TrimRight_slashes p k : TrimRight (p +:+ slashes k) "/" = TrimRight p "/".
Proof.
  revert p; induction k as [|k IH]; intros p; [by rewrite str_app_nil_r|].
  change (slashes (S k)) with ("/" +:+ slashes k).
  by rewrite str_app_assoc, IH, TrimRight_snoc.
Qed.

Lemma TrimRight_segment p n : segment n -> TrimRight (p +:+ n) "/" = p +:+ n.
Proof. intros [Hne Hc]. apply TrimRight_app; [done|]. by apply TrimRight_no_sep. Qed.

Lemma route_trim x n k : segment n ->
  TrimRight (route x n k) "/" = (("/volume" +:+ x) +:+ "/") +:+ n.
Proof.
  intros Hn. unfold route. rewrite !str_app_assoc, TrimRight_slashes.
  by apply TrimRight_segment.
Qed.

Lemma route_split x n : cut_at "/" x = None -> cut_at "/" n = None ->
  Split ((("/volume" +:+ x) +:+ "/") +:+ n) "/" = [EmptyString; "volume" +:+ x; n].
Proof.
  intros Hx Hn. rewrite <- !str_app_assoc.
  change ("/volume" +:+ x +:+ "/" +:+ n) with (String "/" ("volume" +:+ x +:+ String "/" n)).
  simpl. rewrite str_app_assoc, Split_app_sep, Split_no_sep; [done..|].
  rewrite cut_at_app by done. by rewrite Hx.
Qed.

Lemma route_prefix x n : HasPrefix ((("/volume" +:+ x) +:+ "/") +:+ n) "/volume" = true.
Proof. rewrite <- !str_app_assoc. by destruct x. Qed.

Lemma route_not_config x n : String.eqb "/config" ((("/volume" +:+ x) +:+ "/") +:+ n) = false.
Proof. by rewrite <- !str_app_assoc. Qed.

Lemma route_not_stats x n : String.eqb "/stats" ((("/volume" +:+ x) +:+ "/") +:+ n) = false.
Proof. by rewrite <- !str_app_assoc. Qed.

Lemma volume_path_route n : volume_path n = route EmptyString n 0.
Proof. unfold route. simpl. by rewrite str_app_nil_r. Qed.

(** Every request on a route is the request on the volume [n]. *)
Lemma ServeHTTP_route {S} `{!VolumeTable S} (s : S) m x n k b :
  cut_at "/" x = None -> segment n ->
  ServeHTTP s (mkRequest m (route x n k) b) = volume_handler s m n b.
Proof.
  intros Hx Hn. unfold ServeHTTP, volume_handler. cbn [Path Body Method].
  rewrite route_trim by done. destruct b as [body|]; [|done].
  unfold serveHTTPDelete, serveHTTPGet, serveHTTPPut,
    serveHTTPDeleteOfVolume, serveHTTPGetOfVolume, serveHTTPPutOfVolume.
  rewrite route_prefix, route_not_config, route_not_stats, route_split by apply Hn || done.
  done.
Qed.

End RouteFacts.


(** ** Lemmas: the contract, one operation at a time *)
Section LawFacts.
Context {S : Type} `{VolumeTableLaws S}.

Lemma put_result (s s' : S) n u ok : putVolume s n u = (s', ok) ->
  ok = negb (volume_exists s n) /\ (ok = false -> s' = s) /\ volume_exists s' n = true /\
  (forall m, m <> n -> getVolumeAsJSON s' m = getVolumeAsJSON s m).
Proof.
  intros Ep. pose proof (put_ok_iff_new s n u) as Hok. pose proof (put_creates s n u) as Hc.
  pose proof (put_failed_unchanged s n u) as Hf. pose proof (put_frame s n u) as Hm.
  rewrite Ep in Hok, Hc, Hf, Hm. cbn in *. unfold volume_exists.
  destruct ok.
  - rewrite (proj1 Hok eq_refl). destruct (Hc eq_refl) as [j ->]. naive_solver.
  - rewrite (Hf eq_refl). destruct (getVolumeAsJSON s n); naive_solver.
Qed.

Lemma delete_result (s s' : S) n ok : deleteVolume s n = (s', ok) ->
  ok = volume_exists s n /\ (ok = false -> s' = s) /\ volume_exists s' n = false /\
  (forall m, m <> n -> getVolumeAsJSON s' m = getVolumeAsJSON s m).
Proof.
  intros Ep. pose proof (delete_ok_iff_present s n) as Hok. pose proof (delete_removes s n) as Hr.
  pose proof (delete_failed_unchanged s n) as Hf. pose proof (delete_frame s n) as Hm.
  rewrite Ep in Hok, Hr, Hf, Hm. cbn in *. unfold volume_exists. rewrite Hr.
  destruct ok.
  - destruct (proj1 Hok eq_refl) as [j ->]. naive_solver.
  - destruct (getVolumeAsJSON s n); [|naive_solver]. by destruct (proj2 Hok).
Qed.

End LawFacts.

Lemma payload_response_wf ct p : response_wf (payload_response ct p).
Proof.
  left. cbn [status headers body payload_response]. split; [done|].
  rewrite lookup_insert_ne by done. rewrite !lookup_insert_eq. by split.
Qed.

Lemma respond_wf code : code ∈ [201; 204; 400; 404; 405; 409] -> response_wf (respond code).
Proof. intros Hc. by right. Qed.

#[export] Hint Resolve payload_response_wf respond_wf : imgr.


(** ** Properties *)
Module Properties.
Import RouteFacts.

(** C37: every response of [ServeHTTP] is well formed, whatever the
    table and the request: a 200 carries its payload with a matching
    Content-Length and a Content-Type, any other status is 201, 204, 400,
    404, 405 or 409 with neither header nor body. *)
Theorem ServeHTTP_response_wf {S} `{!VolumeTable S} (s : S) (req : request) :
  response_wf (ServeHTTP s req).2.
Proof.
  unfold ServeHTTP, serveHTTPDelete, serveHTTPGet, serveHTTPPut, serveHTTPDeleteOfVolume,
    serveHTTPGetOfVolume, serveHTTPPutOfVolume, serveHTTPGetOfConfig, serveHTTPGetOfStats.
  repeat case_match; simplify_eq/=; auto with imgr; apply respond_wf; set_solver.
Qed.

Section Endpoints.
Context {S : Type} `{VolumeTableLaws S}.

(** C36: [ServeHTTP] implements the volume endpoints the spec promises,
    for every volume table that meets the contract: on [PUT], [GET] or
    [DELETE /volume/<name>] the status is 201/409, 200/404 and 204/404 as
    the volume is new or exists; after it the volume exists unless it was
    deleted; no other volume changes; a failed or read-only request leaves
    the table as it was; and a [GET] returns the volume's JSON. *)
Theorem ServeHTTP_volume_refines (o : volume_op) (s s' : S) (r : response) :
  segment (op_name o) ->
  ServeHTTP s (op_request o) = (s', r) ->
  let present := volume_exists s (op_name o) in
  status r = spec_status present o /\
  volume_exists s' (op_name o) = spec_present_after present o /\
  (forall m, m <> op_name o -> getVolumeAsJSON s' m = getVolumeAsJSON s m) /\
  (spec_changes present o = false -> s' = s) /\
  body r = match o with OpGet n => default [] (getVolumeAsJSON s n) | _ => [] end.
Proof.
  intros Hn Hr.
  destruct o as [n u|n|n]; cbn [op_name op_request] in *;
    rewrite volume_path_route, ServeHTTP_route in Hr by done; unfold volume_handler in Hr;
    cbn -[putVolume deleteVolume getVolumeAsJSON payload_response] in Hr.
  - destruct (putVolume _ _ _) as [s1 ok] eqn:Ep. injection Hr as <- <-.
    destruct (put_result _ _ _ _ _ Ep) as (-> & Hf & Hx & Hm).
    destruct (volume_exists s n); naive_solver.
  - injection Hr as <- <-. unfold volume_exists.
    destruct (getVolumeAsJSON s n); naive_solver.
  - destruct (deleteVolume _ _) as [s1 ok] eqn:Ep. injection Hr as <- <-.
    destruct (delete_result _ _ _ _ Ep) as (-> & Hf & Hx & Hm).
    destruct (volume_exists s n); naive_solver.
Qed.

(** C38: the route a request takes depends on the path only after its
    trailing slashes are trimmed, and only on the third segment below any
    first segment that starts with [volume]: [/volume<x>/<n>] followed by
    any number of slashes is served exactly as [/volume/<n>], for every
    method and body, so that [/volumes/<n>] addresses the volume [n]. *)
Theorem ServeHTTP_volume_path_normalised (s : S) (m x n : string) (k : nat) (b : option (list byte)) :
  cut_at "/" x = None -> segment n ->
  ServeHTTP s (mkRequest m ("/volume" +:+ x +:+ "/" +:+ n +:+ slashes k) b) =
  ServeHTTP s (mkRequest m (volume_path n) b).
Proof.
  intros Hx Hn. rewrite volume_path_route.
  change ("/volume" +:+ x +:+ "/" +:+ n +:+ slashes k) with (route x n k).
  by rewrite !ServeHTTP_route.
Qed.

End Endpoints.

Import Demo.

(** Witness of C39: a PUT of a new volume on the map of volumes is 201,
    and the volume exists after it. *)
Lemma ServeHTTP_volume_refines_witness :
  segment "vol1" /\ status (ServeHTTP demo_table (op_request demo_put)).2 = 201 /\
  volume_exists demo_after_put "vol1" = true.
Proof.
  assert (Hseg : segment "vol1") by (split; [discriminate | reflexivity]).
  destruct (ServeHTTP_volume_refines demo_put demo_table demo_after_put
              (ServeHTTP demo_table (op_request demo_put)).2 Hseg
              (surjective_pairing _)) as (Hs & Hx & _).
  split; [exact Hseg|]. split; [rewrite Hs; reflexivity | exact Hx].
Defined.

(** Witness of C40: [GET /volumes/vol1//] is served as [GET /volume/vol1]. *)
Lemma ServeHTTP_volume_path_normalised_witness :
  cut_at "/" "s" = None /\ segment "vol1" /\
  ServeHTTP demo_after_put (mkRequest "GET" "/volumes/vol1//" (Some [])) =
  ServeHTTP demo_after_put (mkRequest "GET" (volume_path "vol1") (Some [])).
Proof.
  assert (Hseg : segment "vol1") by (split; [discriminate | reflexivity]).
  split; [reflexivity|]. split; [exact Hseg|].
  exact (ServeHTTP_volume_path_normalised demo_after_put "GET" "s" "vol1" 2 (Some []) eq_refl Hseg).
Defined.

End Properties.

End Imgr.
