(* ===== verification/ImgrListener.v ===== *)
(** * ImgrListener: starting and stopping imgr's HTTP server

    [src/imgr/imgrpkg/http-server.go], lines 20-58.  [startHTTPServer]
    builds [globals.httpServer] on [JoinHostPort(PrivateIPAddr,
    Itoa(HTTPServerPort))], adds one to [httpServerWG] and starts a
    goroutine that runs [ListenAndServe]; when it returns, the goroutine
    exits the process with [log.Fatalf] unless the error is
    [http.ErrServerClosed], and otherwise calls [httpServerWG.Done()].
    [stopHTTPServer] calls [Shutdown] and, when it succeeds, waits on the
    wait group.

    The state holds every [http.Server] the code allocated (by index,
    with its address and whether [Shutdown] was called on it), the
    pointer [globals.httpServer], the counter, the goroutines still inside
    [ListenAndServe] (by the server they serve), whether the process
    exited, and where the caller of [stopHTTPServer] is.  The library's
    behaviour is written as the guards of the steps: after [Shutdown],
    [ListenAndServe] returns [ErrServerClosed]; before it, it can only
    fail with another error (the port is taken, an accept fails).
    [Shutdown] on a nil server dereferences nil and panics. *)

From S2P Require Import Prelude GoLib Swift.
Local Open Scope N_scope.
Local Set Warnings "-clear-no-such-hyp".

Module ImgrListener.
Import GoStr.

(** The two fields of [globals.config] the listener reads. *)
Record configStruct := mkConfig {
  PrivateIPAddr : string;
  HTTPServerPort : N }.          (* uint16 *)

(** What [ListenAndServe] returns. *)
Inductive serveErr :=
  | ErrServerClosed
  | ListenErr (msg : string).

(** The caller of [stopHTTPServer]: not in it, blocked in
    [httpServerWG.Wait()], or returned with [Shutdown]'s error. *)
Inductive stopPc :=
  | StopIdle
  | StopWaiting
  | StopReturned (err : option string)
  | StopPanicked.

Record server := mkServer { Addr : string; shutdownCalled : bool }.

Record listener := mkListener {
  servers : list server;          (* every &http.Server{...} allocated *)
  httpServer : option nat;        (* globals.httpServer *)
  httpServerWG : nat;
  serving : list nat;             (* goroutines in ListenAndServe, by server *)
  fatal : option string;          (* log.Fatalf exited the process *)
  stopper : stopPc }.

Definition initListener : listener := mkListener [] None 0 [] None StopIdle.

(** Line 25. *)
Definition ipAddrTCPPort (cfg : configStruct) : string :=
  Handlers.JoinHostPort (PrivateIPAddr cfg) (Itoa (Z.of_N (HTTPServerPort cfg))).

(** Lines 20-48: allocate the server, [Add(1)], start the goroutine,
    return nil. *)
Definition startHTTPServer (cfg : configStruct) (l : listener) : listener * option string :=
  let i := length (servers l) in
  (mkListener (servers l ++ [mkServer (ipAddrTCPPort cfg) false]) (Some i)
     (S (httpServerWG l)) (serving l ++ [i]) (fatal l) (stopper l), None).

(** Lines 38-45: the goroutine [k] (a position in [serving]) returns
    from [ListenAndServe] with [err].  [None]: [Done] on a zero
    counter, which panics. *)
Definition serve_return (k : nat) (err : serveErr) (l : listener) : option listener :=
  match err with
  | ListenErr msg =>
      Some (mkListener (servers l) (httpServer l) (httpServerWG l)
              (delete k (serving l)) (Some msg) (stopper l))
  | ErrServerClosed =>
      match httpServerWG l with
      | O => None
      | S n => Some (mkListener (servers l) (httpServer l) n (delete k (serving l))
                       (fatal l) (stopper l))
      end
  end.

Definition shut_down (i : nat) (l : list server) : list server :=
  match l !! i with
  | Some s => <[i := mkServer (Addr s) true]> l
  | None => l
  end.

(** Lines 51-53: [Shutdown]; its error is an input.  The listeners are
    closed whether or not it fails. *)
Definition stopHTTPServer (shutdownErr : option string) (l : listener) : listener :=
  match httpServer l with
  | None => mkListener (servers l) (httpServer l) (httpServerWG l) (serving l) (fatal l) StopPanicked
  | Some i =>
      let l' := mkListener (shut_down i (servers l)) (Some i) (httpServerWG l) (serving l) (fatal l) in
      match shutdownErr with
      | Some e => l' (StopReturned (Some e))
      | None => l' StopWaiting
      end
  end.

(** Lines 53-57: the wait returns once the counter is zero. *)
Definition stop_wait (l : listener) : option listener :=
  match stopper l, httpServerWG l with
  | StopWaiting, O =>
      Some (mkListener (servers l) (httpServer l) 0 (serving l) (fatal l) (StopReturned None))
  | _, _ => None
  end.

Definition server_closed (l : listener) (i : nat) : bool :=
  default false (shutdownCalled <$> servers l !! i).

(** The goroutines' steps and the wait, in any interleaving, while the
    process lives.  [ListenAndServe] returns [ErrServerClosed] exactly
    when [Shutdown] was called on its server. *)
Inductive gstep : listener -> listener -> Prop :=
  | GServeClosed l k i l' : fatal l = None -> serving l !! k = Some i -> server_closed l i = true ->
      serve_return k ErrServerClosed l = Some l' -> gstep l l'
  | GServeFailed l k i msg l' : fatal l = None -> serving l !! k = Some i -> server_closed l i = false ->
      serve_return k (ListenErr msg) l = Some l' -> gstep l l'
  | GWait l l' : fatal l = None -> stop_wait l = Some l' -> gstep l l'.

(** The daemon calls [startHTTPServer] once, then [stopHTTPServer]. *)
Definition start_then_stop (cfg : configStruct) (shutdownErr : option string) : listener :=
  stopHTTPServer shutdownErr (startHTTPServer cfg initListener).1.

(** ** Lemmas *)
Module Facts.

(** Every goroutine still serving serves a server that was shut down,
    and the counter counts them. *)
Definition drained_inv (l : listener) : Prop :=
  fatal l = None /\ httpServerWG l = length (serving l) /\
  Forall (fun i => server_closed l i = true) (serving l).

Lemma drained_inv_gstep l l' : drained_inv l -> gstep l l' -> drained_inv l'.
Proof.
  intros (Hf & Hwg & Hcl) Hstep.
  destruct Hstep as [l k i l' _ Hk _ Hret|l k i msg l' _ Hk Hi _|l l' _ Hw].
  - unfold serve_return in Hret. rewrite Hwg in Hret.
    destruct (length (serving l)) as [|n] eqn:Hlen; [done|]. injection Hret as <-.
    pose proof (lookup_lt_Some _ _ _ Hk) as Hlt.
    split_and!; cbn; [done| |by apply Forall_delete].
    rewrite length_delete by done. lia.
  - rewrite Forall_lookup in Hcl. by rewrite (Hcl _ _ Hk) in Hi.
  - unfold stop_wait in Hw. destruct (stopper l), (httpServerWG l) eqn:Hz; try done.
    injection Hw as <-. by split_and!.
Qed.

Lemma drained_inv_rtc l l' : rtc gstep l l' -> drained_inv l -> drained_inv l'.
Proof. induction 1; eauto using drained_inv_gstep. Qed.

(** While the caller waits, the goroutines return one by one and the
    wait returns. *)
Lemma drain_then_wait l :
  drained_inv l -> stopper l = StopWaiting ->
  exists l', rtc gstep l l' /\ stopper l' = StopReturned None /\ serving l' = [] /\
             fatal l' = None.
Proof.
  remember (length (serving l)) as n eqn:Hn. revert l Hn.
  induction n as [|n IH]; intros l Hn Hinv Hw; destruct Hinv as (Hf & Hwg & Hcl).
  - destruct (serving l) eqn:Hs; [|done].
    eexists. split; [apply rtc_once, GWait; [done|]|].
    { unfold stop_wait. rewrite Hw, Hwg, Hs. reflexivity. }
    by split_and!.
  - destruct (serving l) as [|i rest] eqn:Hs; [done|].
    set (l1 := mkListener (servers l) (httpServer l) n rest (fatal l) (stopper l)).
    assert (Hstep : gstep l l1).
    { apply (GServeClosed _ 0 i); [done|by rewrite Hs| |].
      - by apply Forall_cons in Hcl as [? _].
      - unfold serve_return, l1. rewrite Hwg, Hs. cbn in Hn |- *. injection Hn as Hn. by rewrite <- Hn. }
    assert (Hinv1 : drained_inv l1) by (apply (drained_inv_gstep l); [unfold drained_inv; rewrite Hs; by split_and!|done]).
    destruct (IH l1) as (l' & Hr & ?); [cbn in Hn |- *; lia|done|done|].
    exists l'. split; [by eapply rtc_l|done].
Qed.

End Facts.

(** ** Properties *)
Module Properties.
Import Facts.

(** C34: one [startHTTPServer] followed by a [stopHTTPServer] whose
    [Shutdown] succeeds: the caller waits, in no interleaving of the
    listener goroutine does the process exit through [log.Fatalf], and
    the goroutine's return lets the wait return nil with no goroutine
    left serving. *)
Theorem start_stop_returns (cfg : configStruct) :
  let l := start_then_stop cfg None in
  stopper l = StopWaiting /\
  (forall l', rtc gstep l l' -> fatal l' = None) /\
  exists l', rtc gstep l l' /\ stopper l' = StopReturned None /\ serving l' = [].
Proof.
  cbv zeta.
  assert (Hinv : drained_inv (start_then_stop cfg None)) by (split_and!; repeat constructor).
  split_and!; [done| |].
  - intros l' Hr. apply (drained_inv_rtc _ _ Hr Hinv).
  - destruct (drain_then_wait _ Hinv eq_refl) as (l' & ? & ? & ? & _). by exists l'.
Qed.

(** A listen failure is not reported: [startHTTPServer] returns nil
    whatever the configuration, and a [ListenAndServe] error before any
    [Shutdown] (the port is taken) exits the process. *)
Theorem listen_failure_exits (cfg : configStruct) (msg : string) :
  let '(l, err) := startHTTPServer cfg initListener in
  err = None /\ exists l', gstep l l' /\ fatal l' = Some msg.
Proof.
  cbn. split; [done|]. eexists. split; [by apply (GServeFailed _ 0 0 msg)|reflexivity].
Qed.

End Properties.

End ImgrListener.
