(* ===== verification/Ramswift.v ===== *)
(** * Ramswift: the entry point of the ramswift process

    [src/ramswift/ramswift/main.go], lines 15-26: without a
    configuration file argument the process exits through [log.Fatalf];
    otherwise it starts [ramswift.Daemon] on [os.Args[1]] with the
    remaining arguments as configuration overrides, no signal-handled
    channel, a buffered [doneChan] and the three signals, and returns
    once the daemon has sent on [doneChan].  [ramswift.Daemon] is not
    under [src/]; whether it signals [doneChan] is an input. *)

From S2P Require Import Prelude.

Module Ramswift.

Inductive signal := SIGINT | SIGTERM | SIGHUP.

(** A call [ramswift.Daemon(confFile, confStrings, signalHandlerIsArmedWG,
    doneChan, signals...)]; the wait group argument is nil. *)
Record daemonCall := mkDaemonCall {
  confFile : string;
  confStrings : list string;
  doneChanCap : nat;
  signals : list signal }.

Inductive mainOutcome :=
  | Fatal (msg : string)                      (* log.Fatalf *)
  | Returned (call : daemonCall)              (* <-doneChan received *)
  | Blocked (call : daemonCall).              (* the daemon never sends *)

(** [main], with [os.Args] and whether the daemon sends on [doneChan]. *)
Definition main (args : list string) (daemonDone : bool) : mainOutcome :=
  if decide (length args < 2)%nat then Fatal "no .conf file specified"
  else
    let call := mkDaemonCall (default EmptyString (args !! 1%nat)) (drop 2 args) 1
                  [SIGINT; SIGTERM; SIGHUP] in
    if daemonDone then Returned call else Blocked call.

End Ramswift.
